(** * Low-rank (Rk) matrix algebra of hmat-oss: a shallow embedding

    The development follows [src/rk_matrix.cpp] and [src/tree.hpp].
    Scalars of the template parameter [T] are the elements of a commutative
    ring with a conjugation; values of type [double] are the elements of a
    type [D] with the operations the code applies to them.  Rounding is not
    modelled: every equation below is an equation of exact arithmetic. *)

From Stdlib Require Import ZArith List Lia Ring Bool Ascii Permutation.
From stdpp Require Import base option list gmap.

Local Open Scope nat_scope.

(* ===================================================================== *)
(** * Part I: the model                                                   *)
(* ===================================================================== *)

(** ** Scalars *)

(** The element type [T] of the panels ([S_t], [D_t], [C_t], [Z_t] in the
    source).  [zero] and [pone] are [Constants<T>::zero] and
    [Constants<T>::pone]; [tconj] is the complex conjugation (the identity
    on the real types); [teqb] is [operator==]. *)
Class Scalar (T : Type) := {
  zero : T;
  pone : T;
  tadd : T -> T -> T;
  tmul : T -> T -> T;
  tsub : T -> T -> T;
  topp : T -> T;
  tconj : T -> T;
  teqb : T -> T -> bool;
  scalar_ring : ring_theory zero pone tadd tmul tsub topp (@eq T);
  tconj_add : forall x y, tconj (tadd x y) = tadd (tconj x) (tconj y);
  tconj_mul : forall x y, tconj (tmul x y) = tmul (tconj x) (tconj y);
  tconj_conj : forall x, tconj (tconj x) = x;
  teqb_eq : forall x y, teqb x y = true <-> x = y
}.

Declare Scope scalar_scope.
Delimit Scope scalar_scope with T.
Infix "+" := tadd : scalar_scope.
Infix "*" := tmul : scalar_scope.
Infix "-" := tsub : scalar_scope.
Notation "- x" := (topp x) : scalar_scope.

(** The type [double] of singular values and tolerances, with the
    operations [findK] and the truncations apply to it. *)
Class Real (D : Type) := {
  dzero : D;
  dadd : D -> D -> D;
  dmul : D -> D -> D;
  dleb : D -> D -> bool;
  dsqrt : D -> D
}.

(** The integers as scalars (conjugation is the identity). *)
#[export] Instance Z_Scalar : Scalar Z := {|
  zero := 0%Z; pone := 1%Z;
  tadd := Z.add; tmul := Z.mul; tsub := Z.sub; topp := Z.opp;
  tconj := fun x => x;
  teqb := Z.eqb;
  scalar_ring := Zth;
  tconj_add := fun x y => eq_refl;
  tconj_mul := fun x y => eq_refl;
  tconj_conj := fun x => eq_refl;
  teqb_eq := Z.eqb_eq
|}.

#[export] Instance Z_Real : Real Z := {|
  dzero := 0%Z; dadd := Z.add; dmul := Z.mul; dleb := Z.leb; dsqrt := Z.sqrt
|}.

(** ** Environment toggles and approximation control *)

(** The environment variables read through [getenv]: each field tells
    whether the variable is set ([HMAT_RECOMPRESS]: set to ["MGS"]). *)
Record Env := {
  HMAT_L2_CRITERION : bool;
  HMAT_TRUNC_INITPIV : bool;
  HMAT_RECOMPRESS_MGS : bool;
  HMAT_MGS_BESTRK : bool;
  HMAT_NEW_RKRK : bool
}.

Module RkApproximationControl.

  (** [RkApproximationControl]: the target rank [k] (an [int]) and the
      recompression tolerance. *)
Record t (D : Type) := mk { k : Z; recompressionEpsilon : D }.
Arguments mk {D}.
Arguments k {D}.
Arguments recompressionEpsilon {D}.

Section FindK.
Context {D : Type} `{Real D}.

(** The loop [for (i = 0; i < sigma.rows; i++) if (sigma[i] <=
    threshold) break;]: the value of [i] when the loop is left. *)
Fixpoint scan (threshold : D) (sigma : list D) : nat :=
  match sigma with
  | [] => 0
  | s :: rest => if dleb s threshold then 0 else S (scan threshold rest)
  end.

(** [threshold_eigenvalue] before it is multiplied by [epsilon].
    [sigma[0]] on a vector without entries reads outside the buffer:
    [oob] stands for whatever value is found there. *)
Definition threshold_base (env : Env) (oob : D) (sigma : list D) : D :=
  if HMAT_L2_CRITERION env then nth 0 sigma oob
  else fold_left dadd sigma dzero.

(** [RkApproximationControl::findK].  [None] is the failure of
    [assert(epsilon >= 0.)]. *)
Definition findK (env : Env) (approx : t D) (oob : D)
    (sigma : list D) (epsilon : D) : option Z :=
  let newK := k approx in
  if negb (newK =? 0)%Z then
    Some (Z.min newK (Z.of_nat (length sigma)))
  else if negb (dleb dzero epsilon) then None
  else
    let threshold_eigenvalue := dmul (threshold_base env oob sigma) epsilon in
    Some (Z.of_nat (scan threshold_eigenvalue sigma)).
End FindK.

End RkApproximationControl.

(** ** Index sets *)

Module IndexSet.

(** Modelled from the spec: class [IndexSet] is declared outside the
    files at hand; it is a contiguous range with an offset and a size,
    with [isSubset], [intersects] and equality.  The blocks hold their
    index sets by pointer ([const IndexSet *rows]) and no function here
    writes to one: an index set is given by the address of the object and
    the range that is found there. *)
Record t := mk { addr : nat; offset : nat; size : nat }.

Definition isSubset (s o : t) : bool :=
  (offset o <=? offset s) && (offset s + size s <=? offset o + size o).

Definition intersects (s o : t) : bool :=
  Nat.max (offset s) (offset o) <? Nat.min (offset s + size s) (offset o + size o).

(** [*s == *o], the equality of the ranges. *)
Definition eqb (s o : t) : bool :=
  (offset s =? offset o) && (size s =? size o).

(** [s == o] on the pointers: the two are one object, at one address and
    hence with one range. *)
Definition same (s o : t) : bool :=
  (addr s =? addr o) && eqb s o.

End IndexSet.

(** ** Scalar panels *)

(** [p != NULL] as a boolean. *)
Definition is_Some_b {A : Type} (o : option A) : bool :=
  match o with Some _ => true | None => false end.

(** [c == 'N'] on a transposition flag. *)
Definition is_char (c d : ascii) : bool := Ascii.eqb c d.

Module ScalarArray.

(** Modelled from the spec: class [ScalarArray<T>] is declared outside the
    files at hand.  A panel has [rows] x [cols] entries, read by [get], and
    an ortho flag.  The storage order is not modelled.  The flag of an array
    returned by one of the kernels below is the conservative one (cleared
    unless the array is a copy); no theorem depends on it. *)
Record t (T : Type) := mk {
  rows : nat;
  cols : nat;
  ortho : bool;
  get : nat -> nat -> T
}.
Arguments mk {T}.
Arguments rows {T}.
Arguments cols {T}.
Arguments ortho {T}.
Arguments get {T}.

Section Kernels.
Context {T : Type} `{Scalar T}.

(** Sum of [f 0 .. f (n-1)]. *)
Fixpoint sum_n (n : nat) (f : nat -> T) : T :=
  match n with
  | 0 => zero
  | S m => (sum_n m f + f m)%T
  end.

(** [lo <= i < lo + len]. *)
Definition within (lo len i : nat) : bool := (lo <=? i) && (i <? lo + len).

(** Modelled from the spec: [new ScalarArray<T>(rows, cols)], an array
    filled with zeros. *)
Definition new_ (m n : nat) : t T := mk m n false (fun _ _ => zero).

(** Modelled from the spec: [clear()], [copy()], [setOrtho(flag)],
    [scale(alpha)] and [conjugate()] of [ScalarArray<T>], entry by entry. *)
Definition clear (s : t T) : t T := mk (rows s) (cols s) false (fun _ _ => zero).

Definition copy (s : t T) : t T := s.

Definition setOrtho (s : t T) (flag : bool) : t T :=
  mk (rows s) (cols s) flag (get s).

Definition scale (alpha : T) (s : t T) : t T :=
  mk (rows s) (cols s) false (fun i j => (alpha * get s i j)%T).

Definition conjugate (s : t T) : t T :=
  mk (rows s) (cols s) false (fun i j => tconj (get s i j)).

(** Entry [(i, j)] of [op(s)] for [op] one of ['N'], ['T'], ['C']. *)
Definition op_get (trans : ascii) (s : t T) (i j : nat) : T :=
  if is_char trans "N" then get s i j
  else if is_char trans "T" then get s j i
  else tconj (get s j i).

(** Modelled from the spec: [c->gemm(transA, transB, alpha, a, b, beta)],
    the general matrix multiply [c <- alpha * op(a) * op(b) + beta * c]. *)
Definition gemm (transA transB : ascii) (alpha : T) (a b : t T) (beta : T)
    (c : t T) : t T :=
  let k := if is_char transA "N" then cols a else rows a in
  mk (rows c) (cols c) false
     (fun i j => (alpha * sum_n k (fun l => op_get transA a i l * op_get transB b l j)
                  + beta * get c i j)%T).

(** Modelled from the spec: [dst->copyMatrixAtOffset(src, rowOffset,
    colOffset)], the copy of [src] into [dst] at an offset. *)
Definition copyMatrixAtOffset (dst src : t T) (rowOffset colOffset : nat) : t T :=
  mk (rows dst) (cols dst) false
     (fun i j => if within rowOffset (rows src) i && within colOffset (cols src) j
                 then get src (i - rowOffset) (j - colOffset)
                 else get dst i j).

(** Modelled from the spec: [ScalarArray<T>(d, rowsOffset, rowsSize,
    colsOffset, colsSize)], the submatrix view at an offset. *)
Definition sub (d : t T) (rowsOffset rowsSize colsOffset colsSize : nat) : t T :=
  mk rowsSize colsSize false (fun i j => get d (rowsOffset + i) (colsOffset + j)).

(** Modelled from the spec: a view shares the storage of its parent; after
    the view taken at [(rowsOffset, colsOffset)] was changed into [v], the
    parent reads as follows. *)
Definition through_view (d v : t T) (rowsOffset colsOffset : nat) : t T :=
  mk (rows d) (cols d) false
     (fun i j => if within rowsOffset (rows v) i && within colsOffset (cols v) j
                 then get v (i - rowsOffset) (j - colsOffset)
                 else get d i j).

(** Modelled from the spec: [y->axpy(alpha, x)], [y <- y + alpha * x]. *)
Definition axpy (alpha : T) (x y : t T) : t T :=
  mk (rows y) (cols y) false (fun i j => (get y i j + alpha * get x i j)%T).

End Kernels.

(** The numerical kernels whose result is not determined here: the QR
    factorisation in place, the product by [Q], the singular value
    decomposition, the modified Gram-Schmidt and the embedding of [double]
    into [T].  The routines that work in place return the new entries only:
    they cannot change the shape of the array they work on. *)
Class Lapack (T D : Type) := {
  qr_entries : t T -> nat -> (nat -> nat -> T) * (nat -> nat -> T);
  productQ_entries : ascii -> ascii -> t T -> t T -> nat -> nat -> T;
  svd : t T -> bool -> option (t T * list D * t T);
  mgs_entries : t T -> D -> nat -> nat * (nat -> nat -> T) * (nat -> nat -> T);
  of_real : D -> T
}.

Section Numerical.
Context {T D : Type} `{Scalar T} `{Real D} `{Lapack T D}.

(** [a->qrDecomposition(&r, initialPivot)]: [a] holds [Q] afterwards and
    [r] the triangular factor. *)
Definition qrDecomposition (a r : t T) (initialPivot : nat) : t T * t T :=
  let '(qa, ra) := qr_entries a initialPivot in
  (mk (rows a) (cols a) false qa, mk (rows r) (cols r) false ra).

(** [q->productQ(side, trans, c)]: [c] is overwritten. *)
Definition productQ (side trans : ascii) (q c : t T) : t T :=
  mk (rows c) (cols c) false (productQ_entries side trans q c).

(** [r->svdDecomposition(&u, &sigma, &v, workAroundFailures)]; [None] is
    the exception of the kernel. *)
Definition svdDecomposition (r : t T) (workAroundFailures : bool)
    : option (t T * list D * t T) := svd r workAroundFailures.

(** [k = a->modifiedGramSchmidt(&r, prec, initialPivot)]: on return [a] has
    [k] columns. *)
Definition modifiedGramSchmidt (a r : t T) (prec : D) (initialPivot : nat)
    : nat * t T * t T :=
  let '(k, qa, ra) := mgs_entries a prec initialPivot in
  (k, mk (rows a) k false qa, mk (rows r) (cols r) false ra).

(** Modelled from the spec: [u->multiplyWithDiag(d)], the product by a
    diagonal: column [j] is multiplied by [d[j]]. *)
Definition multiplyWithDiag (u : t T) (d : list D) (oob : D) : t T :=
  mk (rows u) (cols u) false
     (fun i j => (get u i j * of_real (nth j d oob))%T).

End Numerical.

End ScalarArray.

(** ** Dense blocks *)

Module FullMatrix.

(** Modelled from the spec: class [FullMatrix<T>] is declared outside the
    files at hand; a row index set, a column index set and a panel. *)
Record t (T : Type) := mk {
  rows_ : IndexSet.t;
  cols_ : IndexSet.t;
  data : ScalarArray.t T
}.
Arguments mk {T}.
Arguments rows_ {T}.
Arguments cols_ {T}.
Arguments data {T}.

Definition rows {T} (m : t T) : nat := IndexSet.size (rows_ m).
Definition cols {T} (m : t T) : nat := IndexSet.size (cols_ m).

End FullMatrix.

(** ** Rk blocks *)

Module RkMatrix.

(** [RkMatrix<T>]: the index sets [rows] and [cols], the panels [a] and
    [b] (absent when the pointer is null) and the compression method.
    Modelled from the spec: [CompressionMethod] is an enumeration declared
    outside the files at hand; methods are compared as integers, and
    [NoCompression] is a parameter of the functions that name it. *)
Record t (T : Type) := mk {
  rows : IndexSet.t;
  cols : IndexSet.t;
  a : option (ScalarArray.t T);
  b : option (ScalarArray.t T);
  method : Z
}.
Arguments mk {T}.
Arguments rows {T}.
Arguments cols {T}.
Arguments a {T}.
Arguments b {T}.
Arguments method {T}.

(** The structural invariant of the spec: both panels absent, or both
    present with the same width [k >= 1], [a] with [rows.size] rows and [b]
    with [cols.size] rows. *)
Definition invariant {T : Type} (r : t T) : Prop :=
  match a r, b r with
  | None, None => True
  | Some pa, Some pb =>
      1 <= ScalarArray.cols pa /\
      ScalarArray.cols pa = ScalarArray.cols pb /\
      ScalarArray.rows pa = IndexSet.size (rows r) /\
      ScalarArray.rows pb = IndexSet.size (cols r)
  | _, _ => False
  end.

(** [truncatedSvd(m, epsilon)], defined outside the files at hand: the
    compression of a dense block into an Rk block. *)
Class Compression (T D : Type) := {
  truncatedSvd : FullMatrix.t T -> D -> t T
}.

(** The part of [HMatrix<T>] that the mixed products use, declared outside
    the files at hand: the index sets [rows()] and [cols()], and the entries
    that [h->gemv(trans, alpha, x, beta, y)] leaves in [y]. *)
Class HMatrix (T HM : Type) := {
  h_rows : HM -> IndexSet.t;
  h_cols : HM -> IndexSet.t;
  h_gemv_entries :
    HM -> ascii -> T -> ScalarArray.t T -> T -> ScalarArray.t T -> nat -> nat -> T
}.

(** [h->gemv(trans, alpha, x, beta, y)]: [y] is overwritten in place. *)
Definition h_gemv {T HM : Type} `{HMatrix T HM} (h : HM) (trans : ascii)
    (alpha : T) (x : ScalarArray.t T) (beta : T) (y : ScalarArray.t T)
    : ScalarArray.t T :=
  ScalarArray.mk (ScalarArray.rows y) (ScalarArray.cols y) false
    (h_gemv_entries h trans alpha x beta y).

(** What [formattedAddParts] has built when it reaches its last step: a
    finished block, a block that [truncate] is called on, or a dense block
    handed to [truncatedSvd]. *)
Inductive pending (T D : Type) :=
| Done (rk : t T)
| ByTruncate (rk : t T) (epsilon : D) (initialPivotA initialPivotB : nat)
| ByTruncatedSvd (me : FullMatrix.t T) (epsilon : D).
Arguments Done {T D}.
Arguments ByTruncate {T D}.
Arguments ByTruncatedSvd {T D}.

Section Defs.
Context {T D : Type} `{Scalar T} `{Real D} `{ScalarArray.Lapack T D}
  `{Compression T D}.
Variable NoCompression : Z.
Variable env : Env.
Variable approx : RkApproximationControl.t D.
Variable oob : D.

(** Modelled from the spec: [rank()] is defined in the header, outside the
    files at hand: the width of the panels when present, else 0. *)
Definition rank (r : t T) : nat :=
  match a r with
  | Some pa => ScalarArray.cols pa
  | None => 0
  end.

(** The constructor.  [None] is a failed assertion or the use of a null
    panel. *)
Definition RkMatrix (_a : option (ScalarArray.t T)) (_rows : IndexSet.t)
    (_b : option (ScalarArray.t T)) (_cols : IndexSet.t) (_method : Z)
    : option (t T) :=
  match _a, _b with
  | None, None => Some (mk _rows _cols None None _method)
  | Some pa, Some pb =>
      if (ScalarArray.rows pa =? IndexSet.size _rows)
         && (ScalarArray.rows pb =? IndexSet.size _cols)
      then Some (mk _rows _cols _a _b _method)
      else None
  | _, _ => None
  end.

Definition evalArray (r : t T) : option (ScalarArray.t T) :=
  let result := ScalarArray.new_ (IndexSet.size (rows r)) (IndexSet.size (cols r)) in
  if negb (rank r =? 0) then
    pa ← a r; pb ← b r;
    Some (ScalarArray.gemm "N" "T" pone pa pb zero result)
  else Some (ScalarArray.clear result).

Definition eval (r : t T) : option (FullMatrix.t T) :=
  d ← evalArray r; Some (FullMatrix.mk (rows r) (cols r) d).

Definition scale (alpha : T) (r : t T) : t T :=
  match a r with
  | Some pa => mk (rows r) (cols r) (Some (ScalarArray.scale alpha pa)) (b r) (method r)
  | None => r
  end.

Definition transpose (r : t T) : t T :=
  mk (cols r) (rows r) (b r) (a r) (method r).

Definition clear (r : t T) : t T :=
  mk (rows r) (cols r) None None (method r).

Definition conjugate (r : t T) : t T :=
  mk (rows r) (cols r) (ScalarArray.conjugate <$> a r)
     (ScalarArray.conjugate <$> b r) (method r).

(** [this->swap(other)]: the new [this] and the new [other].  [None] is the
    failure of [assert(rows == other.rows)] or [assert(cols == other.cols)],
    which compare the pointers. *)
Definition swap (this other : t T) : option (t T * t T) :=
  if IndexSet.same (rows this) (rows other) && IndexSet.same (cols this) (cols other)
  then Some (mk (rows this) (cols this) (a other) (b other) (method other),
             mk (rows other) (cols other) (a this) (b this) (method this))
  else None.

(** [gemv(trans, alpha, x, beta, y)]: the new [y]. *)
Definition gemv (trans : ascii) (alpha : T) (x : ScalarArray.t T) (beta : T)
    (y : ScalarArray.t T) (r : t T) : option (ScalarArray.t T) :=
  if rank r =? 0 then
    Some (if negb (teqb beta pone) then ScalarArray.scale beta y else y)
  else
    pa ← a r; pb ← b r;
    if is_char trans "N" then
      let z := ScalarArray.gemm "T" "N" pone pb x zero
                 (ScalarArray.new_ (ScalarArray.cols pb) (ScalarArray.cols x)) in
      Some (ScalarArray.gemm "N" "N" alpha pa z beta y)
    else if is_char trans "T" then
      let z := ScalarArray.gemm "T" "N" pone pa x zero
                 (ScalarArray.new_ (ScalarArray.cols pa) (ScalarArray.cols x)) in
      Some (ScalarArray.gemm "N" "N" alpha pb z beta y)
    else if is_char trans "C" then
      let z := ScalarArray.gemm "C" "N" pone pa x zero
                 (ScalarArray.new_ (ScalarArray.cols pa) (ScalarArray.cols x)) in
      let newB := ScalarArray.conjugate (ScalarArray.copy pb) in
      Some (ScalarArray.gemm "N" "N" alpha newB z beta y)
    else None.

(** [u->cols = newK]. *)
Definition set_cols (u : ScalarArray.t T) (newK : nat) : ScalarArray.t T :=
  ScalarArray.mk (ScalarArray.rows u) newK (ScalarArray.ortho u) (ScalarArray.get u).

(** [newA = Q * u] in [truncate], where [q] is the panel after its QR
    factorisation. *)
Definition applyQ (q u : ScalarArray.t T) (nrows newK initialPivot : nat)
    : ScalarArray.t T :=
  let newA := ScalarArray.new_ nrows newK in
  let newA :=
    if negb (initialPivot =? 0) then
      let sub_a := ScalarArray.sub q 0 (ScalarArray.rows q) initialPivot
                     (ScalarArray.cols q - initialPivot) in
      let sub_u := ScalarArray.sub u initialPivot (ScalarArray.rows u - initialPivot)
                     0 (ScalarArray.cols u) in
      let newA := ScalarArray.copyMatrixAtOffset newA sub_u 0 0 in
      let newA := ScalarArray.productQ "L" "N" sub_a newA in
      let sub_a2 := ScalarArray.sub q 0 (ScalarArray.rows q) 0 initialPivot in
      let sub_u2 := ScalarArray.sub u 0 initialPivot 0 (ScalarArray.cols u) in
      ScalarArray.gemm "N" "N" pone sub_a2 sub_u2 pone newA
    else
      ScalarArray.productQ "L" "N" q (ScalarArray.copyMatrixAtOffset newA u 0 0) in
  ScalarArray.setOrtho newA (ScalarArray.ortho u).

Definition mGSTruncate (epsilon : D) (initialPivotA initialPivotB : nat)
    (r : t T) : option (t T) :=
  if rank r =? 0 then
    (if is_Some_b (a r) || is_Some_b (b r) then None else Some r)
  else
    pa ← a r; pb ← b r;
    let krank := rank r in
    let '(kA, pa, ra) :=
      ScalarArray.modifiedGramSchmidt pa (ScalarArray.new_ krank krank) epsilon initialPivotA in
    if kA =? 0 then Some (clear r)
    else
      let '(kB, pb, rb) :=
        ScalarArray.modifiedGramSchmidt pb (ScalarArray.new_ krank krank) epsilon initialPivotB in
      if kB =? 0 then Some (clear r)
      else
        let matR := ScalarArray.gemm "N" "T" pone ra rb zero (ScalarArray.new_ kA kB) in
        '(ur, sr, vr) ← ScalarArray.svdDecomposition matR true;
        newK ← RkApproximationControl.findK env approx oob sr epsilon;
        if (newK =? 0)%Z then Some (clear r)
        else if (newK <? 0)%Z then None
        else
          let newK := Z.to_nat newK in
          let sr := map dsqrt (take newK sr) ++ drop newK sr in
          let ur := ScalarArray.multiplyWithDiag (set_cols ur newK) sr oob in
          let vr := ScalarArray.multiplyWithDiag (set_cols vr newK) sr oob in
          let newA := ScalarArray.gemm "N" "N" pone pa ur zero
                        (ScalarArray.new_ (ScalarArray.rows pa) newK) in
          let newB := ScalarArray.gemm "N" "N" pone pb vr zero
                        (ScalarArray.new_ (ScalarArray.rows pb) newK) in
          let newA := ScalarArray.setOrtho newA (ScalarArray.ortho ur) in
          let newB := ScalarArray.setOrtho newB (ScalarArray.ortho vr) in
          Some (mk (rows r) (cols r) (Some newA) (Some newB) (method r)).

Definition truncate (epsilon : D) (initialPivotA initialPivotB : nat)
    (r : t T) : option (t T) :=
  let initialPivotA := if HMAT_TRUNC_INITPIV env then initialPivotA else 0 in
  let initialPivotB := if HMAT_TRUNC_INITPIV env then initialPivotB else 0 in
  if negb ((initialPivotA <=? rank r) && (initialPivotB <=? rank r)) then None
  else if rank r =? 0 then
    (if is_Some_b (a r) || is_Some_b (b r) then None else Some r)
  else if negb (rank r <=? IndexSet.size (rows r)) then None
  else if Nat.min (IndexSet.size (rows r)) (IndexSet.size (cols r)) <? rank r then
    tmp ← eval r;
    let rk := truncatedSvd tmp epsilon in
    st ← swap r rk; Some st.1
  else if HMAT_RECOMPRESS_MGS env then
    mGSTruncate epsilon initialPivotA initialPivotB r
  else
    pa ← a r; pb ← b r;
    let '(qa, ra) :=
      ScalarArray.qrDecomposition pa (ScalarArray.new_ (rank r) (rank r)) initialPivotA in
    let '(qb, rb) :=
      ScalarArray.qrDecomposition pb (ScalarArray.new_ (rank r) (rank r)) initialPivotB in
    let r_ := ScalarArray.gemm "N" "T" pone ra rb zero
                (ScalarArray.new_ (rank r) (rank r)) in
    '(u, sigma, v) ← ScalarArray.svdDecomposition r_ true;
    newK ← RkApproximationControl.findK env approx oob sigma epsilon;
    if (newK =? 0)%Z then Some (clear r)
    else if (newK <? 0)%Z then None
    else
      let newK := Z.to_nat newK in
      let sigma := map dsqrt (take newK sigma) in
      let u := ScalarArray.multiplyWithDiag (set_cols u newK) sigma oob in
      let v := ScalarArray.multiplyWithDiag (set_cols v newK) sigma oob in
      let newA := applyQ qa u (IndexSet.size (rows r)) newK initialPivotA in
      let newB := applyQ qb v (IndexSet.size (cols r)) newK initialPivotB in
      Some (mk (rows r) (cols r) (Some newA) (Some newB) (method r)).

(** *** Coalescing: [formattedAddParts] *)

(** The dense variant up to its call of [truncatedSvd]: [me] after the
    contributions were added.  The arrays [alpha] and [parts] are given as
    the list of the pairs [(alpha[i], parts[i])]. *)
Definition add_full (this : t T) (st : option (FullMatrix.t T))
    (e : T * option (FullMatrix.t T)) : option (FullMatrix.t T) :=
  me ← st;
  match e.2 with
  | None => Some me
  | Some p =>
      let rows_full := FullMatrix.rows_ p in
      let cols_full := FullMatrix.cols_ p in
      if negb (IndexSet.isSubset rows_full (rows this)
               && IndexSet.isSubset cols_full (cols this)) then None
      else
        let rowOffset := IndexSet.offset rows_full - IndexSet.offset (rows this) in
        let colOffset := IndexSet.offset cols_full - IndexSet.offset (cols this) in
        let maxCol := IndexSet.size cols_full in
        let maxRow := IndexSet.size rows_full in
        let sub := ScalarArray.sub (FullMatrix.data me) rowOffset maxRow colOffset maxCol in
        let sub := ScalarArray.axpy e.1 (FullMatrix.data p) sub in
        Some (FullMatrix.mk (FullMatrix.rows_ me) (FullMatrix.cols_ me)
                (ScalarArray.through_view (FullMatrix.data me) sub rowOffset colOffset))
  end.

Definition formattedAddPartsFull_sum (parts : list (T * option (FullMatrix.t T)))
    (this : t T) : option (FullMatrix.t T) :=
  fold_left (add_full this) parts (eval this).

(** [formattedAddParts(alpha, parts, n)] on dense parts. *)
Definition formattedAddPartsFull (parts : list (T * option (FullMatrix.t T)))
    (this : t T) : option (t T) :=
  me ← formattedAddPartsFull_sum parts this;
  Some (truncatedSvd me (RkApproximationControl.recompressionEpsilon approx)).

(** One turn of the loop that fills [usedParts], [usedAlpha], [rankTotal]
    and [minMethod]; [usedParts] and [usedAlpha] are kept as one list of
    pairs. *)
Definition select (this : t T) (st : option (list (T * t T) * nat * Z))
    (e : T * option (t T)) : option (list (T * t T) * nat * Z) :=
  '(usedParts, rankTotal, minMethod) ← st;
  match e.2 with
  | None => Some (usedParts, rankTotal, minMethod)
  | Some p =>
      if (rank p =? 0) || (IndexSet.size (rows p) =? 0)
         || (IndexSet.size (cols p) =? 0) || teqb e.1 zero
      then Some (usedParts, rankTotal, minMethod)
      else if negb (IndexSet.isSubset (rows p) (rows this)
                    && IndexSet.isSubset (cols p) (cols this)) then None
      else Some (usedParts ++ [(e.1, p)], rankTotal + rank p,
                 Z.min minMethod (method p))
  end.

Definition has_panels (u : T * t T) : bool :=
  is_Some_b (a u.2) && is_Some_b (b u.2).

(** [r->a] and [r->b] where they are known to be present. *)
Definition panelA (r : t T) : ScalarArray.t T := default (ScalarArray.new_ 0 0) (a r).
Definition panelB (r : t T) : ScalarArray.t T := default (ScalarArray.new_ 0 0) (b r).

Definition b2z (flag : bool) : Z := if flag then 1%Z else 0%Z.

(** [std::swap(l[i], l[j])]. *)
Definition swap_at {A : Type} (l : list A) (i j : nat) : list A :=
  match l !! i, l !! j with
  | Some x, Some y => <[i := y]> (<[j := x]> l)
  | _, _ => l
  end.

(** First optimisation of [HMAT_MGS_BESTRK]: [(bestRk, bestGain)]. *)
Definition best_single (this : t T) (usedParts : list (T * t T)) : Z * Z :=
  fold_left
    (fun (st : Z * Z) (i : nat) =>
       let p := (nth i usedParts (pone, this)).2 in
       let gain := ((b2z (ScalarArray.ortho (panelA p)) + b2z (ScalarArray.ortho (panelB p)))
                    * Z.of_nat (rank p) * Z.of_nat (rank p))%Z in
       if (st.2 <? gain)%Z then (Z.of_nat i, gain) else st)
    (seq 0 (length usedParts)) ((-1)%Z, (-1)%Z).

(** [rkA] and [rkB] for the ordered pair [(Rk1, Rk2)]. *)
Definition pair_rk (Rk1 Rk2 : t T) : nat * nat :=
  let rkA :=
    if ScalarArray.ortho (panelA Rk1) then
      rank Rk1 + (if ScalarArray.ortho (panelA Rk2)
                     && negb (IndexSet.intersects (rows Rk1) (rows Rk2))
                  then rank Rk2 else 0)
    else 0 in
  let rkB :=
    if ScalarArray.ortho (panelB Rk1) then
      rank Rk1 + (if ScalarArray.ortho (panelB Rk2)
                     && negb (IndexSet.intersects (cols Rk1) (cols Rk2))
                  then rank Rk2 else 0)
    else 0 in
  (rkA, rkB).

(** Second optimisation: [(bestGain, best_i1, best_i2, best_rkA,
    best_rkB)] after the double loop. *)
Definition best_pair (this : t T) (usedParts : list (T * t T)) (bestGain : Z)
    : Z * Z * Z * nat * nat :=
  fold_left
    (fun st i1 =>
       fold_left
         (fun (st : Z * Z * Z * nat * nat) i2 =>
            if negb (i1 =? i2) then
              let Rk1 := (nth i1 usedParts (pone, this)).2 in
              let Rk2 := (nth i2 usedParts (pone, this)).2 in
              let '(rkA, rkB) := pair_rk Rk1 Rk2 in
              let gain := (Z.of_nat rkA * Z.of_nat rkA + Z.of_nat rkB * Z.of_nat rkB)%Z in
              let '(bestGain, _, _, _, _) := st in
              if (bestGain <? gain)%Z then (gain, Z.of_nat i1, Z.of_nat i2, rkA, rkB)
              else st
            else st)
         (seq 0 (length usedParts)) st)
    (seq 0 (length usedParts)) (bestGain, (-1)%Z, (-1)%Z, 0, 0).

Definition pivot_of (p : t T) : nat * nat :=
  (if ScalarArray.ortho (panelA p) then rank p else 0,
   if ScalarArray.ortho (panelB p) then rank p else 0).

(** The block under [if (useBestRk)]: the reordered list and the initial
    pivots. *)
Definition reorder (this : t T) (usedParts : list (T * t T))
    : list (T * t T) * nat * nat :=
  let '(bestRk, bestGain) := best_single this usedParts in
  let usedParts :=
    if (0 <? bestRk)%Z then swap_at usedParts 0 (Z.to_nat bestRk) else usedParts in
  let '(initialPivotA, initialPivotB) := pivot_of (nth 0 usedParts (pone, this)).2 in
  let '(_, best_i1, best_i2, best_rkA, best_rkB) := best_pair this usedParts bestGain in
  if (0 <=? best_i1)%Z then
    let usedParts := swap_at usedParts 0 (Z.to_nat best_i1) in
    let best_i2 := if (best_i2 =? 0)%Z then best_i1 else best_i2 in
    let usedParts := swap_at usedParts 1 (Z.to_nat best_i2) in
    (usedParts, best_rkA, best_rkB)
  else (usedParts, initialPivotA, initialPivotB).

(** One turn of the loop that fills [resultA] and [resultB]. *)
Definition place (this : t T) (st : ScalarArray.t T * ScalarArray.t T * nat)
    (u : T * t T) : ScalarArray.t T * ScalarArray.t T * nat :=
  let '(resultA, resultB, rankOffset) := st in
  let pa := panelA u.2 in
  let pb := panelB u.2 in
  let rowOffset := IndexSet.offset (rows u.2) - IndexSet.offset (rows this) in
  let resultA := ScalarArray.copyMatrixAtOffset resultA pa rowOffset rankOffset in
  let resultA :=
    if negb (teqb u.1 pone) then
      let tmp := ScalarArray.sub resultA rowOffset (ScalarArray.rows pa)
                   rankOffset (ScalarArray.cols pa) in
      ScalarArray.through_view resultA (ScalarArray.scale u.1 tmp) rowOffset rankOffset
    else resultA in
  let colOffset := IndexSet.offset (cols u.2) - IndexSet.offset (cols this) in
  let resultB := ScalarArray.copyMatrixAtOffset resultB pb colOffset rankOffset in
  (resultA, resultB, rankOffset + rank u.2).

(** [usedParts[i]->eval()] for the dense detour, with [fullParts[0] = NULL]
    when [usedParts[0]] is [this]. *)
Fixpoint eval_parts (usedParts : list (T * t T))
    : option (list (T * option (FullMatrix.t T))) :=
  match usedParts with
  | [] => Some []
  | u :: rest =>
      m ← eval u.2; l ← eval_parts rest; Some ((u.1, Some m) :: l)
  end.

Definition fullParts_of (this : t T) (usedParts : list (T * t T))
    : option (list (T * option (FullMatrix.t T))) :=
  if negb (rank this =? 0) then
    match usedParts with
    | u :: rest => l ← eval_parts rest; Some ((u.1, None) :: l)
    | [] => Some []
    end
  else eval_parts usedParts.

(** [formattedAddParts(alpha, parts, n, dotruncate)] up to its last step.
    The arrays [alpha] and [parts] are given as the list of the pairs
    [(alpha[i], parts[i])], a null [parts[i]] being [None]. *)
Definition coalesce (parts : list (T * option (t T))) (dotruncate : bool)
    (this : t T) : option (pending T D) :=
  let start : list (T * t T) * nat * Z :=
    if negb (rank this =? 0) then ([(pone, this)], rank this, method this)
    else ([], 0, method this) in
  '(usedParts, rankTotal, minMethod) ← fold_left (select this) parts (Some start);
  let notNullParts := length usedParts in
  if notNullParts =? 0 then
    rk ← RkMatrix None (rows this) None (cols this) minMethod; Some (Done rk)
  else if Nat.min (IndexSet.size (rows this)) (IndexSet.size (cols this)) <=? rankTotal then
    fullParts ← fullParts_of this usedParts;
    me ← formattedAddPartsFull_sum fullParts this;
    Some (ByTruncatedSvd me (RkApproximationControl.recompressionEpsilon approx))
  else if negb (forallb has_panels usedParts) then None
  else
    let '(initialPivotA, initialPivotB) := pivot_of (nth 0 usedParts (pone, this)).2 in
    let '(usedParts, initialPivotA, initialPivotB) :=
      if HMAT_MGS_BESTRK env then reorder this usedParts
      else (usedParts, initialPivotA, initialPivotB) in
    let resultA := ScalarArray.new_ (IndexSet.size (rows this)) rankTotal in
    let resultB := ScalarArray.new_ (IndexSet.size (cols this)) rankTotal in
    let '(resultA, resultB, rankOffset) :=
      fold_left (place this) usedParts (resultA, resultB, 0) in
    if negb (rankOffset =? rankTotal) then None
    else
      rk ← RkMatrix (Some resultA) (rows this) (Some resultB) (cols this) minMethod;
      if (1 <? notNullParts) && dotruncate then
        Some (ByTruncate rk (RkApproximationControl.recompressionEpsilon approx)
                initialPivotA initialPivotB)
      else Some (Done rk).

(** The last step of [formattedAddParts]. *)
Definition finish (p : pending T D) : option (t T) :=
  match p with
  | Done rk => Some rk
  | ByTruncate rk epsilon initialPivotA initialPivotB =>
      truncate epsilon initialPivotA initialPivotB rk
  | ByTruncatedSvd me epsilon => Some (truncatedSvd me epsilon)
  end.

Definition formattedAddParts (parts : list (T * option (t T))) (dotruncate : bool)
    (this : t T) : option (t T) :=
  p ← coalesce parts dotruncate this; finish p.

(** [axpy(alpha, mat)] on an Rk block. *)
Definition axpy (alpha : T) (mat : t T) (this : t T) : option (t T) :=
  tmp ← formattedAddParts [(alpha, Some mat)] true this;
  st ← swap this tmp; Some st.1.

(** *** Products *)

Definition multiplyRkFull (transR transM : ascii) (rk : t T) (m : FullMatrix.t T)
    : option (t T) :=
  if negb ((if is_char transR "N" then IndexSet.size (cols rk) else IndexSet.size (rows rk))
           =? (if is_char transM "N" then FullMatrix.rows m else FullMatrix.cols m))
  then None
  else
    let rkRows := if is_char transR "N" then rows rk else cols rk in
    let mCols := if is_char transM "N" then FullMatrix.cols_ m else FullMatrix.rows_ m in
    if rank rk =? 0 then RkMatrix None rkRows None mCols NoCompression
    else
      pa ← (if negb (is_char transR "N") then b rk else a rk);
      pb ← (if negb (is_char transR "N") then a rk else b rk);
      let newA := ScalarArray.copy pa in
      let newB := ScalarArray.new_
                    (if is_char transM "N" then FullMatrix.cols m else FullMatrix.rows m)
                    (ScalarArray.cols pb) in
      let md := FullMatrix.data m in
      '(newA, newB) ←
        (if is_char transR "C" then
           let newA := ScalarArray.conjugate newA in
           if is_char transM "N" then
             Some (newA, ScalarArray.conjugate
                           (ScalarArray.gemm "C" "N" pone md pb zero newB))
           else if is_char transM "T" then
             let conjB := ScalarArray.conjugate (ScalarArray.copy pb) in
             Some (newA, ScalarArray.gemm "N" "N" pone md conjB zero newB)
           else if is_char transM "C" then
             Some (newA, ScalarArray.conjugate
                           (ScalarArray.gemm "N" "N" pone md pb zero newB))
           else None
         else
           if is_char transM "N" then
             Some (newA, ScalarArray.gemm "T" "N" pone md pb zero newB)
           else if is_char transM "T" then
             Some (newA, ScalarArray.gemm "N" "N" pone md pb zero newB)
           else if is_char transM "C" then
             let conjB := ScalarArray.conjugate (ScalarArray.copy pb) in
             Some (newA, ScalarArray.conjugate
                           (ScalarArray.gemm "N" "N" pone md conjB zero newB))
           else None);
      RkMatrix (Some newA) rkRows (Some newB) mCols (method rk).

Definition multiplyFullRk (transM transR : ascii) (m : FullMatrix.t T) (rk : t T)
    : option (t T) :=
  pa ← (if negb (is_char transR "N") then b rk else a rk);
  pb ← (if negb (is_char transR "N") then a rk else b rk);
  let rkCols := if is_char transR "N" then cols rk else rows rk in
  let mRows := if is_char transM "N" then FullMatrix.rows_ m else FullMatrix.cols_ m in
  let newA := ScalarArray.new_ (IndexSet.size mRows) (ScalarArray.cols pb) in
  let newB := ScalarArray.copy pb in
  let md := FullMatrix.data m in
  '(newA, newB) ←
    (if is_char transR "C" then
       let newB := ScalarArray.conjugate newB in
       if is_char transM "N" then
         let conjA := ScalarArray.conjugate (ScalarArray.copy pa) in
         Some (ScalarArray.gemm "N" "N" pone md conjA zero newA, newB)
       else if is_char transM "T" then
         Some (ScalarArray.conjugate (ScalarArray.gemm "C" "N" pone md pa zero newA), newB)
       else if is_char transM "C" then
         Some (ScalarArray.conjugate (ScalarArray.gemm "T" "N" pone md pa zero newA), newB)
       else None
     else Some (ScalarArray.gemm transM "N" pone md pa zero newA, newB));
  RkMatrix (Some newA) mRows (Some newB) rkCols (method rk).

Section WithH.
Context {HM : Type} `{HMatrix T HM}.

Definition multiplyRkH (transR transH : ascii) (rk : t T) (h : HM) : option (t T) :=
  if negb (IndexSet.eqb (if is_char transR "N" then cols rk else rows rk)
                        (if is_char transH "N" then h_rows h else h_cols h))
  then None
  else
    let rkRows := if is_char transR "N" then rows rk else cols rk in
    pa ← (if negb (is_char transR "N") then b rk else a rk);
    pb ← (if negb (is_char transR "N") then a rk else b rk);
    let newCols := if is_char transH "N" then h_cols h else h_rows h in
    let newA := ScalarArray.copy pa in
    let newB := ScalarArray.new_
                  (if is_char transH "N" then IndexSet.size (h_cols h)
                   else IndexSet.size (h_rows h))
                  (ScalarArray.cols pb) in
    '(newA, newB) ←
      (if is_char transR "C" then
         let newA := ScalarArray.conjugate newA in
         if is_char transH "N" then
           Some (newA, ScalarArray.conjugate (h_gemv h "C" pone pb zero newB))
         else if is_char transH "T" then
           let conjB := ScalarArray.conjugate (ScalarArray.copy pb) in
           Some (newA, h_gemv h "N" pone conjB zero newB)
         else if is_char transH "C" then
           Some (newA, ScalarArray.conjugate (h_gemv h "N" pone pb zero newB))
         else None
       else
         if is_char transH "N" then Some (newA, h_gemv h "T" pone pb zero newB)
         else if is_char transH "T" then Some (newA, h_gemv h "N" pone pb zero newB)
         else if is_char transH "C" then
           let conjB := ScalarArray.conjugate (ScalarArray.copy pb) in
           Some (newA, ScalarArray.conjugate (h_gemv h "N" pone conjB zero newB))
         else None);
    RkMatrix (Some newA) rkRows (Some newB) newCols (method rk).

Definition multiplyHRk (transH transR : ascii) (h : HM) (rk : t T) : option (t T) :=
  if rank rk =? 0 then
    let newRows := if is_char transH "N" then h_rows h else h_cols h in
    let newCols := if is_char transR "N" then cols rk else rows rk in
    RkMatrix None newRows None newCols (method rk)
  else
    pa ← (if negb (is_char transR "N") then b rk else a rk);
    pb ← (if negb (is_char transR "N") then a rk else b rk);
    let rkCols := if is_char transR "N" then cols rk else rows rk in
    let newRows := if is_char transH "N" then h_rows h else h_cols h in
    let newA := ScalarArray.new_
                  (if is_char transH "N" then IndexSet.size (h_rows h)
                   else IndexSet.size (h_cols h))
                  (ScalarArray.cols pb) in
    let newB := ScalarArray.copy pb in
    '(newA, newB) ←
      (if is_char transR "C" then
         let newB := ScalarArray.conjugate newB in
         if is_char transH "N" then
           let conjA := ScalarArray.conjugate (ScalarArray.copy pa) in
           Some (h_gemv h "N" pone conjA zero newA, newB)
         else if is_char transH "T" then
           Some (ScalarArray.conjugate (h_gemv h "C" pone pa zero newA), newB)
         else if is_char transH "C" then
           Some (ScalarArray.conjugate (h_gemv h "T" pone pa zero newA), newB)
         else None
       else Some (h_gemv h transH pone pa zero newA, newB));
    RkMatrix (Some newA) newRows (Some newB) rkCols (method rk).

End WithH.

Definition multiplyRkRk (trans1 trans2 : ascii) (r1 r2 : t T) : option (t T) :=
  if negb (IndexSet.eqb (if is_char trans1 "N" then cols r1 else rows r1)
                        (if is_char trans2 "N" then rows r2 else cols r2))
  then None
  else
    a1 ← (if is_char trans1 "N" then a r1 else b r1);
    b1 ← (if is_char trans1 "N" then b r1 else a r1);
    a2 ← (if is_char trans2 "N" then a r2 else b r2);
    b2 ← (if is_char trans2 "N" then b r2 else a r2);
    if negb (ScalarArray.rows b1 =? ScalarArray.rows a2) then None
    else
      let tmp := ScalarArray.new_ (rank r1) (rank r2) in
      let tmp :=
        if is_char trans1 "C" && is_char trans2 "C" then
          ScalarArray.conjugate (ScalarArray.gemm "T" "N" pone b1 a2 zero tmp)
        else if is_char trans1 "C" then
          ScalarArray.gemm "C" "N" pone b1 a2 zero tmp
        else if is_char trans2 "C" then
          ScalarArray.conjugate (ScalarArray.gemm "C" "N" pone b1 a2 zero tmp)
        else ScalarArray.gemm "T" "N" pone b1 a2 zero tmp in
      '(newA, newB) ←
        (if HMAT_NEW_RKRK env then
           '(ur, sr, vr) ← ScalarArray.svdDecomposition tmp false;
           newK ← RkApproximationControl.findK env approx oob sr
                    (RkApproximationControl.recompressionEpsilon approx);
           if (0 <? newK)%Z then
             let newK := Z.to_nat newK in
             let sr := map dsqrt (take newK sr) ++ drop newK sr in
             let ur := ScalarArray.multiplyWithDiag (set_cols ur newK) sr oob in
             let vr := ScalarArray.multiplyWithDiag (set_cols vr newK) sr oob in
             let ur := if is_char trans1 "C" then ScalarArray.conjugate ur else ur in
             let newA := ScalarArray.gemm "N" "N" pone a1 ur zero
                           (ScalarArray.new_ (ScalarArray.rows a1) newK) in
             let newA := if is_char trans1 "C" then ScalarArray.conjugate newA else newA in
             let vr := if is_char trans2 "C" then ScalarArray.conjugate vr else vr in
             let newB := ScalarArray.gemm "N" "N" pone b2 vr zero
                           (ScalarArray.new_ (ScalarArray.rows b2) newK) in
             let newB := if is_char trans2 "C" then ScalarArray.conjugate newB else newB in
             Some (Some newA, Some newB)
           else Some (None, None)
         else
           if rank r1 <? rank r2 then
             let newA := ScalarArray.copy a1 in
             let newA := if is_char trans1 "C" then ScalarArray.conjugate newA else newA in
             let newB := ScalarArray.new_ (ScalarArray.rows b2) (rank r1) in
             let newB :=
               if is_char trans2 "C" then
                 ScalarArray.conjugate (ScalarArray.gemm "N" "C" pone b2 tmp zero newB)
               else ScalarArray.gemm "N" "T" pone b2 tmp zero newB in
             Some (Some newA, Some newB)
           else
             let newA := ScalarArray.new_ (ScalarArray.rows a1) (rank r2) in
             let tmp := if is_char trans1 "C" then ScalarArray.conjugate tmp else tmp in
             let newA := ScalarArray.gemm "N" "N" pone a1 tmp zero newA in
             let newA := if is_char trans1 "C" then ScalarArray.conjugate newA else newA in
             let newB := ScalarArray.copy b2 in
             let newB := if is_char trans2 "C" then ScalarArray.conjugate newB else newB in
             Some (Some newA, Some newB));
      let combined := Z.min (method r1) (method r2) in
      RkMatrix newA (if is_char trans1 "N" then rows r1 else cols r1)
               newB (if is_char trans2 "N" then cols r2 else rows r2) combined.

(** *** The dense value, for the statements *)

(** The spec writes [M(R) = A * B^t] for the dense value of a block:
    [dense r i j] is its entry [(i, j)], the sum over the [rank r] columns of
    the panels (0 on an empty block). *)
Definition dense (r : t T) (i j : nat) : T :=
  ScalarArray.sum_n (rank r)
    (fun l => (ScalarArray.get (panelA r) i l * ScalarArray.get (panelB r) j l)%T).

(** Entry [(i, j)] of [M(p)] placed in the block of [this] at the offsets of
    the index sets of [p], and 0 outside. *)
Definition embed (this p : t T) (i j : nat) : T :=
  let rowOffset := IndexSet.offset (rows p) - IndexSet.offset (rows this) in
  let colOffset := IndexSet.offset (cols p) - IndexSet.offset (cols this) in
  if ScalarArray.within rowOffset (IndexSet.size (rows p)) i
     && ScalarArray.within colOffset (IndexSet.size (cols p)) j
  then dense p (i - rowOffset) (j - colOffset)
  else zero.

(** [sum_i alpha_i * M(parts_i)] at [(i, j)], a null part counting for 0. *)
Fixpoint contributions (this : t T) (parts : list (T * option (t T)))
    (i j : nat) : T :=
  match parts with
  | [] => zero
  | e :: rest =>
      match e.2 with
      | Some p => (e.1 * embed this p i j + contributions this rest i j)%T
      | None => contributions this rest i j
      end
  end.

(** The parts that take part in the sum: not null, of nonzero rank, over
    non-empty index sets and with a nonzero coefficient. *)
Definition participates (e : T * option (t T)) : option (T * t T) :=
  match e.2 with
  | Some p =>
      if (rank p =? 0) || (IndexSet.size (rows p) =? 0)
         || (IndexSet.size (cols p) =? 0) || teqb e.1 zero
      then None else Some (e.1, p)
  | None => None
  end.

(** The terms of the sum, [this] first when its rank is not 0, and the sum
    of their ranks. *)
Definition terms (this : t T) (parts : list (T * option (t T))) : list (T * t T) :=
  (if negb (rank this =? 0) then [(pone, this)] else []) ++ omap participates parts.

Definition total_rank (us : list (T * t T)) : nat :=
  fold_right (fun u acc => rank u.2 + acc) 0 us.

(** *** Sub-blocks and the dense [axpy] *)

(** [subset(subRows, subCols)]: the block over the two sub-ranges, whose
    panels are views of the rows of [a] and [b] at the offsets of the
    sub-ranges. *)
Definition subset (subRows subCols : IndexSet.t) (r : t T) : option (t T) :=
  if negb (IndexSet.isSubset subRows (rows r)) then None
  else if negb (IndexSet.isSubset subCols (cols r)) then None
  else
    '(subA, subB) ←
      (if 0 <? rank r then
         let rowsOffset := IndexSet.offset subRows - IndexSet.offset (rows r) in
         let colsOffset := IndexSet.offset subCols - IndexSet.offset (cols r) in
         pa ← a r; pb ← b r;
         Some (Some (ScalarArray.sub pa rowsOffset (IndexSet.size subRows) 0 (rank r)),
               Some (ScalarArray.sub pb colsOffset (IndexSet.size subCols) 0 (rank r)))
       else Some (None, None));
    RkMatrix subA subRows subB subCols (method r).

(** [axpy(alpha, mat)] on a dense block [mat]. *)
Definition axpy_full (alpha : T) (mat : FullMatrix.t T) (this : t T) : option (t T) :=
  tmp ← formattedAddPartsFull [(alpha, Some mat)] this;
  st ← swap this tmp; Some st.1.

(** Entry [(i, j)] of a dense part placed in the block of [this] at the
    offsets of its index sets, and 0 outside. *)
Definition embed_full (this : t T) (p : FullMatrix.t T) (i j : nat) : T :=
  let rowOffset := IndexSet.offset (FullMatrix.rows_ p) - IndexSet.offset (rows this) in
  let colOffset := IndexSet.offset (FullMatrix.cols_ p) - IndexSet.offset (cols this) in
  if ScalarArray.within rowOffset (FullMatrix.rows p) i
     && ScalarArray.within colOffset (FullMatrix.cols p) j
  then ScalarArray.get (FullMatrix.data p) (i - rowOffset) (j - colOffset)
  else zero.

Fixpoint contributions_full (this : t T) (parts : list (T * option (FullMatrix.t T)))
    (i j : nat) : T :=
  match parts with
  | [] => zero
  | e :: rest =>
      match e.2 with
      | Some p => (e.1 * embed_full this p i j + contributions_full this rest i j)%T
      | None => contributions_full this rest i j
      end
  end.

(** The view of [size] rows of a panel from the row [offset] on, over its
    [k] columns. *)
Definition sub_rows (offset size k : nat) (p : ScalarArray.t T) : ScalarArray.t T :=
  ScalarArray.sub p offset size 0 k.

End Defs.

End RkMatrix.

(** ** Allocation and release in the truncations *)

Module Mem.

(** The cells of the heap: scalar arrays and vectors of [double].  An
    [RkMatrix] or [FullMatrix] object is represented by the cells of its
    arrays. *)
Inductive obj (T D : Type) :=
| Array (s : ScalarArray.t T)
| Vector (v : list D).
Arguments Array {T D}.
Arguments Vector {T D}.

(** An [RkMatrix<T>] object: [a] and [b] are pointers, [None] when null. *)
Record rk := mk {
  rows : IndexSet.t;
  cols : IndexSet.t;
  a : option nat;
  b : option nat;
  method : Z
}.

Section Run.
Context {T D : Type} `{Scalar T} `{Real D} `{ScalarArray.Lapack T D}
  `{RkMatrix.Compression T D}.
Variable env : Env.
Variable approx : RkApproximationControl.t D.
Variable oob : D.

(** Computations on the heap that may abort (failed assertion, null or
    dangling pointer, exception of a kernel). *)
Definition M (A : Type) : Type :=
  gmap nat (obj T D) -> option (A * gmap nat (obj T D)).

Definition ret {A : Type} (x : A) : M A := fun h => Some (x, h).

Definition bind {A B : Type} (m : M A) (k : A -> M B) : M B :=
  fun h => match m h with
           | Some (x, h') => k x h'
           | None => None
           end.

Definition abort {A : Type} : M A := fun _ => None.

Notation "'let*' x ':=' m 'in' k" := (bind m (fun x => k))
  (at level 10, x pattern, m at level 100, k at level 200).

(** [new]: a cell that is not in use. *)
Definition new (o : obj T D) : M nat :=
  fun h => let l := fresh (dom h) in Some (l, <[l := o]> h).

(** [delete p]: nothing on a null pointer. *)
Definition delete_ (p : option nat) : M unit :=
  fun h => match p with
           | None => Some (tt, h)
           | Some l => match h !! l with
                       | Some _ => Some (tt, delete l h)
                       | None => None
                       end
           end.

Definition read (l : nat) : M (ScalarArray.t T) :=
  fun h => match h !! l with
           | Some (Array s) => Some (s, h)
           | _ => None
           end.

Definition write (l : nat) (s : ScalarArray.t T) : M unit :=
  fun h => match h !! l with
           | Some (Array _) => Some (tt, <[l := Array s]> h)
           | _ => None
           end.

Definition write_vector (l : nat) (v : list D) : M unit :=
  fun h => match h !! l with
           | Some (Vector _) => Some (tt, <[l := Vector v]> h)
           | _ => None
           end.

(** [p->...] on a pointer that must not be null. *)
Definition deref (p : option nat) : M nat :=
  match p with
  | Some l => ret l
  | None => abort
  end.

Definition read_opt (p : option nat) : M (option (ScalarArray.t T)) :=
  match p with
  | Some l => let* s := read l in ret (Some s)
  | None => ret None
  end.

Definition new_opt (o : option (ScalarArray.t T)) : M (option nat) :=
  match o with
  | Some s => let* l := new (Array s) in ret (Some l)
  | None => ret None
  end.

Definition rank (this : rk) : M nat :=
  match a this with
  | Some la => let* pa := read la in ret (ScalarArray.cols pa)
  | None => ret 0
  end.

(** The block that the object stands for. *)
Definition value (this : rk) : M (RkMatrix.t T) :=
  let* pa := read_opt (a this) in
  let* pb := read_opt (b this) in
  ret (RkMatrix.mk (rows this) (cols this) pa pb (method this)).

Definition clear (this : rk) : M rk :=
  let* _ := delete_ (a this) in
  let* _ := delete_ (b this) in
  ret (mk (rows this) (cols this) None None (method this)).

(** [gemv(trans, alpha, x, beta, y)] on the heap, [x] and [y] being given
    by their addresses.  The array [z] is an automatic object, released when
    its scope is left. *)
Definition gemv (trans : ascii) (alpha : T) (lx : nat) (beta : T) (ly : nat)
    (this : rk) : M unit :=
  let* k := rank this in
  if k =? 0 then
    (if negb (teqb beta pone) then
       let* y := read ly in
       write ly (ScalarArray.scale beta y)
     else ret tt)
  else
    let* la := deref (a this) in
    let* lb := deref (b this) in
    if is_char trans "N" then
      let* pb := read lb in
      let* x := read lx in
      let* lz := new (Array (ScalarArray.new_ (ScalarArray.cols pb) (ScalarArray.cols x))) in
      let* z := read lz in
      let* _ := write lz (ScalarArray.gemm "T" "N" pone pb x zero z) in
      let* pa := read la in
      let* z := read lz in
      let* y := read ly in
      let* _ := write ly (ScalarArray.gemm "N" "N" alpha pa z beta y) in
      delete_ (Some lz)
    else if is_char trans "T" then
      let* pa := read la in
      let* x := read lx in
      let* lz := new (Array (ScalarArray.new_ (ScalarArray.cols pa) (ScalarArray.cols x))) in
      let* z := read lz in
      let* _ := write lz (ScalarArray.gemm "T" "N" pone pa x zero z) in
      let* pb := read lb in
      let* z := read lz in
      let* y := read ly in
      let* _ := write ly (ScalarArray.gemm "N" "N" alpha pb z beta y) in
      delete_ (Some lz)
    else if is_char trans "C" then
      let* pa := read la in
      let* x := read lx in
      let* lz := new (Array (ScalarArray.new_ (ScalarArray.cols pa) (ScalarArray.cols x))) in
      let* z := read lz in
      let* _ := write lz (ScalarArray.gemm "C" "N" pone pa x zero z) in
      let* pb := read lb in
      let* lnewB := new (Array (ScalarArray.copy pb)) in
      let* newB := read lnewB in
      let* _ := write lnewB (ScalarArray.conjugate newB) in
      let* newB := read lnewB in
      let* z := read lz in
      let* y := read ly in
      let* _ := write ly (ScalarArray.gemm "N" "N" alpha newB z beta y) in
      let* _ := delete_ (Some lnewB) in
      delete_ (Some lz)
    else abort.

Definition mGSTruncate (epsilon : D) (initialPivotA initialPivotB : nat)
    (this : rk) : M rk :=
  let* krank := rank this in
  if krank =? 0 then
    (if is_Some_b (a this) || is_Some_b (b this) then abort else ret this)
  else
    let* la := deref (a this) in
    let* lra := new (Array (ScalarArray.new_ krank krank)) in
    let* pa := read la in
    let '(kA, pa, ra) :=
      ScalarArray.modifiedGramSchmidt pa (ScalarArray.new_ krank krank) epsilon
        initialPivotA in
    let* _ := write la pa in
    let* _ := write lra ra in
    if kA =? 0 then
      let* this' := clear this in
      let* _ := delete_ (Some lra) in
      ret this'
    else
      let* lb := deref (b this) in
      let* lrb := new (Array (ScalarArray.new_ krank krank)) in
      let* pb := read lb in
      let '(kB, pb, rb) :=
        ScalarArray.modifiedGramSchmidt pb (ScalarArray.new_ krank krank) epsilon
          initialPivotB in
      let* _ := write lb pb in
      let* _ := write lrb rb in
      if kB =? 0 then
        let* this' := clear this in
        let* _ := delete_ (Some lrb) in
        let* _ := delete_ (Some lra) in
        ret this'
      else
        let matR := ScalarArray.gemm "N" "T" pone ra rb zero (ScalarArray.new_ kA kB) in
        let* lmatR := new (Array matR) in
        match ScalarArray.svdDecomposition matR true with
        | None => abort
        | Some (ur, sr, vr) =>
            let* lur := new (Array ur) in
            let* lsr := new (Vector sr) in
            let* lvr := new (Array vr) in
            let* _ := delete_ (Some lmatR) in
            let* _ := delete_ (Some lrb) in
            let* _ := delete_ (Some lra) in
            match RkApproximationControl.findK env approx oob sr epsilon with
            | None => abort
            | Some newK =>
                if (newK =? 0)%Z then
                  let* _ := delete_ (Some lur) in
                  let* _ := delete_ (Some lvr) in
                  let* _ := delete_ (Some lsr) in
                  clear this
                else if (newK <? 0)%Z then abort
                else
                  let newK := Z.to_nat newK in
                  let sr := map dsqrt (take newK sr) ++ drop newK sr in
                  let* _ := write_vector lsr sr in
                  let ur := ScalarArray.multiplyWithDiag (RkMatrix.set_cols ur newK) sr oob in
                  let vr := ScalarArray.multiplyWithDiag (RkMatrix.set_cols vr newK) sr oob in
                  let* _ := write lur ur in
                  let* _ := write lvr vr in
                  let* _ := delete_ (Some lsr) in
                  let* pa := read la in
                  let newA := ScalarArray.gemm "N" "N" pone pa ur zero
                                (ScalarArray.new_ (ScalarArray.rows pa) newK) in
                  let* lnewA := new (Array newA) in
                  let* pb := read lb in
                  let newB := ScalarArray.gemm "N" "N" pone pb vr zero
                                (ScalarArray.new_ (ScalarArray.rows pb) newK) in
                  let* lnewB := new (Array newB) in
                  let* _ := write lnewA (ScalarArray.setOrtho newA (ScalarArray.ortho ur)) in
                  let* _ := write lnewB (ScalarArray.setOrtho newB (ScalarArray.ortho vr)) in
                  let* _ := delete_ (Some lur) in
                  let* _ := delete_ (Some lvr) in
                  let* _ := delete_ (Some la) in
                  let* _ := delete_ (Some lb) in
                  ret (mk (rows this) (cols this) (Some lnewA) (Some lnewB) (method this))
            end
        end.

Definition truncate (epsilon : D) (initialPivotA initialPivotB : nat)
    (this : rk) : M rk :=
  let initialPivotA := if HMAT_TRUNC_INITPIV env then initialPivotA else 0 in
  let initialPivotB := if HMAT_TRUNC_INITPIV env then initialPivotB else 0 in
  let* k := rank this in
  if negb ((initialPivotA <=? k) && (initialPivotB <=? k)) then abort
  else if k =? 0 then
    (if is_Some_b (a this) || is_Some_b (b this) then abort else ret this)
  else if negb (k <=? IndexSet.size (rows this)) then abort
  else if Nat.min (IndexSet.size (rows this)) (IndexSet.size (cols this)) <? k then
    let* v := value this in
    match RkMatrix.eval v with
    | None => abort
    | Some tmp =>
        let* ltmp := new (Array (FullMatrix.data tmp)) in
        let rkv := RkMatrix.truncatedSvd tmp epsilon in
        let* ra := new_opt (RkMatrix.a rkv) in
        let* rb := new_opt (RkMatrix.b rkv) in
        let* _ := delete_ (Some ltmp) in
        if negb (IndexSet.same (rows this) (RkMatrix.rows rkv)
                 && IndexSet.same (cols this) (RkMatrix.cols rkv)) then abort
        else
          let* _ := delete_ (a this) in
          let* _ := delete_ (b this) in
          ret (mk (rows this) (cols this) ra rb (RkMatrix.method rkv))
    end
  else if HMAT_RECOMPRESS_MGS env then
    mGSTruncate epsilon initialPivotA initialPivotB this
  else
    let* la := deref (a this) in
    let* lra := new (Array (ScalarArray.new_ k k)) in
    let* pa := read la in
    let '(qa, ra) :=
      ScalarArray.qrDecomposition pa (ScalarArray.new_ k k) initialPivotA in
    let* _ := write la qa in
    let* _ := write lra ra in
    let* lb := deref (b this) in
    let* lrb := new (Array (ScalarArray.new_ k k)) in
    let* pb := read lb in
    let '(qb, rb) :=
      ScalarArray.qrDecomposition pb (ScalarArray.new_ k k) initialPivotB in
    let* _ := write lb qb in
    let* _ := write lrb rb in
    let r_ := ScalarArray.gemm "N" "T" pone ra rb zero (ScalarArray.new_ k k) in
    let* lr := new (Array r_) in
    match ScalarArray.svdDecomposition r_ true with
    | None => abort
    | Some (u, sigma, v) =>
        let* lu := new (Array u) in
        let* lsigma := new (Vector sigma) in
        let* lv := new (Array v) in
        let* _ := delete_ (Some lr) in
        let* _ := delete_ (Some lrb) in
        let* _ := delete_ (Some lra) in
        match RkApproximationControl.findK env approx oob sigma epsilon with
        | None => abort
        | Some newK =>
            if (newK =? 0)%Z then
              let* _ := delete_ (Some lu) in
              let* _ := delete_ (Some lv) in
              let* _ := delete_ (Some lsigma) in
              clear this
            else if (newK <? 0)%Z then abort
            else
              let newK := Z.to_nat newK in
              let sigma := map dsqrt (take newK sigma) in
              let* _ := write_vector lsigma sigma in
              let u := ScalarArray.multiplyWithDiag (RkMatrix.set_cols u newK) sigma oob in
              let v := ScalarArray.multiplyWithDiag (RkMatrix.set_cols v newK) sigma oob in
              let* _ := write lu u in
              let* _ := write lv v in
              let* _ := delete_ (Some lsigma) in
              let* qa := read la in
              let newA := RkMatrix.applyQ qa u (IndexSet.size (rows this)) newK
                            initialPivotA in
              let* lnewA := new (Array newA) in
              let* _ := delete_ (Some lu) in
              let* _ := delete_ (Some la) in
              let* qb := read lb in
              let newB := RkMatrix.applyQ qb v (IndexSet.size (cols this)) newK
                            initialPivotB in
              let* lnewB := new (Array newB) in
              let* _ := delete_ (Some lv) in
              let* _ := delete_ (Some lb) in
              ret (mk (rows this) (cols this) (Some lnewA) (Some lnewB) (method this))
        end
    end.

(** [this->copy(o)]: the panels of [this] are released and replaced by
    copies of the panels of [o]; the index sets are those of [o], and the
    method is left as it is. *)
Definition copy_from (o this : rk) : M rk :=
  let* _ := delete_ (a this) in
  let* _ := delete_ (b this) in
  let* pa := read_opt (a o) in
  let* na := new_opt (ScalarArray.copy <$> pa) in
  let* pb := read_opt (b o) in
  let* nb := new_opt (ScalarArray.copy <$> pb) in
  ret (mk (rows o) (cols o) na nb (method this)).

(** [this->copy()]: a new object, built empty over the index sets of
    [this] and with its method, that [this] is copied into. *)
Definition copy (this : rk) : M rk :=
  let result := mk (rows this) (cols this) None None (method this) in
  copy_from this result.

End Run.

End Mem.

(** ** Trees *)

Module Tree.

(** The type [int]: 32 bits in two's complement.  [wrap_int z] is the [int]
    that an addition of mathematical result [z] leaves, and the [int] that
    the conversion of a size [z] gives: outside the range the value wraps
    around. *)
Definition INT_MAX : Z := 2147483647.
Definition INT_MIN : Z := (-2147483648).
Definition wrap_int (z : Z) : Z :=
  ((z + 2147483648) mod 4294967296 - 2147483648)%Z.

(** A node of [Tree<N>]: its depth (an [int]), the vector of the pointers
    to its children (a null entry is [None]) and the pointer to its father.
    Nodes live in a store indexed by their addresses, so that the node
    passed as a child may be any node of the store. *)
Record node := mk {
  depth : Z;
  children : list (option nat);
  father : option nat
}.

(** [Tree(_father, _depth)]. *)
Definition Tree (_father : option nat) (_depth : Z) : node := mk _depth [] _father.

(** [this->insertChild(index, child)], [index] being an [int].  [None]
    stands for the use of a null or dangling pointer, for an index below 0
    and for the exception of [resize]: [index + 1] is an [int], which at
    [INT_MAX] wraps around to a negative value, and this value converted to
    [size_t] is a size that [resize] refuses. *)
Definition insertChild (this : nat) (index : Z) (child : option nat)
    (h : gmap nat node) : option (gmap nat node) :=
  if (index <? 0)%Z then None
  else
    t ← h !! this;
    h ← (if (Z.of_nat (length (children t)) <=? index)%Z then
           let size := wrap_int (index + 1) in
           if (size <? 0)%Z then None
           else
             Some (<[this := mk (depth t) (resize (Z.to_nat size) None (children t))
                               (father t)]> h)
         else Some h);
    c ← child;
    nc ← h !! c;
    let h := <[c := mk (depth nc) (children nc) (Some this)]> h in
    t ← h !! this;
    let h := <[this := mk (depth t) (<[Z.to_nat index := Some c]> (children t))
                          (father t)]> h in
    t ← h !! this;
    nc ← h !! c;
    Some (<[c := mk (wrap_int (depth t + 1)) (children nc) (father nc)]> h).

(** [this->getChild(index)]; [None] is the failure of the assertion. *)
Definition getChild (this : nat) (index : Z) (h : gmap nat node)
    : option (option nat) :=
  t ← h !! this;
  if (0 <=? index)%Z && (index <? Z.of_nat (length (children t)))%Z
  then children t !! Z.to_nat index
  else None.

(** [this->nbChild()]: [children.size()] converted to [int]. *)
Definition nbChild (this : nat) (h : gmap nat node) : option Z :=
  t ← h !! this; Some (wrap_int (Z.of_nat (length (children t)))).

Definition isLeaf (this : nat) (h : gmap nat node) : option bool :=
  t ← h !! this; Some (match children t with [] => true | _ => false end).

(** [enum Visit]. *)
Inductive Visit := tree_preorder | tree_postorder | tree_inorder | tree_leaf.

(** The member functions below call themselves on the children.  They are
    written by recursion on [fuel], a bound on the depth of the calls:
    [None] stands for the use of a null or dangling pointer, and for calls
    nested deeper than [fuel].  The loop counters and the count that
    [nodesCount] returns are bounded by the number of the nodes visited:
    they are integers, and no overflow is modelled for them. *)

(** [this->nodesCount()]. *)
Fixpoint nodesCount (fuel : nat) (this : nat) (h : gmap nat node) : option Z :=
  match fuel with
  | 0 => None
  | S fuel =>
      t ← h !! this;
      fold_left
        (fun (acc : option Z) (child : option nat) =>
           result ← acc;
           match child with
           | Some c => n ← nodesCount fuel c h; Some (result + n)%Z
           | None => Some result
           end)
        (children t) (Some 1%Z)
  end.

(** [this->listNodes()]: the list that is returned. *)
Fixpoint listNodes (fuel : nat) (this : nat) (h : gmap nat node)
    : option (list nat) :=
  match fuel with
  | 0 => None
  | S fuel =>
      t ← h !! this;
      fold_left
        (fun (acc : option (list nat)) (child : option nat) =>
           result ← acc;
           match child with
           | Some c => childNodes ← listNodes fuel c h; Some (result ++ childNodes)
           | None => Some result
           end)
        (children t) (Some [this])
  end.

(** [this->listAllLeaves(leaves)]: the vector [leaves] afterwards. *)
Fixpoint listAllLeaves (fuel : nat) (this : nat) (leaves : list nat)
    (h : gmap nat node) : option (list nat) :=
  match fuel with
  | 0 => None
  | S fuel =>
      leaf ← isLeaf this h;
      if negb leaf then
        t ← h !! this;
        fold_left
          (fun (acc : option (list nat)) (child : option nat) =>
             leaves ← acc;
             match child with
             | Some c => listAllLeaves fuel c leaves h
             | None => Some leaves
             end)
          (children t) (Some leaves)
      else Some (leaves ++ [this])
  end.

(** [this->walk(proc)].  [TreeProcedure::visit] is abstract: the walk is
    given by the sequence of the calls [proc->visit(node, order)] that it
    makes, a procedure that leaves the tree as it is being assumed. *)
Fixpoint walk (fuel : nat) (this : nat) (h : gmap nat node)
    : option (list (nat * Visit)) :=
  match fuel with
  | 0 => None
  | S fuel =>
      leaf ← isLeaf this h;
      if (leaf : bool) then Some [(this, tree_leaf)]
      else
        t ← h !! this;
        st ← fold_left
               (fun (acc : option (list (nat * Visit) * bool)) (child : option nat) =>
                  '(visits, first) ← acc;
                  match child with
                  | Some c =>
                      let visits :=
                        if negb first then visits ++ [(this, tree_inorder)]
                        else visits in
                      sub ← walk fuel c h;
                      Some (visits ++ sub, false)
                  | None => Some (visits, first)
                  end)
               (children t) (Some ([(this, tree_preorder)], true));
        Some (st.1 ++ [(this, tree_postorder)])
  end.

(** [delete this]: the destructor deletes the children that are not null,
    then the node is released. *)
Fixpoint delete_Tree (fuel : nat) (this : nat) (h : gmap nat node)
    : option (gmap nat node) :=
  match fuel with
  | 0 => None
  | S fuel =>
      t ← h !! this;
      h ← fold_left
            (fun (acc : option (gmap nat node)) (child : option nat) =>
               h ← acc;
               match child with
               | Some c => delete_Tree fuel c h
               | None => Some h
               end)
            (children t) (Some h);
      _ ← h !! this;
      Some (delete this h)
  end.

(** [this->removeChild(index)].  [None] stands, too, for an index outside
    the children vector. *)
Definition removeChild (fuel : nat) (this : nat) (index : Z) (h : gmap nat node)
    : option (gmap nat node) :=
  t ← h !! this;
  if (index <? 0)%Z || (Z.of_nat (length (children t)) <=? index)%Z then None
  else
    child ← children t !! Z.to_nat index;
    h ← match child with
        | Some c => delete_Tree fuel c h
        | None => Some h
        end;
    t ← h !! this;
    Some (<[this := mk (depth t) (<[Z.to_nat index := None]> (children t))
                       (father t)]> h).

(** The visits by which [walk] enters a node, and those of the leaves. *)
Definition enters (e : nat * Visit) : bool :=
  match e.2 with
  | tree_preorder | tree_leaf => true
  | _ => false
  end.

Definition at_leaf (e : nat * Visit) : bool :=
  match e.2 with
  | tree_leaf => true
  | _ => false
  end.

(** A store whose child pointers are valid and whose nodes are ranked
    above their children: no node is reached from itself. *)
Definition ranked (h : gmap nat node) (rk : nat -> nat) : Prop :=
  forall a t c,
    h !! a = Some t -> Some c ∈ children t -> is_Some (h !! c) /\ rk c < rk a.

End Tree.

(** ** Concrete data over the integers *)

Module Examples.

(** A panel given by its rows. *)
Definition of_rows (m n : nat) (l : list (list Z)) : ScalarArray.t Z :=
  ScalarArray.mk m n false (fun i j => nth j (nth i l []) 0%Z).

Definition identity_entries (i j : nat) : Z := if i =? j then 1%Z else 0%Z.

(** Kernels that return trivial factorisations: [A = A * I] for QR and
    Gram-Schmidt, [R = R * diag(1) * I^t] for the SVD. *)
#[export] Instance trivial_lapack : ScalarArray.Lapack Z Z := {|
  ScalarArray.qr_entries := fun a _ => (ScalarArray.get a, identity_entries);
  ScalarArray.productQ_entries := fun _ _ q c i j =>
    ScalarArray.sum_n (ScalarArray.cols q)
      (fun l => (ScalarArray.get q i l * ScalarArray.get c l j)%Z);
  ScalarArray.svd := fun r _ =>
    Some (r, repeat 1%Z (ScalarArray.cols r),
          ScalarArray.mk (ScalarArray.cols r) (ScalarArray.cols r) true identity_entries);
  ScalarArray.mgs_entries := fun a _ _ =>
    (ScalarArray.cols a, ScalarArray.get a, identity_entries);
  ScalarArray.of_real := fun d => d
|}.

(** A stand-in for [truncatedSvd] that returns the empty block over the
    index sets of the dense block and records, as the method tag, the
    tolerance it was called with. *)
#[export] Instance recording_svd : RkMatrix.Compression Z Z := {|
  RkMatrix.truncatedSvd := fun m epsilon =>
    RkMatrix.mk (FullMatrix.rows_ m) (FullMatrix.cols_ m) None None epsilon
|}.

(** An H-matrix collaborator over one pair of index sets whose [gemv]
    leaves [y] as it is. *)
#[export] Instance still_h : RkMatrix.HMatrix Z (IndexSet.t * IndexSet.t) := {|
  RkMatrix.h_rows := fst;
  RkMatrix.h_cols := snd;
  RkMatrix.h_gemv_entries := fun _ _ _ _ _ y => ScalarArray.get y
|}.

Definition env0 : Env := Build_Env false false false false false.
Definition env_mgs : Env := Build_Env false false true false false.

(** Automatic rank, recompression tolerance 1. *)
Definition approx1 : RkApproximationControl.t Z := RkApproximationControl.mk 0%Z 1%Z.
(** Automatic rank, recompression tolerance 7. *)
Definition approx7 : RkApproximationControl.t Z := RkApproximationControl.mk 0%Z 7%Z.

(** The index set of a range: in the examples one object stands for each
    range, and the blocks over a range share it. *)
Definition range (offset size : nat) : IndexSet.t :=
  IndexSet.mk (100 * offset + size) offset size.

(** A 3 x 3 block of rank 1 over [0..3) x [0..3), of dense value
    [(1,2,3)^t (1,0,1)]. *)
Definition r3 : RkMatrix.t Z :=
  RkMatrix.mk (range 0 3) (range 0 3)
    (Some (of_rows 3 1 [[1]; [2]; [3]]%Z)) (Some (of_rows 3 1 [[1]; [0]; [1]]%Z)) 2%Z.

(** A 2 x 2 block of rank 1 over [1..3) x [1..3). *)
Definition p2 : RkMatrix.t Z :=
  RkMatrix.mk (range 1 2) (range 1 2)
    (Some (of_rows 2 1 [[5]; [7]]%Z)) (Some (of_rows 2 1 [[1]; [1]]%Z)) 1%Z.

(** A 3 x 3 block of rank 2. *)
Definition r3' : RkMatrix.t Z :=
  RkMatrix.mk (range 0 3) (range 0 3)
    (Some (of_rows 3 2 [[1; 0]; [0; 1]; [1; 1]]%Z))
    (Some (of_rows 3 2 [[2; 0]; [0; 3]; [1; 1]]%Z)) 3%Z.

(** A 2 x 1 block of rank 2: the rank exceeds [min(m, n)]. *)
Definition r21 : RkMatrix.t Z :=
  RkMatrix.mk (range 0 2) (range 0 1)
    (Some (of_rows 2 2 [[1; 0]; [0; 1]]%Z)) (Some (of_rows 1 2 [[4; 5]]%Z)) 2%Z.

(** The empty 1 x 1 block and a 1 x 1 block of rank 1 and dense value 6. *)
Definition empty11 : RkMatrix.t Z :=
  RkMatrix.mk (range 0 1) (range 0 1) None None 0%Z.
Definition six11 : RkMatrix.t Z :=
  RkMatrix.mk (range 0 1) (range 0 1)
    (Some (of_rows 1 1 [[2]]%Z)) (Some (of_rows 1 1 [[3]]%Z)) 0%Z.

Definition full33 : FullMatrix.t Z :=
  FullMatrix.mk (range 0 3) (range 0 3)
    (of_rows 3 3 [[1; 2; 3]; [4; 5; 6]; [7; 8; 9]]%Z).
Definition full11 : FullMatrix.t Z :=
  FullMatrix.mk (range 0 1) (range 0 1) (of_rows 1 1 [[9]]%Z).

(** A heap with the two panels of [r3'] at the addresses 1 and 2. *)
Definition heap12 : gmap nat (Mem.obj Z Z) :=
  <[2 := Mem.Array (of_rows 3 2 [[2; 0]; [0; 3]; [1; 1]]%Z)]>
    (<[1 := Mem.Array (of_rows 3 2 [[1; 0]; [0; 1]; [1; 1]]%Z)]> ∅).
Definition this12 : Mem.rk := Mem.mk (range 0 3) (range 0 3) (Some 1) (Some 2) 3%Z.

(** A heap with the two panels of [r3] at the addresses 1 and 2, a vector
    [x] at 3 and a vector [y] at 4. *)
Definition heap34 : gmap nat (Mem.obj Z Z) :=
  <[4 := Mem.Array (of_rows 3 1 [[1]; [0]; [0]]%Z)]>
    (<[3 := Mem.Array (of_rows 3 1 [[1]; [1]; [1]]%Z)]>
       (<[2 := Mem.Array (of_rows 3 1 [[1]; [0]; [1]]%Z)]>
          (<[1 := Mem.Array (of_rows 3 1 [[1]; [2]; [3]]%Z)]> ∅))).
Definition this34 : Mem.rk := Mem.mk (range 0 3) (range 0 3) (Some 1) (Some 2) 2%Z.

(** A store with a root at address 0, whose child at index 0 is the node at
    address 1, and a free-standing node at address 2. *)
Definition store3 : gmap nat Tree.node :=
  <[2 := Tree.Tree None 0]>
    (<[1 := Tree.mk 1 [] (Some 0)]>
       (<[0 := Tree.mk 0 [Some 1] None]> ∅)).

(** The store [store3] with its root at the depth [INT_MAX]. *)
Definition deep3 : gmap nat Tree.node :=
  <[0 := Tree.mk 2147483647 [Some 1] None]> store3.

(** A root at address 0 with [n] null entries in its children vector, and a
    free-standing node at address 2. *)
Definition wide3 (n : nat) : gmap nat Tree.node :=
  <[2 := Tree.Tree None 0]> (<[0 := Tree.mk 0 (replicate n None) None]> ∅).

(** An H-matrix collaborator that stands for a dense block: its [gemv] is
    the product by the dense matrix. *)
#[export] Instance dense_h : RkMatrix.HMatrix Z (FullMatrix.t Z) := {|
  RkMatrix.h_rows := FullMatrix.rows_;
  RkMatrix.h_cols := FullMatrix.cols_;
  RkMatrix.h_gemv_entries := fun h trans alpha x beta y i j =>
    (alpha * ScalarArray.sum_n
               (if is_char trans "N" then IndexSet.size (FullMatrix.cols_ h)
                else IndexSet.size (FullMatrix.rows_ h))
               (fun c => (ScalarArray.op_get trans (FullMatrix.data h) i c
                          * ScalarArray.get x c j)%Z)
     + beta * ScalarArray.get y i j)%Z
|}.

(** [HMAT_NEW_RKRK] set, and a target rank of 1. *)
Definition env_new : Env := Build_Env false false false false true.
Definition approx_k1 : RkApproximationControl.t Z := RkApproximationControl.mk 1%Z 1%Z.

(** An object without panels over [0..3) x [0..3). *)
Definition this0 : Mem.rk := Mem.mk (range 0 3) (range 0 3) None None 5%Z.

(** A store with a tree of five nodes: the root 0 has the children 1 and 2
    at the indices 0 and 2 and a null entry at the index 1; the node 1 has
    the children 3 and 4; the ranks of the nodes are given by [rank5]. *)
Definition store5 : gmap nat Tree.node :=
  <[4 := Tree.mk 2 [] (Some 1)]>
    (<[3 := Tree.mk 2 [] (Some 1)]>
       (<[2 := Tree.mk 1 [] (Some 0)]>
          (<[1 := Tree.mk 1 [Some 3; Some 4] (Some 0)]>
             (<[0 := Tree.mk 0 [Some 1; None; Some 2] None]> ∅)))).
Definition rank5 (a : nat) : nat :=
  match a with
  | 0 => 2
  | 1 => 1
  | _ => 0
  end.

(** The panels of [r3'] in a block whose index sets are two other objects,
    with the same ranges. *)
Definition r3_apart : RkMatrix.t Z :=
  RkMatrix.mk (IndexSet.mk 7 0 3) (IndexSet.mk 8 0 3)
    (RkMatrix.a r3') (RkMatrix.b r3') 3%Z.

(** A 1 x 2 block of rank 2: the rank exceeds the number of rows. *)
Definition r12 : RkMatrix.t Z :=
  RkMatrix.mk (range 0 1) (range 0 2)
    (Some (of_rows 1 2 [[4; 5]]%Z)) (Some (of_rows 2 2 [[1; 0]; [0; 1]]%Z)) 2%Z.

(** Automatic rank with the recompression tolerance 0, and the target rank
    1 with the same tolerance. *)
Definition approx0 : RkApproximationControl.t Z := RkApproximationControl.mk 0%Z 0%Z.
Definition approx_k1_0 : RkApproximationControl.t Z := RkApproximationControl.mk 1%Z 0%Z.

(** Two 3 x 3 blocks of rank 1 over [0..3) x [0..3), of dense values
    [e_1 e_1^t] and [e_2 e_2^t]. *)
Definition e1e1 : RkMatrix.t Z :=
  RkMatrix.mk (range 0 3) (range 0 3)
    (Some (of_rows 3 1 [[1]; [0]; [0]]%Z)) (Some (of_rows 3 1 [[1]; [0]; [0]]%Z)) 0%Z.
Definition e2e2 : RkMatrix.t Z :=
  RkMatrix.mk (range 0 3) (range 0 3)
    (Some (of_rows 3 1 [[0]; [1]; [0]]%Z)) (Some (of_rows 3 1 [[0]; [1]; [0]]%Z)) 0%Z.

(** The block of rank 2 that [formattedAddParts] builds from [e1e1] and
    [e2e2] and calls [truncate] on. *)
Definition e1e1_e2e2 : RkMatrix.t Z :=
  match RkMatrix.coalesce env0 approx0 [(1%Z, Some e2e2)] true e1e1 with
  | Some (RkMatrix.ByTruncate rk _ _ _) => rk
  | _ => e1e1
  end.

End Examples.

(** ** Notions used in the statements *)

Section Statements.
Context {T D : Type} `{ST : Scalar T}.

(** The conjugation that a ['C'] flag asks for. *)
Definition cj (trans : ascii) (x : T) : T :=
  if is_char trans "C" then tconj x else x.

(** The panels of [op(r)]: those of [r], swapped unless [trans] is ['N']. *)
Definition freeA (trans : ascii) (r : RkMatrix.t T) : ScalarArray.t T :=
  if is_char trans "N" then RkMatrix.panelA r else RkMatrix.panelB r.
Definition freeB (trans : ascii) (r : RkMatrix.t T) : ScalarArray.t T :=
  if is_char trans "N" then RkMatrix.panelB r else RkMatrix.panelA r.

(** The mid-matrix [T = b1^t * a2] of the conjugated operands. *)
Definition mid (trans1 trans2 : ascii) (r1 r2 : RkMatrix.t T) (l q : nat) : T :=
  ScalarArray.sum_n (ScalarArray.rows (freeB trans1 r1))
    (fun c => (cj trans1 (ScalarArray.get (freeB trans1 r1) c l)
               * cj trans2 (ScalarArray.get (freeA trans2 r2) c q))%T).

(** A term of the sum is well formed when it satisfies the invariant and
    its index sets are subsets of those of the target. *)
Definition valid_term (this : RkMatrix.t T) (u : T * RkMatrix.t T) : Prop :=
  RkMatrix.invariant u.2 /\
  IndexSet.isSubset (RkMatrix.rows u.2) (RkMatrix.rows this) = true /\
  IndexSet.isSubset (RkMatrix.cols u.2) (RkMatrix.cols this) = true.

Definition min_method (us : list (T * RkMatrix.t T)) (m : Z) : Z :=
  fold_left (fun acc u => Z.min acc (RkMatrix.method u.2)) us m.

Definition sum_terms (this : RkMatrix.t T) (us : list (T * RkMatrix.t T))
    (i j : nat) : T :=
  fold_right (fun u acc => (u.1 * RkMatrix.embed this u.2 i j + acc)%T) zero us.

(** The heap after the cells [la] and [lb] of the two panels were released,
    and the object with both pointers null. *)
Definition released (h : gmap nat (Mem.obj T D)) (la lb : nat)
    : gmap nat (Mem.obj T D) :=
  delete lb (delete la h).

Definition emptied (this : Mem.rk) : Mem.rk :=
  Mem.mk (Mem.rows this) (Mem.cols this) None None (Mem.method this).

(** A dense part that is not null lies within the target. *)
Definition fits (this : RkMatrix.t T) (e : T * option (FullMatrix.t T)) : Prop :=
  match e.2 with
  | Some p =>
      IndexSet.isSubset (FullMatrix.rows_ p) (RkMatrix.rows this) = true /\
      IndexSet.isSubset (FullMatrix.cols_ p) (RkMatrix.cols this) = true
  | None => True
  end.

End Statements.

(** ** Recompression in exact arithmetic *)

Section Recompression.
Context {T D : Type} `{ST : Scalar T} `{RD : Real D} `{LP : !ScalarArray.Lapack T D}.
Variable env : Env.
Variable oob : D.
Import ScalarArray.

(** The columns [0 .. k) of [x], of height [m], are orthonormal:
    [x^H x = I]. *)
Definition orthonormal (m k : nat) (x : nat -> nat -> T) : Prop :=
  forall c c', c < k -> c' < k ->
    sum_n m (fun i => (tconj (x i c) * x i c')%T) = if c =? c' then pone else zero.

(** Entry [(i, j)] of [sum_(c < k) sigma_c x_c y_c^t], the sum of the first
    [k] triplets. *)
Definition triplets (sigma : list D) (x y : nat -> nat -> T) (k i j : nat) : T :=
  sum_n k (fun c => (x i c * of_real (nth c sigma oob) * y j c)%T).

(** The values of [sigma] are not negative and do not increase. *)
Definition singular_values (sigma : list D) : Prop :=
  (forall c, c < length sigma -> dleb dzero (nth c sigma oob) = true) /\
  (forall c c', c <= c' -> c' < length sigma ->
     dleb (nth c' sigma oob) (nth c sigma oob) = true).

(** [Y] is the [m] x [n] matrix [X] cut after [k'] singular triplets: [X] is
    the sum of the triplets of a singular value decomposition with the
    singular values [sigma], and [Y] the sum of the first [k'] of them. *)
Definition cut_at (m n : nat) (sigma : list D) (k' : nat)
    (X Y : nat -> nat -> T) : Prop :=
  k' <= length sigma /\ singular_values sigma /\
  exists x y : nat -> nat -> T,
    orthonormal m (length sigma) x /\ orthonormal n (length sigma) y /\
    (forall i j, i < m -> j < n -> X i j = triplets sigma x y (length sigma) i j) /\
    (forall i j, i < m -> j < n -> Y i j = triplets sigma x y k' i j).

(** [Y] is [X] up to the tolerance [epsilon]: [X] cut after the singular
    triplets whose singular value is above [S * epsilon], where [S] is the
    sum of the singular values, or the first of them under
    [HMAT_L2_CRITERION]. *)
Definition recompressed (epsilon : D) (m n : nat) (X Y : nat -> nat -> T) : Prop :=
  exists (sigma : list D) (k' : nat),
    cut_at m n sigma k' X Y /\
    let threshold :=
      dmul (RkApproximationControl.threshold_base env oob sigma) epsilon in
    (forall c, c < k' -> dleb (nth c sigma oob) threshold = false) /\
    (forall c, k' <= c < length sigma -> dleb (nth c sigma oob) threshold = true).

(** Modelled from the spec: what [r->svdDecomposition(&u, &sigma, &v)]
    returns when the kernel is exact, [R = U * Sigma * V^t] with orthonormal
    columns in [U] and [V]; the square roots that [truncate] takes of the
    singular values are exact as well. *)
Definition svd_exact (r : t T) : Prop :=
  match svdDecomposition r true with
  | Some (u, sigma, v) =>
      rows u = rows r /\ rows v = cols r /\
      singular_values sigma /\
      orthonormal (rows r) (length sigma) (get u) /\
      orthonormal (cols r) (length sigma) (get v) /\
      (forall c, c < length sigma ->
         (of_real (dsqrt (nth c sigma oob)) * of_real (dsqrt (nth c sigma oob))
          = of_real (nth c sigma oob))%T) /\
      (forall i j, i < rows r -> j < cols r ->
         get r i j = triplets sigma (get u) (get v) (length sigma) i j)
  | None => False
  end.

(** Modelled from the spec: what [a->qrDecomposition(&r, p)] leaves when
    the kernel is exact, [A = Q * R] with orthonormal columns in [Q], the
    first [p] columns of which are left in place in [a]; and what
    [productQ('L', 'N', c)] then computes from the other columns, on a [c]
    with nothing below its first [k - p] rows. *)
Definition qr_exact (pa : t T) (p : nat) : Prop :=
  let k := cols pa in
  let m := rows pa in
  let qr := qrDecomposition (D:=D) pa (new_ k k) p in
  exists Q : nat -> nat -> T,
    orthonormal m k Q /\
    (forall i j, i < m -> j < k ->
       get pa i j = sum_n k (fun l => (Q i l * get qr.2 l j)%T)) /\
    (forall i l, i < m -> l < p -> get qr.1 i l = Q i l) /\
    (forall (c : t T) (i j : nat),
       rows c = m -> (forall l j', k - p <= l -> get c l j' = zero) -> i < m ->
       productQ_entries (D:=D) "L" "N"
         (if p =? 0 then qr.1 else sub qr.1 0 (rows qr.1) p (cols qr.1 - p)) c i j
       = sum_n (k - p) (fun l => (Q i (p + l)%nat * get c l j)%T)).

(** Modelled from the spec: what [a->modifiedGramSchmidt(&r, prec, p)]
    leaves when the kernel is exact, [A_old = A_new * R] with orthonormal
    columns in [A_new]. *)
Definition mgs_exact (pa : t T) (prec : D) (p : nat) : Prop :=
  let k := cols pa in
  let '(kA, qa, ra) := modifiedGramSchmidt pa (new_ k k) prec p in
  orthonormal (rows pa) kA (get qa) /\
  (forall i j, i < rows pa -> j < k ->
     get pa i j = sum_n kA (fun l => (get qa i l * get ra l j)%T)).

(** The kernels are exact at the calls that [truncate(epsilon, p_A, p_B)]
    makes on the block [r]. *)
Definition kernels_exact (epsilon : D) (initialPivotA initialPivotB : nat)
    (r : RkMatrix.t T) : Prop :=
  let pA := if HMAT_TRUNC_INITPIV env then initialPivotA else 0 in
  let pB := if HMAT_TRUNC_INITPIV env then initialPivotB else 0 in
  let pa := RkMatrix.panelA r in
  let pb := RkMatrix.panelB r in
  let k := RkMatrix.rank r in
  if HMAT_RECOMPRESS_MGS env then
    mgs_exact pa epsilon pA /\ mgs_exact pb epsilon pB /\
    let '(kA, _, ra) := modifiedGramSchmidt pa (new_ k k) epsilon pA in
    let '(kB, _, rb) := modifiedGramSchmidt pb (new_ k k) epsilon pB in
    (kA <> 0 -> kB <> 0 -> svd_exact (gemm "N" "T" pone ra rb zero (new_ kA kB)))
  else
    qr_exact pa pA /\ qr_exact pb pB /\
    svd_exact (gemm "N" "T" pone (qrDecomposition (D:=D) pa (new_ k k) pA).2
                 (qrDecomposition (D:=D) pb (new_ k k) pB).2 zero (new_ k k)).

End Recompression.

(* ===================================================================== *)
(** * Part II: theorems                                                   *)
(* ===================================================================== *)

Section FindK_facts.
Context {D : Type} `{Real D}.
Import RkApproximationControl.

Lemma scan_le (thr : D) (sigma : list D) : scan thr sigma <= length sigma.
Proof.
    induction sigma as [|s rest IH]; simpl; [lia|].
    destruct (dleb s thr); lia.
Qed.

Lemma scan_before (thr : D) (sigma : list D) (d : D) (j : nat) :
    j < scan thr sigma -> dleb (nth j sigma d) thr = false.
Proof.
    revert j; induction sigma as [|s rest IH]; simpl; intros j Hj; [lia|].
    destruct (dleb s thr) eqn:E; [lia|].
    destruct j as [|j]; [exact E|]. apply IH. lia.
Qed.

Lemma scan_at (thr : D) (sigma : list D) (d : D) :
    scan thr sigma < length sigma ->
    dleb (nth (scan thr sigma) sigma d) thr = true.
Proof.
    induction sigma as [|s rest IH]; simpl; intros Hlt; [lia|].
    destruct (dleb s thr) eqn:E; [exact E|].
    apply IH. lia.
Qed.

  (** C2. With a nonzero target rank [k], [findK] returns
      [min(k, len(sigma))] whatever [epsilon] is.  With [k = 0] and
      [epsilon >= 0] it returns the smallest index [i] with
      [sigma[i] <= S * epsilon], and [len(sigma)] when there is none, where
      [S] is the sum of the entries of [sigma] (accumulated from [0.0] in
      index order) or [sigma[0]] when [HMAT_L2_CRITERION] is set. *)
Theorem findK_spec (env : Env) (approx : t D) (oob : D)
      (sigma : list D) (epsilon : D) :
    dleb dzero epsilon = true ->
    let S := if HMAT_L2_CRITERION env then nth 0 sigma oob
             else fold_left dadd sigma dzero in
    let threshold := dmul S epsilon in
    (k approx <> 0%Z ->
       findK env approx oob sigma epsilon
       = Some (Z.min (k approx) (Z.of_nat (length sigma)))) /\
    (k approx = 0%Z ->
       exists i : nat,
         findK env approx oob sigma epsilon = Some (Z.of_nat i) /\
         i <= length sigma /\
         (forall j, j < i -> dleb (nth j sigma oob) threshold = false) /\
         (i < length sigma -> dleb (nth i sigma oob) threshold = true)).
Proof.
    intros Heps S threshold. unfold findK. split.
    - intros Hk. apply Z.eqb_neq in Hk. rewrite Hk. reflexivity.
    - intros Hk. rewrite Hk. simpl. rewrite Heps. simpl.
      exists (scan threshold sigma). split; [reflexivity|].
      split; [apply scan_le|]. split.
      + intros j Hj. now apply scan_before.
      + apply scan_at.
Qed.
End FindK_facts.

(** ** Sums over the common dimension *)

Section Sums.
Context {T : Type} `{ST : Scalar T}.
Import ScalarArray.

Add Ring scalar_ring_here : (@scalar_ring T ST).

Lemma sum_n_ext (n : nat) (f g : nat -> T) :
  (forall l, l < n -> f l = g l) -> sum_n n f = sum_n n g.
Proof.
  induction n as [|n IH]; simpl; intros E; [reflexivity|].
  rewrite IH by (intros l Hl; apply E; lia).
  rewrite (E n) by lia. reflexivity.
Qed.

Lemma sum_n_zero (n : nat) : sum_n n (fun _ => zero) = zero.
Proof. induction n as [|n IH]; simpl; [reflexivity|]. rewrite IH. ring. Qed.

Lemma sum_n_add (n : nat) (f g : nat -> T) :
  sum_n n (fun l => (f l + g l)%T) = (sum_n n f + sum_n n g)%T.
Proof. induction n as [|n IH]; simpl; [ring|]. rewrite IH. ring. Qed.

Lemma sum_n_scal_l (n : nat) (c : T) (f : nat -> T) :
  sum_n n (fun l => (c * f l)%T) = (c * sum_n n f)%T.
Proof. induction n as [|n IH]; simpl; [ring|]. rewrite IH. ring. Qed.

Lemma sum_n_scal_r (n : nat) (c : T) (f : nat -> T) :
  sum_n n (fun l => (f l * c)%T) = (sum_n n f * c)%T.
Proof. induction n as [|n IH]; simpl; [ring|]. rewrite IH. ring. Qed.

Lemma sum_n_exchange (n m : nat) (f : nat -> nat -> T) :
  sum_n n (fun i => sum_n m (fun j => f i j))
  = sum_n m (fun j => sum_n n (fun i => f i j)).
Proof.
  induction n as [|n IH]; simpl.
  - symmetry. apply sum_n_zero.
  - rewrite IH, <- sum_n_add. reflexivity.
Qed.

Lemma sum_n_split (n m : nat) (f : nat -> T) :
  sum_n (n + m) f = (sum_n n f + sum_n m (fun l => f (n + l)%nat))%T.
Proof.
  induction m as [|m IH]; simpl.
  - rewrite Nat.add_0_r. ring.
  - rewrite Nat.add_succ_r. simpl. rewrite IH. ring.
Qed.

Lemma tconj_zero : tconj zero = (zero : T).
Proof.
  pose proof (tconj_add zero zero) as E.
  replace (zero + zero)%T with (zero : T) in E by ring.
  assert (E' : (tconj zero - tconj zero = tconj zero + tconj zero - tconj zero)%T)
    by (rewrite <- E; reflexivity).
  ring_simplify in E'. symmetry. exact E'.
Qed.

Lemma sum_n_conj (n : nat) (f : nat -> T) :
  tconj (sum_n n f) = sum_n n (fun l => tconj (f l)).
Proof.
  induction n as [|n IH]; simpl; [apply tconj_zero|].
  rewrite tconj_add, IH. reflexivity.
Qed.

End Sums.

(** ** Elementary operations: [evalArray], [scale], [gemv] *)

Section Elementary.
Context {T : Type} `{ST : Scalar T}.
Import ScalarArray.

Add Ring scalar_ring_elem : (@scalar_ring T ST).

Lemma tconj_pone : tconj pone = (pone : T).
Proof.
  assert (E : tconj pone = tconj (pone * tconj pone)%T :> T).
  { rewrite tconj_mul, tconj_conj. ring. }
  replace (pone * tconj pone)%T with (tconj pone : T) in E by ring.
  rewrite tconj_conj in E. exact E.
Qed.

Lemma gemm_get (transA transB : ascii) (a b c : t T) (i j : nat) :
  get (gemm transA transB pone a b zero c) i j
  = sum_n (if is_char transA "N" then cols a else rows a)
      (fun l => (op_get transA a i l * op_get transB b l j)%T).
Proof. unfold gemm; simpl. ring. Qed.

(** The dense value of a block: entry [(i, j)] of [a * b^T]. *)
Lemma evalArray_get (r : RkMatrix.t T) (d : t T) (i j : nat) :
  RkMatrix.evalArray r = Some d ->
  get d i j = sum_n (RkMatrix.rank r)
                (fun l => (get (RkMatrix.panelA r) i l * get (RkMatrix.panelB r) j l)%T).
Proof.
  unfold RkMatrix.evalArray, RkMatrix.rank, RkMatrix.panelA, RkMatrix.panelB.
  destruct (RkMatrix.a r) as [pa|]; simpl.
  - destruct (cols pa =? 0) eqn:E; simpl.
    + intros [= <-]. apply Nat.eqb_eq in E. rewrite E. reflexivity.
    + destruct (RkMatrix.b r) as [pb|]; simpl; [|discriminate].
      intros [= <-]. rewrite gemm_get. reflexivity.
  - intros [= <-]. reflexivity.
Qed.

Lemma evalArray_shape (r : RkMatrix.t T) (d : t T) :
  RkMatrix.evalArray r = Some d ->
  rows d = IndexSet.size (RkMatrix.rows r) /\ cols d = IndexSet.size (RkMatrix.cols r).
Proof.
  unfold RkMatrix.evalArray.
  destruct (negb (RkMatrix.rank r =? 0)).
  - destruct (RkMatrix.a r) as [pa|]; simpl; [|discriminate].
    destruct (RkMatrix.b r) as [pb|]; simpl; [|discriminate].
    intros [= <-]. split; reflexivity.
  - intros [= <-]. split; reflexivity.
Qed.

(** C9. [scale(alpha)] multiplies the entries of panel [a] by [alpha] and
    nothing else: panel [b], the index sets, the rank and the method are
    those of the block before, and the dense value is [alpha] times the
    dense value before.  On the empty block nothing happens. *)
Theorem scale_frame (alpha : T) (r : RkMatrix.t T) :
  RkMatrix.b (RkMatrix.scale alpha r) = RkMatrix.b r /\
  RkMatrix.rows (RkMatrix.scale alpha r) = RkMatrix.rows r /\
  RkMatrix.cols (RkMatrix.scale alpha r) = RkMatrix.cols r /\
  RkMatrix.rank (RkMatrix.scale alpha r) = RkMatrix.rank r /\
  RkMatrix.method (RkMatrix.scale alpha r) = RkMatrix.method r /\
  RkMatrix.a (RkMatrix.scale alpha r) = ScalarArray.scale alpha <$> RkMatrix.a r /\
  (RkMatrix.a r = None -> RkMatrix.scale alpha r = r) /\
  (forall d, RkMatrix.evalArray r = Some d ->
     exists d', RkMatrix.evalArray (RkMatrix.scale alpha r) = Some d' /\
       rows d' = rows d /\ cols d' = cols d /\
       forall i j, get d' i j = (alpha * get d i j)%T).
Proof.
  unfold RkMatrix.scale.
  destruct (RkMatrix.a r) as [pa|] eqn:Ea; simpl.
  - do 3 (split; [reflexivity|]).
    split; [unfold RkMatrix.rank; simpl; rewrite Ea; reflexivity|].
    do 2 (split; [reflexivity|]). split; [discriminate|].
    intros d Hd.
    unfold RkMatrix.evalArray, RkMatrix.rank in *. simpl. rewrite Ea in Hd.
    destruct (negb (cols pa =? 0)).
    + destruct (RkMatrix.b r) as [pb|]; simpl in *; [|discriminate].
      injection Hd as <-. eexists. split; [reflexivity|].
      repeat split. intros i j. rewrite !gemm_get. simpl.
      rewrite <- sum_n_scal_l. apply sum_n_ext. intros l _.
      unfold op_get; simpl. ring.
    + injection Hd as <-. eexists. split; [reflexivity|].
      repeat split. intros i j. simpl. ring.
  - do 7 (split; [rewrite ?Ea; reflexivity|]).
    intros d Hd. exists d. split; [exact Hd|]. repeat split.
    intros i j. rewrite (evalArray_get _ _ _ _ Hd).
    unfold RkMatrix.rank. rewrite Ea. simpl. ring.
Qed.

Lemma product_through_rank (k n : nat) (A B X : nat -> nat -> T) (i j : nat) :
  sum_n k (fun l => (A i l * sum_n n (fun c => B c l * X c j))%T)
  = sum_n n (fun c => (sum_n k (fun l => A i l * B c l) * X c j)%T).
Proof.
  transitivity (sum_n k (fun l => sum_n n (fun c => (A i l * B c l * X c j)%T))).
  { apply sum_n_ext; intros l _. rewrite <- sum_n_scal_l.
    apply sum_n_ext; intros c _. ring. }
  rewrite sum_n_exchange. apply sum_n_ext; intros c _.
  rewrite <- sum_n_scal_r. reflexivity.
Qed.

Lemma is_char_cases (c : ascii) :
  c = "N"%char \/ c = "T"%char \/ c = "C"%char ->
  (c = "N"%char /\ is_char c "N" = true) \/
  (c = "T"%char /\ is_char c "N" = false /\ is_char c "T" = true) \/
  (c = "C"%char /\ is_char c "N" = false /\ is_char c "T" = false
     /\ is_char c "C" = true).
Proof. intros [-> | [-> | ->]]; auto 10. Qed.

(** [gemv] on the block as a value. *)
Lemma gemv_value_spec (trans : ascii) (alpha beta : T) (x y : t T)
    (r : RkMatrix.t T) (d : t T) :
  RkMatrix.invariant r ->
  RkMatrix.evalArray r = Some d ->
  trans = "N"%char \/ trans = "T"%char \/ trans = "C"%char ->
  rows x = (if is_char trans "N" then cols d else rows d) ->
  exists y',
    RkMatrix.gemv trans alpha x beta y r = Some y' /\
    rows y' = rows y /\ cols y' = cols y /\
    (forall i j,
       get y' i j
       = (beta * get y i j
          + alpha * sum_n (rows x) (fun c => op_get trans d i c * get x c j))%T) /\
    (RkMatrix.rank r = 0 ->
       y' = if teqb beta pone then y else ScalarArray.scale beta y) /\
    (trans = "C"%char -> RkMatrix.rank r <> 0 ->
       forall i j,
         get y' i j
         = (alpha * sum_n (RkMatrix.rank r)
                      (fun l => tconj (get (RkMatrix.panelB r) i l)
                                * sum_n (rows x)
                                    (fun c => tconj (get (RkMatrix.panelA r) c l)
                                              * get x c j))
            + beta * get y i j)%T).
Proof.
  intros Hinv Hd Htrans Hx.
  pose proof (evalArray_shape _ _ Hd) as [Hdr Hdc].
  pose proof (fun i j => evalArray_get r d i j Hd) as Hget.
  unfold RkMatrix.gemv.
  destruct (RkMatrix.rank r =? 0) eqn:Erk.
  - apply Nat.eqb_eq in Erk.
    assert (Hzero : forall i c, get d i c = zero).
    { intros i c. rewrite Hget, Erk. reflexivity. }
    exists (if negb (teqb beta pone) then ScalarArray.scale beta y else y).
    split; [reflexivity|].
    split; [destruct (teqb beta pone); reflexivity|].
    split; [destruct (teqb beta pone); reflexivity|].
    split.
    + intros i j.
      assert (E : sum_n (rows x) (fun c => (op_get trans d i c * get x c j)%T) = zero).
      { rewrite <- (sum_n_zero (rows x)). apply sum_n_ext; intros c _.
        unfold op_get. destruct (is_char trans "N"); [rewrite Hzero; ring|].
        destruct (is_char trans "T"); rewrite Hzero, ?tconj_zero; ring. }
      rewrite E. destruct (teqb beta pone) eqn:Eb; simpl.
      * apply teqb_eq in Eb. subst beta. ring.
      * ring.
    + split; [intros _; destruct (teqb beta pone); reflexivity|].
      intros _ Hne. contradiction.
  - apply Nat.eqb_neq in Erk.
    unfold RkMatrix.invariant in Hinv.
    unfold RkMatrix.rank, RkMatrix.panelA, RkMatrix.panelB in *.
    destruct (RkMatrix.a r) as [pa|]; [|contradiction].
    destruct (RkMatrix.b r) as [pb|]; [|contradiction].
    destruct Hinv as (Hk & Hkk & Hra & Hrb). simpl in *.
    destruct (is_char_cases trans Htrans)
      as [[-> EN] | [(-> & EN & ET) | (-> & EN & ET & EC)]];
      rewrite ?EN, ?ET, ?EC in *; simpl in Hx |- *;
      eexists; (split; [reflexivity|]); (do 2 (split; [reflexivity|])); split.
    + intros i j. simpl. unfold op_get at 1 2; simpl.
      rewrite Hx, Hdc, <- Hrb.
      transitivity (alpha * sum_n (cols pa)
        (fun l => get pa i l * sum_n (rows pb) (fun c => get pb c l * get x c j))
        + beta * get y i j)%T.
      { f_equal. f_equal. apply sum_n_ext; intros l _. f_equal.
        unfold op_get; simpl. ring. }
      rewrite (product_through_rank (cols pa) (rows pb) (get pa) (get pb) (get x) i j).
      rewrite (sum_n_ext _ _ (fun c => (op_get "N" d i c * get x c j)%T)).
      { ring. }
      intros c _. unfold op_get; simpl. rewrite Hget. reflexivity.
    + split; [intros E0; contradiction|]. intros [=].
    + intros i j. simpl. unfold op_get at 1 2; simpl.
      rewrite Hx, Hdr, <- Hra.
      transitivity (alpha * sum_n (cols pb)
        (fun l => get pb i l * sum_n (rows pa) (fun c => get pa c l * get x c j))
        + beta * get y i j)%T.
      { f_equal. f_equal. apply sum_n_ext; intros l _. f_equal.
        unfold op_get; simpl. ring. }
      rewrite (product_through_rank (cols pb) (rows pa) (get pb) (get pa) (get x) i j).
      rewrite (sum_n_ext _ _ (fun c => (op_get "T" d i c * get x c j)%T)).
      { ring. }
      intros c _. unfold op_get; simpl. rewrite Hget, Hkk.
      f_equal. apply sum_n_ext; intros l _. ring.
    + split; [intros E0; contradiction|]. intros [=].
    + intros i j. simpl. unfold op_get at 1 2; simpl.
      rewrite Hx, Hdr, <- Hra.
      transitivity (alpha * sum_n (cols pb)
        (fun l => tconj (get pb i l)
                  * sum_n (rows pa) (fun c => tconj (get pa c l) * get x c j))
        + beta * get y i j)%T.
      { f_equal. f_equal. apply sum_n_ext; intros l _. f_equal.
        unfold op_get; simpl. ring. }
      rewrite (product_through_rank (cols pb) (rows pa) (fun i l => tconj (get pb i l))
                 (fun c l => tconj (get pa c l)) (get x) i j).
      rewrite (sum_n_ext _ _ (fun c => (op_get "C" d i c * get x c j)%T)).
      { ring. }
      intros c _. unfold op_get; simpl. rewrite Hget, Hkk, sum_n_conj.
      f_equal. apply sum_n_ext; intros l _. rewrite tconj_mul. ring.
    + split; [intros E0; contradiction|]. intros _ _ i j. simpl.
      unfold op_get at 1 2, copy; simpl. rewrite Hx, Hdr, <- Hra, <- Hkk.
      f_equal. f_equal. apply sum_n_ext; intros l _. f_equal.
      unfold op_get; simpl. ring.
Qed.

End Elementary.

(** ** The product of two Rk blocks *)

Section RkRk.
Context {T D : Type} `{ST : Scalar T} `{RD : Real D}
  `{LP : !ScalarArray.Lapack T D}.
Variable env : Env.
Variable approx : RkApproximationControl.t D.
Variable oob : D.
Import ScalarArray.

Add Ring scalar_ring_rkrk : (@scalar_ring T ST).

Lemma triple_product_left (k1 k2 n : nat) (A P Q B : nat -> nat -> T) (i j : nat) :
  sum_n k1 (fun l => (A i l * sum_n k2 (fun q => B j q
                                 * sum_n n (fun c => P c l * Q c q)))%T)
  = sum_n n (fun c => (sum_n k1 (fun l => A i l * P c l)
                       * sum_n k2 (fun q => Q c q * B j q))%T).
Proof.
  transitivity (sum_n k1 (fun l => (A i l * sum_n n (fun c => P c l
                   * sum_n k2 (fun q => Q c q * B j q)))%T)).
  { apply sum_n_ext; intros l _. f_equal.
    transitivity (sum_n k2 (fun q => sum_n n (fun c => (P c l * (Q c q * B j q))%T))).
    { apply sum_n_ext; intros q _. rewrite <- sum_n_scal_l.
      apply sum_n_ext; intros c _. ring. }
    rewrite sum_n_exchange. apply sum_n_ext; intros c _.
    rewrite sum_n_scal_l. reflexivity. }
  transitivity (sum_n k1 (fun l => sum_n n (fun c => (A i l * P c l
                   * sum_n k2 (fun q => Q c q * B j q))%T))).
  { apply sum_n_ext; intros l _. rewrite <- sum_n_scal_l.
    apply sum_n_ext; intros c _. ring. }
  rewrite sum_n_exchange. apply sum_n_ext; intros c _.
  rewrite sum_n_scal_r. reflexivity.
Qed.

Lemma triple_product_right (k1 k2 n : nat) (A P Q B : nat -> nat -> T) (i j : nat) :
  sum_n k2 (fun q => (sum_n k1 (fun l => A i l * sum_n n (fun c => P c l * Q c q))
                      * B j q)%T)
  = sum_n n (fun c => (sum_n k1 (fun l => A i l * P c l)
                       * sum_n k2 (fun q => Q c q * B j q))%T).
Proof.
  rewrite <- triple_product_left.
  transitivity (sum_n k2 (fun q => sum_n k1 (fun l =>
      (A i l * (B j q * sum_n n (fun c => P c l * Q c q)))%T))).
  { apply sum_n_ext; intros q _. rewrite <- sum_n_scal_r.
    apply sum_n_ext; intros l _. ring. }
  rewrite sum_n_exchange. apply sum_n_ext; intros l _.
  rewrite sum_n_scal_l. reflexivity.
Qed.

(** The dense value of [op(r)] in terms of the free and contracted panels. *)
Lemma op_dense (trans : ascii) (r : RkMatrix.t T) (d : t T) (i c : nat) :
  trans = "N"%char \/ trans = "T"%char \/ trans = "C"%char ->
  RkMatrix.invariant r ->
  RkMatrix.evalArray r = Some d ->
  op_get trans d i c
  = sum_n (RkMatrix.rank r)
      (fun l => (cj trans (get (freeA trans r) i l)
                 * cj trans (get (freeB trans r) c l))%T).
Proof.
  intros Htrans Hinv Hd.
  pose proof (fun i j => evalArray_get r d i j Hd) as Hget.
  unfold op_get, cj, freeA, freeB.
  destruct (is_char_cases trans Htrans)
    as [[-> EN] | [(-> & EN & ET) | (-> & EN & ET & EC)]];
    rewrite ?EN, ?ET, ?EC; simpl; rewrite Hget.
  - reflexivity.
  - apply sum_n_ext; intros l _. ring.
  - rewrite sum_n_conj. apply sum_n_ext; intros l _. rewrite tconj_mul. ring.
Qed.

Lemma pone_zero_simpl (x y : T) : (pone * x + zero * y)%T = x.
Proof. ring. Qed.

Ltac push_conj :=
  repeat first
    [ rewrite pone_zero_simpl | rewrite sum_n_conj | rewrite tconj_mul
    | rewrite tconj_add | rewrite tconj_conj | rewrite tconj_zero
    | rewrite tconj_pone ].

Ltac crunch_with k :=
  push_conj;
  first
    [ reflexivity
    | ring
    | apply sum_n_ext; intros ? _; unfold op_get; simpl; k
    | progress f_equal; k ].

Ltac crunch0 := push_conj; first [ reflexivity | ring ].
Ltac crunch1 := crunch_with crunch0.
Ltac crunch2 := crunch_with crunch1.
Ltac crunch := crunch_with crunch2.

Lemma invariant_panels (r : RkMatrix.t T) :
  RkMatrix.invariant r -> RkMatrix.rank r <> 0 ->
  exists pa pb,
    RkMatrix.a r = Some pa /\ RkMatrix.b r = Some pb /\
    cols pa = RkMatrix.rank r /\ cols pb = RkMatrix.rank r /\
    rows pa = IndexSet.size (RkMatrix.rows r) /\
    rows pb = IndexSet.size (RkMatrix.cols r).
Proof.
  unfold RkMatrix.invariant, RkMatrix.rank.
  destruct (RkMatrix.a r) as [pa|], (RkMatrix.b r) as [pb|];
    try contradiction; intros (Hk & Hkk & Hra & Hrb) Hne.
  exists pa, pb. repeat split; auto.
Qed.

Lemma IndexSet_eqb_size (s o : IndexSet.t) :
  IndexSet.eqb s o = true -> IndexSet.size s = IndexSet.size o.
Proof.
  unfold IndexSet.eqb. intros E. apply andb_true_iff in E as [_ E].
  now apply Nat.eqb_eq in E.
Qed.

(** The panels that [multiplyRkRk] returns without [HMAT_NEW_RKRK]. *)
Lemma multiplyRkRk_panels (trans1 trans2 : ascii) (r1 r2 : RkMatrix.t T) :
  HMAT_NEW_RKRK env = false ->
  RkMatrix.invariant r1 -> RkMatrix.invariant r2 ->
  RkMatrix.rank r1 <> 0 -> RkMatrix.rank r2 <> 0 ->
  trans1 = "N"%char \/ trans1 = "T"%char \/ trans1 = "C"%char ->
  trans2 = "N"%char \/ trans2 = "T"%char \/ trans2 = "C"%char ->
  IndexSet.eqb (if is_char trans1 "N" then RkMatrix.cols r1 else RkMatrix.rows r1)
               (if is_char trans2 "N" then RkMatrix.rows r2 else RkMatrix.cols r2)
  = true ->
  exists newA newB,
    RkMatrix.multiplyRkRk env approx oob trans1 trans2 r1 r2
    = Some (RkMatrix.mk
              (if is_char trans1 "N" then RkMatrix.rows r1 else RkMatrix.cols r1)
              (if is_char trans2 "N" then RkMatrix.cols r2 else RkMatrix.rows r2)
              (Some newA) (Some newB)
              (Z.min (RkMatrix.method r1) (RkMatrix.method r2))) /\
    rows newA = rows (freeA trans1 r1) /\
    rows newB = rows (freeB trans2 r2) /\
    cols newA = Nat.min (RkMatrix.rank r1) (RkMatrix.rank r2) /\
    cols newB = Nat.min (RkMatrix.rank r1) (RkMatrix.rank r2) /\
    (RkMatrix.rank r1 < RkMatrix.rank r2 ->
       (forall i l, get newA i l = cj trans1 (get (freeA trans1 r1) i l)) /\
       (forall j l, get newB j l
          = sum_n (RkMatrix.rank r2)
              (fun q => (cj trans2 (get (freeB trans2 r2) j q)
                         * mid trans1 trans2 r1 r2 l q)%T))) /\
    (RkMatrix.rank r2 <= RkMatrix.rank r1 ->
       (forall i q, get newA i q
          = sum_n (RkMatrix.rank r1)
              (fun l => (cj trans1 (get (freeA trans1 r1) i l)
                         * mid trans1 trans2 r1 r2 l q)%T)) /\
       (forall j q, get newB j q = cj trans2 (get (freeB trans2 r2) j q))).
Proof.
  intros Henv Hinv1 Hinv2 Hne1 Hne2 Ht1 Ht2 Hsets.
  destruct (invariant_panels r1 Hinv1 Hne1)
    as (pa1 & pb1 & Ea1 & Eb1 & Hca1 & Hcb1 & Hra1 & Hrb1).
  destruct (invariant_panels r2 Hinv2 Hne2)
    as (pa2 & pb2 & Ea2 & Eb2 & Hca2 & Hcb2 & Hra2 & Hrb2).
  apply IndexSet_eqb_size in Hsets as Hsize.
  apply Nat.eqb_eq in Hra1 as Cra1. apply Nat.eqb_eq in Hrb1 as Crb1.
  apply Nat.eqb_eq in Hra2 as Cra2. apply Nat.eqb_eq in Hrb2 as Crb2.
  unfold RkMatrix.multiplyRkRk, mid, freeA, freeB, cj,
    RkMatrix.panelA, RkMatrix.panelB.
  rewrite Hsets, Henv, Ea1, Eb1, Ea2, Eb2. simpl.
  destruct (is_char_cases trans1 Ht1)
    as [[-> EN1] | [(-> & EN1 & ET1) | (-> & EN1 & ET1 & EC1)]];
  destruct (is_char_cases trans2 Ht2)
    as [[-> EN2] | [(-> & EN2 & ET2) | (-> & EN2 & ET2 & EC2)]];
  simpl in Hsize |- *.
  all: rewrite <- ?Hra1, <- ?Hrb1, <- ?Hra2, <- ?Hrb2 in Hsize.
  all: apply Nat.eqb_eq in Hsize as Csize; rewrite Csize; simpl.
  all: destruct (RkMatrix.rank r1 <? RkMatrix.rank r2) eqn:Ecmp;
    [apply Nat.ltb_lt in Ecmp | apply Nat.ltb_ge in Ecmp].
  all: unfold RkMatrix.RkMatrix, copy; simpl.
  all: rewrite ?Cra1, ?Crb1, ?Cra2, ?Crb2; simpl.
  all: eexists; eexists; (split; [reflexivity|]); simpl.
  all: (split; [reflexivity|]); (split; [reflexivity|]).
  all: (split; [rewrite ?Hca1, ?Hcb1, ?Hca2, ?Hcb2; lia|]).
  all: (split; [rewrite ?Hca1, ?Hcb1, ?Hca2, ?Hcb2; lia|]).
  all: (split; [intros Hlt | intros Hge]; try lia).
  all: split; intros i j; simpl; rewrite ?Hca1, ?Hcb1, ?Hca2, ?Hcb2;
    unfold op_get; simpl; crunch.
Qed.

(** C3. Without [HMAT_NEW_RKRK], on two non-empty blocks that satisfy the
    invariant and whose inner index sets agree, and for flags among ['N'],
    ['T'], ['C'], [multiplyRkRk] returns a block [res] of rank
    [min(rank(r1), rank(r2))] whose method is the minimum of the two
    methods.  If [rank(r1) < rank(r2)] its panels are [a1] and
    [b2 * T^t], otherwise [a1 * T] and [b2], where [T = b1^t * a2] and the
    panels are conjugated as the flags ask.  Its dense value is
    [op1(M(r1)) * op2(M(r2))], exactly. *)
Theorem multiplyRkRk_old (trans1 trans2 : ascii) (r1 r2 : RkMatrix.t T) :
  HMAT_NEW_RKRK env = false ->
  RkMatrix.invariant r1 -> RkMatrix.invariant r2 ->
  RkMatrix.rank r1 <> 0 -> RkMatrix.rank r2 <> 0 ->
  trans1 = "N"%char \/ trans1 = "T"%char \/ trans1 = "C"%char ->
  trans2 = "N"%char \/ trans2 = "T"%char \/ trans2 = "C"%char ->
  IndexSet.eqb (if is_char trans1 "N" then RkMatrix.cols r1 else RkMatrix.rows r1)
               (if is_char trans2 "N" then RkMatrix.rows r2 else RkMatrix.cols r2)
  = true ->
  exists res,
    RkMatrix.multiplyRkRk env approx oob trans1 trans2 r1 r2 = Some res /\
    RkMatrix.invariant res /\
    RkMatrix.rank res = Nat.min (RkMatrix.rank r1) (RkMatrix.rank r2) /\
    RkMatrix.method res = Z.min (RkMatrix.method r1) (RkMatrix.method r2) /\
    RkMatrix.rows res
      = (if is_char trans1 "N" then RkMatrix.rows r1 else RkMatrix.cols r1) /\
    RkMatrix.cols res
      = (if is_char trans2 "N" then RkMatrix.cols r2 else RkMatrix.rows r2) /\
    (RkMatrix.rank r1 < RkMatrix.rank r2 ->
       (forall i l, get (RkMatrix.panelA res) i l
                    = cj trans1 (get (freeA trans1 r1) i l)) /\
       (forall j l, get (RkMatrix.panelB res) j l
          = sum_n (RkMatrix.rank r2)
              (fun q => (cj trans2 (get (freeB trans2 r2) j q)
                         * mid trans1 trans2 r1 r2 l q)%T))) /\
    (RkMatrix.rank r2 <= RkMatrix.rank r1 ->
       (forall i q, get (RkMatrix.panelA res) i q
          = sum_n (RkMatrix.rank r1)
              (fun l => (cj trans1 (get (freeA trans1 r1) i l)
                         * mid trans1 trans2 r1 r2 l q)%T)) /\
       (forall j q, get (RkMatrix.panelB res) j q
                    = cj trans2 (get (freeB trans2 r2) j q))) /\
    (forall d1 d2,
       RkMatrix.evalArray r1 = Some d1 -> RkMatrix.evalArray r2 = Some d2 ->
       exists d,
         RkMatrix.evalArray res = Some d /\
         forall i j,
           get d i j
           = sum_n (if is_char trans1 "N" then cols d1 else rows d1)
               (fun c => (op_get trans1 d1 i c * op_get trans2 d2 c j)%T)).
Proof.
  intros Henv Hinv1 Hinv2 Hne1 Hne2 Ht1 Ht2 Hsets.
  destruct (multiplyRkRk_panels trans1 trans2 r1 r2 Henv Hinv1 Hinv2 Hne1 Hne2
              Ht1 Ht2 Hsets)
    as (newA & newB & Hres & HrA & HrB & HcA & HcB & Hlt & Hge).
  destruct (invariant_panels r1 Hinv1 Hne1)
    as (pa1 & pb1 & Ea1 & Eb1 & Hca1 & Hcb1 & Hra1 & Hrb1).
  destruct (invariant_panels r2 Hinv2 Hne2)
    as (pa2 & pb2 & Ea2 & Eb2 & Hca2 & Hcb2 & Hra2 & Hrb2).
  eexists. split; [exact Hres|].
  assert (Hrank : RkMatrix.rank
            (RkMatrix.mk
               (if is_char trans1 "N" then RkMatrix.rows r1 else RkMatrix.cols r1)
               (if is_char trans2 "N" then RkMatrix.cols r2 else RkMatrix.rows r2)
               (Some newA) (Some newB)
               (Z.min (RkMatrix.method r1) (RkMatrix.method r2)))
          = Nat.min (RkMatrix.rank r1) (RkMatrix.rank r2)) by exact HcA.
  split.
  { unfold RkMatrix.invariant; simpl. rewrite HcA, HcB, HrA, HrB.
    unfold freeA, freeB, RkMatrix.panelA, RkMatrix.panelB.
    rewrite Ea1, Eb1, Ea2, Eb2; simpl.
    repeat split; try lia;
      destruct (is_char trans1 "N"), (is_char trans2 "N"); assumption. }
  split; [exact Hrank|].
  do 3 (split; [reflexivity|]).
  split; [exact Hlt|]. split; [exact Hge|].
  intros d1 d2 Hd1 Hd2.
  match goal with
  | |- exists d, RkMatrix.evalArray ?r = _ /\ _ =>
      destruct (RkMatrix.evalArray r) as [d|] eqn:Hd
  end.
  2:{ unfold RkMatrix.evalArray in Hd. simpl in Hd.
      destruct (negb _) in Hd; discriminate. }
  exists d. split; [reflexivity|]. intros i j.
  rewrite (evalArray_get _ _ i j Hd), Hrank.
  unfold RkMatrix.panelA, RkMatrix.panelB; simpl.
  assert (Hinner : (if is_char trans1 "N" then cols d1 else rows d1)
                   = rows (freeB trans1 r1)).
  { destruct (evalArray_shape _ _ Hd1) as [R1 C1].
    unfold freeB, RkMatrix.panelA, RkMatrix.panelB. rewrite Ea1, Eb1; simpl.
    destruct (is_char trans1 "N"); congruence. }
  rewrite Hinner.
  rewrite (sum_n_ext (rows (freeB trans1 r1))
    (fun c => (op_get trans1 d1 i c * op_get trans2 d2 c j)%T)
    (fun c => (sum_n (RkMatrix.rank r1)
                 (fun l => cj trans1 (get (freeA trans1 r1) i l)
                           * cj trans1 (get (freeB trans1 r1) c l))
               * sum_n (RkMatrix.rank r2)
                   (fun q => cj trans2 (get (freeA trans2 r2) c q)
                             * cj trans2 (get (freeB trans2 r2) j q)))%T)).
  2:{ intros c _. cbv beta. rewrite (op_dense trans1 r1 d1 i c Ht1 Hinv1 Hd1).
      rewrite (op_dense trans2 r2 d2 c j Ht2 Hinv2 Hd2). reflexivity. }
  destruct (Nat.lt_ge_cases (RkMatrix.rank r1) (RkMatrix.rank r2)) as [Hc|Hc].
  - destruct (Hlt Hc) as [HA HB]. rewrite Nat.min_l by lia.
    rewrite <- (triple_product_left (RkMatrix.rank r1) (RkMatrix.rank r2)
                  (rows (freeB trans1 r1))
                  (fun i l => cj trans1 (get (freeA trans1 r1) i l))
                  (fun c l => cj trans1 (get (freeB trans1 r1) c l))
                  (fun c q => cj trans2 (get (freeA trans2 r2) c q))
                  (fun j q => cj trans2 (get (freeB trans2 r2) j q)) i j).
    apply sum_n_ext; intros l _. rewrite HA, HB. reflexivity.
  - destruct (Hge Hc) as [HA HB]. rewrite Nat.min_r by lia.
    rewrite <- (triple_product_right (RkMatrix.rank r1) (RkMatrix.rank r2)
                  (rows (freeB trans1 r1))
                  (fun i l => cj trans1 (get (freeA trans1 r1) i l))
                  (fun c l => cj trans1 (get (freeB trans1 r1) c l))
                  (fun c q => cj trans2 (get (freeA trans2 r2) c q))
                  (fun j q => cj trans2 (get (freeB trans2 r2) j q)) i j).
    apply sum_n_ext; intros q _. rewrite HA, HB. reflexivity.
Qed.

End RkRk.

(** ** The mixed products *)

Section Mixed.
Context {T D HM : Type} `{ST : Scalar T} `{HMC : !RkMatrix.HMatrix T HM}.
Variable NoCompression : Z.
Import ScalarArray.

Lemma RkMatrix_method (pa pb : option (t T)) (rs cs : IndexSet.t) (m : Z)
    (res : RkMatrix.t T) :
  RkMatrix.RkMatrix pa rs pb cs m = Some res ->
  RkMatrix.method res = m /\ RkMatrix.rows res = rs /\ RkMatrix.cols res = cs
  /\ RkMatrix.a res = pa /\ RkMatrix.b res = pb.
Proof.
  unfold RkMatrix.RkMatrix.
  destruct pa as [pa|], pb as [pb|]; try discriminate.
  - destruct (_ && _); [|discriminate]. intros [= <-]. repeat split.
  - intros [= <-]. repeat split.
Qed.

Lemma RkMatrix_ok (pa pb : t T) (rs cs : IndexSet.t) (m : Z) :
  rows pa = IndexSet.size rs -> rows pb = IndexSet.size cs ->
  RkMatrix.RkMatrix (Some pa) rs (Some pb) cs m
  = Some (RkMatrix.mk rs cs (Some pa) (Some pb) m).
Proof.
  intros Ha Hb. unfold RkMatrix.RkMatrix.
  apply Nat.eqb_eq in Ha, Hb. rewrite Ha, Hb. reflexivity.
Qed.

Lemma swapped_panels (trans : ascii) (r : RkMatrix.t T) :
  RkMatrix.invariant r -> RkMatrix.rank r <> 0 ->
  exists pa pb,
    (if negb (is_char trans "N") then RkMatrix.b r else RkMatrix.a r) = Some pa /\
    (if negb (is_char trans "N") then RkMatrix.a r else RkMatrix.b r) = Some pb /\
    rows pa = IndexSet.size
                (if is_char trans "N" then RkMatrix.rows r else RkMatrix.cols r) /\
    rows pb = IndexSet.size
                (if is_char trans "N" then RkMatrix.cols r else RkMatrix.rows r).
Proof.
  unfold RkMatrix.invariant, RkMatrix.rank.
  destruct (RkMatrix.a r) as [pa|], (RkMatrix.b r) as [pb|];
    try contradiction; intros (Hk & Hkk & Hra & Hrb) Hne.
  destruct (is_char trans "N"); simpl; eauto 10.
Qed.

Ltac close_ctor Hra Hrb :=
  unfold RkMatrix.RkMatrix, copy, FullMatrix.rows, FullMatrix.cols; simpl;
  rewrite ?Hra, ?Hrb, ?Nat.eqb_refl; simpl;
  eexists; split; reflexivity.

(** C8, as the code has it.  On an Rk operand of rank at least 1 that
    satisfies the invariant, each of the four mixed products returns a block
    whose method is the method of the Rk operand, for all flags among ['N'],
    ['T'], ['C'].  On an Rk operand of rank 0, [multiplyHRk] returns an empty
    block with the method of the operand. *)
Theorem mixed_products_method (transR transX : ascii) (rk : RkMatrix.t T)
    (m : FullMatrix.t T) (h : HM) :
  transR = "N"%char \/ transR = "T"%char \/ transR = "C"%char ->
  transX = "N"%char \/ transX = "T"%char \/ transX = "C"%char ->
  (RkMatrix.invariant rk -> RkMatrix.rank rk <> 0 ->
     ((if is_char transR "N" then IndexSet.size (RkMatrix.cols rk)
       else IndexSet.size (RkMatrix.rows rk))
      = (if is_char transX "N" then FullMatrix.rows m else FullMatrix.cols m) ->
      exists res,
        RkMatrix.multiplyRkFull NoCompression transR transX rk m = Some res /\
        RkMatrix.method res = RkMatrix.method rk) /\
     (exists res,
        RkMatrix.multiplyFullRk transX transR m rk = Some res /\
        RkMatrix.method res = RkMatrix.method rk) /\
     (IndexSet.eqb (if is_char transR "N" then RkMatrix.cols rk else RkMatrix.rows rk)
                   (if is_char transX "N" then RkMatrix.h_rows h else RkMatrix.h_cols h)
      = true ->
      exists res,
        RkMatrix.multiplyRkH transR transX rk h = Some res /\
        RkMatrix.method res = RkMatrix.method rk) /\
     (exists res,
        RkMatrix.multiplyHRk transX transR h rk = Some res /\
        RkMatrix.method res = RkMatrix.method rk)) /\
  (RkMatrix.rank rk = 0 ->
     exists res,
       RkMatrix.multiplyHRk transX transR h rk = Some res /\
       RkMatrix.method res = RkMatrix.method rk /\
       RkMatrix.a res = None /\ RkMatrix.b res = None).
Proof.
  intros HtR HtX. split.
  - intros Hinv Hne.
    destruct (swapped_panels transR rk Hinv Hne) as (pa & pb & Ea & Eb & Hra & Hrb).
    apply Nat.eqb_neq in Hne as Cne.
    repeat split.
    + intros Hdim. apply Nat.eqb_eq in Hdim as Cdim.
      unfold RkMatrix.multiplyRkFull. rewrite Cdim, Cne, Ea, Eb. simpl.
      destruct (is_char_cases transR HtR)
        as [[-> EN1] | [(-> & EN1 & ET1) | (-> & EN1 & ET1 & EC1)]];
      destruct (is_char_cases transX HtX)
        as [[-> EN2] | [(-> & EN2 & ET2) | (-> & EN2 & ET2 & EC2)]];
      simpl in *; close_ctor Hra Hrb.
    + unfold RkMatrix.multiplyFullRk. rewrite Ea, Eb. simpl.
      destruct (is_char_cases transR HtR)
        as [[-> EN1] | [(-> & EN1 & ET1) | (-> & EN1 & ET1 & EC1)]];
      destruct (is_char_cases transX HtX)
        as [[-> EN2] | [(-> & EN2 & ET2) | (-> & EN2 & ET2 & EC2)]];
      simpl in *; close_ctor Hra Hrb.
    + intros Hsets. unfold RkMatrix.multiplyRkH. rewrite Hsets, Ea, Eb. simpl.
      destruct (is_char_cases transR HtR)
        as [[-> EN1] | [(-> & EN1 & ET1) | (-> & EN1 & ET1 & EC1)]];
      destruct (is_char_cases transX HtX)
        as [[-> EN2] | [(-> & EN2 & ET2) | (-> & EN2 & ET2 & EC2)]];
      simpl in *; close_ctor Hra Hrb.
    + unfold RkMatrix.multiplyHRk. rewrite Cne, Ea, Eb. simpl.
      destruct (is_char_cases transR HtR)
        as [[-> EN1] | [(-> & EN1 & ET1) | (-> & EN1 & ET1 & EC1)]];
      destruct (is_char_cases transX HtX)
        as [[-> EN2] | [(-> & EN2 & ET2) | (-> & EN2 & ET2 & EC2)]];
      simpl in *; close_ctor Hra Hrb.
  - intros H0. apply Nat.eqb_eq in H0 as C0.
    unfold RkMatrix.multiplyHRk. rewrite C0. simpl.
    eexists. repeat split.
Qed.

End Mixed.

(** ** The structural invariant *)

Section Invariant.
Context {T D : Type} `{ST : Scalar T} `{RD : Real D}
  `{LP : !ScalarArray.Lapack T D} `{CP : !RkMatrix.Compression T D}.
Variable env : Env.
Variable approx : RkApproximationControl.t D.
Variable oob : D.
Import ScalarArray.

(** The contract of [truncatedSvd]: the block it returns is over the index
    sets of the dense block and satisfies the invariant. *)
Hypothesis truncatedSvd_block :
  forall (m : FullMatrix.t T) (epsilon : D),
    RkMatrix.invariant (RkMatrix.truncatedSvd m epsilon) /\
    RkMatrix.rows (RkMatrix.truncatedSvd m epsilon) = FullMatrix.rows_ m /\
    RkMatrix.cols (RkMatrix.truncatedSvd m epsilon) = FullMatrix.cols_ m.

Lemma invariant_clear (r : RkMatrix.t T) : RkMatrix.invariant (RkMatrix.clear r).
Proof. exact I. Qed.

Lemma invariant_mk (rs cs : IndexSet.t) (pa pb : t T) (m : Z) (k : nat) :
  1 <= k -> cols pa = k -> cols pb = k ->
  rows pa = IndexSet.size rs -> rows pb = IndexSet.size cs ->
  RkMatrix.invariant (RkMatrix.mk rs cs (Some pa) (Some pb) m).
Proof. intros. unfold RkMatrix.invariant; simpl. repeat split; lia. Qed.

Lemma invariant_transpose (r : RkMatrix.t T) :
  RkMatrix.invariant r -> RkMatrix.invariant (RkMatrix.transpose r).
Proof.
  unfold RkMatrix.invariant, RkMatrix.transpose; simpl.
  destruct (RkMatrix.a r), (RkMatrix.b r); try tauto.
  intros (? & ? & ? & ?). repeat split; lia.
Qed.

Lemma invariant_scale (alpha : T) (r : RkMatrix.t T) :
  RkMatrix.invariant r -> RkMatrix.invariant (RkMatrix.scale alpha r).
Proof.
  unfold RkMatrix.invariant, RkMatrix.scale.
  destruct (RkMatrix.a r) as [pa|] eqn:Ea; simpl; [|rewrite Ea; tauto].
  destruct (RkMatrix.b r); tauto.
Qed.

Lemma invariant_conjugate (r : RkMatrix.t T) :
  RkMatrix.invariant r -> RkMatrix.invariant (RkMatrix.conjugate r).
Proof.
  unfold RkMatrix.invariant, RkMatrix.conjugate; simpl.
  destruct (RkMatrix.a r), (RkMatrix.b r); simpl; tauto.
Qed.

Lemma IndexSet_same_eq (s o : IndexSet.t) : IndexSet.same s o = true -> s = o.
Proof.
  destruct s as [sa so ss], o as [oa oo os]. unfold IndexSet.same, IndexSet.eqb; simpl.
  intros E. apply andb_true_iff in E as [E0 E]. apply andb_true_iff in E as [E1 E2].
  apply Nat.eqb_eq in E0, E1, E2. congruence.
Qed.

Lemma IndexSet_same_refl (s : IndexSet.t) : IndexSet.same s s = true.
Proof. unfold IndexSet.same, IndexSet.eqb. rewrite !Nat.eqb_refl. reflexivity. Qed.

Lemma invariant_swap (this other this' other' : RkMatrix.t T) :
  RkMatrix.invariant this -> RkMatrix.invariant other ->
  RkMatrix.swap this other = Some (this', other') ->
  RkMatrix.invariant this' /\ RkMatrix.invariant other'.
Proof.
  unfold RkMatrix.swap. intros Ht Ho.
  destruct (IndexSet.same (RkMatrix.rows this) (RkMatrix.rows other)) eqn:Er;
    [|discriminate].
  destruct (IndexSet.same (RkMatrix.cols this) (RkMatrix.cols other)) eqn:Ec;
    [|discriminate].
  apply IndexSet_same_eq in Er, Ec. simpl. intros [= <- <-].
  unfold RkMatrix.invariant in *; simpl. rewrite Er, Ec.
  split; [exact Ho|]. rewrite <- Er, <- Ec. exact Ht.
Qed.

Lemma findK_cases (sigma : list D) (epsilon : D) (newK : Z) :
  RkApproximationControl.findK env approx oob sigma epsilon = Some newK ->
  (newK =? 0)%Z = false -> (newK <? 0)%Z = false -> 1 <= Z.to_nat newK.
Proof. intros _ E0 E1. apply Z.eqb_neq in E0. apply Z.ltb_ge in E1. lia. Qed.

Lemma invariant_mGSTruncate (epsilon : D) (initialPivotA initialPivotB : nat)
    (r r' : RkMatrix.t T) :
  RkMatrix.invariant r ->
  RkMatrix.mGSTruncate env approx oob epsilon initialPivotA initialPivotB r = Some r' ->
  RkMatrix.invariant r'.
Proof.
  intros Hinv. unfold RkMatrix.mGSTruncate.
  destruct (RkMatrix.rank r =? 0).
  { destruct (_ || _); [discriminate|]. intros [= <-]. exact Hinv. }
  unfold RkMatrix.invariant in Hinv.
  destruct (RkMatrix.a r) as [pa|]; [|destruct (RkMatrix.b r); simpl; discriminate].
  destruct (RkMatrix.b r) as [pb|]; [|contradiction].
  destruct Hinv as (Hk & Hkk & Hra & Hrb). simpl.
  unfold modifiedGramSchmidt.
  destruct (mgs_entries pa epsilon initialPivotA) as [[kA qa] ra].
  destruct (kA =? 0); [intros [= <-]; apply invariant_clear|].
  destruct (mgs_entries pb epsilon initialPivotB) as [[kB qb] rb].
  destruct (kB =? 0); [intros [= <-]; apply invariant_clear|].
  destruct (svdDecomposition _ _) as [[[ur sr] vr]|]; simpl; [|discriminate].
  destruct (RkApproximationControl.findK _ _ _ _ _) as [newK|] eqn:EK; simpl;
    [|discriminate].
  destruct (newK =? 0)%Z eqn:E0; [intros [= <-]; apply invariant_clear|].
  destruct (newK <? 0)%Z eqn:E1; [discriminate|].
  intros [= <-].
  apply (invariant_mk _ _ _ _ _ (Z.to_nat newK)); simpl; auto.
  eapply findK_cases; eauto.
Qed.

Lemma invariant_truncate (epsilon : D) (initialPivotA initialPivotB : nat)
    (r r' : RkMatrix.t T) :
  RkMatrix.invariant r ->
  RkMatrix.truncate env approx oob epsilon initialPivotA initialPivotB r = Some r' ->
  RkMatrix.invariant r'.
Proof.
  intros Hinv. unfold RkMatrix.truncate.
  destruct (negb _); [discriminate|].
  destruct (RkMatrix.rank r =? 0).
  { destruct (_ || _); [discriminate|]. intros [= <-]. exact Hinv. }
  destruct (negb _); [discriminate|].
  destruct (_ <? _).
  { destruct (RkMatrix.eval r) as [tmp|] eqn:Etmp; simpl; [|discriminate].
    destruct (RkMatrix.swap r _) as [[t' o']|] eqn:Esw; simpl; [|discriminate].
    intros [= <-].
    destruct (truncatedSvd_block tmp epsilon) as (Hi & _ & _).
    exact (proj1 (invariant_swap _ _ _ _ Hinv Hi Esw)). }
  destruct (HMAT_RECOMPRESS_MGS env); [apply invariant_mGSTruncate; exact Hinv|].
  destruct (RkMatrix.a r) as [pa|]; simpl; [|discriminate].
  destruct (RkMatrix.b r) as [pb|]; simpl; [|discriminate].
  unfold qrDecomposition.
  destruct (qr_entries pa _) as [qa ra].
  destruct (qr_entries pb _) as [qb rb].
  destruct (svdDecomposition _ _) as [[[u sigma] v]|]; simpl; [|discriminate].
  destruct (RkApproximationControl.findK _ _ _ _ _) as [newK|] eqn:EK; simpl;
    [|discriminate].
  destruct (newK =? 0)%Z eqn:E0; [intros [= <-]; apply invariant_clear|].
  destruct (newK <? 0)%Z eqn:E1; [discriminate|].
  intros [= <-].
  apply (invariant_mk _ _ _ _ _ (Z.to_nat newK)).
  - eapply findK_cases; eauto.
  - unfold RkMatrix.applyQ. simpl. destruct (negb _); reflexivity.
  - unfold RkMatrix.applyQ. simpl. destruct (negb _); reflexivity.
  - unfold RkMatrix.applyQ. simpl. destruct (negb _); reflexivity.
  - unfold RkMatrix.applyQ. simpl. destruct (negb _); reflexivity.
Qed.

End Invariant.

(** ** Coalescing *)

Section Coalesce.
Context {T D : Type} `{ST : Scalar T} `{RD : Real D}
  `{LP : !ScalarArray.Lapack T D} `{CP : !RkMatrix.Compression T D}.
Variable env : Env.
Variable approx : RkApproximationControl.t D.
Variable oob : D.
Import ScalarArray.

Add Ring scalar_ring_coalesce : (@scalar_ring T ST).

Lemma select_step (this : RkMatrix.t T) (e : T * option (RkMatrix.t T))
    (us : list (T * RkMatrix.t T)) (rt : nat) (mm : Z) :
  RkMatrix.select this (Some (us, rt, mm)) e
  = match RkMatrix.participates e with
    | None => Some (us, rt, mm)
    | Some u =>
        if negb (IndexSet.isSubset (RkMatrix.rows u.2) (RkMatrix.rows this)
                 && IndexSet.isSubset (RkMatrix.cols u.2) (RkMatrix.cols this))
        then None
        else Some (us ++ [u], rt + RkMatrix.rank u.2, Z.min mm (RkMatrix.method u.2))
    end.
Proof.
  unfold RkMatrix.select, RkMatrix.participates.
  destruct e as [alpha [p|]]; simpl; [|reflexivity].
  destruct (_ || _); reflexivity.
Qed.

Lemma select_fold (this : RkMatrix.t T) (parts : list (T * option (RkMatrix.t T)))
    (us : list (T * RkMatrix.t T)) (rt : nat) (mm : Z) :
  Forall (valid_term this) (omap RkMatrix.participates parts) ->
  fold_left (RkMatrix.select this) parts (Some (us, rt, mm))
  = Some (us ++ omap RkMatrix.participates parts,
          rt + RkMatrix.total_rank (omap RkMatrix.participates parts),
          min_method (omap RkMatrix.participates parts) mm).
Proof.
  revert us rt mm.
  induction parts as [|e parts IH]; intros us rt mm Hv.
  - simpl. rewrite app_nil_r, Nat.add_0_r. reflexivity.
  - cbn [fold_left omap list_omap] in Hv |- *. rewrite select_step.
    destruct (RkMatrix.participates e) as [u|].
    + inversion Hv as [|u' l [_ [Hr Hc]] Hv']; subst.
      rewrite Hr, Hc. cbn [negb andb]. rewrite (IH _ _ _ Hv').
      rewrite <- app_assoc. cbn [app RkMatrix.total_rank fold_right].
      unfold min_method. cbn [fold_left].
      f_equal. f_equal. f_equal. unfold RkMatrix.total_rank. lia.
    + apply IH, Hv.
Qed.

Lemma omap_cons {A B : Type} (f : A -> option B) (x : A) (l : list A) :
  omap f (x :: l)
  = match f x with Some y => y :: omap f l | None => omap f l end.
Proof. reflexivity. Qed.

Lemma within_empty (lo i : nat) : within lo 0 i = false.
Proof.
  unfold within. apply andb_false_iff.
  destruct (Nat.leb_spec lo i); auto. right. apply Nat.ltb_ge. lia.
Qed.

Lemma contributions_terms (this : RkMatrix.t T)
    (parts : list (T * option (RkMatrix.t T))) (i j : nat) :
  RkMatrix.contributions this parts i j
  = sum_terms this (omap RkMatrix.participates parts) i j.
Proof.
  induction parts as [|[alpha o] parts IH]; [reflexivity|].
  rewrite omap_cons. cbn [RkMatrix.contributions fst snd].
  destruct o as [p|]; [|exact IH].
  rewrite IH.
  destruct (RkMatrix.participates (alpha, Some p)) as [u|] eqn:Ep;
    unfold RkMatrix.participates in Ep; cbn [fst snd] in Ep.
  - destruct (_ || _) in Ep; [discriminate|]. injection Ep as <-. reflexivity.
  - assert (Z0 : (alpha * RkMatrix.embed this p i j)%T = zero); [|rewrite Z0; ring].
    destruct (RkMatrix.rank p =? 0) eqn:E0.
    { apply Nat.eqb_eq in E0. unfold RkMatrix.embed, RkMatrix.dense.
      rewrite E0. cbn [sum_n]. destruct (_ && _); ring. }
    destruct (IndexSet.size (RkMatrix.rows p) =? 0) eqn:E1.
    { apply Nat.eqb_eq in E1. unfold RkMatrix.embed.
      rewrite E1, within_empty. cbn [andb]. ring. }
    destruct (IndexSet.size (RkMatrix.cols p) =? 0) eqn:E2.
    { apply Nat.eqb_eq in E2. unfold RkMatrix.embed.
      rewrite E2, within_empty, andb_false_r. ring. }
    destruct (teqb alpha zero) eqn:E3; [|discriminate].
    apply teqb_eq in E3. subst alpha. ring.
Qed.

Lemma within_true (lo len i : nat) :
  within lo len i = true -> lo <= i /\ i < lo + len.
Proof.
  unfold within. intros E. apply andb_true_iff in E as [E1 E2].
  apply Nat.leb_le in E1. apply Nat.ltb_lt in E2. lia.
Qed.

Lemma within_shift (lo len l : nat) : l < len -> within lo len (lo + l) = true.
Proof.
  intros Hl. unfold within. apply andb_true_iff. split.
  - apply Nat.leb_le. lia.
  - apply Nat.ltb_lt. lia.
Qed.

Lemma within_below (lo len l : nat) : l < lo -> within lo len l = false.
Proof.
  intros Hl. unfold within. apply andb_false_iff. left. apply Nat.leb_gt. lia.
Qed.

Lemma within_above (lo len l : nat) : lo + len <= l -> within lo len l = false.
Proof.
  intros Hl. unfold within. apply andb_false_iff. right. apply Nat.ltb_ge. lia.
Qed.

(** One turn of the filling loop, entry by entry. *)
Lemma place_spec (this : RkMatrix.t T) (A B : t T) (K : nat) (alpha : T)
    (p : RkMatrix.t T) :
  RkMatrix.invariant p -> RkMatrix.rank p <> 0 ->
  exists A' B',
    RkMatrix.place this (A, B, K) (alpha, p) = (A', B', K + RkMatrix.rank p) /\
    (forall i l,
       get A' i l
       = if within (IndexSet.offset (RkMatrix.rows p)
                    - IndexSet.offset (RkMatrix.rows this))
                   (IndexSet.size (RkMatrix.rows p)) i
            && within K (RkMatrix.rank p) l
         then (alpha * get (RkMatrix.panelA p)
                         (i - (IndexSet.offset (RkMatrix.rows p)
                               - IndexSet.offset (RkMatrix.rows this)))
                         (l - K))%T
         else get A i l) /\
    (forall j l,
       get B' j l
       = if within (IndexSet.offset (RkMatrix.cols p)
                    - IndexSet.offset (RkMatrix.cols this))
                   (IndexSet.size (RkMatrix.cols p)) j
            && within K (RkMatrix.rank p) l
         then get (RkMatrix.panelB p)
                (j - (IndexSet.offset (RkMatrix.cols p)
                      - IndexSet.offset (RkMatrix.cols this)))
                (l - K)
         else get B j l).
Proof.
  intros Hinv Hne.
  destruct (invariant_panels p Hinv Hne)
    as (pa & pb & Ea & Eb & Hca & Hcb & Hra & Hrb).
  unfold RkMatrix.place, RkMatrix.panelA, RkMatrix.panelB.
  cbn [fst snd]. rewrite Ea, Eb. cbn [default from_option]. unfold id.
  set (ro := IndexSet.offset (RkMatrix.rows p) - IndexSet.offset (RkMatrix.rows this)).
  eexists. eexists. split; [reflexivity|]. split.
  - intros i l. rewrite <- Hra, <- Hca.
    destruct (teqb alpha pone) eqn:Eal; cbn [negb].
    + apply teqb_eq in Eal. subst alpha. cbn [copyMatrixAtOffset get].
      destruct (_ && _); [ring | reflexivity].
    + cbn [through_view scale sub copyMatrixAtOffset get rows cols].
      destruct (within _ (rows pa) i) eqn:Wi; cbn [andb]; [|reflexivity].
      destruct (within K (cols pa) l) eqn:Wl; [|reflexivity].
      apply within_true in Wi as Hi. apply within_true in Wl as Hl.
      replace (ro + (i - ro)) with i by lia.
      replace (K + (l - K)) with l by lia.
      rewrite Wi, Wl. reflexivity.
  - intros j l. rewrite <- Hrb, <- Hcb. reflexivity.
Qed.

Lemma place_shape (this : RkMatrix.t T) (A B : t T) (K : nat)
    (u : T * RkMatrix.t T) :
  rows (RkMatrix.place this (A, B, K) u).1.1 = rows A /\
  cols (RkMatrix.place this (A, B, K) u).1.1 = cols A /\
  rows (RkMatrix.place this (A, B, K) u).1.2 = rows B /\
  cols (RkMatrix.place this (A, B, K) u).1.2 = cols B.
Proof.
  unfold RkMatrix.place. cbn [fst snd].
  destruct (negb (teqb u.1 pone)); repeat split.
Qed.

(** The filling loop: the product of the two panels built so far grows by
    the contribution of each term. *)
Lemma fold_place (this : RkMatrix.t T) (us : list (T * RkMatrix.t T)) :
  forall (A B : t T) (K : nat),
    Forall (fun u => RkMatrix.invariant u.2 /\ RkMatrix.rank u.2 <> 0) us ->
    (forall i l, K <= l -> get A i l = zero) ->
    (forall j l, K <= l -> get B j l = zero) ->
    exists A' B',
      fold_left (RkMatrix.place this) us (A, B, K)
      = (A', B', K + RkMatrix.total_rank us) /\
      rows A' = rows A /\ cols A' = cols A /\
      rows B' = rows B /\ cols B' = cols B /\
      forall i j,
        sum_n (K + RkMatrix.total_rank us) (fun l => (get A' i l * get B' j l)%T)
        = (sum_n K (fun l => (get A i l * get B j l)%T) + sum_terms this us i j)%T.
Proof.
  induction us as [|[alpha p] us IH]; intros A B K Hus HA HB.
  - exists A, B. cbn [fold_left RkMatrix.total_rank fold_right sum_terms].
    rewrite Nat.add_0_r. repeat split. intros i j. ring.
  - inversion Hus as [|u l [Hinv Hne] Hus']; subst. cbn [snd] in Hinv, Hne.
    destruct (place_spec this A B K alpha p Hinv Hne) as (A1 & B1 & E1 & GA & GB).
    pose proof (place_shape this A B K (alpha, p)) as Hshape.
    rewrite E1 in Hshape. cbn [fst snd] in Hshape.
    destruct Hshape as (S1 & S2 & S3 & S4).
    destruct (IH A1 B1 (K + RkMatrix.rank p) Hus') as (A' & B' & E' & T1 & T2 & T3 & T4 & HS).
    { intros i l Hl. rewrite GA, (within_above K _ l) by lia.
      rewrite andb_false_r. apply HA. lia. }
    { intros j l Hl. rewrite GB, (within_above K _ l) by lia.
      rewrite andb_false_r. apply HB. lia. }
    exists A', B'. cbn [fold_left]. rewrite E1, E'.
    cbn [RkMatrix.total_rank fold_right snd].
    fold (RkMatrix.total_rank us).
    split; [f_equal; lia|].
    split; [congruence|]. split; [congruence|].
    split; [congruence|]. split; [congruence|].
    intros i j. rewrite Nat.add_assoc, HS. cbn [sum_terms fold_right fst snd].
    fold (sum_terms this us i j).
    rewrite sum_n_split.
    rewrite (sum_n_ext K _ (fun l => (get A i l * get B j l)%T)).
    2:{ intros l Hl. rewrite GA, GB, (within_below K _ l) by lia.
        rewrite !andb_false_r. reflexivity. }
    assert (Hterm : sum_n (RkMatrix.rank p)
              (fun l => (get A1 i (K + l) * get B1 j (K + l))%T)
            = (alpha * RkMatrix.embed this p i j)%T); [|rewrite Hterm; ring].
    unfold RkMatrix.embed, RkMatrix.dense.
    set (ro := IndexSet.offset (RkMatrix.rows p) - IndexSet.offset (RkMatrix.rows this)).
    set (co := IndexSet.offset (RkMatrix.cols p) - IndexSet.offset (RkMatrix.cols this)).
    rewrite (sum_n_ext _ _
      (fun l => (if within ro (IndexSet.size (RkMatrix.rows p)) i
                    && within co (IndexSet.size (RkMatrix.cols p)) j
                 then alpha * (get (RkMatrix.panelA p) (i - ro) l
                               * get (RkMatrix.panelB p) (j - co) l)
                 else zero)%T)).
    2:{ intros l Hl. rewrite GA, GB, (within_shift K _ l) by lia.
        fold ro. fold co. rewrite !andb_true_r.
        replace (K + l - K) with l by lia.
        rewrite (HA i (K + l)), (HB j (K + l)) by lia.
        destruct (within ro _ i), (within co _ j); cbn [andb]; ring. }
    destruct (_ && _).
    + rewrite <- sum_n_scal_l. reflexivity.
    + rewrite sum_n_zero. ring.
Qed.

(** *** The reordering of [HMAT_MGS_BESTRK] *)

Lemma swap_at_perm {A : Type} (l : list A) (i j : nat) :
  Permutation (RkMatrix.swap_at l i j) l.
Proof.
  unfold RkMatrix.swap_at.
  destruct (l !! i) as [x|] eqn:Ei; [|reflexivity].
  destruct (l !! j) as [y|] eqn:Ej; [|reflexivity].
  exact (Permutation_insert_swap l j i y x Ej Ei).
Qed.

Lemma reorder_perm (this : RkMatrix.t T) (us : list (T * RkMatrix.t T)) :
  Permutation (RkMatrix.reorder this us).1.1 us.
Proof.
  unfold RkMatrix.reorder.
  destruct (RkMatrix.best_single this us) as [bestRk bestGain].
  set (us1 := if (0 <? bestRk)%Z then _ else _).
  assert (P1 : Permutation us1 us).
  { unfold us1. destruct (0 <? bestRk)%Z; [apply swap_at_perm | reflexivity]. }
  destruct (RkMatrix.pivot_of _) as [pA pB].
  destruct (RkMatrix.best_pair this us1 bestGain) as [[[[g i1] i2] rkA] rkB].
  destruct (0 <=? i1)%Z; cbn [fst]; [|exact P1].
  rewrite swap_at_perm, swap_at_perm. exact P1.
Qed.

Lemma sum_terms_perm (this : RkMatrix.t T) (us vs : list (T * RkMatrix.t T))
    (i j : nat) :
  Permutation us vs -> sum_terms this us i j = sum_terms this vs i j.
Proof.
  induction 1 as [|u us vs _ IH|u v us|us vs ws _ IH1 _ IH2]; cbn [sum_terms fold_right].
  - reflexivity.
  - fold (sum_terms this us i j). fold (sum_terms this vs i j). rewrite IH. reflexivity.
  - ring.
  - congruence.
Qed.

Lemma total_rank_perm (us vs : list (T * RkMatrix.t T)) :
  Permutation us vs -> RkMatrix.total_rank us = RkMatrix.total_rank vs.
Proof.
  induction 1 as [|u us vs _ IH|u v us|us vs ws _ IH1 _ IH2];
    cbn [RkMatrix.total_rank fold_right].
  - reflexivity.
  - fold (RkMatrix.total_rank us). fold (RkMatrix.total_rank vs). lia.
  - lia.
  - congruence.
Qed.

(** *** The dense detour *)

Lemma evalArray_total (r : RkMatrix.t T) :
  RkMatrix.invariant r -> exists d, RkMatrix.evalArray r = Some d.
Proof.
  unfold RkMatrix.invariant, RkMatrix.evalArray.
  unfold RkMatrix.rank.
  destruct (RkMatrix.a r) as [pa|], (RkMatrix.b r) as [pb|];
    try contradiction; intros _.
  - destruct (negb _); cbn; eauto.
  - cbn. eauto.
Qed.

Lemma eval_dense (r : RkMatrix.t T) :
  RkMatrix.invariant r ->
  exists m, RkMatrix.eval r = Some m /\
    FullMatrix.rows_ m = RkMatrix.rows r /\ FullMatrix.cols_ m = RkMatrix.cols r /\
    forall i j, get (FullMatrix.data m) i j = RkMatrix.dense r i j.
Proof.
  intros Hinv. destruct (evalArray_total r Hinv) as [d Hd].
  unfold RkMatrix.eval. rewrite Hd. cbn. eexists. split; [reflexivity|].
  cbn. repeat split. intros i j. apply (evalArray_get r d i j Hd).
Qed.

Lemma add_full_spec (this : RkMatrix.t T) (me : FullMatrix.t T) (alpha : T)
    (p : RkMatrix.t T) (m : FullMatrix.t T) :
  valid_term this (alpha, p) ->
  FullMatrix.rows_ m = RkMatrix.rows p -> FullMatrix.cols_ m = RkMatrix.cols p ->
  (forall i j, get (FullMatrix.data m) i j = RkMatrix.dense p i j) ->
  exists me',
    RkMatrix.add_full this (Some me) (alpha, Some m) = Some me' /\
    FullMatrix.rows_ me' = FullMatrix.rows_ me /\
    FullMatrix.cols_ me' = FullMatrix.cols_ me /\
    forall i j,
      get (FullMatrix.data me') i j
      = (get (FullMatrix.data me) i j + alpha * RkMatrix.embed this p i j)%T.
Proof.
  intros (_ & Hr & Hc) Er Ec Hm. cbn [snd] in Hr, Hc.
  unfold RkMatrix.add_full. cbn [mbind option_bind fst snd].
  rewrite Er, Ec, Hr, Hc. cbn [andb negb].
  eexists. split; [reflexivity|]. cbn [FullMatrix.rows_ FullMatrix.cols_ FullMatrix.data].
  split; [reflexivity|]. split; [reflexivity|].
  intros i j. unfold RkMatrix.embed.
  set (ro := IndexSet.offset (RkMatrix.rows p) - IndexSet.offset (RkMatrix.rows this)).
  set (co := IndexSet.offset (RkMatrix.cols p) - IndexSet.offset (RkMatrix.cols this)).
  cbn [through_view axpy sub get rows cols].
  destruct (within ro _ i) eqn:Wi; cbn [andb]; [|ring].
  destruct (within co _ j) eqn:Wj; [|ring].
  apply within_true in Wi. apply within_true in Wj.
  replace (ro + (i - ro)) with i by lia.
  replace (co + (j - co)) with j by lia.
  rewrite Hm. reflexivity.
Qed.

Lemma fold_add_full (this : RkMatrix.t T) (us : list (T * RkMatrix.t T)) :
  forall me : FullMatrix.t T,
    Forall (valid_term this) us ->
    exists fulls me',
      RkMatrix.eval_parts us = Some fulls /\
      fold_left (RkMatrix.add_full this) fulls (Some me) = Some me' /\
      FullMatrix.rows_ me' = FullMatrix.rows_ me /\
      FullMatrix.cols_ me' = FullMatrix.cols_ me /\
      forall i j,
        get (FullMatrix.data me') i j
        = (get (FullMatrix.data me) i j + sum_terms this us i j)%T.
Proof.
  induction us as [|[alpha p] us IH]; intros me Hus.
  - exists [], me. cbn. repeat split. intros i j. ring.
  - inversion Hus as [|u l Hu Hus']; subst.
    destruct (eval_dense p (proj1 Hu)) as (m & Em & Er & Ec & Hm).
    destruct (add_full_spec this me alpha p m Hu Er Ec Hm) as (me1 & E1 & R1 & C1 & G1).
    destruct (IH me1 Hus') as (fulls & me' & Ef & E' & R' & C' & G').
    exists ((alpha, Some m) :: fulls), me'.
    cbn [RkMatrix.eval_parts fst snd]. rewrite Em, Ef. cbn [mbind option_bind].
    split; [reflexivity|]. cbn [fold_left]. rewrite E1.
    split; [exact E'|]. split; [congruence|]. split; [congruence|].
    intros i j. rewrite G', G1. cbn [sum_terms fold_right fst snd].
    fold (sum_terms this us i j). ring.
Qed.

(** *** The terms of the sum *)

Lemma participates_rank (e : T * option (RkMatrix.t T)) (u : T * RkMatrix.t T) :
  RkMatrix.participates e = Some u -> RkMatrix.rank u.2 <> 0.
Proof.
  unfold RkMatrix.participates. destruct e as [alpha [p|]]; cbn [fst snd]; [|discriminate].
  destruct (RkMatrix.rank p =? 0) eqn:E0; cbn [orb]; [discriminate|].
  destruct (_ || _); [discriminate|]. intros [= <-]. cbn. now apply Nat.eqb_neq.
Qed.

Lemma omap_participates_rank (parts : list (T * option (RkMatrix.t T))) :
  Forall (fun u => RkMatrix.rank u.2 <> 0) (omap RkMatrix.participates parts).
Proof.
  induction parts as [|e parts IH]; [constructor|].
  rewrite omap_cons. destruct (RkMatrix.participates e) as [u|] eqn:Ep; [|exact IH].
  constructor; [eapply participates_rank; eauto | exact IH].
Qed.

Lemma isSubset_refl (s : IndexSet.t) : IndexSet.isSubset s s = true.
Proof.
  unfold IndexSet.isSubset. apply andb_true_iff. split; apply Nat.leb_le; lia.
Qed.

Lemma terms_valid (this : RkMatrix.t T) (parts : list (T * option (RkMatrix.t T))) :
  RkMatrix.invariant this ->
  Forall (valid_term this) (omap RkMatrix.participates parts) ->
  Forall (fun u => valid_term this u /\ RkMatrix.rank u.2 <> 0)
         (RkMatrix.terms this parts).
Proof.
  intros Hinv Hv. unfold RkMatrix.terms. apply Forall_app_2.
  - destruct (RkMatrix.rank this =? 0) eqn:E0; cbn [negb]; constructor; [|constructor].
    split; [|now apply Nat.eqb_neq].
    split; [exact Hinv|]. split; apply isSubset_refl.
  - pose proof (omap_participates_rank parts) as Hr.
    revert Hv Hr. generalize (omap RkMatrix.participates parts).
    induction l as [|u l IH]; intros Hv Hr; constructor;
      inversion Hv; inversion Hr; subst; auto.
Qed.

Lemma total_rank_app (us vs : list (T * RkMatrix.t T)) :
  RkMatrix.total_rank (us ++ vs) = RkMatrix.total_rank us + RkMatrix.total_rank vs.
Proof.
  induction us as [|u us IH]; cbn [app RkMatrix.total_rank fold_right]; [reflexivity|].
  fold (RkMatrix.total_rank (us ++ vs)). fold (RkMatrix.total_rank us). lia.
Qed.

Lemma total_rank_pos (us : list (T * RkMatrix.t T)) :
  us <> [] -> Forall (fun u => RkMatrix.rank u.2 <> 0) us ->
  1 <= RkMatrix.total_rank us.
Proof.
  destruct us as [|u us]; [congruence|]. intros _ Hr.
  inversion Hr; subst. cbn [RkMatrix.total_rank fold_right]. lia.
Qed.

Lemma has_panels_ok (us : list (T * RkMatrix.t T)) :
  Forall (fun u => RkMatrix.invariant u.2 /\ RkMatrix.rank u.2 <> 0) us ->
  forallb RkMatrix.has_panels us = true.
Proof.
  induction 1 as [|u us [Hinv Hne] _ IH]; [reflexivity|].
  cbn [forallb]. rewrite IH, andb_true_r.
  destruct (invariant_panels u.2 Hinv Hne) as (pa & pb & Ea & Eb & _).
  unfold RkMatrix.has_panels. rewrite Ea, Eb. reflexivity.
Qed.

Lemma sum_terms_app (this : RkMatrix.t T) (us vs : list (T * RkMatrix.t T))
    (i j : nat) :
  sum_terms this (us ++ vs) i j
  = (sum_terms this us i j + sum_terms this vs i j)%T.
Proof.
  unfold sum_terms. induction us as [|u us IH]; simpl; [ring|].
  rewrite IH. ring.
Qed.

Lemma embed_self (this : RkMatrix.t T) (i j : nat) :
  i < IndexSet.size (RkMatrix.rows this) ->
  j < IndexSet.size (RkMatrix.cols this) ->
  RkMatrix.embed this this i j = RkMatrix.dense this i j.
Proof.
  intros Hi Hj. unfold RkMatrix.embed. rewrite !Nat.sub_diag.
  pose proof (within_shift 0 _ i Hi) as Wi. pose proof (within_shift 0 _ j Hj) as Wj.
  cbn [Nat.add] in Wi, Wj. rewrite Wi, Wj. cbn [andb].
  rewrite !Nat.sub_0_r. reflexivity.
Qed.

(** The sum over the terms is the target plus the contributions. *)
Lemma sum_terms_expected (this : RkMatrix.t T)
    (parts : list (T * option (RkMatrix.t T))) (i j : nat) :
  i < IndexSet.size (RkMatrix.rows this) ->
  j < IndexSet.size (RkMatrix.cols this) ->
  sum_terms this (RkMatrix.terms this parts) i j
  = (RkMatrix.dense this i j + RkMatrix.contributions this parts i j)%T.
Proof.
  intros Hi Hj. unfold RkMatrix.terms.
  rewrite sum_terms_app, <- contributions_terms. f_equal.
  destruct (RkMatrix.rank this =? 0) eqn:E0; cbn [negb sum_terms fold_right fst snd].
  - apply Nat.eqb_eq in E0. unfold RkMatrix.dense. rewrite E0. reflexivity.
  - rewrite embed_self by assumption. ring.
Qed.

Lemma dense_detour (this : RkMatrix.t T)
    (parts : list (T * option (RkMatrix.t T))) :
  RkMatrix.invariant this ->
  Forall (valid_term this) (omap RkMatrix.participates parts) ->
  exists fulls me,
    RkMatrix.fullParts_of this (RkMatrix.terms this parts) = Some fulls /\
    RkMatrix.formattedAddPartsFull_sum fulls this = Some me /\
    FullMatrix.rows_ me = RkMatrix.rows this /\
    FullMatrix.cols_ me = RkMatrix.cols this /\
    forall i j,
      get (FullMatrix.data me) i j
      = (RkMatrix.dense this i j + RkMatrix.contributions this parts i j)%T.
Proof.
  intros Hinv Hv.
  destruct (eval_dense this Hinv) as (me0 & E0 & R0 & C0 & G0).
  destruct (fold_add_full this (omap RkMatrix.participates parts) me0 Hv)
    as (fulls & me & Ef & Efold & R & C & G).
  unfold RkMatrix.fullParts_of, RkMatrix.terms, RkMatrix.formattedAddPartsFull_sum.
  destruct (negb (RkMatrix.rank this =? 0)); cbn [app]; rewrite Ef;
    cbn [mbind option_bind]; eexists; exists me; (split; [reflexivity|]);
    rewrite E0; cbn [fold_left]; try (unfold RkMatrix.add_full at 2; cbn [mbind option_bind snd]);
    (split; [exact Efold|]); (split; [congruence|]); (split; [congruence|]);
    intros i j; rewrite G, G0, contributions_terms; reflexivity.
Qed.

Lemma coalesce_start (this : RkMatrix.t T)
    (parts : list (T * option (RkMatrix.t T))) :
  Forall (valid_term this) (omap RkMatrix.participates parts) ->
  fold_left (RkMatrix.select this) parts
    (Some (if negb (RkMatrix.rank this =? 0)
           then ([(pone, this)], RkMatrix.rank this, RkMatrix.method this)
           else ([], 0, RkMatrix.method this)))
  = Some (RkMatrix.terms this parts,
          RkMatrix.total_rank (RkMatrix.terms this parts),
          min_method (omap RkMatrix.participates parts) (RkMatrix.method this)).
Proof.
  intros Hv. unfold RkMatrix.terms. rewrite total_rank_app.
  destruct (negb (RkMatrix.rank this =? 0)); rewrite (select_fold _ _ _ _ _ Hv);
    cbn [RkMatrix.total_rank fold_right snd]; repeat f_equal; lia.
Qed.

(** What [formattedAddParts] has built when it reaches its last step. *)
Lemma coalesce_spec (this : RkMatrix.t T)
    (parts : list (T * option (RkMatrix.t T))) (dotruncate : bool) :
  RkMatrix.invariant this ->
  Forall (valid_term this) (omap RkMatrix.participates parts) ->
  let us := RkMatrix.terms this parts in
  let rankTotal := RkMatrix.total_rank us in
  let m := IndexSet.size (RkMatrix.rows this) in
  let n := IndexSet.size (RkMatrix.cols this) in
  let eps_rec := RkApproximationControl.recompressionEpsilon approx in
  exists pend,
    RkMatrix.coalesce env approx parts dotruncate this = Some pend /\
    RkMatrix.formattedAddParts env approx oob parts dotruncate this
    = RkMatrix.finish env approx oob pend /\
    match pend with
    | RkMatrix.Done rk =>
        (us = [] \/ (rankTotal < Nat.min m n /\ (dotruncate = false \/ length us <= 1))) /\
        RkMatrix.invariant rk /\
        RkMatrix.rows rk = RkMatrix.rows this /\
        RkMatrix.cols rk = RkMatrix.cols this /\
        forall i j, i < m -> j < n ->
          RkMatrix.dense rk i j
          = (RkMatrix.dense this i j + RkMatrix.contributions this parts i j)%T
    | RkMatrix.ByTruncate rk eps pA pB =>
        rankTotal < Nat.min m n /\ dotruncate = true /\ 1 < length us /\
        eps = eps_rec /\
        RkMatrix.invariant rk /\
        RkMatrix.rank rk = rankTotal /\
        RkMatrix.rows rk = RkMatrix.rows this /\
        RkMatrix.cols rk = RkMatrix.cols this /\
        forall i j, i < m -> j < n ->
          RkMatrix.dense rk i j
          = (RkMatrix.dense this i j + RkMatrix.contributions this parts i j)%T
    | RkMatrix.ByTruncatedSvd me eps =>
        us <> [] /\ Nat.min m n <= rankTotal /\ eps = eps_rec /\
        FullMatrix.rows_ me = RkMatrix.rows this /\
        FullMatrix.cols_ me = RkMatrix.cols this /\
        forall i j, i < m -> j < n ->
          get (FullMatrix.data me) i j
          = (RkMatrix.dense this i j + RkMatrix.contributions this parts i j)%T
    end.
Proof.
  intros Hinv Hv us rankTotal m n eps_rec.
  pose proof (terms_valid this parts Hinv Hv) as Hus. fold us in Hus.
  assert (Hexp : forall i j, i < m -> j < n ->
            sum_terms this us i j
            = (RkMatrix.dense this i j + RkMatrix.contributions this parts i j)%T)
    by (intros; now apply sum_terms_expected).
  assert (Hfin : forall pend,
            RkMatrix.coalesce env approx parts dotruncate this = Some pend ->
            RkMatrix.formattedAddParts env approx oob parts dotruncate this
            = RkMatrix.finish env approx oob pend).
  { intros pend E. unfold RkMatrix.formattedAddParts. rewrite E. reflexivity. }
  cut (exists pend,
         RkMatrix.coalesce env approx parts dotruncate this = Some pend /\
         match pend with
         | RkMatrix.Done rk =>
             (us = [] \/ (rankTotal < Nat.min m n
                          /\ (dotruncate = false \/ length us <= 1))) /\
             RkMatrix.invariant rk /\
             RkMatrix.rows rk = RkMatrix.rows this /\
             RkMatrix.cols rk = RkMatrix.cols this /\
             forall i j, RkMatrix.dense rk i j = sum_terms this us i j
         | RkMatrix.ByTruncate rk eps pA pB =>
             rankTotal < Nat.min m n /\ dotruncate = true /\ 1 < length us /\
             eps = eps_rec /\
             RkMatrix.invariant rk /\
             RkMatrix.rank rk = rankTotal /\
             RkMatrix.rows rk = RkMatrix.rows this /\
             RkMatrix.cols rk = RkMatrix.cols this /\
             forall i j, RkMatrix.dense rk i j = sum_terms this us i j
         | RkMatrix.ByTruncatedSvd me eps =>
             us <> [] /\ Nat.min m n <= rankTotal /\ eps = eps_rec /\
             FullMatrix.rows_ me = RkMatrix.rows this /\
             FullMatrix.cols_ me = RkMatrix.cols this /\
             forall i j, i < m -> j < n ->
               get (FullMatrix.data me) i j = sum_terms this us i j
         end).
  { intros (pend & Eco & Hp). exists pend. split; [exact Eco|].
    split; [apply Hfin, Eco|].
    destruct pend as [rk | rk eps pA pB | me eps].
    - destruct Hp as (H1 & H2 & H3 & H4 & H5). repeat (split; [assumption|]).
      intros i j Hi Hj. rewrite H5. now apply Hexp.
    - destruct Hp as (H1 & H2 & H3 & H4 & H5 & H6 & H7 & H8 & H9).
      repeat (split; [assumption|]).
      intros i j Hi Hj. rewrite H9. now apply Hexp.
    - destruct Hp as (H1 & H2 & H3 & H4 & H5 & H6). repeat (split; [assumption|]).
      intros i j Hi Hj. rewrite H6 by assumption. now apply Hexp. }
  unfold RkMatrix.coalesce.
  rewrite (coalesce_start this parts Hv). fold us. fold rankTotal.
  cbn [mbind option_bind]. fold m. fold n.
  destruct (length us =? 0) eqn:E0.
  { apply Nat.eqb_eq in E0. apply length_zero_iff_nil in E0.
    cbn. eexists. split; [reflexivity|]. cbn.
    split; [left; exact E0|]. split; [exact I|]. do 2 (split; [reflexivity|]).
    intros i j. rewrite E0. reflexivity. }
  apply Nat.eqb_neq in E0.
  assert (Hne : us <> []) by (intros E; rewrite E in E0; apply E0; reflexivity).
  destruct (Nat.min m n <=? rankTotal) eqn:E1.
  { apply Nat.leb_le in E1.
    destruct (dense_detour this parts Hinv Hv) as (fulls & me & Ef & Eme & R & C & G).
    fold us in Ef. rewrite Ef. cbn [mbind option_bind]. rewrite Eme.
    eexists. split; [reflexivity|]. cbn beta iota.
    repeat (split; [assumption || reflexivity|]).
    intros i j Hi Hj. rewrite G. symmetry. now apply Hexp. }
  apply Nat.leb_gt in E1.
  assert (Hus' : Forall (fun u => RkMatrix.invariant u.2 /\ RkMatrix.rank u.2 <> 0) us).
  { eapply Forall_impl; [exact Hus|]. intros u [[Hi _] Hr]. auto. }
  rewrite (has_panels_ok us Hus'). cbn [negb].
  destruct (RkMatrix.pivot_of _) as [pA0 pB0].
  set (triple := if HMAT_MGS_BESTRK env then RkMatrix.reorder this us
                 else (us, pA0, pB0)).
  assert (Hperm : Permutation triple.1.1 us).
  { unfold triple. destruct (HMAT_MGS_BESTRK env); [apply reorder_perm | reflexivity]. }
  destruct triple as [[us' pA] pB]. cbn [fst] in Hperm.
  assert (Hus'' : Forall (fun u => RkMatrix.invariant u.2 /\ RkMatrix.rank u.2 <> 0) us').
  { rewrite Hperm. exact Hus'. }
  destruct (fold_place this us'
              (new_ (IndexSet.size (RkMatrix.rows this)) rankTotal)
              (new_ (IndexSet.size (RkMatrix.cols this)) rankTotal) 0 Hus'')
    as (A' & B' & Efold & RA & CA & RB & CB & HS); try reflexivity.
  fold m in Efold, RA. fold n in Efold, RB. rewrite Efold.
  rewrite (total_rank_perm _ _ Hperm) in Efold, HS. fold rankTotal in HS.
  rewrite (total_rank_perm _ _ Hperm). fold rankTotal.
  cbn [Nat.add] in HS |- *. rewrite Nat.eqb_refl. cbn [negb].
  cbn [new_ rows cols] in RA, CA, RB, CB.
  rewrite (RkMatrix_ok A' B' _ _ _ RA RB). cbn [mbind option_bind].
  assert (Hrk : 1 <= rankTotal).
  { apply total_rank_pos; [exact Hne|].
    eapply Forall_impl; [exact Hus|]. intros u [_ Hr]. exact Hr. }
  assert (Hdense : forall i j,
            RkMatrix.dense
              (RkMatrix.mk (RkMatrix.rows this) (RkMatrix.cols this) (Some A') (Some B')
                 (min_method (omap RkMatrix.participates parts) (RkMatrix.method this)))
              i j
            = sum_terms this us i j).
  { intros i j. unfold RkMatrix.dense, RkMatrix.rank, RkMatrix.panelA, RkMatrix.panelB.
    cbn. unfold id. rewrite CA, HS. cbn [sum_n].
    rewrite (sum_terms_perm this us' us i j Hperm). ring. }
  assert (Hinv' : RkMatrix.invariant
            (RkMatrix.mk (RkMatrix.rows this) (RkMatrix.cols this) (Some A') (Some B')
               (min_method (omap RkMatrix.participates parts) (RkMatrix.method this)))).
  { apply (invariant_mk _ _ _ _ _ rankTotal); assumption. }
  destruct (1 <? length us) eqn:E2; [apply Nat.ltb_lt in E2 | apply Nat.ltb_ge in E2];
    destruct dotruncate; cbn [andb]; eexists; (split; [reflexivity|]); cbn beta iota.
  - repeat (split; [assumption || reflexivity || lia|]). exact Hdense.
  - split; [right; split; [lia | left; reflexivity]|].
    repeat (split; [assumption || reflexivity|]). exact Hdense.
  - split; [right; split; [lia | right; lia]|].
    repeat (split; [assumption || reflexivity|]). exact Hdense.
  - split; [right; split; [lia | left; reflexivity]|].
    repeat (split; [assumption || reflexivity|]). exact Hdense.
Qed.

End Coalesce.

(** ** The invariant is maintained *)

Section Maintained.
Context {T D : Type} `{ST : Scalar T} `{RD : Real D}
  `{LP : !ScalarArray.Lapack T D} `{CP : !RkMatrix.Compression T D}.
Variable env : Env.
Variable approx : RkApproximationControl.t D.
Variable oob : D.
Import ScalarArray.

Hypothesis truncatedSvd_block :
  forall (m : FullMatrix.t T) (epsilon : D),
    RkMatrix.invariant (RkMatrix.truncatedSvd m epsilon) /\
    RkMatrix.rows (RkMatrix.truncatedSvd m epsilon) = FullMatrix.rows_ m /\
    RkMatrix.cols (RkMatrix.truncatedSvd m epsilon) = FullMatrix.cols_ m.

Lemma invariant_rank (r : RkMatrix.t T) :
  RkMatrix.invariant r ->
  (RkMatrix.rank r = 0 <-> RkMatrix.a r = None /\ RkMatrix.b r = None).
Proof.
  unfold RkMatrix.invariant, RkMatrix.rank.
  destruct (RkMatrix.a r) as [pa|], (RkMatrix.b r) as [pb|]; try contradiction.
  - intros (Hk & _). split; [lia | intros [[=] _]].
  - intros _. split; auto.
Qed.

Lemma invariant_formattedAddParts (this : RkMatrix.t T)
    (parts : list (T * option (RkMatrix.t T))) (dotruncate : bool)
    (res : RkMatrix.t T) :
  RkMatrix.invariant this ->
  Forall (valid_term this) (omap RkMatrix.participates parts) ->
  RkMatrix.formattedAddParts env approx oob parts dotruncate this = Some res ->
  RkMatrix.invariant res.
Proof.
  intros Hinv Hv.
  destruct (coalesce_spec env approx oob this parts dotruncate Hinv Hv)
    as (pend & _ & -> & Hp).
  destruct pend as [rk | rk eps pA pB | me eps]; cbn [RkMatrix.finish].
  - intros [= <-]. apply Hp.
  - apply (invariant_truncate env approx oob truncatedSvd_block). apply Hp.
  - intros [= <-]. apply truncatedSvd_block.
Qed.

(** The constructor checks the row counts only. *)
Lemma constructor_invariant (_a _b : option (t T)) (_rows _cols : IndexSet.t)
    (_method : Z) (res : RkMatrix.t T) :
  RkMatrix.RkMatrix _a _rows _b _cols _method = Some res ->
  res = RkMatrix.mk _rows _cols _a _b _method /\
  (RkMatrix.invariant res <->
   match _a, _b with
   | Some pa, Some pb => 1 <= cols pa /\ cols pa = cols pb
   | _, _ => True
   end).
Proof.
  unfold RkMatrix.RkMatrix.
  destruct _a as [pa|], _b as [pb|]; try discriminate.
  - destruct (rows pa =? _) eqn:Ea; [|discriminate].
    destruct (rows pb =? _) eqn:Eb; [|discriminate].
    apply Nat.eqb_eq in Ea, Eb. intros [= <-]. split; [reflexivity|].
    unfold RkMatrix.invariant; cbn. tauto.
  - intros [= <-]. split; [reflexivity|]. unfold RkMatrix.invariant; cbn. tauto.
Qed.

(** C7, as the code has it.  A block that satisfies the invariant has rank 0
    exactly when both panels are absent.  [clear], [transpose], [scale],
    [conjugate], [swap], [truncate], [mGSTruncate] and [formattedAddParts]
    return blocks that satisfy the invariant when their operands do.  The
    constructor checks the row counts of the panels, not their widths: the
    block it returns satisfies the invariant exactly when the two panels are
    absent or have the same width [k >= 1]. *)
Theorem invariant_maintained (this : RkMatrix.t T) :
  RkMatrix.invariant this ->
  (RkMatrix.rank this = 0 <-> RkMatrix.a this = None /\ RkMatrix.b this = None) /\
  (forall (_a : option (t T)) _rows (_b : option (t T)) _cols _method res,
     RkMatrix.RkMatrix _a _rows _b _cols _method = Some res ->
     (RkMatrix.invariant res <->
      match _a, _b with
      | Some pa, Some pb => 1 <= cols pa /\ cols pa = cols pb
      | _, _ => True
      end)) /\
  RkMatrix.invariant (RkMatrix.clear this) /\
  RkMatrix.rank (RkMatrix.clear this) = 0 /\
  RkMatrix.invariant (RkMatrix.transpose this) /\
  (forall alpha, RkMatrix.invariant (RkMatrix.scale alpha this)) /\
  RkMatrix.invariant (RkMatrix.conjugate this) /\
  (forall other this' other',
     RkMatrix.invariant other ->
     RkMatrix.swap this other = Some (this', other') ->
     RkMatrix.invariant this' /\ RkMatrix.invariant other') /\
  (forall epsilon initialPivotA initialPivotB res,
     RkMatrix.truncate env approx oob epsilon initialPivotA initialPivotB this
     = Some res ->
     RkMatrix.invariant res) /\
  (forall epsilon initialPivotA initialPivotB res,
     RkMatrix.mGSTruncate env approx oob epsilon initialPivotA initialPivotB this
     = Some res ->
     RkMatrix.invariant res) /\
  (forall parts dotruncate res,
     Forall (valid_term this) (omap RkMatrix.participates parts) ->
     RkMatrix.formattedAddParts env approx oob parts dotruncate this = Some res ->
     RkMatrix.invariant res).
Proof.
  intros Hinv.
  split; [apply invariant_rank, Hinv|].
  split; [intros; eapply constructor_invariant; eauto|].
  split; [apply invariant_clear|].
  split; [reflexivity|].
  split; [apply invariant_transpose, Hinv|].
  split; [intros; apply invariant_scale, Hinv|].
  split; [apply invariant_conjugate, Hinv|].
  split; [intros other this' other' Ho; apply invariant_swap; assumption|].
  split; [intros *; apply (invariant_truncate env approx oob truncatedSvd_block), Hinv|].
  split; [intros *; apply invariant_mGSTruncate, Hinv|].
  intros parts dotruncate res Hv. now apply invariant_formattedAddParts.
Qed.

End Maintained.

(** ** Release of the allocations when the rank falls to 0 *)

Section ZeroRank.
Context {T D : Type} `{ST : Scalar T} `{RD : Real D}
  `{LP : !ScalarArray.Lapack T D} `{CP : !RkMatrix.Compression T D}.
Variable env : Env.
Variable approx : RkApproximationControl.t D.
Variable oob : D.
Import ScalarArray.

Lemma new_spec (o : Mem.obj T D) (h : gmap nat (Mem.obj T D)) :
  exists l, Mem.new o h = Some (l, <[l := o]> h) /\ h !! l = None.
Proof.
  exists (fresh (dom h)). split; [reflexivity|].
  apply not_elem_of_dom, is_fresh.
Qed.

Lemma fresh_ne (h : gmap nat (Mem.obj T D)) (l l' : nat) (o : Mem.obj T D) :
  h !! l = None -> h !! l' = Some o -> l <> l'.
Proof. intros Hl Hl' ->. rewrite Hl in Hl'. discriminate. Qed.

Lemma run_new {A : Type} (o : Mem.obj T D) (k : nat -> @Mem.M T D A)
    (h : gmap nat (Mem.obj T D)) :
  exists l, h !! l = None /\ Mem.bind (Mem.new o) k h = k l (<[l := o]> h).
Proof.
  exists (fresh (dom h)). split; [apply not_elem_of_dom, is_fresh | reflexivity].
Qed.

Lemma run_read {A : Type} (h : gmap nat (Mem.obj T D)) (l : nat) (s : t T)
    (k : t T -> @Mem.M T D A) :
  h !! l = Some (Mem.Array s) -> Mem.bind (Mem.read l) k h = k s h.
Proof. intros E. unfold Mem.bind, Mem.read. rewrite E. reflexivity. Qed.

Lemma run_write {A : Type} (h : gmap nat (Mem.obj T D)) (l : nat) (s0 s : t T)
    (k : unit -> @Mem.M T D A) :
  h !! l = Some (Mem.Array s0) ->
  Mem.bind (Mem.write l s) k h = k tt (<[l := Mem.Array s]> h).
Proof. intros E. unfold Mem.bind, Mem.write. rewrite E. reflexivity. Qed.

Lemma run_delete {A : Type} (h : gmap nat (Mem.obj T D)) (l : nat)
    (o : Mem.obj T D) (k : unit -> @Mem.M T D A) :
  h !! l = Some o -> Mem.bind (Mem.delete_ (Some l)) k h = k tt (delete l h).
Proof. intros E. unfold Mem.bind, Mem.delete_. rewrite E. reflexivity. Qed.

Lemma run_assoc {A B C : Type} (m : @Mem.M T D A) (f : A -> @Mem.M T D B)
    (g : B -> @Mem.M T D C) (h : gmap nat (Mem.obj T D)) :
  Mem.bind (Mem.bind m f) g h = Mem.bind m (fun x => Mem.bind (f x) g) h.
Proof. unfold Mem.bind. destruct (m h) as [[x h']|]; reflexivity. Qed.

Lemma run_ret {A B : Type} (x : A) (k : A -> @Mem.M T D B)
    (h : gmap nat (Mem.obj T D)) :
  Mem.bind (Mem.ret x) k h = k x h.
Proof. reflexivity. Qed.

Lemma run_known {A B : Type} (m : @Mem.M T D A) (k : A -> @Mem.M T D B)
    (h h' : gmap nat (Mem.obj T D)) (x : A) :
  m h = Some (x, h') -> Mem.bind m k h = k x h'.
Proof. intros E. unfold Mem.bind. rewrite E. reflexivity. Qed.

Lemma run_clear (h : gmap nat (Mem.obj T D)) (this : Mem.rk) (la lb : nat)
    (oa ob : Mem.obj T D) :
  Mem.a this = Some la -> Mem.b this = Some lb -> la <> lb ->
  h !! la = Some oa -> h !! lb = Some ob ->
  Mem.clear this h = Some (emptied this, released h la lb).
Proof.
  intros Ea Eb Hab Hla Hlb. unfold Mem.clear. rewrite Ea, Eb.
  rewrite (run_delete h la oa) by exact Hla.
  rewrite (run_delete _ lb ob) by (rewrite lookup_delete_ne by exact Hab; exact Hlb).
  reflexivity.
Qed.

Ltac heap_lookup :=
  repeat first
    [ rewrite lookup_insert_eq
    | rewrite lookup_insert_ne by congruence
    | rewrite lookup_delete_ne by congruence ];
  first [ eassumption | reflexivity ].

Ltac fresh_facts F :=
  repeat (apply lookup_insert_None in F as [F ?]).

Ltac do_new l F :=
  match goal with
  | |- Mem.bind (Mem.new ?o) ?k ?h = _ =>
      let E := fresh "E" in
      destruct (run_new o k h) as (l & F & E); rewrite E; clear E; cbv beta;
      fresh_facts F
  end.

Ltac do_read :=
  match goal with
  | |- Mem.bind (Mem.read ?l) ?k ?h = _ =>
      erewrite (run_read h l _ k) by heap_lookup; cbv beta
  end.

Ltac do_write :=
  match goal with
  | |- Mem.bind (Mem.write ?l ?s) ?k ?h = _ =>
      erewrite (run_write h l _ s k) by heap_lookup; cbv beta
  end.

Ltac do_delete :=
  match goal with
  | |- Mem.bind (Mem.delete_ (Some ?l)) ?k ?h = _ =>
      erewrite (run_delete h l _ k) by heap_lookup; cbv beta
  end.

Ltac same_heap :=
  apply map_eq; intros i; unfold released;
  rewrite ?lookup_delete, ?lookup_insert;
  repeat case_decide; subst; try congruence; try reflexivity.

Lemma truncate_zero_rank_qr (epsilon : D) (initialPivotA initialPivotB : nat)
    (this : Mem.rk) (h : gmap nat (Mem.obj T D)) (la lb : nat)
    (pa pb u v : t T) (sigma : list D) :
  Mem.a this = Some la -> Mem.b this = Some lb -> la <> lb ->
  h !! la = Some (Mem.Array pa) -> h !! lb = Some (Mem.Array pb) ->
  let k := cols pa in
  let pA := if HMAT_TRUNC_INITPIV env then initialPivotA else 0 in
  let pB := if HMAT_TRUNC_INITPIV env then initialPivotB else 0 in
  pA <= k -> pB <= k -> k <> 0 ->
  k <= Nat.min (IndexSet.size (Mem.rows this)) (IndexSet.size (Mem.cols this)) ->
  HMAT_RECOMPRESS_MGS env = false ->
  svdDecomposition
    (gemm "N" "T" pone (qrDecomposition pa (new_ k k) pA).2
       (qrDecomposition pb (new_ k k) pB).2 zero (new_ k k)) true
  = Some (u, sigma, v) ->
  RkApproximationControl.findK env approx oob sigma epsilon = Some 0%Z ->
  Mem.truncate env approx oob epsilon initialPivotA initialPivotB this h
  = Some (emptied this, released h la lb).
Proof.
  intros Ea Eb Hab Hla Hlb k pA pB HpA HpB Hk Hmin Hmgs Hsvd HfindK.
  unfold Mem.truncate. fold pA. fold pB.
  unfold Mem.rank. rewrite Ea, run_assoc.
  rewrite (run_read h la pa) by exact Hla. rewrite run_ret. fold k.
  replace (negb ((pA <=? k) && (pB <=? k))) with false
    by (symmetry; apply negb_false_iff, andb_true_iff; split; apply Nat.leb_le; lia).
  replace (k =? 0) with false by (symmetry; apply Nat.eqb_neq; exact Hk).
  replace (negb (k <=? IndexSet.size (Mem.rows this))) with false
    by (symmetry; apply negb_false_iff, Nat.leb_le; lia).
  replace (_ `min` _ <? k) with false by (symmetry; apply Nat.ltb_ge; lia).
  rewrite Hmgs, Eb. cbn [Mem.deref]. rewrite run_ret.
  do_new lra Fra. do_read.
  destruct (qrDecomposition pa (new_ k k) pA) as [qa ra] eqn:Eqa.
  do_write. do_write. rewrite run_ret.
  do_new lrb Frb. do_read.
  destruct (qrDecomposition pb (new_ k k) pB) as [qb rb] eqn:Eqb.
  do_write. do_write.
  do_new lr Fr. cbn [snd] in Hsvd. rewrite Hsvd.
  do_new lu Fu. do_new lsigma Fsigma. do_new lv Fv.
  pose proof (fresh_ne _ _ _ _ Fra Hla). pose proof (fresh_ne _ _ _ _ Fra Hlb).
  pose proof (fresh_ne _ _ _ _ Frb Hla). pose proof (fresh_ne _ _ _ _ Frb Hlb).
  pose proof (fresh_ne _ _ _ _ Fr Hla). pose proof (fresh_ne _ _ _ _ Fr Hlb).
  pose proof (fresh_ne _ _ _ _ Fu Hla). pose proof (fresh_ne _ _ _ _ Fu Hlb).
  pose proof (fresh_ne _ _ _ _ Fsigma Hla). pose proof (fresh_ne _ _ _ _ Fsigma Hlb).
  pose proof (fresh_ne _ _ _ _ Fv Hla). pose proof (fresh_ne _ _ _ _ Fv Hlb).
  do 3 do_delete. rewrite HfindK. cbn [Z.eqb].
  do 3 do_delete.
  erewrite run_clear; [|exact Ea|exact Eb|exact Hab|heap_lookup|heap_lookup].
  f_equal. f_equal. same_heap.
Qed.

Lemma mGSTruncate_zero_rank (epsilon : D) (initialPivotA initialPivotB : nat)
    (this : Mem.rk) (h : gmap nat (Mem.obj T D)) (la lb : nat) (pa pb : t T) :
  Mem.a this = Some la -> Mem.b this = Some lb -> la <> lb ->
  h !! la = Some (Mem.Array pa) -> h !! lb = Some (Mem.Array pb) ->
  let k := cols pa in
  let gsA := modifiedGramSchmidt pa (new_ k k) epsilon initialPivotA in
  let gsB := modifiedGramSchmidt pb (new_ k k) epsilon initialPivotB in
  k <> 0 ->
  (gsA.1.1 = 0 \/
   (gsA.1.1 <> 0 /\ gsB.1.1 = 0) \/
   (gsA.1.1 <> 0 /\ gsB.1.1 <> 0 /\
    exists ur sr vr,
      svdDecomposition
        (gemm "N" "T" pone gsA.2 gsB.2 zero (new_ gsA.1.1 gsB.1.1)) true
      = Some (ur, sr, vr) /\
      RkApproximationControl.findK env approx oob sr epsilon = Some 0%Z)) ->
  Mem.mGSTruncate env approx oob epsilon initialPivotA initialPivotB this h
  = Some (emptied this, released h la lb).
Proof.
  intros Ea Eb Hab Hla Hlb k gsA gsB Hk Hcases.
  unfold Mem.mGSTruncate, Mem.rank. rewrite Ea, run_assoc.
  rewrite (run_read h la pa) by exact Hla. rewrite run_ret. fold k.
  replace (k =? 0) with false by (symmetry; apply Nat.eqb_neq; exact Hk).
  cbn [Mem.deref]. rewrite run_ret.
  do_new lra Fra. do_read. fold gsA.
  destruct gsA as [[kA qa] ra] eqn:EgA. cbn [fst snd] in Hcases.
  do_write. do_write.
  pose proof (fresh_ne _ _ _ _ Fra Hla). pose proof (fresh_ne _ _ _ _ Fra Hlb).
  destruct (kA =? 0) eqn:EkA.
  { erewrite run_known;
      [|eapply run_clear; [exact Ea|exact Eb|exact Hab|heap_lookup|heap_lookup]].
    unfold released. do_delete.
    unfold Mem.ret. f_equal. f_equal. same_heap. }
  apply Nat.eqb_neq in EkA.
  rewrite Eb. cbn [Mem.deref]. rewrite run_ret.
  do_new lrb Frb. do_read. fold gsB.
  destruct gsB as [[kB qb] rb] eqn:EgB. cbn [fst snd] in Hcases.
  do_write. do_write.
  pose proof (fresh_ne _ _ _ _ Frb Hla). pose proof (fresh_ne _ _ _ _ Frb Hlb).
  destruct (kB =? 0) eqn:EkB.
  { erewrite run_known;
      [|eapply run_clear; [exact Ea|exact Eb|exact Hab|heap_lookup|heap_lookup]].
    unfold released. do 2 do_delete.
    unfold Mem.ret. f_equal. f_equal. same_heap. }
  apply Nat.eqb_neq in EkB.
  destruct Hcases as [-> | [[_ ->] | (_ & _ & ur & sr & vr & Hsvd & HfindK)]];
    try contradiction.
  do_new lmatR Fr. rewrite Hsvd.
  do_new lur Fu. do_new lsr Fsigma. do_new lvr Fv.
  pose proof (fresh_ne _ _ _ _ Fr Hla). pose proof (fresh_ne _ _ _ _ Fr Hlb).
  pose proof (fresh_ne _ _ _ _ Fu Hla). pose proof (fresh_ne _ _ _ _ Fu Hlb).
  pose proof (fresh_ne _ _ _ _ Fsigma Hla). pose proof (fresh_ne _ _ _ _ Fsigma Hlb).
  pose proof (fresh_ne _ _ _ _ Fv Hla). pose proof (fresh_ne _ _ _ _ Fv Hlb).
  do 3 do_delete. rewrite HfindK. cbn [Z.eqb].
  do 3 do_delete.
  erewrite run_clear; [|exact Ea|exact Eb|exact Hab|heap_lookup|heap_lookup].
  f_equal. f_equal. same_heap.
Qed.

Lemma truncate_dispatch_mgs (epsilon : D) (initialPivotA initialPivotB : nat)
    (this : Mem.rk) (h : gmap nat (Mem.obj T D)) (la : nat) (pa : t T) :
  Mem.a this = Some la -> h !! la = Some (Mem.Array pa) ->
  let k := cols pa in
  let pA := if HMAT_TRUNC_INITPIV env then initialPivotA else 0 in
  let pB := if HMAT_TRUNC_INITPIV env then initialPivotB else 0 in
  pA <= k -> pB <= k -> k <> 0 ->
  k <= Nat.min (IndexSet.size (Mem.rows this)) (IndexSet.size (Mem.cols this)) ->
  HMAT_RECOMPRESS_MGS env = true ->
  Mem.truncate env approx oob epsilon initialPivotA initialPivotB this h
  = Mem.mGSTruncate env approx oob epsilon pA pB this h.
Proof.
  intros Ea Hla k pA pB HpA HpB Hk Hmin Hmgs.
  unfold Mem.truncate. fold pA. fold pB.
  unfold Mem.rank at 1. rewrite Ea, run_assoc.
  rewrite (run_read h la pa) by exact Hla. rewrite run_ret. fold k.
  replace (negb ((pA <=? k) && (pB <=? k))) with false
    by (symmetry; apply negb_false_iff, andb_true_iff; split; apply Nat.leb_le; lia).
  replace (k =? 0) with false by (symmetry; apply Nat.eqb_neq; exact Hk).
  replace (negb (k <=? IndexSet.size (Mem.rows this))) with false
    by (symmetry; apply negb_false_iff, Nat.leb_le; lia).
  replace (_ `min` _ <? k) with false by (symmetry; apply Nat.ltb_ge; lia).
  rewrite Hmgs. reflexivity.
Qed.

(** The same exits on the block as a value. *)
Lemma value_mGSTruncate_zero_rank (epsilon : D) (initialPivotA initialPivotB : nat)
    (r : RkMatrix.t T) (pa pb : t T) :
  RkMatrix.a r = Some pa -> RkMatrix.b r = Some pb ->
  let k := cols pa in
  let gsA := modifiedGramSchmidt pa (new_ k k) epsilon initialPivotA in
  let gsB := modifiedGramSchmidt pb (new_ k k) epsilon initialPivotB in
  k <> 0 ->
  (gsA.1.1 = 0 \/
   (gsA.1.1 <> 0 /\ gsB.1.1 = 0) \/
   (gsA.1.1 <> 0 /\ gsB.1.1 <> 0 /\
    exists ur sr vr,
      svdDecomposition
        (gemm "N" "T" pone gsA.2 gsB.2 zero (new_ gsA.1.1 gsB.1.1)) true
      = Some (ur, sr, vr) /\
      RkApproximationControl.findK env approx oob sr epsilon = Some 0%Z)) ->
  RkMatrix.mGSTruncate env approx oob epsilon initialPivotA initialPivotB r
  = Some (RkMatrix.clear r).
Proof.
  intros Ea Eb k gsA gsB Hk Hcases.
  unfold RkMatrix.mGSTruncate, RkMatrix.rank. rewrite Ea, Eb. fold k.
  replace (k =? 0) with false by (symmetry; apply Nat.eqb_neq; exact Hk).
  cbn [mbind option_bind]. fold gsA.
  destruct gsA as [[kA qa] ra]. cbn [fst snd] in Hcases.
  destruct (kA =? 0) eqn:EkA; [reflexivity|]. apply Nat.eqb_neq in EkA.
  fold gsB. destruct gsB as [[kB qb] rb]. cbn [fst snd] in Hcases.
  destruct (kB =? 0) eqn:EkB; [reflexivity|]. apply Nat.eqb_neq in EkB.
  destruct Hcases as [-> | [[_ ->] | (_ & _ & ur & sr & vr & Hsvd & HfindK)]];
    try contradiction.
  rewrite Hsvd. cbn [mbind option_bind]. rewrite HfindK. reflexivity.
Qed.

Lemma value_truncate_prefix (epsilon : D) (initialPivotA initialPivotB : nat)
    (r : RkMatrix.t T) (pa pb : t T) :
  RkMatrix.a r = Some pa -> RkMatrix.b r = Some pb ->
  let k := cols pa in
  let pA := if HMAT_TRUNC_INITPIV env then initialPivotA else 0 in
  let pB := if HMAT_TRUNC_INITPIV env then initialPivotB else 0 in
  pA <= k -> pB <= k -> k <> 0 ->
  k <= Nat.min (IndexSet.size (RkMatrix.rows r)) (IndexSet.size (RkMatrix.cols r)) ->
  RkMatrix.truncate env approx oob epsilon initialPivotA initialPivotB r
  = if HMAT_RECOMPRESS_MGS env then
      RkMatrix.mGSTruncate env approx oob epsilon pA pB r
    else
      let '(qa, ra) := qrDecomposition pa (new_ k k) pA in
      let '(qb, rb) := qrDecomposition pb (new_ k k) pB in
      '(u, sigma, v) ← svdDecomposition
                         (gemm "N" "T" pone ra rb zero (new_ k k)) true;
      newK ← RkApproximationControl.findK env approx oob sigma epsilon;
      if (newK =? 0)%Z then Some (RkMatrix.clear r)
      else if (newK <? 0)%Z then None
      else
        let newK := Z.to_nat newK in
        let sigma := map dsqrt (take newK sigma) in
        let u := multiplyWithDiag (RkMatrix.set_cols u newK) sigma oob in
        let v := multiplyWithDiag (RkMatrix.set_cols v newK) sigma oob in
        Some (RkMatrix.mk (RkMatrix.rows r) (RkMatrix.cols r)
                (Some (RkMatrix.applyQ qa u (IndexSet.size (RkMatrix.rows r)) newK pA))
                (Some (RkMatrix.applyQ qb v (IndexSet.size (RkMatrix.cols r)) newK pB))
                (RkMatrix.method r)).
Proof.
  intros Ea Eb k pA pB HpA HpB Hk Hmin.
  unfold RkMatrix.truncate. fold pA. fold pB.
  unfold RkMatrix.rank. rewrite Ea, Eb. fold k.
  replace (negb ((pA <=? k) && (pB <=? k))) with false
    by (symmetry; apply negb_false_iff, andb_true_iff; split; apply Nat.leb_le; lia).
  replace (k =? 0) with false by (symmetry; apply Nat.eqb_neq; exact Hk).
  replace (negb (k <=? IndexSet.size (RkMatrix.rows r))) with false
    by (symmetry; apply negb_false_iff, Nat.leb_le; lia).
  replace (_ `min` _ <? k) with false by (symmetry; apply Nat.ltb_ge; lia).
  reflexivity.
Qed.

(** C6. In [truncate] and in [mGSTruncate], when [findK] returns 0, or when
    the Gram-Schmidt of a panel returns 0 in the MGS variant, the call
    returns normally: every array and vector allocated in between has been
    released, the two panels of the block are freed (the heap is the heap
    before without their two cells), and both pointers are null, which is
    the rank-0 state. *)
Theorem zero_rank_released (epsilon : D) (initialPivotA initialPivotB : nat)
    (this : Mem.rk) (h : gmap nat (Mem.obj T D)) (la lb : nat) (pa pb : t T) :
  Mem.a this = Some la -> Mem.b this = Some lb -> la <> lb ->
  h !! la = Some (Mem.Array pa) -> h !! lb = Some (Mem.Array pb) ->
  cols pa <> 0 ->
  let k := cols pa in
  let r := RkMatrix.mk (Mem.rows this) (Mem.cols this) (Some pa) (Some pb)
             (Mem.method this) in
  let mgs_zero (pA pB : nat) :=
    let gsA := modifiedGramSchmidt pa (new_ k k) epsilon pA in
    let gsB := modifiedGramSchmidt pb (new_ k k) epsilon pB in
    gsA.1.1 = 0 \/
    (gsA.1.1 <> 0 /\ gsB.1.1 = 0) \/
    (gsA.1.1 <> 0 /\ gsB.1.1 <> 0 /\
     exists ur sr vr,
       svdDecomposition
         (gemm "N" "T" pone gsA.2 gsB.2 zero (new_ gsA.1.1 gsB.1.1)) true
       = Some (ur, sr, vr) /\
       RkApproximationControl.findK env approx oob sr epsilon = Some 0%Z) in
  let pA := if HMAT_TRUNC_INITPIV env then initialPivotA else 0 in
  let pB := if HMAT_TRUNC_INITPIV env then initialPivotB else 0 in
  (mgs_zero initialPivotA initialPivotB ->
   Mem.mGSTruncate env approx oob epsilon initialPivotA initialPivotB this h
   = Some (emptied this, released h la lb) /\
   RkMatrix.mGSTruncate env approx oob epsilon initialPivotA initialPivotB r
   = Some (RkMatrix.clear r)) /\
  (pA <= k -> pB <= k ->
   k <= Nat.min (IndexSet.size (Mem.rows this)) (IndexSet.size (Mem.cols this)) ->
   (HMAT_RECOMPRESS_MGS env = true -> mgs_zero pA pB ->
    Mem.truncate env approx oob epsilon initialPivotA initialPivotB this h
    = Some (emptied this, released h la lb) /\
    RkMatrix.truncate env approx oob epsilon initialPivotA initialPivotB r
    = Some (RkMatrix.clear r)) /\
   (HMAT_RECOMPRESS_MGS env = false ->
    forall u sigma v,
      svdDecomposition
        (gemm "N" "T" pone (qrDecomposition pa (new_ k k) pA).2
           (qrDecomposition pb (new_ k k) pB).2 zero (new_ k k)) true
      = Some (u, sigma, v) ->
      RkApproximationControl.findK env approx oob sigma epsilon = Some 0%Z ->
      Mem.truncate env approx oob epsilon initialPivotA initialPivotB this h
      = Some (emptied this, released h la lb) /\
      RkMatrix.truncate env approx oob epsilon initialPivotA initialPivotB r
      = Some (RkMatrix.clear r))).
Proof.
  intros Ea Eb Hab Hla Hlb Hk k r mgs_zero pA pB. split.
  - intros Hz. split.
    + now apply (mGSTruncate_zero_rank epsilon initialPivotA initialPivotB
                   this h la lb pa pb).
    + now apply (value_mGSTruncate_zero_rank epsilon initialPivotA initialPivotB
                   r pa pb).
  - intros HpA HpB Hmin. split.
    + intros Hmgs Hz. split.
      * rewrite (truncate_dispatch_mgs epsilon initialPivotA initialPivotB
                   this h la pa) by assumption.
        now apply (mGSTruncate_zero_rank epsilon pA pB this h la lb pa pb).
      * rewrite (value_truncate_prefix epsilon initialPivotA initialPivotB r pa pb)
          by (try reflexivity; assumption).
        rewrite Hmgs.
        now apply (value_mGSTruncate_zero_rank epsilon pA pB r pa pb).
    + intros Hmgs u sigma v Hsvd HfindK. split.
      * now apply (truncate_zero_rank_qr epsilon initialPivotA initialPivotB
                     this h la lb pa pb u v sigma).
      * rewrite (value_truncate_prefix epsilon initialPivotA initialPivotB r pa pb)
          by (try reflexivity; assumption).
        rewrite Hmgs. fold k. fold pA. fold pB.
        destruct (qrDecomposition pa (new_ k k) pA) as [qa ra].
        destruct (qrDecomposition pb (new_ k k) pB) as [qb rb].
        cbn [snd] in Hsvd. rewrite Hsvd. cbn [mbind option_bind].
        rewrite HfindK. reflexivity.
Qed.

(** *** [gemv] on the heap *)

Ltac same_heap_at :=
  apply map_eq; intros i;
  rewrite ?lookup_delete, ?lookup_insert;
  repeat case_decide; subst; try congruence; try reflexivity.

Lemma gemv_heap (trans : ascii) (alpha beta : T) (lx ly : nat) (this : Mem.rk)
    (h : gmap nat (Mem.obj T D)) (la lb : nat) (pa pb x y : t T) :
  Mem.a this = Some la -> Mem.b this = Some lb ->
  h !! la = Some (Mem.Array pa) -> h !! lb = Some (Mem.Array pb) ->
  h !! lx = Some (Mem.Array x) -> h !! ly = Some (Mem.Array y) ->
  cols pa <> 0 ->
  trans = "N"%char \/ trans = "T"%char \/ trans = "C"%char ->
  exists y',
    RkMatrix.gemv trans alpha x beta y
      (RkMatrix.mk (Mem.rows this) (Mem.cols this) (Some pa) (Some pb)
         (Mem.method this))
    = Some y' /\
    Mem.gemv trans alpha lx beta ly this h = Some (tt, <[ly := Mem.Array y']> h).
Proof.
  intros Ea Eb Hla Hlb Hlx Hly Hk Htrans.
  unfold RkMatrix.gemv, Mem.gemv, RkMatrix.rank, Mem.rank.
  rewrite Ea, Eb. cbn [RkMatrix.a RkMatrix.b mbind option_bind].
  rewrite run_assoc. rewrite (run_read h la pa) by exact Hla. rewrite run_ret.
  replace (cols pa =? 0) with false by (symmetry; apply Nat.eqb_neq; exact Hk).
  cbn [Mem.deref]. rewrite !run_ret.
  destruct (is_char_cases trans Htrans)
    as [[-> EN] | [(-> & EN & ET) | (-> & EN & ET & EC)]];
    rewrite ?EN, ?ET, ?EC; eexists; (split; [reflexivity|]).
  - do 2 do_read. do_new lz Fz.
    pose proof (fresh_ne _ _ _ _ Fz Hla). pose proof (fresh_ne _ _ _ _ Fz Hlb).
    pose proof (fresh_ne _ _ _ _ Fz Hlx). pose proof (fresh_ne _ _ _ _ Fz Hly).
    do_read. do_write. do 3 do_read. do_write.
    unfold Mem.delete_. rewrite lookup_insert_ne by congruence.
    rewrite lookup_insert_eq. f_equal. f_equal. same_heap_at.
  - do 2 do_read. do_new lz Fz.
    pose proof (fresh_ne _ _ _ _ Fz Hla). pose proof (fresh_ne _ _ _ _ Fz Hlb).
    pose proof (fresh_ne _ _ _ _ Fz Hlx). pose proof (fresh_ne _ _ _ _ Fz Hly).
    do_read. do_write. do 3 do_read. do_write.
    unfold Mem.delete_. rewrite lookup_insert_ne by congruence.
    rewrite lookup_insert_eq. f_equal. f_equal. same_heap_at.
  - do 2 do_read. do_new lz Fz.
    pose proof (fresh_ne _ _ _ _ Fz Hla). pose proof (fresh_ne _ _ _ _ Fz Hlb).
    pose proof (fresh_ne _ _ _ _ Fz Hlx). pose proof (fresh_ne _ _ _ _ Fz Hly).
    do_read. do_write. do_read. do_new lnewB Fb.
    pose proof (fresh_ne _ _ _ _ Fb Hla). pose proof (fresh_ne _ _ _ _ Fb Hlb).
    pose proof (fresh_ne _ _ _ _ Fb Hlx). pose proof (fresh_ne _ _ _ _ Fb Hly).
    do_read. do_write. do 3 do_read. do_write. do_delete.
    unfold Mem.delete_. rewrite lookup_delete_ne by congruence.
    rewrite lookup_insert_ne by congruence.
    rewrite lookup_insert_ne by congruence.
    rewrite lookup_insert_ne by congruence.
    rewrite lookup_insert_eq. f_equal. f_equal. same_heap_at.
Qed.

Lemma gemv_heap_empty (trans : ascii) (alpha beta : T) (lx ly : nat)
    (this : Mem.rk) (h : gmap nat (Mem.obj T D)) (y : t T) :
  Mem.a this = None -> h !! ly = Some (Mem.Array y) ->
  Mem.gemv trans alpha lx beta ly this h
  = Some (tt, if teqb beta pone then h
              else <[ly := Mem.Array (ScalarArray.scale beta y)]> h).
Proof.
  intros Ea Hly. unfold Mem.gemv, Mem.rank. rewrite Ea, run_ret.
  cbn [Nat.eqb]. destruct (teqb beta pone); cbn [negb]; [reflexivity|].
  rewrite (run_read h ly y) by exact Hly.
  unfold Mem.write. rewrite Hly. reflexivity.
Qed.

(** C5. On a block that satisfies the invariant, with [x] of as many rows
    as [op(a * b^T)] has columns and [trans] one of ['N'], ['T'], ['C'],
    [gemv] returns normally and leaves in [y] the entries
    [beta * y + alpha * op(a * b^T) * x].  On a block of rank 0 it only
    scales [y] by [beta], and [y] is the same array when [beta] is 1.  For
    ['C'] the product is formed as [conj(b) * (a^H * x)], the conjugate being
    taken on a copy of [b].  On the heap the call changes the cell of [y]
    and no other: the panels of the block are as before, and the array [z]
    and the conjugated copy of [b] have been released. *)
Theorem gemv_spec (trans : ascii) (alpha beta : T) (x y : t T)
    (r : RkMatrix.t T) (d : t T) :
  RkMatrix.invariant r ->
  RkMatrix.evalArray r = Some d ->
  trans = "N"%char \/ trans = "T"%char \/ trans = "C"%char ->
  rows x = (if is_char trans "N" then cols d else rows d) ->
  exists y',
    RkMatrix.gemv trans alpha x beta y r = Some y' /\
    rows y' = rows y /\ cols y' = cols y /\
    (forall i j,
       get y' i j
       = (beta * get y i j
          + alpha * sum_n (rows x) (fun c => op_get trans d i c * get x c j))%T) /\
    (RkMatrix.rank r = 0 ->
       y' = if teqb beta pone then y else ScalarArray.scale beta y) /\
    (trans = "C"%char -> RkMatrix.rank r <> 0 ->
       forall i j,
         get y' i j
         = (alpha * sum_n (RkMatrix.rank r)
                      (fun l => tconj (get (RkMatrix.panelB r) i l)
                                * sum_n (rows x)
                                    (fun c => tconj (get (RkMatrix.panelA r) c l)
                                              * get x c j))
            + beta * get y i j)%T) /\
    (forall (this : Mem.rk) (h : gmap nat (Mem.obj T D)) (lx ly : nat),
       Mem.rows this = RkMatrix.rows r -> Mem.cols this = RkMatrix.cols r ->
       Mem.method this = RkMatrix.method r ->
       Mem.value this h = Some (r, h) ->
       h !! lx = Some (Mem.Array x) -> h !! ly = Some (Mem.Array y) ->
       Mem.gemv trans alpha lx beta ly this h
       = Some (tt, if (RkMatrix.rank r =? 0) && teqb beta pone then h
                   else <[ly := Mem.Array y']> h)).
Proof.
  intros Hinv Hd Htrans Hx.
  destruct (gemv_value_spec trans alpha beta x y r d Hinv Hd Htrans Hx)
    as (y' & E & Hr & Hc & Hget & H0 & HC).
  exists y'. do 6 (split; [assumption|]).
  intros this h lx ly Er Ec Em Hval Hlx Hly.
  unfold Mem.value, Mem.read_opt in Hval.
  unfold RkMatrix.invariant in Hinv.
  destruct (Mem.a this) as [la|] eqn:Ea, (Mem.b this) as [lb|] eqn:Eb.
  - rewrite run_assoc in Hval.
    destruct (h !! la) as [[pa|]|] eqn:Hla;
      try (unfold Mem.bind, Mem.read in Hval; rewrite Hla in Hval; discriminate).
    rewrite (run_read h la pa) in Hval by exact Hla. rewrite run_ret, run_assoc in Hval.
    destruct (h !! lb) as [[pb|]|] eqn:Hlb;
      try (unfold Mem.bind, Mem.read in Hval; rewrite Hlb in Hval; discriminate).
    rewrite (run_read h lb pb) in Hval by exact Hlb. rewrite !run_ret in Hval.
    unfold Mem.ret in Hval. injection Hval as Hval. subst r.
    cbn [RkMatrix.a RkMatrix.b RkMatrix.rows RkMatrix.cols] in Hinv.
    destruct Hinv as (Hk & _).
    assert (Hne : cols pa <> 0) by lia.
    destruct (gemv_heap trans alpha beta lx ly this h la lb pa pb x y
                Ea Eb Hla Hlb Hlx Hly Hne Htrans) as (y2 & E2 & Eh).
    rewrite E in E2. injection E2 as <-.
    unfold RkMatrix.rank. cbn [RkMatrix.a].
    replace (cols pa =? 0) with false by (symmetry; apply Nat.eqb_neq; exact Hne).
    exact Eh.
  - exfalso. rewrite run_assoc in Hval.
    destruct (h !! la) as [[pa|]|] eqn:Hla;
      try (unfold Mem.bind, Mem.read in Hval; rewrite Hla in Hval; discriminate).
    rewrite (run_read h la pa) in Hval by exact Hla. rewrite !run_ret in Hval.
    unfold Mem.ret in Hval. injection Hval as Hval. subst r. exact Hinv.
  - exfalso. rewrite run_ret, run_assoc in Hval.
    destruct (h !! lb) as [[pb|]|] eqn:Hlb;
      try (unfold Mem.bind, Mem.read in Hval; rewrite Hlb in Hval; discriminate).
    rewrite (run_read h lb pb) in Hval by exact Hlb. rewrite !run_ret in Hval.
    unfold Mem.ret in Hval. injection Hval as Hval. subst r. exact Hinv.
  - rewrite !run_ret in Hval. unfold Mem.ret in Hval. injection Hval as Hval.
    rewrite (gemv_heap_empty trans alpha beta lx ly this h y Ea Hly).
    assert (Hrk : RkMatrix.rank r = 0) by (subst r; reflexivity).
    rewrite Hrk, (H0 Hrk). cbn [Nat.eqb andb].
    destruct (teqb beta pone); reflexivity.
Qed.

End ZeroRank.

(** ** Trees *)

Section TreeFacts.
Import Tree.

Lemma wrap_int_id (z : Z) : (INT_MIN <= z <= INT_MAX)%Z -> wrap_int z = z.
Proof.
  unfold INT_MIN, INT_MAX, wrap_int. intros Hz.
  rewrite Z.mod_small by lia. lia.
Qed.

(** [insertChild] on an index from 0 to [INT_MAX - 1], with the values of
    type [int] as the code computes them. *)
Lemma insertChild_run (this c : nat) (index : Z) (h : gmap nat node)
    (t nc : node) :
  h !! this = Some t -> h !! c = Some nc -> (0 <= index < INT_MAX)%Z ->
  exists h' t',
    insertChild this index (Some c) h = Some h' /\
    h' !! this = Some t' /\
    getChild this index h' = Some (Some c) /\
    father <$> h' !! c = Some (Some this) /\
    depth <$> h' !! c = Some (wrap_int (depth t + 1)) /\
    (c <> this -> depth t' = depth t /\ father t' = father t) /\
    length (children t')
    = Z.to_nat (Z.max (Z.of_nat (length (children t))) (index + 1)) /\
    (forall j, j <> Z.to_nat index ->
       children t' !! j
       = if decide (j < length (children t)) then children t !! j
         else if decide (j < Z.to_nat (index + 1)) then Some None else None) /\
    (forall l, is_Some (h !! l) -> is_Some (h' !! l)) /\
    (forall l, l <> this -> l <> c -> h' !! l = h !! l).
Proof.
  intros Ht Hc Hi.
  unfold insertChild.
  replace (index <? 0)%Z with false by (symmetry; apply Z.ltb_ge; lia).
  rewrite Ht. cbn [mbind option_bind].
  rewrite (wrap_int_id (index + 1)) by (unfold INT_MIN, INT_MAX in *; lia).
  replace (index + 1 <? 0)%Z with false by (symmetry; apply Z.ltb_ge; lia).
  set (kids := if (Z.of_nat (length (children t)) <=? index)%Z
               then resize (Z.to_nat (index + 1)) None (children t)
               else children t).
  set (h0 := if (Z.of_nat (length (children t)) <=? index)%Z
             then <[this := mk (depth t) (resize (Z.to_nat (index + 1)) None (children t))
                               (father t)]> h
             else h).
  replace (if (Z.of_nat (length (children t)) <=? index)%Z then Some _ else Some h)
    with (Some h0) by (unfold h0; destruct (_ <=? _)%Z; reflexivity).
  cbn [mbind option_bind].
  assert (H0 : h0 !! this = Some (mk (depth t) kids (father t))).
  { unfold h0, kids. destruct (_ <=? _)%Z.
    - apply lookup_insert_eq.
    - rewrite Ht. destruct t; reflexivity. }
  assert (H0' : forall l, l <> this -> h0 !! l = h !! l).
  { intros l Hl. unfold h0. destruct (_ <=? _)%Z; [|reflexivity].
    apply lookup_insert_ne. congruence. }
  assert (Hlen : length kids = Z.to_nat (Z.max (Z.of_nat (length (children t))) (index + 1))).
  { unfold kids. destruct (Z.leb_spec (Z.of_nat (length (children t))) index).
    - rewrite length_resize. lia.
    - lia. }
  assert (Hkids : forall j, kids !! j
            = if decide (j < length (children t)) then children t !! j
              else if decide (j < Z.to_nat (index + 1)) then Some None else None).
  { intros j. unfold kids.
    destruct (Z.leb_spec (Z.of_nat (length (children t))) index).
    - case_decide.
      + rewrite lookup_resize by lia. reflexivity.
      + case_decide.
        * rewrite lookup_resize_new by lia. reflexivity.
        * apply lookup_resize_old; lia.
    - case_decide; [reflexivity|]. case_decide; [lia|].
      apply lookup_ge_None_2. lia. }
  destruct (decide (c = this)) as [->|Hne].
  - (* the node is inserted below itself *)
    rewrite H0. cbn [mbind option_bind depth children father].
    rewrite !lookup_insert_eq. cbn [mbind option_bind depth children father].
    rewrite !lookup_insert_eq. cbn [mbind option_bind depth children father].
    eexists. eexists. split; [reflexivity|].
    split; [apply lookup_insert_eq|].
    unfold getChild. rewrite !lookup_insert_eq.
    cbn [mbind option_bind fmap option_fmap option_map depth children father].
    rewrite length_insert, Hlen.
    replace ((0 <=? index)%Z && _) with true
      by (symmetry; apply andb_true_iff; split; [apply Z.leb_le|apply Z.ltb_lt]; lia).
    split; [apply list_lookup_insert_eq; lia|].
    do 2 (split; [reflexivity|]). split; [congruence|].
    split; [reflexivity|].
    split; [intros j Hj; rewrite list_lookup_insert_ne by congruence; apply Hkids|].
    split.
    + intros l Hl. destruct (decide (l = this)) as [->|Hl'].
      * rewrite lookup_insert_eq. eauto.
      * rewrite !lookup_insert_ne by congruence. rewrite H0' by exact Hl'. exact Hl.
    + intros l Hl _. rewrite !lookup_insert_ne by congruence. now apply H0'.
  - rewrite (H0' c Hne), Hc. cbn [mbind option_bind depth children father].
    rewrite lookup_insert_ne by exact Hne. rewrite H0.
    cbn [mbind option_bind depth children father].
    rewrite lookup_insert_eq. cbn [mbind option_bind depth children father].
    rewrite lookup_insert_ne by congruence. rewrite lookup_insert_eq.
    cbn [mbind option_bind depth children father].
    eexists. eexists. split; [reflexivity|].
    split; [rewrite lookup_insert_ne by exact Hne; apply lookup_insert_eq|].
    unfold getChild.
    rewrite lookup_insert_eq, lookup_insert_ne by exact Hne. rewrite lookup_insert_eq.
    cbn [mbind option_bind fmap option_fmap option_map depth children father].
    rewrite length_insert, Hlen.
    replace ((0 <=? index)%Z && _) with true
      by (symmetry; apply andb_true_iff; split; [apply Z.leb_le|apply Z.ltb_lt]; lia).
    split; [apply list_lookup_insert_eq; lia|].
    do 2 (split; [reflexivity|]). split; [intros _; split; reflexivity|].
    split; [reflexivity|].
    split; [intros j Hj; rewrite list_lookup_insert_ne by congruence; apply Hkids|].
    split.
    + intros l Hl. destruct (decide (l = c)) as [->|Hl1].
      * rewrite lookup_insert_eq. eauto.
      * rewrite lookup_insert_ne by congruence.
        destruct (decide (l = this)) as [->|Hl2].
        -- rewrite lookup_insert_eq. eauto.
        -- rewrite !lookup_insert_ne by congruence. rewrite H0' by exact Hl2. exact Hl.
    + intros l Hl1 Hl2. rewrite !lookup_insert_ne by congruence. now apply H0'.
Qed.


(** C10, as the code has it.  After [t.insertChild(i, c)] on two nodes of
    the store, [t] being of a depth below [INT_MAX] with at most [INT_MAX]
    entries in its children vector, and an index [0 <= i < INT_MAX]:
    [getChild(i)] returns [c], the father of [c] is [t], the depth of [c] is
    the depth of [t] plus 1 ([t] keeps its depth when [c] is another node),
    [nbChild()] is the maximum of its former value and [i + 1], which is
    again at most [INT_MAX], the other entries of the children vector are
    kept and the new entries are null; no node leaves the store, and a node
    other than [t] and [c], such as a child stored at [i] before, is
    unchanged. *)
Theorem insertChild_spec (this c : nat) (index : Z) (h : gmap nat node)
    (t nc : node) :
  h !! this = Some t -> h !! c = Some nc ->
  (0 <= index < INT_MAX)%Z ->
  (INT_MIN <= depth t < INT_MAX)%Z ->
  (Z.of_nat (length (children t)) <= INT_MAX)%Z ->
  exists h' t',
    insertChild this index (Some c) h = Some h' /\
    h' !! this = Some t' /\
    getChild this index h' = Some (Some c) /\
    father <$> h' !! c = Some (Some this) /\
    depth <$> h' !! c = Some (depth t + 1)%Z /\
    (c <> this -> depth t' = depth t /\ father t' = father t) /\
    nbChild this h' = Some (Z.max (Z.of_nat (length (children t))) (index + 1)) /\
    (Z.of_nat (length (children t')) <= INT_MAX)%Z /\
    (forall j, j <> Z.to_nat index ->
       children t' !! j
       = if decide (j < length (children t)) then children t !! j
         else if decide (j < Z.to_nat (index + 1)) then Some None else None) /\
    (forall l, is_Some (h !! l) -> is_Some (h' !! l)) /\
    (forall l, l <> this -> l <> c -> h' !! l = h !! l).
Proof.
  intros Ht Hc Hi Hd Hn.
  destruct (insertChild_run this c index h t nc Ht Hc Hi)
    as (h' & t' & E & Ht' & Hget & Hf & Hdc & Hdt & Hlen & Hkids & Hdom & Hother).
  exists h', t'. split; [exact E|]. split; [exact Ht'|].
  split; [exact Hget|]. split; [exact Hf|].
  split.
  { rewrite Hdc. f_equal. apply wrap_int_id. unfold INT_MIN, INT_MAX in *. lia. }
  split; [exact Hdt|].
  assert (Hmax : (0 <= Z.max (Z.of_nat (length (children t))) (index + 1) <= INT_MAX)%Z)
    by (unfold INT_MAX in *; lia).
  split.
  { unfold nbChild. rewrite Ht'. cbn [mbind option_bind]. f_equal.
    rewrite Hlen, Z2Nat.id by lia. apply wrap_int_id.
    unfold INT_MIN, INT_MAX in *. lia. }
  split; [rewrite Hlen, Z2Nat.id by lia; lia|].
  split; [exact Hkids|]. split; [exact Hdom | exact Hother].
Qed.

End TreeFacts.

(** ** The dense fallback of [truncate] *)

Section Fallback.
Context {T D : Type} `{ST : Scalar T} `{RD : Real D}
  `{LP : !ScalarArray.Lapack T D} `{CP : !RkMatrix.Compression T D}.
Variable env : Env.
Variable approx : RkApproximationControl.t D.
Variable oob : D.
Import ScalarArray.

(** C4, as the code has it.  When the rank of the block exceeds
    [min(m, n)], [truncate(epsilon, p_A, p_B)] evaluates the block to a dense
    block and takes the panels and the method of
    [truncatedSvd(dense, epsilon)], with the [epsilon] it was called with:
    the recompression tolerance of the approximation control plays no part. *)
Theorem truncate_fallback (epsilon : D) (initialPivotA initialPivotB : nat)
    (r : RkMatrix.t T) (tmp : FullMatrix.t T) :
  (if HMAT_TRUNC_INITPIV env then initialPivotA else 0) <= RkMatrix.rank r ->
  (if HMAT_TRUNC_INITPIV env then initialPivotB else 0) <= RkMatrix.rank r ->
  RkMatrix.rank r <= IndexSet.size (RkMatrix.rows r) ->
  Nat.min (IndexSet.size (RkMatrix.rows r)) (IndexSet.size (RkMatrix.cols r))
  < RkMatrix.rank r ->
  RkMatrix.eval r = Some tmp ->
  RkMatrix.rows (RkMatrix.truncatedSvd tmp epsilon) = RkMatrix.rows r ->
  RkMatrix.cols (RkMatrix.truncatedSvd tmp epsilon) = RkMatrix.cols r ->
  RkMatrix.truncate env approx oob epsilon initialPivotA initialPivotB r
  = Some (RkMatrix.mk (RkMatrix.rows r) (RkMatrix.cols r)
            (RkMatrix.a (RkMatrix.truncatedSvd tmp epsilon))
            (RkMatrix.b (RkMatrix.truncatedSvd tmp epsilon))
            (RkMatrix.method (RkMatrix.truncatedSvd tmp epsilon))).
Proof.
  intros HpA HpB Hrows Hmin Htmp Hr Hc.
  unfold RkMatrix.truncate.
  replace (negb _) with false
    by (symmetry; apply negb_false_iff, andb_true_iff; split; apply Nat.leb_le; lia).
  replace (RkMatrix.rank r =? 0) with false by (symmetry; apply Nat.eqb_neq; lia).
  replace (negb (RkMatrix.rank r <=? _)) with false
    by (symmetry; apply negb_false_iff, Nat.leb_le; lia).
  replace (_ `min` _ <? RkMatrix.rank r) with true by (symmetry; apply Nat.ltb_lt; lia).
  rewrite Htmp. cbn [mbind option_bind]. unfold RkMatrix.swap.
  rewrite Hr, Hc.
  rewrite !IndexSet_same_refl.
  reflexivity.
Qed.

End Fallback.

(** ** Operations on a block *)

Section BlockOperations.
Context {T : Type} `{ST : Scalar T}.
Import ScalarArray.

Add Ring scalar_ring_block : (@scalar_ring T ST).

(** X1. [transpose()] exchanges the two panels and the two index sets:
    applied twice it gives the block back, and the method is kept.  On a
    block that satisfies the invariant the rank is kept and the dense value
    is the transpose of the dense value before. *)
Theorem transpose_spec (r : RkMatrix.t T) :
  RkMatrix.transpose (RkMatrix.transpose r) = r /\
  RkMatrix.rows (RkMatrix.transpose r) = RkMatrix.cols r /\
  RkMatrix.cols (RkMatrix.transpose r) = RkMatrix.rows r /\
  RkMatrix.method (RkMatrix.transpose r) = RkMatrix.method r /\
  (RkMatrix.invariant r ->
     RkMatrix.rank (RkMatrix.transpose r) = RkMatrix.rank r /\
     forall d, RkMatrix.evalArray r = Some d ->
       exists d', RkMatrix.evalArray (RkMatrix.transpose r) = Some d' /\
         rows d' = cols d /\ cols d' = rows d /\
         forall i j, get d' i j = get d j i).
Proof.
  split; [destruct r; reflexivity|]. do 3 (split; [reflexivity|]).
  intros Hinv.
  assert (Hrk : RkMatrix.rank (RkMatrix.transpose r) = RkMatrix.rank r).
  { unfold RkMatrix.invariant in Hinv. unfold RkMatrix.rank, RkMatrix.transpose.
    cbn [RkMatrix.a].
    destruct (RkMatrix.a r), (RkMatrix.b r); try contradiction; [lia | reflexivity]. }
  split; [exact Hrk|].
  intros d Hd.
  destruct (evalArray_total (RkMatrix.transpose r)) as [d' Hd'];
    [apply invariant_transpose, Hinv|].
  exists d'. split; [exact Hd'|].
  destruct (evalArray_shape _ _ Hd) as [R C].
  destruct (evalArray_shape _ _ Hd') as [R' C'].
  cbn [RkMatrix.transpose RkMatrix.rows RkMatrix.cols] in R', C'.
  split; [congruence|]. split; [congruence|].
  intros i j. rewrite (evalArray_get _ _ i j Hd'), (evalArray_get _ _ j i Hd), Hrk.
  apply sum_n_ext. intros l _.
  unfold RkMatrix.panelA, RkMatrix.panelB, RkMatrix.transpose. cbn [RkMatrix.a RkMatrix.b].
  ring.
Qed.

(** X2. [conjugate()] keeps the index sets, the method and the rank, and
    conjugates the dense value entry by entry.  Applied twice it gives back
    the entries of both panels. *)
Theorem conjugate_spec (r : RkMatrix.t T) :
  RkMatrix.rows (RkMatrix.conjugate r) = RkMatrix.rows r /\
  RkMatrix.cols (RkMatrix.conjugate r) = RkMatrix.cols r /\
  RkMatrix.method (RkMatrix.conjugate r) = RkMatrix.method r /\
  RkMatrix.rank (RkMatrix.conjugate r) = RkMatrix.rank r /\
  (forall d, RkMatrix.evalArray r = Some d ->
     exists d', RkMatrix.evalArray (RkMatrix.conjugate r) = Some d' /\
       rows d' = rows d /\ cols d' = cols d /\
       forall i j, get d' i j = tconj (get d i j)) /\
  (forall i l,
     get (RkMatrix.panelA (RkMatrix.conjugate (RkMatrix.conjugate r))) i l
     = get (RkMatrix.panelA r) i l /\
     get (RkMatrix.panelB (RkMatrix.conjugate (RkMatrix.conjugate r))) i l
     = get (RkMatrix.panelB r) i l).
Proof.
  do 3 (split; [reflexivity|]).
  assert (Hrk : RkMatrix.rank (RkMatrix.conjugate r) = RkMatrix.rank r).
  { unfold RkMatrix.rank, RkMatrix.conjugate. cbn [RkMatrix.a].
    destruct (RkMatrix.a r); reflexivity. }
  split; [exact Hrk|]. split.
  - intros d Hd.
    pose proof (fun i j => evalArray_get r d i j Hd) as Hget.
    destruct (evalArray_shape _ _ Hd) as [R C].
    unfold RkMatrix.evalArray in Hd |- *. rewrite Hrk.
    destruct (negb (RkMatrix.rank r =? 0)) eqn:E0.
    + cbn [RkMatrix.conjugate RkMatrix.a RkMatrix.b RkMatrix.rows RkMatrix.cols].
      destruct (RkMatrix.a r) as [pa|] eqn:Ea; cbn [mbind option_bind] in Hd;
        [|discriminate].
      destruct (RkMatrix.b r) as [pb|] eqn:Eb; cbn [mbind option_bind] in Hd;
        [|discriminate].
      cbn [fmap option_fmap option_map mbind option_bind].
      eexists. split; [reflexivity|]. cbn [gemm rows cols new_].
      split; [congruence|]. split; [congruence|].
      intros i j. rewrite Hget, gemm_get.
      unfold RkMatrix.rank, RkMatrix.panelA, RkMatrix.panelB. rewrite Ea, Eb.
      cbn [default from_option id is_char Ascii.eqb Bool.eqb conjugate cols].
      unfold id. rewrite sum_n_conj. apply sum_n_ext. intros l _.
      unfold op_get. cbn. rewrite tconj_mul. reflexivity.
    + eexists. split; [reflexivity|]. cbn [clear new_ rows cols].
      cbn [RkMatrix.conjugate RkMatrix.rows RkMatrix.cols].
      split; [congruence|]. split; [congruence|].
      injection Hd as <-. intros i j. cbn. symmetry. apply tconj_zero.
  - intros i l. unfold RkMatrix.panelA, RkMatrix.panelB, RkMatrix.conjugate.
    cbn [RkMatrix.a RkMatrix.b].
    destruct (RkMatrix.a r), (RkMatrix.b r); cbn; rewrite ?tconj_conj; auto.
Qed.

(** X3. [swap(other)] fails unless the two blocks hold the same index set
    objects: the pointers are compared, so that two blocks over equal ranges
    held in distinct objects are not exchanged.  Otherwise the blocks
    exchange their panels and their methods, so that each is then what the
    other was, and a second [swap] undoes the first. *)
Theorem swap_spec (this other : RkMatrix.t T) :
  (IndexSet.addr (RkMatrix.rows this) <> IndexSet.addr (RkMatrix.rows other) \/
   IndexSet.addr (RkMatrix.cols this) <> IndexSet.addr (RkMatrix.cols other) ->
   RkMatrix.swap this other = None) /\
  (RkMatrix.rows this = RkMatrix.rows other ->
   RkMatrix.cols this = RkMatrix.cols other ->
   exists this' other',
     RkMatrix.swap this other = Some (this', other') /\
     this' = other /\ other' = this /\
     RkMatrix.swap this' other' = Some (this, other)).
Proof.
  unfold RkMatrix.swap, IndexSet.same. split.
  - intros [Hne | Hne]; apply Nat.eqb_neq in Hne; rewrite Hne;
      rewrite ?andb_false_r; reflexivity.
  - intros Er Ec.
    destruct this as [r1 c1 a1 b1 m1], other as [r2 c2 a2 b2 m2].
    cbn in *. subst r2 c2.
    fold (IndexSet.same r1 r1). fold (IndexSet.same c1 c1).
    rewrite !IndexSet_same_refl. cbn [andb].
    eexists _, _. split; [reflexivity|]. cbn.
    fold (IndexSet.same r1 r1). fold (IndexSet.same c1 c1).
    rewrite !IndexSet_same_refl. auto.
Qed.

End BlockOperations.

(** ** Sub-blocks *)

Section SubBlocks.
Context {T : Type} `{ST : Scalar T}.
Import ScalarArray.

Add Ring scalar_ring_sub : (@scalar_ring T ST).

Lemma subset_panels (subRows subCols : IndexSet.t) (r : RkMatrix.t T) :
  RkMatrix.invariant r ->
  IndexSet.isSubset subRows (RkMatrix.rows r) = true ->
  IndexSet.isSubset subCols (RkMatrix.cols r) = true ->
  RkMatrix.subset subRows subCols r
  = Some (RkMatrix.mk subRows subCols
            (RkMatrix.sub_rows (IndexSet.offset subRows - IndexSet.offset (RkMatrix.rows r))
               (IndexSet.size subRows) (RkMatrix.rank r) <$> RkMatrix.a r)
            (RkMatrix.sub_rows (IndexSet.offset subCols - IndexSet.offset (RkMatrix.cols r))
               (IndexSet.size subCols) (RkMatrix.rank r) <$> RkMatrix.b r)
            (RkMatrix.method r)).
Proof.
  intros Hinv Hr Hc. unfold RkMatrix.subset, RkMatrix.sub_rows. rewrite Hr, Hc. cbn [negb].
  unfold RkMatrix.invariant in Hinv. unfold RkMatrix.rank.
  destruct (RkMatrix.a r) as [pa|], (RkMatrix.b r) as [pb|]; try contradiction.
  - destruct Hinv as (Hk & _).
    replace (0 <? cols pa) with true by (symmetry; apply Nat.ltb_lt; lia).
    cbn [mbind option_bind fmap option_fmap option_map].
    unfold RkMatrix.RkMatrix. cbn [sub rows]. rewrite !Nat.eqb_refl. reflexivity.
  - reflexivity.
Qed.

Lemma subset_ok (subRows subCols : IndexSet.t) (r : RkMatrix.t T) :
  RkMatrix.invariant r ->
  IndexSet.isSubset subRows (RkMatrix.rows r) = true ->
  IndexSet.isSubset subCols (RkMatrix.cols r) = true ->
  exists s,
    RkMatrix.subset subRows subCols r = Some s /\
    RkMatrix.invariant s /\
    RkMatrix.rows s = subRows /\ RkMatrix.cols s = subCols /\
    RkMatrix.rank s = RkMatrix.rank r /\
    RkMatrix.method s = RkMatrix.method r /\
    forall i j,
      RkMatrix.dense s i j
      = RkMatrix.dense r
          (IndexSet.offset subRows - IndexSet.offset (RkMatrix.rows r) + i)
          (IndexSet.offset subCols - IndexSet.offset (RkMatrix.cols r) + j).
Proof.
  intros Hinv Hr Hc. rewrite (subset_panels _ _ _ Hinv Hr Hc).
  eexists. split; [reflexivity|].
  unfold RkMatrix.invariant in Hinv |- *. unfold RkMatrix.dense, RkMatrix.rank,
    RkMatrix.panelA, RkMatrix.panelB, RkMatrix.sub_rows.
  cbn [RkMatrix.a RkMatrix.b RkMatrix.rows RkMatrix.cols RkMatrix.method].
  destruct (RkMatrix.a r) as [pa|], (RkMatrix.b r) as [pb|]; try contradiction;
    cbn [fmap option_fmap option_map default from_option id sub rows cols get].
  - destruct Hinv as (Hk & Hkk & Hra & Hrb).
    split; [repeat split; lia|]. do 4 (split; [reflexivity|]).
    intros i j. unfold id. reflexivity.
  - split; [exact I|]. do 4 (split; [reflexivity|]). reflexivity.
Qed.

(** X4. [subset(subRows, subCols)] fails when one of the two ranges is not
    within the range of the block.  On a block that satisfies the invariant
    it returns a block over the two ranges that satisfies the invariant, of
    the same rank and method, whose dense value is the dense value of the
    block restricted to the two ranges. *)
Theorem subset_spec (subRows subCols : IndexSet.t) (r : RkMatrix.t T) :
  (IndexSet.isSubset subRows (RkMatrix.rows r) = false \/
   IndexSet.isSubset subCols (RkMatrix.cols r) = false ->
   RkMatrix.subset subRows subCols r = None) /\
  (RkMatrix.invariant r ->
   IndexSet.isSubset subRows (RkMatrix.rows r) = true ->
   IndexSet.isSubset subCols (RkMatrix.cols r) = true ->
   exists s,
     RkMatrix.subset subRows subCols r = Some s /\
     RkMatrix.invariant s /\
     RkMatrix.rows s = subRows /\ RkMatrix.cols s = subCols /\
     RkMatrix.rank s = RkMatrix.rank r /\
     RkMatrix.method s = RkMatrix.method r /\
     forall i j,
       RkMatrix.dense s i j
       = RkMatrix.dense r
           (IndexSet.offset subRows - IndexSet.offset (RkMatrix.rows r) + i)
           (IndexSet.offset subCols - IndexSet.offset (RkMatrix.cols r) + j)).
Proof.
  split.
  - unfold RkMatrix.subset. intros [-> | ->]; [reflexivity|].
    destruct (negb _); reflexivity.
  - apply subset_ok.
Qed.

Lemma isSubset_offsets (s o : IndexSet.t) :
  IndexSet.isSubset s o = true ->
  IndexSet.offset o <= IndexSet.offset s /\
  IndexSet.offset s + IndexSet.size s <= IndexSet.offset o + IndexSet.size o.
Proof.
  unfold IndexSet.isSubset. intros E. apply andb_true_iff in E as [E1 E2].
  apply Nat.leb_le in E1, E2. auto.
Qed.

Lemma isSubset_trans (s o p : IndexSet.t) :
  IndexSet.isSubset s o = true -> IndexSet.isSubset o p = true ->
  IndexSet.isSubset s p = true.
Proof.
  intros H1 H2. apply isSubset_offsets in H1, H2.
  unfold IndexSet.isSubset. apply andb_true_iff. split; apply Nat.leb_le; lia.
Qed.

(** X5. A sub-block of a sub-block is the sub-block taken directly: both have
    the same index sets, rank, method and dense value. *)
Theorem subset_subset (rows1 cols1 rows2 cols2 : IndexSet.t) (r : RkMatrix.t T) :
  RkMatrix.invariant r ->
  IndexSet.isSubset rows1 (RkMatrix.rows r) = true ->
  IndexSet.isSubset cols1 (RkMatrix.cols r) = true ->
  IndexSet.isSubset rows2 rows1 = true ->
  IndexSet.isSubset cols2 cols1 = true ->
  exists s1 s2 s12,
    RkMatrix.subset rows1 cols1 r = Some s1 /\
    RkMatrix.subset rows2 cols2 r = Some s2 /\
    RkMatrix.subset rows2 cols2 s1 = Some s12 /\
    RkMatrix.rows s12 = RkMatrix.rows s2 /\
    RkMatrix.cols s12 = RkMatrix.cols s2 /\
    RkMatrix.rank s12 = RkMatrix.rank s2 /\
    RkMatrix.method s12 = RkMatrix.method s2 /\
    forall i j, RkMatrix.dense s12 i j = RkMatrix.dense s2 i j.
Proof.
  intros Hinv Hr1 Hc1 Hr2 Hc2.
  destruct (subset_ok rows1 cols1 r Hinv Hr1 Hc1)
    as (s1 & E1 & I1 & R1 & C1 & K1 & M1 & D1).
  destruct (subset_ok rows2 cols2 r Hinv)
    as (s2 & E2 & I2 & R2 & C2 & K2 & M2 & D2);
    [eapply isSubset_trans; eauto | eapply isSubset_trans; eauto |].
  destruct (subset_ok rows2 cols2 s1 I1)
    as (s12 & E12 & I12 & R12 & C12 & K12 & M12 & D12);
    [rewrite R1; exact Hr2 | rewrite C1; exact Hc2 |].
  exists s1, s2, s12. do 3 (split; [assumption|]).
  split; [congruence|]. split; [congruence|]. split; [congruence|].
  split; [congruence|].
  intros i j. rewrite D12, D1, D2, R1, C1.
  apply isSubset_offsets in Hr1, Hc1, Hr2, Hc2.
  f_equal; lia.
Qed.

End SubBlocks.

(** ** The dense value of the mixed products *)

Section MixedValues.
Context {T : Type} `{ST : Scalar T}.
Variable NoCompression : Z.
Import ScalarArray.

Add Ring scalar_ring_mixedv : (@scalar_ring T ST).

Lemma pone_zero_drop (x y : T) : (pone * x + zero * y)%T = x.
Proof. ring. Qed.

Ltac conj_in :=
  repeat first
    [ rewrite pone_zero_drop | rewrite sum_n_conj | rewrite tconj_mul
    | rewrite tconj_add | rewrite tconj_conj | rewrite tconj_zero
    | rewrite tconj_pone ].

Ltac flags :=
  repeat match goal with
         | |- context [is_char ?c ?d] =>
             let v := eval vm_compute in (is_char c d) in
             change (is_char c d) with v
         end;
  cbn iota.

Ltac entries :=
  intros; unfold cj, freeA, freeB, RkMatrix.panelA, RkMatrix.panelB, copy;
  cbn; unfold id; conj_in;
  first [ reflexivity
        | apply sum_n_ext; intros ? _; unfold op_get; cbn; conj_in;
          first [reflexivity | ring] ].

(** The panels of [op(rk) * op(m)]. *)
Lemma multiplyRkFull_panels (transR transM : ascii) (rk : RkMatrix.t T)
    (m : FullMatrix.t T) :
  transR = "N"%char \/ transR = "T"%char \/ transR = "C"%char ->
  transM = "N"%char \/ transM = "T"%char \/ transM = "C"%char ->
  RkMatrix.invariant rk -> RkMatrix.rank rk <> 0 ->
  (if is_char transR "N" then IndexSet.size (RkMatrix.cols rk)
   else IndexSet.size (RkMatrix.rows rk))
  = (if is_char transM "N" then FullMatrix.rows m else FullMatrix.cols m) ->
  exists newA newB,
    RkMatrix.multiplyRkFull NoCompression transR transM rk m
    = Some (RkMatrix.mk
              (if is_char transR "N" then RkMatrix.rows rk else RkMatrix.cols rk)
              (if is_char transM "N" then FullMatrix.cols_ m else FullMatrix.rows_ m)
              (Some newA) (Some newB) (RkMatrix.method rk)) /\
    rows newA = IndexSet.size
                  (if is_char transR "N" then RkMatrix.rows rk else RkMatrix.cols rk) /\
    rows newB = IndexSet.size
                  (if is_char transM "N" then FullMatrix.cols_ m else FullMatrix.rows_ m) /\
    cols newA = RkMatrix.rank rk /\ cols newB = RkMatrix.rank rk /\
    (forall i l, get newA i l = cj transR (get (freeA transR rk) i l)) /\
    (forall j l,
       get newB j l
       = sum_n (if is_char transM "N" then rows (FullMatrix.data m)
                else cols (FullMatrix.data m))
           (fun c => (op_get transM (FullMatrix.data m) c j
                      * cj transR (get (freeB transR rk) c l))%T)).
Proof.
  intros HtR HtM Hinv Hne Hdim.
  destruct (invariant_panels rk Hinv Hne) as (pa & pb & Ea & Eb & Ca & Cb & Ra & Rb).
  apply Nat.eqb_eq in Hdim as Cdim. apply Nat.eqb_neq in Hne as Cne.
  unfold RkMatrix.multiplyRkFull. rewrite Cdim, Cne. cbn [negb].
  destruct (is_char_cases transR HtR)
    as [[-> EN1] | [(-> & EN1 & ET1) | (-> & EN1 & ET1 & EC1)]];
  destruct (is_char_cases transM HtM)
    as [[-> EN2] | [(-> & EN2 & ET2) | (-> & EN2 & ET2 & EC2)]];
  flags; cbn [negb];
  rewrite Ea, Eb; cbn [mbind option_bind];
  unfold RkMatrix.RkMatrix, copy, FullMatrix.rows, FullMatrix.cols;
  cbn [rows cols conjugate gemm new_];
  rewrite ?Ra, ?Rb, ?Nat.eqb_refl; cbn [andb];
  (eexists _, _; split; [reflexivity|]);
  cbn [rows cols];
  (split; [assumption || reflexivity|]); (split; [assumption || reflexivity|]);
  (split; [assumption|]); (split; [assumption|]);
  unfold freeA, freeB, RkMatrix.panelA, RkMatrix.panelB; rewrite Ea, Eb;
  split; entries.
Qed.

(** The dense value of a block with given panels. *)
Lemma dense_mk (rs cs : IndexSet.t) (pa pb : t T) (mth : Z) (i j : nat) :
  RkMatrix.dense (RkMatrix.mk rs cs (Some pa) (Some pb) mth) i j
  = sum_n (cols pa) (fun l => (get pa i l * get pb j l)%T).
Proof. reflexivity. Qed.

(** X6. On an Rk operand of rank at least 1 that satisfies the invariant and a
    dense operand whose dimension agrees with it,
    [multiplyRkFull(transR, transM, rk, m)] returns a block of the rank of
    [rk] that satisfies the invariant, over the rows of [op(rk)] and the
    columns of [op(m)], whose dense value is the product [op(rk) * op(m)],
    for each of the nine pairs of flags. *)
Theorem multiplyRkFull_value (transR transM : ascii) (rk : RkMatrix.t T)
    (m : FullMatrix.t T) (d : t T) :
  transR = "N"%char \/ transR = "T"%char \/ transR = "C"%char ->
  transM = "N"%char \/ transM = "T"%char \/ transM = "C"%char ->
  RkMatrix.invariant rk -> RkMatrix.rank rk <> 0 ->
  RkMatrix.evalArray rk = Some d ->
  (if is_char transR "N" then IndexSet.size (RkMatrix.cols rk)
   else IndexSet.size (RkMatrix.rows rk))
  = (if is_char transM "N" then FullMatrix.rows m else FullMatrix.cols m) ->
  exists res,
    RkMatrix.multiplyRkFull NoCompression transR transM rk m = Some res /\
    RkMatrix.invariant res /\
    RkMatrix.rows res
    = (if is_char transR "N" then RkMatrix.rows rk else RkMatrix.cols rk) /\
    RkMatrix.cols res
    = (if is_char transM "N" then FullMatrix.cols_ m else FullMatrix.rows_ m) /\
    RkMatrix.rank res = RkMatrix.rank rk /\
    forall i j,
      RkMatrix.dense res i j
      = sum_n (if is_char transM "N" then rows (FullMatrix.data m)
               else cols (FullMatrix.data m))
          (fun c => (op_get transR d i c * op_get transM (FullMatrix.data m) c j)%T).
Proof.
  intros HtR HtM Hinv Hne Hd Hdim.
  destruct (multiplyRkFull_panels transR transM rk m HtR HtM Hinv Hne Hdim)
    as (newA & newB & E & RA & RB & CA & CB & GA & GB).
  eexists. split; [exact E|].
  split; [apply (invariant_mk _ _ _ _ _ (RkMatrix.rank rk)); auto; lia|].
  do 2 (split; [reflexivity|]).
  split; [exact CA|].
  intros i j. rewrite dense_mk, CA.
  transitivity
    (sum_n (RkMatrix.rank rk)
       (fun l => (cj transR (get (freeA transR rk) i l)
                  * sum_n (if is_char transM "N" then rows (FullMatrix.data m)
                           else cols (FullMatrix.data m))
                      (fun c => cj transR (get (freeB transR rk) c l)
                                * op_get transM (FullMatrix.data m) c j))%T)).
  { apply sum_n_ext. intros l _. rewrite GA, GB. f_equal.
    apply sum_n_ext. intros c _. ring. }
  rewrite (product_through_rank (RkMatrix.rank rk) _
             (fun i l => cj transR (get (freeA transR rk) i l))
             (fun c l => cj transR (get (freeB transR rk) c l))
             (fun c j => op_get transM (FullMatrix.data m) c j) i j).
  apply sum_n_ext. intros c _. rewrite (op_dense transR rk d i c HtR Hinv Hd).
  reflexivity.
Qed.

(** The panels of [op(m) * op(rk)]. *)
Lemma multiplyFullRk_panels (transM transR : ascii) (m : FullMatrix.t T)
    (rk : RkMatrix.t T) :
  transR = "N"%char \/ transR = "T"%char \/ transR = "C"%char ->
  transM = "N"%char \/ transM = "T"%char \/ transM = "C"%char ->
  RkMatrix.invariant rk -> RkMatrix.rank rk <> 0 ->
  exists newA newB,
    RkMatrix.multiplyFullRk transM transR m rk
    = Some (RkMatrix.mk
              (if is_char transM "N" then FullMatrix.rows_ m else FullMatrix.cols_ m)
              (if is_char transR "N" then RkMatrix.cols rk else RkMatrix.rows rk)
              (Some newA) (Some newB) (RkMatrix.method rk)) /\
    rows newA = IndexSet.size
                  (if is_char transM "N" then FullMatrix.rows_ m else FullMatrix.cols_ m) /\
    rows newB = IndexSet.size
                  (if is_char transR "N" then RkMatrix.cols rk else RkMatrix.rows rk) /\
    cols newA = RkMatrix.rank rk /\ cols newB = RkMatrix.rank rk /\
    (forall i l,
       get newA i l
       = sum_n (if is_char transM "N" then cols (FullMatrix.data m)
                else rows (FullMatrix.data m))
           (fun c => (op_get transM (FullMatrix.data m) i c
                      * cj transR (get (freeA transR rk) c l))%T)) /\
    (forall j l, get newB j l = cj transR (get (freeB transR rk) j l)).
Proof.
  intros HtR HtM Hinv Hne.
  destruct (invariant_panels rk Hinv Hne) as (pa & pb & Ea & Eb & Ca & Cb & Ra & Rb).
  unfold RkMatrix.multiplyFullRk.
  destruct (is_char_cases transR HtR)
    as [[-> EN1] | [(-> & EN1 & ET1) | (-> & EN1 & ET1 & EC1)]];
  destruct (is_char_cases transM HtM)
    as [[-> EN2] | [(-> & EN2 & ET2) | (-> & EN2 & ET2 & EC2)]];
  flags; cbn [negb];
  rewrite Ea, Eb; cbn [mbind option_bind];
  unfold RkMatrix.RkMatrix, copy, FullMatrix.rows, FullMatrix.cols;
  cbn [rows cols conjugate gemm new_];
  rewrite ?Ra, ?Rb, ?Nat.eqb_refl; cbn [andb];
  (eexists _, _; split; [reflexivity|]);
  cbn [rows cols];
  (split; [assumption || reflexivity|]); (split; [assumption || reflexivity|]);
  (split; [assumption|]); (split; [assumption|]);
  unfold freeA, freeB, RkMatrix.panelA, RkMatrix.panelB; rewrite Ea, Eb;
  split; entries.
Qed.

(** X7. On an Rk operand of rank at least 1 that satisfies the invariant,
    [multiplyFullRk(transM, transR, m, rk)] returns a block of the rank of
    [rk] that satisfies the invariant, over the rows of [op(m)] and the
    columns of [op(rk)], whose dense value is the product [op(m) * op(rk)],
    for each of the nine pairs of flags.  The function does not compare the
    dimensions of its operands: the sum runs over the columns of [op(m)]. *)
Theorem multiplyFullRk_value (transM transR : ascii) (m : FullMatrix.t T)
    (rk : RkMatrix.t T) (d : t T) :
  transR = "N"%char \/ transR = "T"%char \/ transR = "C"%char ->
  transM = "N"%char \/ transM = "T"%char \/ transM = "C"%char ->
  RkMatrix.invariant rk -> RkMatrix.rank rk <> 0 ->
  RkMatrix.evalArray rk = Some d ->
  exists res,
    RkMatrix.multiplyFullRk transM transR m rk = Some res /\
    RkMatrix.invariant res /\
    RkMatrix.rows res
    = (if is_char transM "N" then FullMatrix.rows_ m else FullMatrix.cols_ m) /\
    RkMatrix.cols res
    = (if is_char transR "N" then RkMatrix.cols rk else RkMatrix.rows rk) /\
    RkMatrix.rank res = RkMatrix.rank rk /\
    forall i j,
      RkMatrix.dense res i j
      = sum_n (if is_char transM "N" then cols (FullMatrix.data m)
               else rows (FullMatrix.data m))
          (fun c => (op_get transM (FullMatrix.data m) i c * op_get transR d c j)%T).
Proof.
  intros HtR HtM Hinv Hne Hd.
  destruct (multiplyFullRk_panels transM transR m rk HtR HtM Hinv Hne)
    as (newA & newB & E & RA & RB & CA & CB & GA & GB).
  eexists. split; [exact E|].
  split; [apply (invariant_mk _ _ _ _ _ (RkMatrix.rank rk)); auto; lia|].
  do 2 (split; [reflexivity|]).
  split; [exact CA|].
  intros i j. rewrite dense_mk, CA.
  transitivity
    (sum_n (RkMatrix.rank rk)
       (fun l => (cj transR (get (freeB transR rk) j l)
                  * sum_n (if is_char transM "N" then cols (FullMatrix.data m)
                           else rows (FullMatrix.data m))
                      (fun c => cj transR (get (freeA transR rk) c l)
                                * op_get transM (FullMatrix.data m) i c))%T)).
  { apply sum_n_ext. intros l _. rewrite GA, GB.
    rewrite (sum_n_ext _ _
               (fun c => (cj transR (get (freeA transR rk) c l)
                          * op_get transM (FullMatrix.data m) i c)%T));
      [ring | intros c _; ring]. }
  rewrite (product_through_rank (RkMatrix.rank rk) _
             (fun j l => cj transR (get (freeB transR rk) j l))
             (fun c l => cj transR (get (freeA transR rk) c l))
             (fun c i => op_get transM (FullMatrix.data m) i c) j i).
  apply sum_n_ext. intros c _. rewrite (op_dense transR rk d c j HtR Hinv Hd).
  rewrite (sum_n_ext _ _
             (fun l => (cj transR (get (freeA transR rk) c l)
                        * cj transR (get (freeB transR rk) j l))%T));
    [ring | intros l _; ring].
Qed.

End MixedValues.

(** ** Products with an H-matrix *)

Section HValues.
Context {T HM : Type} `{ST : Scalar T} `{HMC : !RkMatrix.HMatrix T HM}.
Import ScalarArray.

Add Ring scalar_ring_hv : (@scalar_ring T ST).

(** The contract of [HMatrix<T>::gemv]: [h] stands for a dense matrix
    [dense_of h] with [rows()->size()] rows and [cols()->size()] columns, and
    [gemv(trans, alpha, x, beta, y)] leaves
    [alpha * op(h) * x + beta * y] in [y]. *)
Variable dense_of : HM -> t T.
Hypothesis h_gemv_product :
  forall (h : HM) (trans : ascii) (alpha beta : T) (x y : t T) (i j : nat),
    RkMatrix.h_gemv_entries h trans alpha x beta y i j
    = (alpha * sum_n (if is_char trans "N" then IndexSet.size (RkMatrix.h_cols h)
                      else IndexSet.size (RkMatrix.h_rows h))
                 (fun c => op_get trans (dense_of h) i c * get x c j)
       + beta * get y i j)%T.

Ltac h_flags :=
  repeat match goal with
         | |- context [is_char ?c ?d] =>
             let v := eval vm_compute in (is_char c d) in
             change (is_char c d) with v
         end;
  cbn iota.

Ltac h_conj_in :=
  repeat first
    [ rewrite pone_zero_drop | rewrite sum_n_conj | rewrite tconj_mul
    | rewrite tconj_add | rewrite tconj_conj | rewrite tconj_zero
    | rewrite tconj_pone ].

Ltac h_entries :=
  intros; unfold cj, freeA, freeB, RkMatrix.panelA, RkMatrix.panelB, copy;
  cbn; unfold id; rewrite ?h_gemv_product; h_flags; h_conj_in;
  first [ reflexivity
        | apply sum_n_ext; intros ? _; unfold op_get; cbn; h_conj_in;
          first [reflexivity | ring] ].

Lemma multiplyRkH_panels (transR transH : ascii) (rk : RkMatrix.t T) (h : HM) :
  transR = "N"%char \/ transR = "T"%char \/ transR = "C"%char ->
  transH = "N"%char \/ transH = "T"%char \/ transH = "C"%char ->
  RkMatrix.invariant rk -> RkMatrix.rank rk <> 0 ->
  IndexSet.eqb (if is_char transR "N" then RkMatrix.cols rk else RkMatrix.rows rk)
               (if is_char transH "N" then RkMatrix.h_rows h else RkMatrix.h_cols h)
  = true ->
  exists newA newB,
    RkMatrix.multiplyRkH transR transH rk h
    = Some (RkMatrix.mk
              (if is_char transR "N" then RkMatrix.rows rk else RkMatrix.cols rk)
              (if is_char transH "N" then RkMatrix.h_cols h else RkMatrix.h_rows h)
              (Some newA) (Some newB) (RkMatrix.method rk)) /\
    rows newA = IndexSet.size
                  (if is_char transR "N" then RkMatrix.rows rk else RkMatrix.cols rk) /\
    rows newB = IndexSet.size
                  (if is_char transH "N" then RkMatrix.h_cols h else RkMatrix.h_rows h) /\
    cols newA = RkMatrix.rank rk /\ cols newB = RkMatrix.rank rk /\
    (forall i l, get newA i l = cj transR (get (freeA transR rk) i l)) /\
    (forall j l,
       get newB j l
       = sum_n (if is_char transH "N" then IndexSet.size (RkMatrix.h_rows h)
                else IndexSet.size (RkMatrix.h_cols h))
           (fun c => (op_get transH (dense_of h) c j
                      * cj transR (get (freeB transR rk) c l))%T)).
Proof.
  intros HtR HtH Hinv Hne Hsets.
  destruct (invariant_panels rk Hinv Hne) as (pa & pb & Ea & Eb & Ca & Cb & Ra & Rb).
  unfold RkMatrix.multiplyRkH. rewrite Hsets. cbn [negb].
  destruct (is_char_cases transR HtR)
    as [[-> EN1] | [(-> & EN1 & ET1) | (-> & EN1 & ET1 & EC1)]];
  destruct (is_char_cases transH HtH)
    as [[-> EN2] | [(-> & EN2 & ET2) | (-> & EN2 & ET2 & EC2)]];
  h_flags; cbn [negb];
  rewrite Ea, Eb; cbn [mbind option_bind];
  unfold RkMatrix.RkMatrix, copy, RkMatrix.h_gemv;
  cbn [rows cols conjugate new_];
  rewrite ?Ra, ?Rb, ?Nat.eqb_refl; cbn [andb];
  (eexists _, _; split; [reflexivity|]);
  cbn [rows cols];
  (split; [assumption || reflexivity|]); (split; [assumption || reflexivity|]);
  (split; [assumption|]); (split; [assumption|]);
  unfold freeA, freeB, RkMatrix.panelA, RkMatrix.panelB; rewrite Ea, Eb;
  split; h_entries.
Qed.

(** X8. When [h->gemv] computes the product by the dense matrix that [h]
    stands for, [multiplyRkH(transR, transH, rk, h)] on an Rk operand of rank
    at least 1 that satisfies the invariant and whose index set agrees with
    that of [op(h)] returns a block of the rank and method of [rk] that
    satisfies the invariant, whose dense value is the product
    [op(rk) * op(h)], for each of the nine pairs of flags. *)
Theorem multiplyRkH_value (transR transH : ascii) (rk : RkMatrix.t T) (h : HM)
    (d : t T) :
  transR = "N"%char \/ transR = "T"%char \/ transR = "C"%char ->
  transH = "N"%char \/ transH = "T"%char \/ transH = "C"%char ->
  RkMatrix.invariant rk -> RkMatrix.rank rk <> 0 ->
  RkMatrix.evalArray rk = Some d ->
  IndexSet.eqb (if is_char transR "N" then RkMatrix.cols rk else RkMatrix.rows rk)
               (if is_char transH "N" then RkMatrix.h_rows h else RkMatrix.h_cols h)
  = true ->
  exists res,
    RkMatrix.multiplyRkH transR transH rk h = Some res /\
    RkMatrix.invariant res /\
    RkMatrix.rows res
    = (if is_char transR "N" then RkMatrix.rows rk else RkMatrix.cols rk) /\
    RkMatrix.cols res
    = (if is_char transH "N" then RkMatrix.h_cols h else RkMatrix.h_rows h) /\
    RkMatrix.rank res = RkMatrix.rank rk /\
    RkMatrix.method res = RkMatrix.method rk /\
    forall i j,
      RkMatrix.dense res i j
      = sum_n (if is_char transH "N" then IndexSet.size (RkMatrix.h_rows h)
               else IndexSet.size (RkMatrix.h_cols h))
          (fun c => (op_get transR d i c * op_get transH (dense_of h) c j)%T).
Proof.
  intros HtR HtH Hinv Hne Hd Hsets.
  destruct (multiplyRkH_panels transR transH rk h HtR HtH Hinv Hne Hsets)
    as (newA & newB & E & RA & RB & CA & CB & GA & GB).
  eexists. split; [exact E|].
  split; [apply (invariant_mk _ _ _ _ _ (RkMatrix.rank rk)); auto; lia|].
  do 2 (split; [reflexivity|]).
  split; [exact CA|]. split; [reflexivity|].
  intros i j. rewrite dense_mk, CA.
  transitivity
    (sum_n (RkMatrix.rank rk)
       (fun l => (cj transR (get (freeA transR rk) i l)
                  * sum_n (if is_char transH "N" then IndexSet.size (RkMatrix.h_rows h)
                           else IndexSet.size (RkMatrix.h_cols h))
                      (fun c => cj transR (get (freeB transR rk) c l)
                                * op_get transH (dense_of h) c j))%T)).
  { apply sum_n_ext. intros l _. rewrite GA, GB. f_equal.
    apply sum_n_ext. intros c _. ring. }
  rewrite (product_through_rank (RkMatrix.rank rk) _
             (fun i l => cj transR (get (freeA transR rk) i l))
             (fun c l => cj transR (get (freeB transR rk) c l))
             (fun c j => op_get transH (dense_of h) c j) i j).
  apply sum_n_ext. intros c _. rewrite (op_dense transR rk d i c HtR Hinv Hd).
  reflexivity.
Qed.

Lemma multiplyHRk_panels (transH transR : ascii) (h : HM) (rk : RkMatrix.t T) :
  transR = "N"%char \/ transR = "T"%char \/ transR = "C"%char ->
  transH = "N"%char \/ transH = "T"%char \/ transH = "C"%char ->
  RkMatrix.invariant rk -> RkMatrix.rank rk <> 0 ->
  exists newA newB,
    RkMatrix.multiplyHRk transH transR h rk
    = Some (RkMatrix.mk
              (if is_char transH "N" then RkMatrix.h_rows h else RkMatrix.h_cols h)
              (if is_char transR "N" then RkMatrix.cols rk else RkMatrix.rows rk)
              (Some newA) (Some newB) (RkMatrix.method rk)) /\
    rows newA = IndexSet.size
                  (if is_char transH "N" then RkMatrix.h_rows h else RkMatrix.h_cols h) /\
    rows newB = IndexSet.size
                  (if is_char transR "N" then RkMatrix.cols rk else RkMatrix.rows rk) /\
    cols newA = RkMatrix.rank rk /\ cols newB = RkMatrix.rank rk /\
    (forall i l,
       get newA i l
       = sum_n (if is_char transH "N" then IndexSet.size (RkMatrix.h_cols h)
                else IndexSet.size (RkMatrix.h_rows h))
           (fun c => (op_get transH (dense_of h) i c
                      * cj transR (get (freeA transR rk) c l))%T)) /\
    (forall j l, get newB j l = cj transR (get (freeB transR rk) j l)).
Proof.
  intros HtR HtH Hinv Hne.
  destruct (invariant_panels rk Hinv Hne) as (pa & pb & Ea & Eb & Ca & Cb & Ra & Rb).
  apply Nat.eqb_neq in Hne as Cne.
  unfold RkMatrix.multiplyHRk. rewrite Cne.
  destruct (is_char_cases transR HtR)
    as [[-> EN1] | [(-> & EN1 & ET1) | (-> & EN1 & ET1 & EC1)]];
  destruct (is_char_cases transH HtH)
    as [[-> EN2] | [(-> & EN2 & ET2) | (-> & EN2 & ET2 & EC2)]];
  h_flags; cbn [negb];
  rewrite Ea, Eb; cbn [mbind option_bind];
  unfold RkMatrix.RkMatrix, copy, RkMatrix.h_gemv;
  cbn [rows cols conjugate new_];
  rewrite ?Ra, ?Rb, ?Nat.eqb_refl; cbn [andb];
  (eexists _, _; split; [reflexivity|]);
  cbn [rows cols];
  (split; [assumption || reflexivity|]); (split; [assumption || reflexivity|]);
  (split; [assumption|]); (split; [assumption|]);
  unfold freeA, freeB, RkMatrix.panelA, RkMatrix.panelB; rewrite Ea, Eb;
  split; h_entries.
Qed.

(** X9. When [h->gemv] computes the product by the dense matrix that [h]
    stands for, [multiplyHRk(transH, transR, h, rk)] on an Rk operand of rank
    at least 1 that satisfies the invariant returns a block of the rank and
    method of [rk] that satisfies the invariant, whose dense value is the
    product [op(h) * op(rk)], for each of the nine pairs of flags. *)
Theorem multiplyHRk_value (transH transR : ascii) (h : HM) (rk : RkMatrix.t T)
    (d : t T) :
  transR = "N"%char \/ transR = "T"%char \/ transR = "C"%char ->
  transH = "N"%char \/ transH = "T"%char \/ transH = "C"%char ->
  RkMatrix.invariant rk -> RkMatrix.rank rk <> 0 ->
  RkMatrix.evalArray rk = Some d ->
  exists res,
    RkMatrix.multiplyHRk transH transR h rk = Some res /\
    RkMatrix.invariant res /\
    RkMatrix.rows res
    = (if is_char transH "N" then RkMatrix.h_rows h else RkMatrix.h_cols h) /\
    RkMatrix.cols res
    = (if is_char transR "N" then RkMatrix.cols rk else RkMatrix.rows rk) /\
    RkMatrix.rank res = RkMatrix.rank rk /\
    RkMatrix.method res = RkMatrix.method rk /\
    forall i j,
      RkMatrix.dense res i j
      = sum_n (if is_char transH "N" then IndexSet.size (RkMatrix.h_cols h)
               else IndexSet.size (RkMatrix.h_rows h))
          (fun c => (op_get transH (dense_of h) i c * op_get transR d c j)%T).
Proof.
  intros HtR HtH Hinv Hne Hd.
  destruct (multiplyHRk_panels transH transR h rk HtR HtH Hinv Hne)
    as (newA & newB & E & RA & RB & CA & CB & GA & GB).
  eexists. split; [exact E|].
  split; [apply (invariant_mk _ _ _ _ _ (RkMatrix.rank rk)); auto; lia|].
  do 2 (split; [reflexivity|]).
  split; [exact CA|]. split; [reflexivity|].
  intros i j. rewrite dense_mk, CA.
  transitivity
    (sum_n (RkMatrix.rank rk)
       (fun l => (cj transR (get (freeB transR rk) j l)
                  * sum_n (if is_char transH "N" then IndexSet.size (RkMatrix.h_cols h)
                           else IndexSet.size (RkMatrix.h_rows h))
                      (fun c => cj transR (get (freeA transR rk) c l)
                                * op_get transH (dense_of h) i c))%T)).
  { apply sum_n_ext. intros l _. rewrite GA, GB.
    rewrite (sum_n_ext _ _
               (fun c => (cj transR (get (freeA transR rk) c l)
                          * op_get transH (dense_of h) i c)%T));
      [ring | intros c _; ring]. }
  rewrite (product_through_rank (RkMatrix.rank rk) _
             (fun j l => cj transR (get (freeB transR rk) j l))
             (fun c l => cj transR (get (freeA transR rk) c l))
             (fun c i => op_get transH (dense_of h) i c) j i).
  apply sum_n_ext. intros c _. rewrite (op_dense transR rk d c j HtR Hinv Hd).
  rewrite (sum_n_ext _ _
             (fun l => (cj transR (get (freeA transR rk) c l)
                        * cj transR (get (freeB transR rk) j l))%T));
    [ring | intros l _; ring].
Qed.

End HValues.

(** ** Products on an empty operand *)

Section EmptyOperand.
Context {T D HM : Type} `{ST : Scalar T} `{RD : Real D}
  `{LP : !ScalarArray.Lapack T D} `{HMC : !RkMatrix.HMatrix T HM}.
Variable NoCompression : Z.
Variable env : Env.
Variable approx : RkApproximationControl.t D.
Variable oob : D.
Import ScalarArray.

(** X10. On an empty Rk operand (both panels null) [multiplyFullRk],
    [multiplyRkH] and [multiplyRkRk], whichever side the operand is on, use a
    null panel and fail.  [multiplyHRk] returns the empty block with the
    method of the operand, and [multiplyRkFull], when the dimensions agree,
    the empty block with the method [NoCompression]. *)
Theorem products_on_empty (transR transX : ascii) (rk other : RkMatrix.t T)
    (m : FullMatrix.t T) (h : HM) :
  RkMatrix.a rk = None -> RkMatrix.b rk = None ->
  RkMatrix.multiplyFullRk transX transR m rk = None /\
  RkMatrix.multiplyRkH transR transX rk h = None /\
  RkMatrix.multiplyRkRk env approx oob transR transX rk other = None /\
  RkMatrix.multiplyRkRk env approx oob transX transR other rk = None /\
  RkMatrix.multiplyHRk transX transR h rk
  = Some (RkMatrix.mk
            (if is_char transX "N" then RkMatrix.h_rows h else RkMatrix.h_cols h)
            (if is_char transR "N" then RkMatrix.cols rk else RkMatrix.rows rk)
            None None (RkMatrix.method rk)) /\
  ((if is_char transR "N" then IndexSet.size (RkMatrix.cols rk)
    else IndexSet.size (RkMatrix.rows rk))
   = (if is_char transX "N" then FullMatrix.rows m else FullMatrix.cols m) ->
   RkMatrix.multiplyRkFull NoCompression transR transX rk m
   = Some (RkMatrix.mk
             (if is_char transR "N" then RkMatrix.rows rk else RkMatrix.cols rk)
             (if is_char transX "N" then FullMatrix.cols_ m else FullMatrix.rows_ m)
             None None NoCompression)).
Proof.
  intros Ea Eb.
  assert (E0 : RkMatrix.rank rk = 0) by (unfold RkMatrix.rank; rewrite Ea; reflexivity).
  split; [|split; [|split; [|split; [|split]]]].
  - unfold RkMatrix.multiplyFullRk. rewrite Ea, Eb.
    destruct (negb _); reflexivity.
  - unfold RkMatrix.multiplyRkH. rewrite Ea, Eb.
    destruct (negb (IndexSet.eqb _ _)); [reflexivity|].
    destruct (negb _); reflexivity.
  - unfold RkMatrix.multiplyRkRk. rewrite Ea, Eb.
    destruct (negb (IndexSet.eqb _ _)); [reflexivity|].
    destruct (is_char transR "N"); reflexivity.
  - unfold RkMatrix.multiplyRkRk. rewrite Ea, Eb.
    destruct (negb (IndexSet.eqb _ _)); [reflexivity|].
    destruct (if is_char transX "N" then RkMatrix.a other else RkMatrix.b other);
      cbn [mbind option_bind]; [|reflexivity].
    destruct (if is_char transX "N" then RkMatrix.b other else RkMatrix.a other);
      cbn [mbind option_bind]; [|reflexivity].
    destruct (is_char transR "N"); reflexivity.
  - unfold RkMatrix.multiplyHRk. rewrite E0. reflexivity.
  - intros Hdim. apply Nat.eqb_eq in Hdim.
    unfold RkMatrix.multiplyRkFull. rewrite Hdim, E0. reflexivity.
Qed.

End EmptyOperand.

(** ** Dense parts *)

Section DenseParts.
Context {T D : Type} `{ST : Scalar T} `{RD : Real D}
  `{LP : !ScalarArray.Lapack T D} `{CP : !RkMatrix.Compression T D}.
Variable approx : RkApproximationControl.t D.
Import ScalarArray.

Add Ring scalar_ring_dparts : (@scalar_ring T ST).

Lemma add_full_entries (this : RkMatrix.t T) (me : FullMatrix.t T)
    (e : T * option (FullMatrix.t T)) :
  fits this e ->
  exists me',
    RkMatrix.add_full this (Some me) e = Some me' /\
    FullMatrix.rows_ me' = FullMatrix.rows_ me /\
    FullMatrix.cols_ me' = FullMatrix.cols_ me /\
    forall i j,
      get (FullMatrix.data me') i j
      = (get (FullMatrix.data me) i j + RkMatrix.contributions_full this [e] i j)%T.
Proof.
  destruct e as [alpha [p|]]; unfold fits; cbn [fst snd].
  - intros [Hr Hc]. unfold RkMatrix.add_full. cbn [mbind option_bind fst snd].
    rewrite Hr, Hc. cbn [andb negb].
    eexists. split; [reflexivity|].
    cbn [FullMatrix.rows_ FullMatrix.cols_ FullMatrix.data].
    do 2 (split; [reflexivity|]).
    intros i j. cbn [RkMatrix.contributions_full fst snd]. unfold RkMatrix.embed_full.
    unfold FullMatrix.rows, FullMatrix.cols.
    set (ro := IndexSet.offset (FullMatrix.rows_ p) - IndexSet.offset (RkMatrix.rows this)).
    set (co := IndexSet.offset (FullMatrix.cols_ p) - IndexSet.offset (RkMatrix.cols this)).
    cbn [through_view axpy sub get rows cols].
    destruct (within ro _ i) eqn:Wi; cbn [andb]; [|ring].
    destruct (within co _ j) eqn:Wj; [|ring].
    apply within_true in Wi. apply within_true in Wj.
    replace (ro + (i - ro)) with i by lia.
    replace (co + (j - co)) with j by lia.
    ring.
  - intros _. exists me. split; [reflexivity|]. do 2 (split; [reflexivity|]).
    intros i j. cbn. ring.
Qed.

Lemma add_full_fold (this : RkMatrix.t T)
    (parts : list (T * option (FullMatrix.t T))) :
  forall me : FullMatrix.t T,
    Forall (fits this) parts ->
    exists me',
      fold_left (RkMatrix.add_full this) parts (Some me) = Some me' /\
      FullMatrix.rows_ me' = FullMatrix.rows_ me /\
      FullMatrix.cols_ me' = FullMatrix.cols_ me /\
      forall i j,
        get (FullMatrix.data me') i j
        = (get (FullMatrix.data me) i j + RkMatrix.contributions_full this parts i j)%T.
Proof.
  induction parts as [|e parts IH]; intros me Hfit.
  - exists me. cbn. repeat split. intros i j. ring.
  - inversion Hfit as [|e' l He Hfit']; subst.
    destruct (add_full_entries this me e He) as (me1 & E1 & R1 & C1 & G1).
    destruct (IH me1 Hfit') as (me' & E' & R' & C' & G').
    exists me'. cbn [fold_left]. rewrite E1.
    split; [exact E'|]. split; [congruence|]. split; [congruence|].
    intros i j. rewrite G', G1. cbn [RkMatrix.contributions_full].
    destruct e.2; ring.
Qed.

Lemma add_full_None (this : RkMatrix.t T)
    (parts : list (T * option (FullMatrix.t T))) :
  fold_left (RkMatrix.add_full this) parts None = None.
Proof. induction parts as [|e parts IH]; [reflexivity | exact IH]. Qed.

Lemma formattedAddPartsFull_ok (this : RkMatrix.t T)
    (parts : list (T * option (FullMatrix.t T))) :
  RkMatrix.invariant this -> Forall (fits this) parts ->
  exists me,
    RkMatrix.formattedAddPartsFull_sum parts this = Some me /\
    RkMatrix.formattedAddPartsFull approx parts this
    = Some (RkMatrix.truncatedSvd me
              (RkApproximationControl.recompressionEpsilon approx)) /\
    FullMatrix.rows_ me = RkMatrix.rows this /\
    FullMatrix.cols_ me = RkMatrix.cols this /\
    forall i j,
      get (FullMatrix.data me) i j
      = (RkMatrix.dense this i j + RkMatrix.contributions_full this parts i j)%T.
Proof.
  intros Hinv Hfit.
  destruct (eval_dense this Hinv) as (me0 & E0 & R0 & C0 & G0).
  destruct (add_full_fold this parts me0 Hfit) as (me & E & R & C & G).
  exists me. unfold RkMatrix.formattedAddPartsFull, RkMatrix.formattedAddPartsFull_sum.
  rewrite E0, E. cbn [mbind option_bind].
  do 2 (split; [reflexivity|]). split; [congruence|]. split; [congruence|].
  intros i j. rewrite G, G0. reflexivity.
Qed.

(** X13. The dense variant of [formattedAddParts] on a target that satisfies
    the invariant.  When every part that is not null lies within the
    target, the dense block handed to [truncatedSvd] at the recompression
    tolerance is over the index sets of the target, with the entries of
    [M(R) + sum_i alpha_i * M_i], each [M_i] placed at the offsets of its
    index sets; a null part adds nothing.  When a part that is not null
    does not lie within the target, the call fails. *)
Theorem formattedAddPartsFull_spec (this : RkMatrix.t T)
    (parts : list (T * option (FullMatrix.t T))) :
  RkMatrix.invariant this ->
  (Forall (fits this) parts ->
   exists me,
     RkMatrix.formattedAddPartsFull approx parts this
     = Some (RkMatrix.truncatedSvd me
               (RkApproximationControl.recompressionEpsilon approx)) /\
     FullMatrix.rows_ me = RkMatrix.rows this /\
     FullMatrix.cols_ me = RkMatrix.cols this /\
     forall i j,
       get (FullMatrix.data me) i j
       = (RkMatrix.dense this i j + RkMatrix.contributions_full this parts i j)%T) /\
  (~ Forall (fits this) parts ->
   RkMatrix.formattedAddPartsFull approx parts this = None).
Proof.
  intros Hinv. split.
  - intros Hfit.
    destruct (formattedAddPartsFull_ok this parts Hinv Hfit) as (me & _ & E & R & C & G).
    eauto.
  - intros Hnot.
    destruct (eval_dense this Hinv) as (me0 & E0 & _).
    unfold RkMatrix.formattedAddPartsFull, RkMatrix.formattedAddPartsFull_sum.
    rewrite E0.
    enough (G : forall me, fold_left (RkMatrix.add_full this) parts (Some me) = None)
      by (rewrite G; reflexivity).
    clear E0 me0. induction parts as [|e parts IH]; intros me.
    + exfalso. apply Hnot. constructor.
    + cbn [fold_left].
      destruct (RkMatrix.add_full this (Some me) e) as [me1|] eqn:E1.
      * apply IH. intros Hfit. apply Hnot. constructor; [|exact Hfit].
        unfold RkMatrix.add_full in E1. cbn [mbind option_bind] in E1.
        unfold fits. destruct e.2 as [p|]; [|exact I].
        destruct (IndexSet.isSubset (FullMatrix.rows_ p) (RkMatrix.rows this));
          destruct (IndexSet.isSubset (FullMatrix.cols_ p) (RkMatrix.cols this));
          cbn in E1; try discriminate. auto.
      * apply add_full_None.
Qed.

(** The contract of [truncatedSvd] for the index sets: the block returned
    is over the index sets of the dense block. *)
Hypothesis truncatedSvd_sets :
  forall (m : FullMatrix.t T) (epsilon : D),
    RkMatrix.rows (RkMatrix.truncatedSvd m epsilon) = FullMatrix.rows_ m /\
    RkMatrix.cols (RkMatrix.truncatedSvd m epsilon) = FullMatrix.cols_ m.

Lemma IndexSet_eqb_refl (s : IndexSet.t) : IndexSet.eqb s s = true.
Proof. unfold IndexSet.eqb. rewrite !Nat.eqb_refl. reflexivity. Qed.

Lemma swap_same_sets (this tmp : RkMatrix.t T) :
  RkMatrix.rows tmp = RkMatrix.rows this -> RkMatrix.cols tmp = RkMatrix.cols this ->
  (st ← RkMatrix.swap this tmp; Some st.1) = Some tmp.
Proof.
  intros Er Ec. unfold RkMatrix.swap. rewrite Er, Ec, !IndexSet_same_refl.
  cbn [andb mbind option_bind fst]. destruct tmp; cbn in *; subst; reflexivity.
Qed.

(** X14. [axpy(alpha, mat)] with a dense block [mat] that lies within the
    target: the target becomes [truncatedSvd(M(R) + alpha * mat, eps_rec)].
    The index sets that [truncatedSvd] returns being those of the dense
    block, the [swap] of the result into the target does not fail. *)
Theorem axpy_full_spec (alpha : T) (mat : FullMatrix.t T) (this : RkMatrix.t T) :
  RkMatrix.invariant this ->
  IndexSet.isSubset (FullMatrix.rows_ mat) (RkMatrix.rows this) = true ->
  IndexSet.isSubset (FullMatrix.cols_ mat) (RkMatrix.cols this) = true ->
  exists me,
    RkMatrix.axpy_full approx alpha mat this
    = Some (RkMatrix.truncatedSvd me
              (RkApproximationControl.recompressionEpsilon approx)) /\
    FullMatrix.rows_ me = RkMatrix.rows this /\
    FullMatrix.cols_ me = RkMatrix.cols this /\
    forall i j,
      get (FullMatrix.data me) i j
      = (RkMatrix.dense this i j + alpha * RkMatrix.embed_full this mat i j)%T.
Proof.
  intros Hinv Hr Hc.
  destruct (formattedAddPartsFull_ok this [(alpha, Some mat)] Hinv)
    as (me & _ & E & R & C & G).
  { constructor; [|constructor]. split; assumption. }
  exists me. unfold RkMatrix.axpy_full. rewrite E. cbn [mbind option_bind].
  destruct (truncatedSvd_sets me (RkApproximationControl.recompressionEpsilon approx))
    as [Rt Ct].
  split; [apply swap_same_sets; congruence|].
  do 2 (split; [assumption|]).
  intros i j. rewrite G. cbn [RkMatrix.contributions_full fst snd]. ring.
Qed.

End DenseParts.

(** ** The parts that take part in a sum *)

Section Selection.
Context {T D : Type} `{ST : Scalar T} `{RD : Real D}
  `{LP : !ScalarArray.Lapack T D} `{CP : !RkMatrix.Compression T D}.
Variable env : Env.
Variable approx : RkApproximationControl.t D.
Variable oob : D.
Import ScalarArray.

Lemma select_None (this : RkMatrix.t T) (parts : list (T * option (RkMatrix.t T))) :
  fold_left (RkMatrix.select this) parts None = None.
Proof. induction parts as [|e parts IH]; [reflexivity | exact IH]. Qed.

Lemma participates_again (e : T * option (RkMatrix.t T)) (u : T * RkMatrix.t T) :
  RkMatrix.participates e = Some u ->
  RkMatrix.participates (u.1, Some u.2) = Some u.
Proof.
  unfold RkMatrix.participates. destruct e as [alpha [p|]]; cbn [fst snd]; [|discriminate].
  destruct (_ || _) eqn:E; [discriminate|]. intros [= <-]. cbn [fst snd].
  rewrite E. reflexivity.
Qed.

(** The parts that [formattedAddParts] keeps, as an argument list. *)
Lemma select_kept (this : RkMatrix.t T) (parts : list (T * option (RkMatrix.t T))) :
  forall st,
    fold_left (RkMatrix.select this) parts st
    = fold_left (RkMatrix.select this)
        (map (fun u : T * RkMatrix.t T => (u.1, Some u.2))
           (omap RkMatrix.participates parts)) st.
Proof.
  induction parts as [|e parts IH]; intros st; [reflexivity|].
  rewrite omap_cons. cbn [fold_left].
  destruct st as [[[us rt] mm]|]; [|rewrite !select_None; reflexivity].
  rewrite select_step.
  destruct (RkMatrix.participates e) as [u|] eqn:Ep; [|apply IH].
  cbn [map fold_left]. rewrite select_step, (participates_again e u Ep). apply IH.
Qed.

(** X15. [formattedAddParts] looks at the parts that are not null, of rank
    other than 0, over index sets that are not empty and with a coefficient
    other than 0, and at no other: with the other parts removed from the
    argument list the result is the same, a failure included. *)
Theorem formattedAddParts_skips (this : RkMatrix.t T)
    (parts : list (T * option (RkMatrix.t T))) (dotruncate : bool) :
  RkMatrix.formattedAddParts env approx oob parts dotruncate this
  = RkMatrix.formattedAddParts env approx oob
      (map (fun u : T * RkMatrix.t T => (u.1, Some u.2))
         (omap RkMatrix.participates parts)) dotruncate this.
Proof.
  unfold RkMatrix.formattedAddParts, RkMatrix.coalesce.
  rewrite (select_kept this parts). reflexivity.
Qed.

(** X16. [formattedAddParts] fails when one of the parts that take part in
    the sum has an index set that is not within that of the target. *)
Theorem formattedAddParts_rejects (this : RkMatrix.t T)
    (parts : list (T * option (RkMatrix.t T))) (dotruncate : bool)
    (e : T * option (RkMatrix.t T)) (u : T * RkMatrix.t T) :
  e ∈ parts -> RkMatrix.participates e = Some u ->
  IndexSet.isSubset (RkMatrix.rows u.2) (RkMatrix.rows this)
  && IndexSet.isSubset (RkMatrix.cols u.2) (RkMatrix.cols this) = false ->
  RkMatrix.formattedAddParts env approx oob parts dotruncate this = None.
Proof.
  intros Hin Hp Hsub.
  unfold RkMatrix.formattedAddParts, RkMatrix.coalesce.
  enough (G : forall st, fold_left (RkMatrix.select this) parts st = None)
    by (rewrite G; reflexivity).
  induction parts as [|e' parts IH]; intros st.
  - apply elem_of_nil in Hin. contradiction.
  - cbn [fold_left]. apply elem_of_cons in Hin as [<-|Hin]; [|apply IH, Hin].
    destruct st as [[[us rt] mm]|]; [|apply select_None].
    rewrite select_step, Hp, Hsub. cbn [negb]. apply select_None.
Qed.

End Selection.

(** ** What the truncations and the sums keep *)

Section Frames.
Context {T D : Type} `{ST : Scalar T} `{RD : Real D}
  `{LP : !ScalarArray.Lapack T D} `{CP : !RkMatrix.Compression T D}.
Variable env : Env.
Variable approx : RkApproximationControl.t D.
Variable oob : D.
Import ScalarArray.

Lemma mGSTruncate_sets (epsilon : D) (initialPivotA initialPivotB : nat)
    (r r' : RkMatrix.t T) :
  RkMatrix.mGSTruncate env approx oob epsilon initialPivotA initialPivotB r = Some r' ->
  RkMatrix.rows r' = RkMatrix.rows r /\ RkMatrix.cols r' = RkMatrix.cols r /\
  RkMatrix.method r' = RkMatrix.method r.
Proof.
  unfold RkMatrix.mGSTruncate.
  destruct (RkMatrix.rank r =? 0).
  { destruct (_ || _); [discriminate|]. intros [= <-]. auto. }
  destruct (RkMatrix.a r) as [pa|]; cbn [mbind option_bind]; [|discriminate].
  destruct (RkMatrix.b r) as [pb|]; cbn [mbind option_bind]; [|discriminate].
  unfold modifiedGramSchmidt.
  destruct (mgs_entries pa epsilon initialPivotA) as [[kA qa] ra].
  destruct (kA =? 0); [intros [= <-]; auto|].
  destruct (mgs_entries pb epsilon initialPivotB) as [[kB qb] rb].
  destruct (kB =? 0); [intros [= <-]; auto|].
  destruct (svdDecomposition _ _) as [[[ur sr] vr]|]; cbn [mbind option_bind];
    [|discriminate].
  destruct (RkApproximationControl.findK _ _ _ _ _) as [newK|];
    cbn [mbind option_bind]; [|discriminate].
  destruct (newK =? 0)%Z; [intros [= <-]; auto|].
  destruct (newK <? 0)%Z; [discriminate|].
  intros [= <-]. auto.
Qed.

Lemma truncate_sets (epsilon : D) (initialPivotA initialPivotB : nat)
    (r r' : RkMatrix.t T) :
  RkMatrix.truncate env approx oob epsilon initialPivotA initialPivotB r = Some r' ->
  RkMatrix.rows r' = RkMatrix.rows r /\ RkMatrix.cols r' = RkMatrix.cols r /\
  (RkMatrix.rank r
   <= Nat.min (IndexSet.size (RkMatrix.rows r)) (IndexSet.size (RkMatrix.cols r)) ->
   RkMatrix.method r' = RkMatrix.method r).
Proof.
  unfold RkMatrix.truncate.
  destruct (negb _); [discriminate|].
  destruct (RkMatrix.rank r =? 0).
  { destruct (_ || _); [discriminate|]. intros [= <-]. auto. }
  destruct (negb _); [discriminate|].
  destruct (_ <? _) eqn:Emin.
  { apply Nat.ltb_lt in Emin.
    destruct (RkMatrix.eval r) as [tmp|]; cbn [mbind option_bind]; [|discriminate].
    unfold RkMatrix.swap. destruct (_ && _); cbn [mbind option_bind]; [|discriminate].
    intros [= <-]. cbn. split; [reflexivity|]. split; [reflexivity|]. lia. }
  destruct (HMAT_RECOMPRESS_MGS env).
  { intros E. apply mGSTruncate_sets in E as (? & ? & ?). auto. }
  destruct (RkMatrix.a r) as [pa|]; cbn [mbind option_bind]; [|discriminate].
  destruct (RkMatrix.b r) as [pb|]; cbn [mbind option_bind]; [|discriminate].
  unfold qrDecomposition.
  destruct (qr_entries pa _) as [qa ra].
  destruct (qr_entries pb _) as [qb rb].
  destruct (svdDecomposition _ _) as [[[u sigma] v]|]; cbn [mbind option_bind];
    [|discriminate].
  destruct (RkApproximationControl.findK _ _ _ _ _) as [newK|];
    cbn [mbind option_bind]; [|discriminate].
  destruct (newK =? 0)%Z; [intros [= <-]; auto|].
  destruct (newK <? 0)%Z; [discriminate|].
  intros [= <-]. auto.
Qed.

(** X19. [truncate] and [mGSTruncate] change neither index set.
    [mGSTruncate] keeps the method, and so does [truncate] unless the rank
    exceeds [min(m, n)].  An empty block is returned as it is.  Without
    [HMAT_TRUNC_INITPIV] the initial pivots are not looked at; with it, a
    pivot above the rank makes [truncate] fail.  [truncate] fails, too, on a
    block whose rank exceeds its number of rows. *)
Theorem truncate_frame (epsilon : D) (initialPivotA initialPivotB : nat)
    (r : RkMatrix.t T) :
  (forall r',
     RkMatrix.truncate env approx oob epsilon initialPivotA initialPivotB r = Some r' ->
     RkMatrix.rows r' = RkMatrix.rows r /\ RkMatrix.cols r' = RkMatrix.cols r /\
     (RkMatrix.rank r
      <= Nat.min (IndexSet.size (RkMatrix.rows r)) (IndexSet.size (RkMatrix.cols r)) ->
      RkMatrix.method r' = RkMatrix.method r)) /\
  (forall r',
     RkMatrix.mGSTruncate env approx oob epsilon initialPivotA initialPivotB r
     = Some r' ->
     RkMatrix.rows r' = RkMatrix.rows r /\ RkMatrix.cols r' = RkMatrix.cols r /\
     RkMatrix.method r' = RkMatrix.method r) /\
  (RkMatrix.a r = None -> RkMatrix.b r = None ->
   RkMatrix.truncate env approx oob epsilon initialPivotA initialPivotB r
   = (if HMAT_TRUNC_INITPIV env && negb ((initialPivotA =? 0) && (initialPivotB =? 0))
      then None else Some r) /\
   RkMatrix.mGSTruncate env approx oob epsilon initialPivotA initialPivotB r = Some r) /\
  (HMAT_TRUNC_INITPIV env = false ->
   RkMatrix.truncate env approx oob epsilon initialPivotA initialPivotB r
   = RkMatrix.truncate env approx oob epsilon 0 0 r) /\
  (HMAT_TRUNC_INITPIV env = true ->
   RkMatrix.rank r < initialPivotA \/ RkMatrix.rank r < initialPivotB ->
   RkMatrix.truncate env approx oob epsilon initialPivotA initialPivotB r = None) /\
  (IndexSet.size (RkMatrix.rows r) < RkMatrix.rank r ->
   RkMatrix.truncate env approx oob epsilon initialPivotA initialPivotB r = None).
Proof.
  split; [intros r'; apply truncate_sets|].
  split; [intros r'; apply mGSTruncate_sets|].
  split; [|split; [|split]].
  - intros Ea Eb.
    assert (E0 : RkMatrix.rank r = 0) by (unfold RkMatrix.rank; rewrite Ea; reflexivity).
    split.
    + unfold RkMatrix.truncate. rewrite E0, Ea, Eb.
      destruct (HMAT_TRUNC_INITPIV env); cbn [andb]; [|reflexivity].
      destruct initialPivotA, initialPivotB; reflexivity.
    + unfold RkMatrix.mGSTruncate. rewrite E0, Ea, Eb. reflexivity.
  - intros Eenv. unfold RkMatrix.truncate. rewrite Eenv. reflexivity.
  - intros Eenv Hlt. unfold RkMatrix.truncate. rewrite Eenv.
    replace (_ && _) with false; [reflexivity|].
    symmetry. apply andb_false_iff.
    destruct Hlt; [left | right]; apply Nat.leb_gt; assumption.
  - intros Hlt. unfold RkMatrix.truncate.
    destruct (negb (_ && _)); [reflexivity|].
    replace (RkMatrix.rank r =? 0) with false by (symmetry; apply Nat.eqb_neq; lia).
    replace (RkMatrix.rank r <=? IndexSet.size (RkMatrix.rows r)) with false
      by (symmetry; apply Nat.leb_gt; lia).
    reflexivity.
Qed.

(** The contract of [truncatedSvd]: the block it returns is over the index
    sets of the dense block and satisfies the invariant. *)
Hypothesis truncatedSvd_block :
  forall (m : FullMatrix.t T) (epsilon : D),
    RkMatrix.invariant (RkMatrix.truncatedSvd m epsilon) /\
    RkMatrix.rows (RkMatrix.truncatedSvd m epsilon) = FullMatrix.rows_ m /\
    RkMatrix.cols (RkMatrix.truncatedSvd m epsilon) = FullMatrix.cols_ m.

Lemma formattedAddParts_sets (this : RkMatrix.t T)
    (parts : list (T * option (RkMatrix.t T))) (dotruncate : bool)
    (res : RkMatrix.t T) :
  RkMatrix.invariant this ->
  Forall (valid_term this) (omap RkMatrix.participates parts) ->
  RkMatrix.formattedAddParts env approx oob parts dotruncate this = Some res ->
  RkMatrix.rows res = RkMatrix.rows this /\ RkMatrix.cols res = RkMatrix.cols this.
Proof.
  intros Hinv Hv.
  destruct (coalesce_spec env approx oob this parts dotruncate Hinv Hv)
    as (pend & _ & -> & Hp).
  destruct pend as [rk | rk eps pA pB | me eps]; cbn [RkMatrix.finish].
  - intros [= <-]. destruct Hp as (_ & _ & ? & ? & _). auto.
  - intros E. apply truncate_sets in E as (Er & Ec & _).
    destruct Hp as (_ & _ & _ & _ & _ & _ & ? & ? & _). split; congruence.
  - intros [= <-]. destruct (truncatedSvd_block me eps) as (_ & ? & ?).
    destruct Hp as (_ & _ & _ & ? & ? & _). split; congruence.
Qed.

(** X18. [axpy(alpha, mat)] with an Rk block [mat] leaves in the target the
    block that [formattedAddParts(&alpha, &mat, 1)] returns, truncation
    included, and fails when that call does: the [swap] of the result into
    the target cannot fail.  The block satisfies the invariant and is over
    the index sets of the target. *)
Theorem axpy_spec (alpha : T) (mat this : RkMatrix.t T) :
  RkMatrix.invariant this ->
  Forall (valid_term this) (omap RkMatrix.participates [(alpha, Some mat)]) ->
  RkMatrix.axpy env approx oob alpha mat this
  = RkMatrix.formattedAddParts env approx oob [(alpha, Some mat)] true this /\
  forall res,
    RkMatrix.axpy env approx oob alpha mat this = Some res ->
    RkMatrix.invariant res /\
    RkMatrix.rows res = RkMatrix.rows this /\ RkMatrix.cols res = RkMatrix.cols this.
Proof.
  intros Hinv Hv.
  assert (E : RkMatrix.axpy env approx oob alpha mat this
              = RkMatrix.formattedAddParts env approx oob [(alpha, Some mat)] true this).
  { unfold RkMatrix.axpy.
    destruct (RkMatrix.formattedAddParts _ _ _ _ _ _) as [tmp|] eqn:Etmp;
      cbn [mbind option_bind]; [|reflexivity].
    destruct (formattedAddParts_sets this _ true tmp Hinv Hv Etmp) as [Er Ec].
    unfold RkMatrix.swap. rewrite Er, Ec.
    rewrite !IndexSet_same_refl.
    cbn [andb mbind option_bind fst]. destruct tmp; cbn in *; subst; reflexivity. }
  split; [exact E|]. intros res. rewrite E. intros Eres.
  split; [exact (invariant_formattedAddParts env approx oob truncatedSvd_block
                   this _ true res Hinv Hv Eres)|].
  exact (formattedAddParts_sets this _ true res Hinv Hv Eres).
Qed.

Lemma coalesce_method (this : RkMatrix.t T)
    (parts : list (T * option (RkMatrix.t T))) (dotruncate : bool)
    (pend : RkMatrix.pending T D) :
  Forall (valid_term this) (omap RkMatrix.participates parts) ->
  RkMatrix.coalesce env approx parts dotruncate this = Some pend ->
  match pend with
  | RkMatrix.Done rk | RkMatrix.ByTruncate rk _ _ _ =>
      RkMatrix.method rk
      = min_method (omap RkMatrix.participates parts) (RkMatrix.method this)
  | RkMatrix.ByTruncatedSvd _ _ => True
  end.
Proof.
  intros Hv. unfold RkMatrix.coalesce.
  rewrite (coalesce_start this parts Hv). cbn [mbind option_bind].
  destruct (length _ =? 0).
  { cbn. intros [= <-]. reflexivity. }
  destruct (_ <=? _).
  { destruct (RkMatrix.fullParts_of _ _); cbn [mbind option_bind]; [|discriminate].
    destruct (RkMatrix.formattedAddPartsFull_sum _ _); cbn [mbind option_bind];
      [|discriminate].
    intros [= <-]. exact I. }
  destruct (negb (forallb _ _)); [discriminate|].
  destruct (RkMatrix.pivot_of _) as [pA0 pB0].
  destruct (if HMAT_MGS_BESTRK env then _ else _) as [[us' pA] pB].
  destruct (fold_left _ us' _) as [[A' B'] K].
  destruct (negb _); [discriminate|].
  destruct (RkMatrix.RkMatrix _ _ _ _ _) as [rk|] eqn:Erk; cbn [mbind option_bind];
    [|discriminate].
  apply RkMatrix_method in Erk as (Em & _).
  destruct (_ && _); intros [= <-]; exact Em.
Qed.

(** X17. When no term takes part, or when the sum of the ranks is below
    [min(m, n)] and either [dotruncate] is false or at most one term takes
    part, [formattedAddParts] returns without any recompression a block that
    satisfies the invariant, over the index sets of the target, whose method
    is the smallest of the methods of the target and of the parts that take
    part, and whose dense value is [M(R) + sum_i alpha_i * M(parts_i)],
    exactly.  With no term at all the block returned is empty. *)
Theorem formattedAddParts_exact (this : RkMatrix.t T)
    (parts : list (T * option (RkMatrix.t T))) (dotruncate : bool) :
  RkMatrix.invariant this ->
  Forall (valid_term this) (omap RkMatrix.participates parts) ->
  let us := RkMatrix.terms this parts in
  us = [] \/
  (RkMatrix.total_rank us
   < Nat.min (IndexSet.size (RkMatrix.rows this)) (IndexSet.size (RkMatrix.cols this)) /\
   (dotruncate = false \/ length us <= 1)) ->
  exists rk,
    RkMatrix.formattedAddParts env approx oob parts dotruncate this = Some rk /\
    RkMatrix.invariant rk /\
    RkMatrix.rows rk = RkMatrix.rows this /\
    RkMatrix.cols rk = RkMatrix.cols this /\
    RkMatrix.method rk
    = min_method (omap RkMatrix.participates parts) (RkMatrix.method this) /\
    (us = [] -> RkMatrix.a rk = None /\ RkMatrix.b rk = None) /\
    forall i j,
      i < IndexSet.size (RkMatrix.rows this) ->
      j < IndexSet.size (RkMatrix.cols this) ->
      RkMatrix.dense rk i j
      = (RkMatrix.dense this i j + RkMatrix.contributions this parts i j)%T.
Proof.
  intros Hinv Hv us Hcase.
  destruct (coalesce_spec env approx oob this parts dotruncate Hinv Hv)
    as (pend & Eco & Efin & Hp).
  pose proof (coalesce_method this parts dotruncate pend Hv Eco) as Hm.
  fold us in Hp.
  destruct pend as [rk | rk eps pA pB | me eps].
  - exists rk. rewrite Efin. split; [reflexivity|].
    destruct Hp as (_ & Hi & Hr & Hc & Hd).
    do 4 (split; [assumption|]). split; [|exact Hd].
    intros Enil. revert Eco. unfold RkMatrix.coalesce.
    rewrite (coalesce_start this parts Hv). fold us. rewrite Enil.
    cbn. intros [= <-]. auto.
  - exfalso. destruct Hp as (Hlt & Ht & Hlen & _).
    destruct Hcase as [Enil | (_ & [Hf | Hle])].
    + rewrite Enil in Hlen. cbn in Hlen. lia.
    + congruence.
    + lia.
  - exfalso. destruct Hp as (Hne & Hge & _).
    destruct Hcase as [Enil | (Hlt & _)]; [contradiction | lia].
Qed.

End Frames.

(** ** Ranks *)

Section Ranks.
Context {T D : Type} `{ST : Scalar T} `{RD : Real D}
  `{LP : !ScalarArray.Lapack T D}.
Variable env : Env.
Variable approx : RkApproximationControl.t D.
Variable oob : D.
Import ScalarArray.

(** X12. [findK] fails exactly when the target rank is 0 and [epsilon] is
    negative: a target rank other than 0 is served without a look at
    [epsilon].  The rank returned is at most the number of singular values,
    and it is negative only when the target rank is. *)
Theorem findK_range (sigma : list D) (epsilon : D) :
  (RkApproximationControl.findK env approx oob sigma epsilon = None <->
   RkApproximationControl.k approx = 0%Z /\ dleb dzero epsilon = false) /\
  forall v,
    RkApproximationControl.findK env approx oob sigma epsilon = Some v ->
    (v <= Z.of_nat (length sigma))%Z /\
    ((0 <= RkApproximationControl.k approx)%Z -> (0 <= v)%Z) /\
    (RkApproximationControl.k approx <> 0%Z ->
     v = Z.min (RkApproximationControl.k approx) (Z.of_nat (length sigma))).
Proof.
  unfold RkApproximationControl.findK.
  destruct (RkApproximationControl.k approx =? 0)%Z eqn:Ek; cbn [negb].
  - apply Z.eqb_eq in Ek. destruct (dleb dzero epsilon) eqn:Ee; cbn [negb].
    + split; [split; [discriminate | intros [_ [=]]]|].
      intros v [= <-]. pose proof (scan_le
        (dmul (RkApproximationControl.threshold_base env oob sigma) epsilon) sigma).
      split; [lia|]. split; [lia | congruence].
    + split; [split; auto | discriminate].
  - apply Z.eqb_neq in Ek. split; [split; [discriminate | intros [? _]; contradiction]|].
    intros v [= <-]. split; [lia|]. split; [lia | reflexivity].
Qed.

(** X11. With [HMAT_NEW_RKRK] set, a block returned by [multiplyRkRk]
    satisfies the invariant, lies over the rows of [op(r1)] and the columns
    of [op(r2)], and has the smaller of the two methods.  A block is returned
    only when the inner index sets are equal and none of the four panels is
    null. *)
Theorem multiplyRkRk_new (trans1 trans2 : ascii) (r1 r2 res : RkMatrix.t T) :
  HMAT_NEW_RKRK env = true ->
  RkMatrix.multiplyRkRk env approx oob trans1 trans2 r1 r2 = Some res ->
  RkMatrix.invariant res /\
  RkMatrix.rows res
  = (if is_char trans1 "N" then RkMatrix.rows r1 else RkMatrix.cols r1) /\
  RkMatrix.cols res
  = (if is_char trans2 "N" then RkMatrix.cols r2 else RkMatrix.rows r2) /\
  RkMatrix.method res = Z.min (RkMatrix.method r1) (RkMatrix.method r2) /\
  IndexSet.eqb (if is_char trans1 "N" then RkMatrix.cols r1 else RkMatrix.rows r1)
               (if is_char trans2 "N" then RkMatrix.rows r2 else RkMatrix.cols r2)
  = true /\
  RkMatrix.a r1 <> None /\ RkMatrix.b r1 <> None /\
  RkMatrix.a r2 <> None /\ RkMatrix.b r2 <> None.
Proof.
  intros Enew. unfold RkMatrix.multiplyRkRk. rewrite Enew.
  destruct (IndexSet.eqb _ _) eqn:Esets; cbn [negb]; [|discriminate].
  destruct (if is_char trans1 "N" then RkMatrix.a r1 else RkMatrix.b r1)
    as [a1|] eqn:Ea1; cbn [mbind option_bind]; [|discriminate].
  destruct (if is_char trans1 "N" then RkMatrix.b r1 else RkMatrix.a r1)
    as [b1|] eqn:Eb1; cbn [mbind option_bind]; [|discriminate].
  destruct (if is_char trans2 "N" then RkMatrix.a r2 else RkMatrix.b r2)
    as [a2|] eqn:Ea2; cbn [mbind option_bind]; [|discriminate].
  destruct (if is_char trans2 "N" then RkMatrix.b r2 else RkMatrix.a r2)
    as [b2|] eqn:Eb2; cbn [mbind option_bind]; [|discriminate].
  destruct (negb (rows b1 =? rows a2)); [discriminate|].
  assert (Hpanels : RkMatrix.a r1 <> None /\ RkMatrix.b r1 <> None /\
                    RkMatrix.a r2 <> None /\ RkMatrix.b r2 <> None).
  { destruct (is_char trans1 "N"), (is_char trans2 "N"); repeat split; congruence. }
  destruct (svdDecomposition _ _) as [[[ur sr] vr]|]; cbn [mbind option_bind];
    [|discriminate].
  destruct (RkApproximationControl.findK _ _ _ _ _) as [newK|];
    cbn [mbind option_bind]; [|discriminate].
  destruct (0 <? newK)%Z eqn:Epos; cbn [mbind option_bind].
  - apply Z.ltb_lt in Epos.
    intros Eres. pose proof Eres as Em. apply RkMatrix_method in Em as (Em & Er & Ec & EA & EB).
    split.
    { unfold RkMatrix.RkMatrix in Eres.
      destruct (_ && _) eqn:Erows in Eres; [|discriminate].
      apply andb_true_iff in Erows as [RA RB]. apply Nat.eqb_eq in RA, RB.
      unfold RkMatrix.invariant. rewrite EA, EB, Er, Ec.
      split; [|split; [|split; [exact RA | exact RB]]];
        destruct (is_char trans1 "C"), (is_char trans2 "C"); cbn; lia. }
    auto 10.
  - intros Eres. pose proof Eres as Em. apply RkMatrix_method in Em as (Em & Er & Ec & EA & EB).
    split; [unfold RkMatrix.invariant; rewrite EA, EB; exact I|]. auto 10.
Qed.

End Ranks.

(** ** The initial pivots of a sum *)

Section Pivots.
Context {T D : Type} `{ST : Scalar T} `{RD : Real D}
  `{LP : !ScalarArray.Lapack T D} `{CP : !RkMatrix.Compression T D}.
Variable env : Env.
Variable approx : RkApproximationControl.t D.
Variable oob : D.
Import ScalarArray.

Lemma fold_left_keeps {A B : Type} (P : A -> Prop) (f : A -> B -> A) (l : list B) :
  (forall st x, In x l -> P st -> P (f st x)) ->
  forall st, P st -> P (fold_left f l st).
Proof.
  induction l as [|x l IH]; intros Hf st Hst; [exact Hst|].
  cbn [fold_left]. apply IH.
  - intros st' y Hy. apply Hf. now right.
  - apply Hf; [now left | exact Hst].
Qed.

Lemma rank_nth_le (us : list (T * RkMatrix.t T)) (d : T * RkMatrix.t T) (j : nat) :
  j < length us -> RkMatrix.rank (nth j us d).2 <= RkMatrix.total_rank us.
Proof.
  revert j. induction us as [|u us IH]; intros j Hj; cbn [length] in Hj; [lia|].
  cbn [RkMatrix.total_rank fold_right]. fold (RkMatrix.total_rank us).
  destruct j as [|j]; cbn [nth]; [lia|].
  specialize (IH j ltac:(lia)). lia.
Qed.

Lemma rank_two_le (us : list (T * RkMatrix.t T)) (d : T * RkMatrix.t T)
    (j1 j2 : nat) :
  j1 <> j2 -> j1 < length us -> j2 < length us ->
  RkMatrix.rank (nth j1 us d).2 + RkMatrix.rank (nth j2 us d).2
  <= RkMatrix.total_rank us.
Proof.
  revert j1 j2. induction us as [|u us IH]; intros j1 j2 Hne H1 H2;
    cbn [length] in H1, H2; [lia|].
  cbn [RkMatrix.total_rank fold_right]. fold (RkMatrix.total_rank us).
  destruct j1 as [|j1], j2 as [|j2]; cbn [nth]; [lia| | |].
  - pose proof (rank_nth_le us d j2 ltac:(lia)). lia.
  - pose proof (rank_nth_le us d j1 ltac:(lia)). lia.
  - specialize (IH j1 j2 ltac:(lia) ltac:(lia) ltac:(lia)). lia.
Qed.

Lemma pair_rk_le (Rk1 Rk2 : RkMatrix.t T) :
  (RkMatrix.pair_rk Rk1 Rk2).1 <= RkMatrix.rank Rk1 + RkMatrix.rank Rk2 /\
  (RkMatrix.pair_rk Rk1 Rk2).2 <= RkMatrix.rank Rk1 + RkMatrix.rank Rk2.
Proof.
  unfold RkMatrix.pair_rk. cbn [fst snd].
  split.
  - destruct (ortho (RkMatrix.panelA Rk1)); [|lia].
    destruct (_ && _); lia.
  - destruct (ortho (RkMatrix.panelB Rk1)); [|lia].
    destruct (_ && _); lia.
Qed.

Lemma pivot_of_le (p : RkMatrix.t T) :
  (RkMatrix.pivot_of p).1 <= RkMatrix.rank p /\
  (RkMatrix.pivot_of p).2 <= RkMatrix.rank p.
Proof.
  unfold RkMatrix.pivot_of. cbn [fst snd].
  destruct (ortho (RkMatrix.panelA p)), (ortho (RkMatrix.panelB p)); lia.
Qed.

Lemma best_pair_le (this : RkMatrix.t T) (us : list (T * RkMatrix.t T)) (g : Z) :
  (RkMatrix.best_pair this us g).1.2 <= RkMatrix.total_rank us /\
  (RkMatrix.best_pair this us g).2 <= RkMatrix.total_rank us.
Proof.
  unfold RkMatrix.best_pair.
  apply (fold_left_keeps
           (fun st : Z * Z * Z * nat * nat =>
              st.1.2 <= RkMatrix.total_rank us /\ st.2 <= RkMatrix.total_rank us));
    [|cbn; lia].
  intros st i1 Hi1 Hst.
  apply (fold_left_keeps
           (fun st : Z * Z * Z * nat * nat =>
              st.1.2 <= RkMatrix.total_rank us /\ st.2 <= RkMatrix.total_rank us));
    [|exact Hst].
  clear st Hst. intros st i2 Hi2 Hst.
  apply in_seq in Hi1, Hi2.
  destruct (i1 =? i2) eqn:E; cbn [negb]; [exact Hst|].
  apply Nat.eqb_neq in E.
  pose proof (pair_rk_le (nth i1 us (pone, this)).2 (nth i2 us (pone, this)).2) as [HA HB].
  pose proof (rank_two_le us (pone, this) i1 i2 E ltac:(lia) ltac:(lia)) as Hle.
  destruct (RkMatrix.pair_rk _ _) as [rkA rkB]. cbn [fst snd] in HA, HB.
  destruct st as [[[[bg bi1] bi2] bA] bB].
  destruct (_ <? _)%Z; [cbn; lia | exact Hst].
Qed.

Lemma reorder_pivots (this : RkMatrix.t T) (us : list (T * RkMatrix.t T)) :
  us <> [] ->
  (RkMatrix.reorder this us).1.2 <= RkMatrix.total_rank us /\
  (RkMatrix.reorder this us).2 <= RkMatrix.total_rank us.
Proof.
  intros Hne. unfold RkMatrix.reorder.
  destruct (RkMatrix.best_single this us) as [bestRk bestGain].
  set (us1 := if (0 <? bestRk)%Z then RkMatrix.swap_at us 0 (Z.to_nat bestRk) else us).
  assert (Hperm : Permutation us1 us).
  { unfold us1. destruct (0 <? bestRk)%Z; [apply swap_at_perm | reflexivity]. }
  assert (Hlen : 0 < length us1).
  { rewrite (Permutation_length Hperm). destruct us; [congruence | cbn; lia]. }
  pose proof (pivot_of_le (nth 0 us1 (pone, this)).2) as [HA0 HB0].
  pose proof (rank_nth_le us1 (pone, this) 0 Hlen) as H0.
  pose proof (best_pair_le this us1 bestGain) as [HA HB].
  rewrite (total_rank_perm _ _ Hperm) in H0, HA, HB.
  destruct (RkMatrix.pivot_of _) as [pA0 pB0]. cbn [fst snd] in HA0, HB0.
  destruct (RkMatrix.best_pair this us1 bestGain) as [[[[bg bi1] bi2] bA] bB].
  cbn [fst snd] in HA, HB.
  destruct (0 <=? bi1)%Z; cbn [fst snd]; lia.
Qed.

Lemma coalesce_pivots (this : RkMatrix.t T)
    (parts : list (T * option (RkMatrix.t T))) (dotruncate : bool)
    (rk : RkMatrix.t T) (eps : D) (pA pB : nat) :
  Forall (valid_term this) (omap RkMatrix.participates parts) ->
  RkMatrix.coalesce env approx parts dotruncate this
  = Some (RkMatrix.ByTruncate rk eps pA pB) ->
  pA <= RkMatrix.total_rank (RkMatrix.terms this parts) /\
  pB <= RkMatrix.total_rank (RkMatrix.terms this parts).
Proof.
  intros Hv. unfold RkMatrix.coalesce.
  rewrite (coalesce_start this parts Hv). cbn [mbind option_bind].
  set (us := RkMatrix.terms this parts) in *.
  destruct (length us =? 0) eqn:E0; [cbn; discriminate|].
  assert (Hne : us <> []) by (intros E; rewrite E in E0; discriminate).
  destruct (_ <=? _).
  { destruct (RkMatrix.fullParts_of _ _); cbn [mbind option_bind]; [|discriminate].
    destruct (RkMatrix.formattedAddPartsFull_sum _ _); cbn [mbind option_bind];
      discriminate. }
  destruct (negb (forallb _ _)); [discriminate|].
  pose proof (pivot_of_le (nth 0 us (pone, this)).2) as [HA0 HB0].
  pose proof (rank_nth_le us (pone, this) 0
                ltac:(destruct us; [congruence | cbn; lia])) as H0.
  pose proof (reorder_pivots this us Hne) as [HA HB].
  destruct (RkMatrix.pivot_of _) as [pA0 pB0]. cbn [fst snd] in HA0, HB0.
  destruct (RkMatrix.reorder this us) as [[us' rA] rB]. cbn [fst snd] in HA, HB.
  destruct (HMAT_MGS_BESTRK env).
  - destruct (fold_left _ us' _) as [[A' B'] K].
    destruct (negb _); [discriminate|].
    destruct (RkMatrix.RkMatrix _ _ _ _ _); cbn [mbind option_bind]; [|discriminate].
    destruct (_ && _); [|discriminate]. intros [= _ _ <- <-]. lia.
  - destruct (fold_left _ us _) as [[A' B'] K].
    destruct (negb _); [discriminate|].
    destruct (RkMatrix.RkMatrix _ _ _ _ _); cbn [mbind option_bind]; [|discriminate].
    destruct (_ && _); [|discriminate]. intros [= _ _ <- <-]. lia.
Qed.

(** X28. When the sum of the ranks is below [min(m, n)] and more than one
    term takes part, [formattedAddParts] with truncation is
    [truncate(eps_rec, p_A, p_B)] run on a block that satisfies the
    invariant and whose rank is the sum of the ranks.  With or without
    [HMAT_MGS_BESTRK] the initial pivots are at most that rank, which is
    below [min(m, n)]: the assertions at the entry of [truncate] hold and its
    dense fallback is not taken.  Without [HMAT_MGS_BESTRK] the pivots are
    those of the first term. *)
Theorem formattedAddParts_pivots (this : RkMatrix.t T)
    (parts : list (T * option (RkMatrix.t T))) :
  RkMatrix.invariant this ->
  Forall (valid_term this) (omap RkMatrix.participates parts) ->
  let us := RkMatrix.terms this parts in
  RkMatrix.total_rank us
  < Nat.min (IndexSet.size (RkMatrix.rows this)) (IndexSet.size (RkMatrix.cols this)) ->
  1 < length us ->
  exists rk pA pB,
    RkMatrix.formattedAddParts env approx oob parts true this
    = RkMatrix.truncate env approx oob
        (RkApproximationControl.recompressionEpsilon approx) pA pB rk /\
    RkMatrix.invariant rk /\
    RkMatrix.rank rk = RkMatrix.total_rank us /\
    pA <= RkMatrix.rank rk /\ pB <= RkMatrix.rank rk /\
    RkMatrix.rank rk
    < Nat.min (IndexSet.size (RkMatrix.rows rk)) (IndexSet.size (RkMatrix.cols rk)) /\
    (HMAT_MGS_BESTRK env = false ->
     pA = (RkMatrix.pivot_of (nth 0 us (pone, this)).2).1 /\
     pB = (RkMatrix.pivot_of (nth 0 us (pone, this)).2).2).
Proof.
  intros Hinv Hv us Hlt Hlen.
  destruct (coalesce_spec env approx oob this parts true Hinv Hv)
    as (pend & Eco & Efin & Hp).
  fold us in Hp.
  destruct pend as [rk | rk eps pA pB | me eps].
  - exfalso. destruct Hp as ([Enil | (_ & [Hf | Hle])] & _).
    + rewrite Enil in Hlen. cbn in Hlen. lia.
    + discriminate.
    + lia.
  - destruct (coalesce_pivots this parts true rk eps pA pB Hv Eco) as [HA HB].
    fold us in HA, HB.
    destruct Hp as (_ & _ & _ & -> & Hi & Hrk & Hr & Hc & _).
    exists rk, pA, pB. split; [exact Efin|]. split; [exact Hi|].
    split; [exact Hrk|]. rewrite Hrk, Hr, Hc.
    do 3 (split; [assumption|]).
    intros Ebest. revert Eco. unfold RkMatrix.coalesce.
    rewrite (coalesce_start this parts Hv). cbn [mbind option_bind]. fold us.
    rewrite Ebest.
    destruct (length us =? 0); [cbn; discriminate|].
    destruct (_ <=? _).
    { destruct (RkMatrix.fullParts_of _ _); cbn [mbind option_bind]; [|discriminate].
      destruct (RkMatrix.formattedAddPartsFull_sum _ _); cbn [mbind option_bind];
        discriminate. }
    destruct (negb (forallb _ _)); [discriminate|].
    destruct (RkMatrix.pivot_of _) as [pA0 pB0].
    destruct (fold_left _ us _) as [[A' B'] K].
    destruct (negb _); [discriminate|].
    destruct (RkMatrix.RkMatrix _ _ _ _ _); cbn [mbind option_bind]; [|discriminate].
    destruct (_ && _); [|discriminate]. intros [= _ <- <-]. auto.
  - exfalso. destruct Hp as (_ & Hge & _). lia.
Qed.

End Pivots.

(** ** Truncation with exact kernels *)

Section SingularTriplets.
Context {T D : Type} `{ST : Scalar T} `{RD : Real D} `{LP : !ScalarArray.Lapack T D}.
Import ScalarArray.

Add Ring scalar_ring_triplets : (@scalar_ring T ST).

Lemma sum_n_delta (k l : nat) (f : nat -> T) :
  l < k ->
  sum_n k (fun l' => (f l' * (if l =? l' then pone else zero))%T) = f l.
Proof.
  induction k as [|k IH]; intros Hl; [lia|]. cbn [sum_n].
  destruct (Nat.eq_dec l k) as [->|Hne].
  - rewrite Nat.eqb_refl.
    rewrite (sum_n_ext k _ (fun _ => zero)).
    + rewrite sum_n_zero. ring.
    + intros l' Hl'. replace (k =? l') with false by (symmetry; apply Nat.eqb_neq; lia).
      ring.
  - rewrite IH by lia.
    replace (l =? k) with false by (symmetry; apply Nat.eqb_neq; lia). ring.
Qed.

(** [sum_c (sum_l a_l R_lc) (sum_l' b_l' R'_l'c)
     = sum_l sum_l' a_l b_l' (sum_c R_lc R'_l'c)]. *)
Lemma sum_n_bilinear (k ka kb : nat) (a b : nat -> T) (R R' : nat -> nat -> T) :
  sum_n k (fun c => (sum_n ka (fun l => a l * R l c)
                     * sum_n kb (fun l' => b l' * R' l' c))%T)
  = sum_n ka (fun l => sum_n kb (fun l' =>
      (a l * b l' * sum_n k (fun c => R l c * R' l' c))%T)).
Proof.
  transitivity
    (sum_n k (fun c => sum_n ka (fun l => sum_n kb (fun l' =>
       (a l * b l' * (R l c * R' l' c))%T)))).
  { apply sum_n_ext. intros c _.
    rewrite <- sum_n_scal_r. apply sum_n_ext. intros l _.
    rewrite <- sum_n_scal_l. apply sum_n_ext. intros l' _. ring. }
  rewrite sum_n_exchange. apply sum_n_ext. intros l _.
  rewrite sum_n_exchange. apply sum_n_ext. intros l' _.
  rewrite sum_n_scal_l. reflexivity.
Qed.

Lemma orthonormal_compose (m k s : nat) (Q U : nat -> nat -> T) :
  orthonormal m k Q -> orthonormal k s U ->
  orthonormal m s (fun i c => sum_n k (fun l => (Q i l * U l c)%T)).
Proof.
  intros HQ HU c c' Hc Hc'.
  transitivity
    (sum_n m (fun i =>
       (sum_n k (fun l => tconj (U l c) * tconj (Q i l))
        * sum_n k (fun l' => U l' c' * Q i l'))%T)).
  { apply sum_n_ext. intros i _. rewrite sum_n_conj. f_equal.
    - apply sum_n_ext. intros l _. rewrite tconj_mul. ring.
    - apply sum_n_ext. intros l _. ring. }
  rewrite (sum_n_bilinear m k k (fun l => tconj (U l c)) (fun l' => U l' c')
             (fun l i => tconj (Q i l)) (fun l' i => Q i l')).
  transitivity (sum_n k (fun l => (tconj (U l c) * U l c')%T)).
  2:{ apply HU; assumption. }
  apply sum_n_ext. intros l Hl.
  rewrite (sum_n_ext k _ (fun l' => (tconj (U l c) * U l' c'
                                     * (if l =? l' then pone else zero))%T)).
  - apply (sum_n_delta k l (fun l' => (tconj (U l c) * U l' c')%T)). exact Hl.
  - intros l' Hl'. rewrite HQ by assumption. reflexivity.
Qed.

Variable oob : D.

(** The panels [A = Q_A R_A] and [B = Q_B R_B], the factors being
    orthonormal, the singular value decomposition [R_A R_B^t = U Sigma V^t]
    and the panels [Q_A U sqrt(Sigma)] and [Q_B V sqrt(Sigma)] cut after
    [k'] columns: [A B^t] is cut after [k'] singular triplets. *)
Lemma cut_core (m n k ka kb k' : nat) (sigma : list D)
    (A B QA QB RA RB U V newA newB : nat -> nat -> T) :
  orthonormal m ka QA -> orthonormal n kb QB ->
  (forall i c, i < m -> c < k -> A i c = sum_n ka (fun l => (QA i l * RA l c)%T)) ->
  (forall j c, j < n -> c < k -> B j c = sum_n kb (fun l => (QB j l * RB l c)%T)) ->
  orthonormal ka (length sigma) U -> orthonormal kb (length sigma) V ->
  (forall l l', l < ka -> l' < kb ->
     sum_n k (fun c => (RA l c * RB l' c)%T)
     = triplets oob sigma U V (length sigma) l l') ->
  singular_values oob sigma -> k' <= length sigma ->
  (forall c, c < length sigma ->
     (of_real (dsqrt (nth c sigma oob)) * of_real (dsqrt (nth c sigma oob))
      = of_real (nth c sigma oob))%T) ->
  (forall i c, i < m -> c < k' ->
     newA i c = sum_n ka (fun l => (QA i l * (U l c * of_real (dsqrt (nth c sigma oob))))%T)) ->
  (forall j c, j < n -> c < k' ->
     newB j c = sum_n kb (fun l => (QB j l * (V l c * of_real (dsqrt (nth c sigma oob))))%T)) ->
  cut_at oob m n sigma k'
    (fun i j => sum_n k (fun c => (A i c * B j c)%T))
    (fun i j => sum_n k' (fun c => (newA i c * newB j c)%T)).
Proof.
  intros HQA HQB HA HB HU HV HR Hsv Hk' Hsq HnA HnB.
  split; [exact Hk'|]. split; [exact Hsv|].
  exists (fun i c => sum_n ka (fun l => (QA i l * U l c)%T)),
         (fun j c => sum_n kb (fun l => (QB j l * V l c)%T)).
  split; [apply orthonormal_compose; assumption|].
  split; [apply orthonormal_compose; assumption|].
  split.
  - intros i j Hi Hj. unfold triplets.
    transitivity
      (sum_n k (fun c => (sum_n ka (fun l => QA i l * RA l c)
                          * sum_n kb (fun l' => QB j l' * RB l' c))%T)).
    { apply sum_n_ext. intros c Hc. rewrite HA, HB by assumption. reflexivity. }
    rewrite sum_n_bilinear.
    transitivity
      (sum_n (length sigma) (fun c =>
         (sum_n ka (fun l => QA i l * (U l c * of_real (nth c sigma oob)))
          * sum_n kb (fun l' => QB j l' * V l' c))%T)).
    { rewrite sum_n_bilinear. apply sum_n_ext. intros l Hl.
      apply sum_n_ext. intros l' Hl'. rewrite HR by assumption. reflexivity. }
    apply sum_n_ext. intros c Hc.
    rewrite <- (sum_n_scal_r ka (of_real (nth c sigma oob))).
    f_equal. apply sum_n_ext. intros l _. ring.
  - intros i j Hi Hj. unfold triplets. apply sum_n_ext. intros c Hc.
    rewrite HnA, HnB by assumption.
    rewrite <- (Hsq c) by lia.
    set (s := of_real (dsqrt (nth c sigma oob))).
    rewrite (sum_n_ext ka _ (fun l => (QA i l * U l c * s)%T)) by (intros; ring).
    rewrite (sum_n_ext kb _ (fun l => (QB j l * V l c * s)%T)) by (intros; ring).
    rewrite !sum_n_scal_r. ring.
Qed.

Lemma cut_at_ext (m n k' : nat) (sigma : list D) (X X' Y Y' : nat -> nat -> T) :
  (forall i j, i < m -> j < n -> X' i j = X i j) ->
  (forall i j, i < m -> j < n -> Y' i j = Y i j) ->
  cut_at oob m n sigma k' X Y -> cut_at oob m n sigma k' X' Y'.
Proof.
  intros EX EY (Hk & Hsv & x & y & Hx & Hy & HX & HY).
  split; [exact Hk|]. split; [exact Hsv|]. exists x, y.
  split; [exact Hx|]. split; [exact Hy|]. split.
  - intros i j Hi Hj. rewrite EX by assumption. now apply HX.
  - intros i j Hi Hj. rewrite EY by assumption. now apply HY.
Qed.

Lemma recompressed_ext (env : Env) (epsilon : D) (m n : nat)
    (X X' Y Y' : nat -> nat -> T) :
  (forall i j, i < m -> j < n -> X' i j = X i j) ->
  (forall i j, i < m -> j < n -> Y' i j = Y i j) ->
  recompressed env oob epsilon m n X Y -> recompressed env oob epsilon m n X' Y'.
Proof.
  intros EX EY (sigma & k' & Hcut & Hthr). exists sigma, k'.
  split; [exact (cut_at_ext m n k' sigma X X' Y Y' EX EY Hcut) | exact Hthr].
Qed.

(** The matrix 0 is cut after no triplet at all. *)
Lemma cut_at_zero (m n : nat) (X Y : nat -> nat -> T) :
  (forall i j, i < m -> j < n -> X i j = zero) ->
  (forall i j, i < m -> j < n -> Y i j = zero) ->
  cut_at oob m n [] 0 X Y.
Proof.
  intros HX HY. split; [cbn; lia|]. split.
  { split; cbn; intros; lia. }
  exists (fun _ _ => zero), (fun _ _ => zero). cbn [length].
  split; [intros c c' Hc; lia|]. split; [intros c c' Hc; lia|].
  split; intros i j Hi Hj; [rewrite HX | rewrite HY]; auto.
Qed.

End SingularTriplets.

Section TruncateExact.
Context {T D : Type} `{ST : Scalar T} `{RD : Real D}
  `{LP : !ScalarArray.Lapack T D} `{CP : !RkMatrix.Compression T D}.
Variable env : Env.
Variable approx : RkApproximationControl.t D.
Variable oob : D.
Import ScalarArray.

Add Ring scalar_ring_truncate : (@scalar_ring T ST).

Lemma nth_sqrt (sigma : list D) (newK j : nat) :
  j < newK -> newK <= length sigma ->
  nth j (map dsqrt (take newK sigma)) oob = dsqrt (nth j sigma oob).
Proof.
  intros Hj Hk. rewrite (nth_indep _ oob (dsqrt oob)).
  - rewrite map_nth, nth_firstn.
    replace (j <? newK) with true by (symmetry; apply Nat.ltb_lt; lia). reflexivity.
  - rewrite length_map, length_take. lia.
Qed.

Lemma findK_le (sigma : list D) (epsilon : D) (newK : Z) :
  RkApproximationControl.findK env approx oob sigma epsilon = Some newK ->
  (newK <= Z.of_nat (length sigma))%Z.
Proof.
  unfold RkApproximationControl.findK.
  destruct (negb _); [intros [= <-]; lia|].
  destruct (negb _); [discriminate|]. intros [= <-].
  pose proof (scan_le (dmul (RkApproximationControl.threshold_base env oob sigma) epsilon)
                sigma). lia.
Qed.

(** With a transitive order on [double], the singular values from the first
    one at or below the threshold on are all at or below it. *)
Lemma scan_thresholds (sigma : list D) (thr : D) :
  (forall a b c : D, dleb a b = true -> dleb b c = true -> dleb a c = true) ->
  singular_values oob sigma ->
  let k' := RkApproximationControl.scan thr sigma in
  (forall c, c < k' -> dleb (nth c sigma oob) thr = false) /\
  (forall c, k' <= c < length sigma -> dleb (nth c sigma oob) thr = true).
Proof.
  intros Htrans [_ Hdec] k'. split.
  - intros c Hc. now apply scan_before.
  - intros c [Hc1 Hc2].
    apply (Htrans _ (nth k' sigma oob)).
    + apply Hdec; lia.
    + apply scan_at. unfold k' in *. lia.
Qed.

(** [Q * u] as [truncate] computes it from the panel after its QR
    factorisation, with and without initial pivot. *)
Lemma applyQ_exact (pa u : t T) (p newK : nat) (Q : nat -> nat -> T) :
  let k := cols pa in
  let m := rows pa in
  let q := (qrDecomposition (D:=D) pa (new_ k k) p).1 in
  p <= k -> rows u = k -> cols u = newK ->
  (forall i l, i < m -> l < p -> get q i l = Q i l) ->
  (forall (c : t T) (i j : nat),
     rows c = m -> (forall l j', k - p <= l -> get c l j' = zero) -> i < m ->
     productQ_entries (D:=D) "L" "N"
       (if p =? 0 then q else sub q 0 (rows q) p (cols q - p)) c i j
     = sum_n (k - p) (fun l => (Q i (p + l)%nat * get c l j)%T)) ->
  forall i j, i < m -> j < newK ->
    get (RkMatrix.applyQ q u m newK p) i j = sum_n k (fun l => (Q i l * get u l j)%T).
Proof.
  intros k m q Hp Hru Hcu Hlead HP i j Hi Hj.
  unfold RkMatrix.applyQ. cbn [setOrtho get].
  destruct (p =? 0) eqn:Ep; cbn [negb].
  - apply Nat.eqb_eq in Ep. subst p.
    unfold productQ. cbn [get]. rewrite HP; [| reflexivity | | exact Hi].
    + rewrite Nat.sub_0_r. apply sum_n_ext. intros l Hl.
      unfold copyMatrixAtOffset, within. cbn [get rows cols new_].
      rewrite Hru, Hcu.
      replace ((0 <=? l) && (l <? 0 + k)) with true
        by (symmetry; apply andb_true_iff; split; [apply Nat.leb_le|apply Nat.ltb_lt]; lia).
      replace ((0 <=? j) && (j <? 0 + newK)) with true
        by (symmetry; apply andb_true_iff; split; [apply Nat.leb_le|apply Nat.ltb_lt]; lia).
      cbn [andb]. rewrite !Nat.sub_0_r. reflexivity.
    + intros l j' Hl. unfold copyMatrixAtOffset, within. cbn [get rows cols new_].
      rewrite Hru.
      replace (l <? 0 + k) with false by (symmetry; apply Nat.ltb_ge; lia).
      rewrite andb_false_r. reflexivity.
  - apply Nat.eqb_neq in Ep.
    unfold gemm. cbn [get rows cols sub].
    unfold productQ. cbn [get rows cols].
    rewrite HP; [| reflexivity | | exact Hi].
    2:{ intros l j' Hl. unfold copyMatrixAtOffset, within. cbn [get rows cols new_ sub].
        rewrite Hru.
        replace (l <? 0 + (k - p)) with false by (symmetry; apply Nat.ltb_ge; lia).
        rewrite andb_false_r. reflexivity. }
    unfold op_get. replace (is_char "N" "N") with true by reflexivity.
    cbn [get sub].
    assert (E1 : sum_n p (fun l => (get q (0 + i) (0 + l) * get u (0 + l) (0 + j))%T)
                 = sum_n p (fun l => (Q i l * get u l j)%T)).
    { apply sum_n_ext. intros l Hl. cbn [Nat.add]. rewrite Hlead by assumption.
      reflexivity. }
    assert (E2 : sum_n (k - p)
                   (fun l => (Q i (p + l)%nat
                              * get (copyMatrixAtOffset (new_ m newK)
                                       (sub u p (rows u - p) 0 (cols u)) 0 0) l j)%T)
                 = sum_n (k - p) (fun l => (Q i (p + l)%nat * get u (p + l) j)%T)).
    { apply sum_n_ext. intros l Hl.
      unfold copyMatrixAtOffset, within. cbn [get rows cols new_ sub].
      rewrite Hru, Hcu.
      replace ((0 <=? l) && (l <? 0 + (k - p))) with true
        by (symmetry; apply andb_true_iff; split; [apply Nat.leb_le|apply Nat.ltb_lt]; lia).
      replace ((0 <=? j) && (j <? 0 + newK)) with true
        by (symmetry; apply andb_true_iff; split; [apply Nat.leb_le|apply Nat.ltb_lt]; lia).
      cbn [andb Nat.add]. rewrite !Nat.sub_0_r. reflexivity. }
    rewrite E1, E2.
    transitivity (sum_n (p + (k - p)) (fun l => (Q i l * get u l j)%T));
      [| f_equal; lia].
    rewrite sum_n_split. ring.
Qed.

Lemma qr_shape (pa r : t T) (p : nat) :
  rows (qrDecomposition (D:=D) pa r p).1 = rows pa /\
  cols (qrDecomposition (D:=D) pa r p).1 = cols pa /\
  rows (qrDecomposition (D:=D) pa r p).2 = rows r /\
  cols (qrDecomposition (D:=D) pa r p).2 = cols r.
Proof. unfold qrDecomposition. destruct (qr_entries pa p). cbn. auto. Qed.

Lemma gemm_NT_get (a b c : t T) (i j : nat) :
  get (gemm "N" "T" pone a b zero c) i j
  = sum_n (cols a) (fun l => (get a i l * get b j l)%T).
Proof. rewrite gemm_get. reflexivity. Qed.

Lemma gemm_NN_get (a b c : t T) (i j : nat) :
  get (gemm "N" "N" pone a b zero c) i j
  = sum_n (cols a) (fun l => (get a i l * get b l j)%T).
Proof. rewrite gemm_get. reflexivity. Qed.

Lemma applyQ_cols (q u : t T) (nrows newK p : nat) :
  cols (RkMatrix.applyQ (D:=D) q u nrows newK p) = newK.
Proof. unfold RkMatrix.applyQ. destruct (negb _); reflexivity. Qed.

(** The QR variant of [truncate] with exact kernels: the dense value is cut
    after the [newK] singular triplets that [findK] keeps. *)
Lemma truncate_qr_cut (epsilon : D) (initialPivotA initialPivotB : nat)
    (r : RkMatrix.t T) :
  let m := IndexSet.size (RkMatrix.rows r) in
  let n := IndexSet.size (RkMatrix.cols r) in
  RkMatrix.invariant r -> 0 < RkMatrix.rank r -> RkMatrix.rank r <= Nat.min m n ->
  HMAT_RECOMPRESS_MGS env = false ->
  (if HMAT_TRUNC_INITPIV env then initialPivotA else 0) <= RkMatrix.rank r ->
  (if HMAT_TRUNC_INITPIV env then initialPivotB else 0) <= RkMatrix.rank r ->
  kernels_exact env oob epsilon initialPivotA initialPivotB r ->
  exists sigma,
    forall newK,
      RkApproximationControl.findK env approx oob sigma epsilon = Some newK ->
      (0 <= newK)%Z ->
      exists res,
        RkMatrix.truncate env approx oob epsilon initialPivotA initialPivotB r
        = Some res /\
        cut_at oob m n sigma (Z.to_nat newK) (RkMatrix.dense r) (RkMatrix.dense res).
Proof.
  intros m n Hinv Hk Hmin Hmgs HpA HpB Hker.
  destruct (invariant_panels r Hinv ltac:(lia)) as (pa & pb & Ea & Eb & Hca & Hcb & Hra & Hrb).
  unfold kernels_exact in Hker. rewrite Hmgs in Hker.
  unfold RkMatrix.panelA, RkMatrix.panelB in Hker. rewrite Ea, Eb in Hker.
  cbn [default from_option id] in Hker.
  set (pA := if HMAT_TRUNC_INITPIV env then initialPivotA else 0) in *.
  set (pB := if HMAT_TRUNC_INITPIV env then initialPivotB else 0) in *.
  set (k := RkMatrix.rank r) in *.
  destruct Hker as (HqA & HqB & Hsvd).
  unfold qr_exact in HqA, HqB. rewrite Hca, Hra in HqA. rewrite Hcb, Hrb in HqB.
  fold m in HqA. fold n in HqB.
  destruct HqA as (QA & HQA & HA & HleadA & HPA).
  destruct HqB as (QB & HQB & HB & HleadB & HPB).
  unfold svd_exact in Hsvd.
  destruct (svdDecomposition _ true) as [[[u sigma] v]|] eqn:Esvd; [|contradiction].
  cbn [rows cols gemm new_] in Hsvd.
  destruct Hsvd as (Hru & Hrv & Hsv & HU & HV & Hsq & HR).
  exists sigma. intros newK HfK HnK.
  pose proof (findK_le sigma epsilon newK HfK) as HleK.
  set (k' := Z.to_nat newK).
  assert (Hk' : k' <= length sigma) by (unfold k'; lia).
  (* the value of the block that is returned *)
  assert (Hcut : forall newA newB : nat -> nat -> T,
            (forall i c, i < m -> c < k' ->
               newA i c = sum_n k (fun l => (QA i l * (get u l c
                              * of_real (dsqrt (nth c sigma oob))))%T)) ->
            (forall j c, j < n -> c < k' ->
               newB j c = sum_n k (fun l => (QB j l * (get v l c
                              * of_real (dsqrt (nth c sigma oob))))%T)) ->
            cut_at oob m n sigma k' (RkMatrix.dense r)
              (fun i j => sum_n k' (fun c => (newA i c * newB j c)%T))).
  { intros newA newB HnA HnB.
    apply (cut_at_ext oob m n k' sigma
             (fun i j => sum_n k (fun c => (get pa i c * get pb j c)%T)) _
             (fun i j => sum_n k' (fun c => (newA i c * newB j c)%T)) _).
    - intros i j Hi Hj. unfold RkMatrix.dense, RkMatrix.panelA, RkMatrix.panelB.
      rewrite Ea, Eb. reflexivity.
    - reflexivity.
    - apply (cut_core oob m n k k k k' sigma (get pa) (get pb) QA QB
               (get (qrDecomposition pa (new_ k k) pA).2)
               (get (qrDecomposition pb (new_ k k) pB).2) (get u) (get v));
        try assumption.
      intros l l' Hl Hl'. rewrite <- HR by assumption.
      rewrite gemm_NT_get.
      destruct (qr_shape pa (new_ k k) pA) as (_ & _ & _ & ->). reflexivity. }
  pose proof (fun u newK => applyQ_exact pa u pA newK QA) as HapA.
  cbv zeta beta in HapA. rewrite Hca, Hra in HapA. fold m in HapA.
  pose proof (fun u newK => applyQ_exact pb u pB newK QB) as HapB.
  cbv zeta beta in HapB. rewrite Hcb, Hrb in HapB. fold n in HapB.
  unfold RkMatrix.truncate. fold pA pB k m n.
  replace (negb ((pA <=? k) && (pB <=? k))) with false
    by (symmetry; apply negb_false_iff, andb_true_iff; split; apply Nat.leb_le; lia).
  replace (k =? 0) with false by (symmetry; apply Nat.eqb_neq; lia).
  replace (negb (k <=? m)) with false
    by (symmetry; apply negb_false_iff, Nat.leb_le; lia).
  replace (m `min` n <? k) with false by (symmetry; apply Nat.ltb_ge; lia).
  rewrite Hmgs, Ea, Eb. cbn [mbind option_bind].
  destruct (qr_shape pa (new_ k k) pA) as (HrqA & HcqA & _ & _).
  destruct (qr_shape pb (new_ k k) pB) as (HrqB & HcqB & _ & _).
  destruct (qrDecomposition pa (new_ k k) pA) as [qa ra] eqn:EqA.
  destruct (qrDecomposition pb (new_ k k) pB) as [qb rb] eqn:EqB.
  cbn [fst snd] in *.
  rewrite Esvd. cbn [mbind option_bind]. rewrite HfK. cbn [mbind option_bind].
  destruct (newK =? 0)%Z eqn:E0.
  - apply Z.eqb_eq in E0. eexists. split; [reflexivity|].
    apply (cut_at_ext oob m n k' sigma (RkMatrix.dense r) _
             (fun i j => sum_n k' (fun c => (zero * zero)%T)) _).
    + reflexivity.
    + intros i j _ _. replace k' with 0 by (unfold k'; lia). reflexivity.
    + apply Hcut; intros i c _ Hc; unfold k' in Hc; lia.
  - replace (newK <? 0)%Z with false by (symmetry; apply Z.ltb_ge; lia).
    fold k'. eexists. split; [reflexivity|].
    apply Z.eqb_neq in E0.
    set (sigma' := map dsqrt (take k' sigma)).
    set (u' := multiplyWithDiag (RkMatrix.set_cols u k') sigma' oob).
    set (v' := multiplyWithDiag (RkMatrix.set_cols v k') sigma' oob).
    apply (cut_at_ext oob m n k' sigma (RkMatrix.dense r) _
             (fun i j => sum_n k' (fun c =>
                (get (RkMatrix.applyQ qa u' m k' pA) i c
                 * get (RkMatrix.applyQ qb v' n k' pB) j c)%T)) _).
    + reflexivity.
    + intros i j _ _. unfold RkMatrix.dense, RkMatrix.rank, RkMatrix.panelA, RkMatrix.panelB.
      cbn [RkMatrix.a RkMatrix.b default from_option id].
      rewrite applyQ_cols. reflexivity.
    + assert (Hd : forall (w : t T) l c, c < k' ->
                get (multiplyWithDiag (RkMatrix.set_cols w k') sigma' oob) l c
                = (get w l c * of_real (dsqrt (nth c sigma oob)))%T).
      { intros w l c Hc. unfold multiplyWithDiag, RkMatrix.set_cols. cbn [get].
        unfold sigma'. rewrite nth_sqrt by assumption. reflexivity. }
      apply Hcut.
      * intros i c Hi Hc.
        rewrite (HapA u' k' HpA Hru eq_refl HleadA HPA i c Hi Hc).
        apply sum_n_ext. intros l _. unfold u'. rewrite Hd by exact Hc. reflexivity.
      * intros j c Hj Hc.
        rewrite (HapB v' k' HpB Hrv eq_refl HleadB HPB j c Hj Hc).
        apply sum_n_ext. intros l _. unfold v'. rewrite Hd by exact Hc. reflexivity.
Qed.

Lemma nth_sqrt_app (sigma : list D) (newK j : nat) :
  j < newK -> newK <= length sigma ->
  nth j (map dsqrt (take newK sigma) ++ drop newK sigma) oob
  = dsqrt (nth j sigma oob).
Proof.
  intros Hj Hk. rewrite app_nth1 by (rewrite length_map, length_take; lia).
  now apply nth_sqrt.
Qed.

(** The Gram-Schmidt variant with exact kernels. *)
Lemma truncate_mgs_cut (epsilon : D) (initialPivotA initialPivotB : nat)
    (r : RkMatrix.t T) :
  let m := IndexSet.size (RkMatrix.rows r) in
  let n := IndexSet.size (RkMatrix.cols r) in
  RkMatrix.invariant r -> 0 < RkMatrix.rank r -> RkMatrix.rank r <= Nat.min m n ->
  HMAT_RECOMPRESS_MGS env = true ->
  (if HMAT_TRUNC_INITPIV env then initialPivotA else 0) <= RkMatrix.rank r ->
  (if HMAT_TRUNC_INITPIV env then initialPivotB else 0) <= RkMatrix.rank r ->
  kernels_exact env oob epsilon initialPivotA initialPivotB r ->
  exists sigma,
    forall newK,
      RkApproximationControl.findK env approx oob sigma epsilon = Some newK ->
      (0 <= newK)%Z ->
      exists res,
        RkMatrix.truncate env approx oob epsilon initialPivotA initialPivotB r
        = Some res /\
        cut_at oob m n sigma (Z.to_nat newK) (RkMatrix.dense r) (RkMatrix.dense res).
Proof.
  intros m n Hinv Hk Hmin Hmgs HpA HpB Hker.
  destruct (invariant_panels r Hinv ltac:(lia)) as (pa & pb & Ea & Eb & Hca & Hcb & Hra & Hrb).
  unfold kernels_exact in Hker. rewrite Hmgs in Hker.
  unfold RkMatrix.panelA, RkMatrix.panelB in Hker. rewrite Ea, Eb in Hker.
  cbn [default from_option id] in Hker.
  set (pA := if HMAT_TRUNC_INITPIV env then initialPivotA else 0) in *.
  set (pB := if HMAT_TRUNC_INITPIV env then initialPivotB else 0) in *.
  set (k := RkMatrix.rank r) in *.
  destruct Hker as (HqA & HqB & Hsvd).
  unfold mgs_exact in HqA, HqB. rewrite Hca, Hra in HqA. rewrite Hcb, Hrb in HqB.
  fold m in HqA. fold n in HqB.
  assert (Hdense : forall i j, RkMatrix.dense r i j
                     = sum_n k (fun c => (get pa i c * get pb j c)%T)).
  { intros i j. unfold RkMatrix.dense, RkMatrix.panelA, RkMatrix.panelB.
    rewrite Ea, Eb. reflexivity. }
  assert (Hzero : forall sigma newK,
            RkApproximationControl.findK env approx oob sigma epsilon = Some newK ->
            (0 <= newK)%Z -> sigma = [] -> Z.to_nat newK = 0).
  { intros sigma newK HfK HnK ->. apply findK_le in HfK. cbn in HfK. lia. }
  unfold RkMatrix.truncate, RkMatrix.mGSTruncate. fold pA pB k m n.
  replace (negb ((pA <=? k) && (pB <=? k))) with false
    by (symmetry; apply negb_false_iff, andb_true_iff; split; apply Nat.leb_le; lia).
  replace (k =? 0) with false by (symmetry; apply Nat.eqb_neq; lia).
  replace (negb (k <=? m)) with false
    by (symmetry; apply negb_false_iff, Nat.leb_le; lia).
  replace (m `min` n <? k) with false by (symmetry; apply Nat.ltb_ge; lia).
  rewrite Hmgs, Ea, Eb. cbn [mbind option_bind].
  assert (HshA : forall pa0 prec p,
            cols (modifiedGramSchmidt (D:=D) pa0 (new_ k k) prec p).2 = k /\
            cols (modifiedGramSchmidt (D:=D) pa0 (new_ k k) prec p).1.2
            = (modifiedGramSchmidt (D:=D) pa0 (new_ k k) prec p).1.1 /\
            rows (modifiedGramSchmidt (D:=D) pa0 (new_ k k) prec p).1.2 = rows pa0).
  { intros pa0 prec p. unfold modifiedGramSchmidt.
    destruct (mgs_entries pa0 prec p) as [[? ?] ?]. cbn. auto. }
  destruct (HshA pa epsilon pA) as (HcrA & HcqA & HrqA).
  destruct (HshA pb epsilon pB) as (HcrB & HcqB & HrqB).
  destruct (modifiedGramSchmidt pa (new_ k k) epsilon pA) as [[kA qa] ra] eqn:EqA.
  destruct (modifiedGramSchmidt pb (new_ k k) epsilon pB) as [[kB qb] rb] eqn:EqB.
  cbn [fst snd] in *.
  destruct HqA as (HQA & HA). destruct HqB as (HQB & HB).
  destruct (kA =? 0) eqn:EkA.
  { apply Nat.eqb_eq in EkA. rewrite EkA in HA. exists []. intros newK HfK HnK.
    eexists. split; [reflexivity|]. rewrite (Hzero [] newK HfK HnK eq_refl).
    apply cut_at_zero.
    - intros i j Hi Hj. rewrite Hdense. rewrite (sum_n_ext k _ (fun _ => zero)).
      + apply sum_n_zero.
      + intros c Hc. rewrite HA by assumption. cbn [sum_n]. ring.
    - intros i j _ _. reflexivity. }
  destruct (kB =? 0) eqn:EkB.
  { apply Nat.eqb_eq in EkB. rewrite EkB in HB. exists []. intros newK HfK HnK.
    eexists. split; [reflexivity|]. rewrite (Hzero [] newK HfK HnK eq_refl).
    apply cut_at_zero.
    - intros i j Hi Hj. rewrite Hdense. rewrite (sum_n_ext k _ (fun _ => zero)).
      + apply sum_n_zero.
      + intros c Hc. rewrite HB by assumption. cbn [sum_n]. ring.
    - intros i j _ _. reflexivity. }
  apply Nat.eqb_neq in EkA, EkB. specialize (Hsvd EkA EkB).
  unfold svd_exact in Hsvd.
  destruct (svdDecomposition _ true) as [[[u sigma] v]|] eqn:Esvd; [|contradiction].
  cbn [rows cols gemm new_] in Hsvd.
  destruct Hsvd as (Hru & Hrv & Hsv & HU & HV & Hsq & HR).
  exists sigma. intros newK HfK HnK.
  pose proof (findK_le sigma epsilon newK HfK) as HleK.
  set (k' := Z.to_nat newK).
  assert (Hk' : k' <= length sigma) by (unfold k'; lia).
  assert (Hcut : forall newA newB : nat -> nat -> T,
            (forall i c, i < m -> c < k' ->
               newA i c = sum_n kA (fun l => (get qa i l * (get u l c
                              * of_real (dsqrt (nth c sigma oob))))%T)) ->
            (forall j c, j < n -> c < k' ->
               newB j c = sum_n kB (fun l => (get qb j l * (get v l c
                              * of_real (dsqrt (nth c sigma oob))))%T)) ->
            cut_at oob m n sigma k' (RkMatrix.dense r)
              (fun i j => sum_n k' (fun c => (newA i c * newB j c)%T))).
  { intros newA newB HnA HnB.
    apply (cut_at_ext oob m n k' sigma
             (fun i j => sum_n k (fun c => (get pa i c * get pb j c)%T)) _
             (fun i j => sum_n k' (fun c => (newA i c * newB j c)%T)) _).
    - intros i j _ _. apply Hdense.
    - reflexivity.
    - apply (cut_core oob m n k kA kB k' sigma (get pa) (get pb) (get qa) (get qb)
               (get ra) (get rb) (get u) (get v)); try assumption.
      intros l l' Hl Hl'. rewrite <- HR by assumption.
      rewrite gemm_NT_get, HcrA. reflexivity. }
  cbn [mbind option_bind]. rewrite HfK. cbn [mbind option_bind].
  destruct (newK =? 0)%Z eqn:E0.
  - apply Z.eqb_eq in E0. eexists. split; [reflexivity|].
    apply (cut_at_ext oob m n k' sigma (RkMatrix.dense r) _
             (fun i j => sum_n k' (fun c => (zero * zero)%T)) _).
    + reflexivity.
    + intros i j _ _. replace k' with 0 by (unfold k'; lia). reflexivity.
    + apply Hcut; intros i c _ Hc; unfold k' in Hc; lia.
  - replace (newK <? 0)%Z with false by (symmetry; apply Z.ltb_ge; lia).
    fold k'. eexists. split; [reflexivity|].
    set (sigma' := map dsqrt (take k' sigma) ++ drop k' sigma).
    set (u' := multiplyWithDiag (RkMatrix.set_cols u k') sigma' oob).
    set (v' := multiplyWithDiag (RkMatrix.set_cols v k') sigma' oob).
    assert (Hd : forall (w : t T) l c, c < k' ->
              get (multiplyWithDiag (RkMatrix.set_cols w k') sigma' oob) l c
              = (get w l c * of_real (dsqrt (nth c sigma oob)))%T).
    { intros w l c Hc. unfold multiplyWithDiag, RkMatrix.set_cols. cbn [get].
      unfold sigma'. rewrite nth_sqrt_app by assumption. reflexivity. }
    apply (cut_at_ext oob m n k' sigma (RkMatrix.dense r) _
             (fun i j => sum_n k' (fun c =>
                (get (gemm "N" "N" pone qa u' zero (new_ (rows qa) k')) i c
                 * get (gemm "N" "N" pone qb v' zero (new_ (rows qb) k')) j c)%T)) _).
    + reflexivity.
    + intros i j _ _. reflexivity.
    + apply Hcut.
      * intros i c Hi Hc. rewrite gemm_NN_get, HcqA.
        apply sum_n_ext. intros l _. unfold u'. rewrite Hd by exact Hc. reflexivity.
      * intros j c Hj Hc. rewrite gemm_NN_get, HcqB.
        apply sum_n_ext. intros l _. unfold v'. rewrite Hd by exact Hc. reflexivity.
Qed.

End TruncateExact.

Section CoalesceTolerance.
Context {T D : Type} `{ST : Scalar T} `{RD : Real D}
  `{LP : !ScalarArray.Lapack T D} `{CP : !RkMatrix.Compression T D}.
Variable env : Env.
Variable approx : RkApproximationControl.t D.
Variable oob : D.
Import ScalarArray.

(** [truncate] with exact kernels, in either variant. *)
Lemma truncate_cut (epsilon : D) (initialPivotA initialPivotB : nat)
    (r : RkMatrix.t T) :
  let m := IndexSet.size (RkMatrix.rows r) in
  let n := IndexSet.size (RkMatrix.cols r) in
  RkMatrix.invariant r -> 0 < RkMatrix.rank r -> RkMatrix.rank r <= Nat.min m n ->
  (if HMAT_TRUNC_INITPIV env then initialPivotA else 0) <= RkMatrix.rank r ->
  (if HMAT_TRUNC_INITPIV env then initialPivotB else 0) <= RkMatrix.rank r ->
  kernels_exact env oob epsilon initialPivotA initialPivotB r ->
  exists sigma,
    forall newK,
      RkApproximationControl.findK env approx oob sigma epsilon = Some newK ->
      (0 <= newK)%Z ->
      exists res,
        RkMatrix.truncate env approx oob epsilon initialPivotA initialPivotB r
        = Some res /\
        cut_at oob m n sigma (Z.to_nat newK) (RkMatrix.dense r) (RkMatrix.dense res).
Proof.
  intros m n Hinv Hk Hmin HpA HpB Hker.
  destruct (HMAT_RECOMPRESS_MGS env) eqn:Emgs.
  - now apply truncate_mgs_cut.
  - now apply truncate_qr_cut.
Qed.

(** With the target rank 0 the block is recompressed at the tolerance
    [epsilon]; with a target rank [k > 0] it is cut after [k] singular
    triplets, whatever [epsilon] is. *)
Lemma truncate_recompressed (epsilon : D) (initialPivotA initialPivotB : nat)
    (r : RkMatrix.t T) :
  let m := IndexSet.size (RkMatrix.rows r) in
  let n := IndexSet.size (RkMatrix.cols r) in
  let k := RkApproximationControl.k approx in
  RkMatrix.invariant r -> 0 < RkMatrix.rank r -> RkMatrix.rank r <= Nat.min m n ->
  (if HMAT_TRUNC_INITPIV env then initialPivotA else 0) <= RkMatrix.rank r ->
  (if HMAT_TRUNC_INITPIV env then initialPivotB else 0) <= RkMatrix.rank r ->
  kernels_exact env oob epsilon initialPivotA initialPivotB r ->
  (k = 0%Z -> dleb dzero epsilon = true ->
   (forall a b c : D, dleb a b = true -> dleb b c = true -> dleb a c = true) ->
   exists res,
     RkMatrix.truncate env approx oob epsilon initialPivotA initialPivotB r = Some res /\
     recompressed env oob epsilon m n (RkMatrix.dense r) (RkMatrix.dense res)) /\
  ((0 < k)%Z ->
   exists res sigma,
     RkMatrix.truncate env approx oob epsilon initialPivotA initialPivotB r = Some res /\
     cut_at oob m n sigma (Nat.min (Z.to_nat k) (length sigma))
       (RkMatrix.dense r) (RkMatrix.dense res)).
Proof.
  intros m n k Hinv Hk Hmin HpA HpB Hker.
  destruct (truncate_cut epsilon initialPivotA initialPivotB r Hinv Hk Hmin HpA HpB Hker)
    as [sigma Hcut].
  split.
  - intros Hk0 Heps Htrans.
    set (thr := dmul (RkApproximationControl.threshold_base env oob sigma) epsilon).
    destruct (Hcut (Z.of_nat (RkApproximationControl.scan thr sigma)))
      as (res & Eres & Hres); [|lia|].
    { unfold RkApproximationControl.findK. fold k. rewrite Hk0, Heps. reflexivity. }
    rewrite Nat2Z.id in Hres.
    exists res. split; [exact Eres|]. exists sigma, (RkApproximationControl.scan thr sigma).
    split; [exact Hres|].
    apply scan_thresholds; [exact Htrans | apply Hres].
  - intros Hk0.
    destruct (Hcut (Z.min k (Z.of_nat (length sigma)))) as (res & Eres & Hres); [|lia|].
    { unfold RkApproximationControl.findK. fold k.
      replace (k =? 0)%Z with false by (symmetry; apply Z.eqb_neq; lia). reflexivity. }
    exists res, sigma. split; [exact Eres|].
    replace (Nat.min (Z.to_nat k) (length sigma))
      with (Z.to_nat (Z.min k (Z.of_nat (length sigma)))) by lia.
    exact Hres.
Qed.

(** C1, as the code has it.  On a target that satisfies the invariant and
    parts that satisfy it and whose index sets are subsets of the target's,
    [formattedAddParts] reaches its last step with one of:
    - a finished block, when no term takes part, or when the sum of the
      ranks is below [min(m, n)] and [dotruncate] is false or one term takes
      part: its dense value is [M(R) + sum_i alpha_i * M(parts_i)], exactly;
    - a block with that dense value on which [truncate(eps_rec, p_A, p_B)]
      is run, when the sum of the ranks is below [min(m, n)], [dotruncate]
      is true and more than one term takes part.  When the kernels are exact
      at the calls that [truncate] makes, the block returned is, with the
      target rank 0, the sum up to the tolerance [eps_rec]: the sum cut
      after its singular triplets of singular value above [eps_rec * S];
      with a target rank [k > 0] it is the sum cut after [k] singular
      triplets, whatever [eps_rec] is;
    - a dense block with these entries handed to [truncatedSvd] at
      [eps_rec], when the sum of the ranks reaches [min(m, n)], whatever
      [dotruncate] is: the block returned is the sum up to the tolerance
      [eps_rec] when what [truncatedSvd] returns is its argument up to that
      tolerance. *)
Theorem formattedAddParts_sum (this : RkMatrix.t T)
    (parts : list (T * option (RkMatrix.t T))) (dotruncate : bool) :
  RkMatrix.invariant this ->
  Forall (valid_term this) (omap RkMatrix.participates parts) ->
  let us := RkMatrix.terms this parts in
  let rankTotal := RkMatrix.total_rank us in
  let m := IndexSet.size (RkMatrix.rows this) in
  let n := IndexSet.size (RkMatrix.cols this) in
  let eps_rec := RkApproximationControl.recompressionEpsilon approx in
  let k := RkApproximationControl.k approx in
  let sum := fun i j =>
    (RkMatrix.dense this i j + RkMatrix.contributions this parts i j)%T in
  exists pend,
    RkMatrix.coalesce env approx parts dotruncate this = Some pend /\
    RkMatrix.formattedAddParts env approx oob parts dotruncate this
    = RkMatrix.finish env approx oob pend /\
    match pend with
    | RkMatrix.Done rk =>
        (us = [] \/ (rankTotal < Nat.min m n /\ (dotruncate = false \/ length us <= 1))) /\
        RkMatrix.invariant rk /\
        RkMatrix.rows rk = RkMatrix.rows this /\
        RkMatrix.cols rk = RkMatrix.cols this /\
        forall i j, i < m -> j < n -> RkMatrix.dense rk i j = sum i j
    | RkMatrix.ByTruncate rk eps pA pB =>
        rankTotal < Nat.min m n /\ dotruncate = true /\ 1 < length us /\
        eps = eps_rec /\
        RkMatrix.invariant rk /\
        RkMatrix.rank rk = rankTotal /\
        RkMatrix.rows rk = RkMatrix.rows this /\
        RkMatrix.cols rk = RkMatrix.cols this /\
        (forall i j, i < m -> j < n -> RkMatrix.dense rk i j = sum i j) /\
        (kernels_exact env oob eps_rec pA pB rk ->
         (k = 0%Z -> dleb dzero eps_rec = true ->
          (forall a b c : D, dleb a b = true -> dleb b c = true -> dleb a c = true) ->
          exists res,
            RkMatrix.formattedAddParts env approx oob parts dotruncate this = Some res /\
            recompressed env oob eps_rec m n sum (RkMatrix.dense res)) /\
         ((0 < k)%Z ->
          exists res sigma,
            RkMatrix.formattedAddParts env approx oob parts dotruncate this = Some res /\
            cut_at oob m n sigma (Nat.min (Z.to_nat k) (length sigma))
              sum (RkMatrix.dense res)))
    | RkMatrix.ByTruncatedSvd me eps =>
        us <> [] /\ Nat.min m n <= rankTotal /\ eps = eps_rec /\
        FullMatrix.rows_ me = RkMatrix.rows this /\
        FullMatrix.cols_ me = RkMatrix.cols this /\
        (forall i j, i < m -> j < n -> get (FullMatrix.data me) i j = sum i j) /\
        (recompressed env oob eps_rec m n (get (FullMatrix.data me))
           (RkMatrix.dense (RkMatrix.truncatedSvd me eps_rec)) ->
         exists res,
           RkMatrix.formattedAddParts env approx oob parts dotruncate this = Some res /\
           recompressed env oob eps_rec m n sum (RkMatrix.dense res))
    end.
Proof.
  intros Hinv Hv us rankTotal m n eps_rec k sum.
  destruct (coalesce_spec env approx oob this parts dotruncate Hinv Hv)
    as (pend & Eco & Efin & Hpend).
  exists pend. split; [exact Eco|]. split; [exact Efin|].
  destruct pend as [rk | rk eps pA pB | me eps].
  - exact Hpend.
  - destruct Hpend as (Hlt & Hdo & Hlen & -> & Hrk & Hrank & Hr & Hc & Hdense).
    fold us rankTotal m n in Hlt, Hlen, Hrank, Hdense.
    do 8 (split; [assumption || reflexivity|]). split; [exact Hdense|].
    intros Hker.
    destruct (coalesce_pivots env approx this parts dotruncate rk _ pA pB Hv Eco)
      as [HA HB]. fold us rankTotal in HA, HB.
    assert (Hpos : 0 < RkMatrix.rank rk).
    { rewrite Hrank. apply (total_rank_pos us).
      - intros E. rewrite E in Hlen. cbn in Hlen. lia.
      - pose proof (terms_valid this parts Hinv Hv) as Ht.
        eapply Forall_impl; [exact Ht|]. intros u [_ Hu]. exact Hu. }
    destruct (truncate_recompressed
                (RkApproximationControl.recompressionEpsilon approx) pA pB rk)
      as [H0 H1]; try assumption.
    + rewrite Hr, Hc, Hrank. fold m n. lia.
    + rewrite Hrank. destruct (HMAT_TRUNC_INITPIV env); lia.
    + rewrite Hrank. destruct (HMAT_TRUNC_INITPIV env); lia.
    + rewrite Hr, Hc in H0, H1. fold m n in H0, H1. rewrite Efin. cbn [RkMatrix.finish].
      split.
      * intros Hk0 Heps Htrans.
        destruct (H0 Hk0 Heps Htrans) as (res & Eres & Hres).
        exists res. split; [exact Eres|].
        eapply recompressed_ext; [| |exact Hres].
        -- intros i j Hi Hj. symmetry. now apply Hdense.
        -- reflexivity.
      * intros Hk0. destruct (H1 Hk0) as (res & sigma & Eres & Hres).
        exists res, sigma. split; [exact Eres|].
        eapply cut_at_ext; [| |exact Hres].
        -- intros i j Hi Hj. symmetry. now apply Hdense.
        -- reflexivity.
  - destruct Hpend as (Hne & Hge & -> & Hr & Hc & Hdense).
    do 5 (split; [assumption || reflexivity|]). split; [exact Hdense|].
    intros Hsvd. rewrite Efin. cbn [RkMatrix.finish].
    eexists. split; [reflexivity|].
    eapply recompressed_ext; [| |exact Hsvd].
    + intros i j Hi Hj. symmetry. now apply Hdense.
    + reflexivity.
Qed.

End CoalesceTolerance.

(** ** The flag ['T'] and [transpose] *)

Section TransposeFlag.
Context {T D HM : Type} `{ST : Scalar T} `{RD : Real D}
  `{LP : !ScalarArray.Lapack T D} `{HMC : !RkMatrix.HMatrix T HM}.
Variable NoCompression : Z.
Variable env : Env.
Variable approx : RkApproximationControl.t D.
Variable oob : D.
Import ScalarArray.

(** X29. On a block that satisfies the invariant, the flag ['T'] on the Rk
    operand of [gemv], of the four mixed products and of [multiplyRkRk], on
    either side, gives what the flag ['N'] gives on the transposed block: the
    same result, or the same failure. *)
Theorem transpose_flag (transX : ascii) (r other : RkMatrix.t T)
    (m : FullMatrix.t T) (h : HM) (alpha beta : T) (x y : t T) :
  RkMatrix.invariant r ->
  RkMatrix.gemv "T" alpha x beta y r
  = RkMatrix.gemv "N" alpha x beta y (RkMatrix.transpose r) /\
  RkMatrix.multiplyRkFull NoCompression "T" transX r m
  = RkMatrix.multiplyRkFull NoCompression "N" transX (RkMatrix.transpose r) m /\
  RkMatrix.multiplyFullRk transX "T" m r
  = RkMatrix.multiplyFullRk transX "N" m (RkMatrix.transpose r) /\
  RkMatrix.multiplyRkH "T" transX r h
  = RkMatrix.multiplyRkH "N" transX (RkMatrix.transpose r) h /\
  RkMatrix.multiplyHRk transX "T" h r
  = RkMatrix.multiplyHRk transX "N" h (RkMatrix.transpose r) /\
  RkMatrix.multiplyRkRk env approx oob "T" transX r other
  = RkMatrix.multiplyRkRk env approx oob "N" transX (RkMatrix.transpose r) other /\
  RkMatrix.multiplyRkRk env approx oob transX "T" other r
  = RkMatrix.multiplyRkRk env approx oob transX "N" other (RkMatrix.transpose r).
Proof.
  intros Hinv. destruct r as [rs cs [pa|] [pb|] mth];
    unfold RkMatrix.invariant in Hinv; cbn in Hinv; try contradiction.
  - destruct Hinv as (Hk & Hkk & _).
    unfold RkMatrix.gemv, RkMatrix.multiplyRkFull, RkMatrix.multiplyFullRk,
      RkMatrix.multiplyRkH, RkMatrix.multiplyHRk, RkMatrix.multiplyRkRk,
      RkMatrix.rank, RkMatrix.transpose.
    cbn [RkMatrix.a RkMatrix.b RkMatrix.rows RkMatrix.cols RkMatrix.method].
    rewrite <- Hkk. repeat split; reflexivity.
  - repeat split; reflexivity.
Qed.

End TransposeFlag.

(** ** Copies and release on the heap *)

Section Copies.
Context {T D : Type} `{ST : Scalar T}.
Import ScalarArray.

Lemma read_opt_value (p : option nat) (h : gmap nat (Mem.obj T D))
    (o : option (t T)) (h' : gmap nat (Mem.obj T D)) :
  @Mem.read_opt T D p h = Some (o, h') ->
  h' = h /\
  match p with
  | Some l => exists s, o = Some s /\ h !! l = Some (Mem.Array s)
  | None => o = None
  end.
Proof.
  destruct p as [l|]; cbn [Mem.read_opt].
  - unfold Mem.bind, Mem.read, Mem.ret.
    destruct (h !! l) as [[s|v]|]; try discriminate.
    intros [= <- <-]. eauto.
  - intros [= <- <-]. auto.
Qed.

Lemma value_cells (this : Mem.rk) (h h' : gmap nat (Mem.obj T D)) (r : RkMatrix.t T) :
  Mem.value this h = Some (r, h') ->
  h' = h /\
  r = RkMatrix.mk (Mem.rows this) (Mem.cols this) (RkMatrix.a r) (RkMatrix.b r)
        (Mem.method this) /\
  Mem.read_opt (Mem.a this) h = Some (RkMatrix.a r, h) /\
  Mem.read_opt (Mem.b this) h = Some (RkMatrix.b r, h).
Proof.
  unfold Mem.value, Mem.bind at 1.
  destruct (Mem.read_opt (Mem.a this) h) as [[pa h1]|] eqn:Ea; [|discriminate].
  apply read_opt_value in Ea as E1. destruct E1 as [-> _].
  unfold Mem.bind.
  destruct (Mem.read_opt (Mem.b this) h) as [[pb h2]|] eqn:Eb; [|discriminate].
  apply read_opt_value in Eb as E2. destruct E2 as [-> _].
  unfold Mem.ret. intros [= <- <-]. auto.
Qed.

Lemma new_opt_cells (o : option (t T)) (h : gmap nat (Mem.obj T D)) :
  exists p,
    @Mem.new_opt T D o h
    = Some (p, match p, o with
               | Some l, Some s => <[l := Mem.Array s]> h
               | _, _ => h
               end) /\
    match p, o with
    | Some l, Some s => h !! l = None
    | None, None => True
    | _, _ => False
    end.
Proof.
  destruct o as [s|]; cbn [Mem.new_opt].
  - exists (Some (fresh (dom h))). split; [reflexivity|].
    apply not_elem_of_dom, is_fresh.
  - exists None. split; [reflexivity | exact I].
Qed.

Lemma read_opt_more (p : option nat) (h h' : gmap nat (Mem.obj T D))
    (o : option (t T)) :
  @Mem.read_opt T D p h = Some (o, h) ->
  (forall l x, h !! l = Some x -> h' !! l = Some x) ->
  @Mem.read_opt T D p h' = Some (o, h').
Proof.
  intros E Hsub. apply read_opt_value in E as [_ E].
  destruct p as [l|]; cbn [Mem.read_opt].
  - destruct E as (s & -> & Hl). unfold Mem.bind, Mem.read.
    rewrite (Hsub _ _ Hl). reflexivity.
  - subst o. reflexivity.
Qed.

(** [copy(o)] after the panels of [this] were released. *)
Lemma copy_from_cleared (o this this0 : Mem.rk) (h h0 : gmap nat (Mem.obj T D))
    (ro : RkMatrix.t T) :
  Mem.clear this h = Some (this0, h0) ->
  Mem.value o h0 = Some (ro, h0) ->
  exists this' h',
    Mem.copy_from o this h = Some (this', h') /\
    Mem.value this' h'
    = Some (RkMatrix.mk (Mem.rows o) (Mem.cols o) (RkMatrix.a ro) (RkMatrix.b ro)
              (Mem.method this), h') /\
    (forall l x, h0 !! l = Some x -> h' !! l = Some x) /\
    (forall l, Mem.a this' = Some l \/ Mem.b this' = Some l -> h0 !! l = None) /\
    (forall l, Mem.a this' = Some l -> Mem.b this' = Some l -> False).
Proof.
  intros Ecl Hval.
  apply value_cells in Hval as (_ & _ & Era & Erb).
  unfold Mem.clear in Ecl. unfold Mem.copy_from.
  unfold Mem.bind at 1 in Ecl. unfold Mem.bind at 1.
  destruct (Mem.delete_ (Mem.a this) h) as [[[] h1]|]; [|discriminate].
  unfold Mem.bind at 1 in Ecl. unfold Mem.bind at 1.
  destruct (Mem.delete_ (Mem.b this) h1) as [[[] h2]|]; [|discriminate].
  unfold Mem.ret in Ecl. injection Ecl as _ ->.
  unfold Mem.bind at 1. rewrite Era.
  destruct (new_opt_cells (copy <$> RkMatrix.a ro) h0) as (na & Ena & Hna).
  unfold Mem.bind at 1. rewrite Ena.
  set (h1' := match na, copy <$> RkMatrix.a ro with
              | Some l, Some s => <[l := Mem.Array s]> h0
              | _, _ => h0
              end) in *.
  assert (Hsub1 : forall l x, h0 !! l = Some x -> h1' !! l = Some x).
  { intros l x Hl. unfold h1'.
    destruct na as [la|], (copy <$> RkMatrix.a ro) as [s|]; try exact Hl.
    rewrite lookup_insert_ne; [exact Hl|]. intros ->. congruence. }
  unfold Mem.bind at 1. rewrite (read_opt_more _ h0 h1' _ Erb Hsub1).
  destruct (new_opt_cells (copy <$> RkMatrix.b ro) h1') as (nb & Enb & Hnb).
  unfold Mem.bind. rewrite Enb. unfold Mem.ret.
  set (h2' := match nb, copy <$> RkMatrix.b ro with
              | Some l, Some s => <[l := Mem.Array s]> h1'
              | _, _ => h1'
              end) in *.
  assert (Hsub2 : forall l x, h1' !! l = Some x -> h2' !! l = Some x).
  { intros l x Hl. unfold h2'.
    destruct nb as [lb|], (copy <$> RkMatrix.b ro) as [s|]; try exact Hl.
    rewrite lookup_insert_ne; [exact Hl|]. intros ->. congruence. }
  eexists _, _. split; [reflexivity|].
  split; [|split; [|split]].
  - unfold Mem.value. cbn [Mem.a Mem.b Mem.rows Mem.cols Mem.method].
    assert (Ea' : Mem.read_opt na h2' = Some (RkMatrix.a ro, h2')).
    { destruct na as [la|], (RkMatrix.a ro) as [sa|]; cbn in Hna; try contradiction;
        [|reflexivity].
      cbn [Mem.read_opt]. unfold Mem.bind, Mem.read.
      rewrite (Hsub2 la (Mem.Array sa)); [reflexivity|].
      unfold h1'. cbn. apply lookup_insert_eq. }
    assert (Eb' : Mem.read_opt nb h2' = Some (RkMatrix.b ro, h2')).
    { destruct nb as [lb|], (RkMatrix.b ro) as [sb|]; cbn in Hnb; try contradiction;
        [|reflexivity].
      cbn [Mem.read_opt]. unfold Mem.bind, Mem.read.
      unfold h2'. cbn. rewrite lookup_insert_eq. reflexivity. }
    unfold Mem.bind at 1. rewrite Ea'. unfold Mem.bind. rewrite Eb'. reflexivity.
  - intros l x Hl. apply Hsub2, Hsub1, Hl.
  - cbn [Mem.a Mem.b]. intros l [-> | ->].
    + destruct (copy <$> RkMatrix.a ro); [exact Hna | contradiction].
    + destruct (copy <$> RkMatrix.b ro); [|contradiction].
      destruct (h0 !! l) as [x|] eqn:Hl; [|reflexivity].
      apply Hsub1 in Hl. congruence.
  - cbn [Mem.a Mem.b]. intros l -> ->.
    destruct (copy <$> RkMatrix.a ro) as [sa|] eqn:Esa; [|contradiction].
    destruct (copy <$> RkMatrix.b ro) as [sb|]; [|contradiction].
    unfold h1' in Hnb. rewrite lookup_insert_eq in Hnb. discriminate.
Qed.

(** X21. [copy(o)] releases the panels of [this], then stores copies of the
    panels of [o] in two distinct cells that were not in use: [this] then
    stands for the block with the index sets and the panels of [o], and with
    its own method, which is not copied.  No cell that is left after the
    release is changed.  Copying a block that is not empty onto itself
    fails: its panels are read after they were released. *)
Theorem copy_from_spec (o this : Mem.rk) (h : gmap nat (Mem.obj T D)) :
  (forall this0 h0 ro,
     Mem.clear this h = Some (this0, h0) ->
     Mem.value o h0 = Some (ro, h0) ->
     exists this' h',
       Mem.copy_from o this h = Some (this', h') /\
       Mem.value this' h'
       = Some (RkMatrix.mk (Mem.rows o) (Mem.cols o) (RkMatrix.a ro) (RkMatrix.b ro)
                 (Mem.method this), h') /\
       (forall l x, h0 !! l = Some x -> h' !! l = Some x) /\
       (forall l, Mem.a this' = Some l \/ Mem.b this' = Some l -> h0 !! l = None) /\
       (forall l, Mem.a this' = Some l -> Mem.b this' = Some l -> False)) /\
  (Mem.a this <> None \/ Mem.b this <> None ->
   @Mem.copy_from T D this this h = None).
Proof.
  split; [intros this0 h0 ro; apply copy_from_cleared|].
  intros Hsome. unfold Mem.copy_from.
  unfold Mem.bind at 1.
  destruct (Mem.delete_ (Mem.a this) h) as [[[] h1]|] eqn:Ed1; [|reflexivity].
  unfold Mem.bind at 1.
  destruct (Mem.delete_ (Mem.b this) h1) as [[[] h2]|] eqn:Ed2; [|reflexivity].
  unfold Mem.delete_ in Ed1, Ed2.
  destruct (Mem.a this) as [la|] eqn:Ea.
  - destruct (h !! la); [|discriminate]. injection Ed1 as <-.
    assert (Hla : h2 !! la = None).
    { destruct (Mem.b this) as [lb|].
      - destruct (delete la h !! lb); [|discriminate]. injection Ed2 as <-.
        destruct (decide (lb = la)) as [->|Hne].
        + apply lookup_delete_eq.
        + rewrite lookup_delete_ne by exact Hne. apply lookup_delete_eq.
      - injection Ed2 as <-. apply lookup_delete_eq. }
    unfold Mem.bind at 1. cbn [Mem.read_opt]. unfold Mem.bind at 1, Mem.read.
    rewrite Hla. reflexivity.
  - injection Ed1 as <-.
    destruct (Mem.b this) as [lb|] eqn:Eb; [|destruct Hsome; congruence].
    destruct (h !! lb); [|discriminate]. injection Ed2 as <-.
    unfold Mem.bind at 1. cbn [Mem.read_opt Mem.ret].
    unfold Mem.bind at 1. cbn [Mem.new_opt fmap option_fmap option_map Mem.ret].
    unfold Mem.bind at 1. cbn [Mem.read_opt]. unfold Mem.bind at 1, Mem.read.
    rewrite lookup_delete_eq. reflexivity.
Qed.

(** X22. [copy()] returns an object that stands for the same block, index
    sets and method included, whose panels are in two distinct cells that
    were not in use.  The cells of the heap are unchanged: [this] stands for
    the same block afterwards. *)
Theorem copy_deep (this : Mem.rk) (h : gmap nat (Mem.obj T D)) (r : RkMatrix.t T) :
  Mem.value this h = Some (r, h) ->
  exists this' h',
    Mem.copy this h = Some (this', h') /\
    Mem.value this' h' = Some (r, h') /\
    Mem.value this h' = Some (r, h') /\
    (forall l x, h !! l = Some x -> h' !! l = Some x) /\
    (forall l, Mem.a this' = Some l \/ Mem.b this' = Some l -> h !! l = None) /\
    (forall l, Mem.a this' = Some l -> Mem.b this' = Some l -> False).
Proof.
  intros Hval.
  destruct (copy_from_cleared this
              (Mem.mk (Mem.rows this) (Mem.cols this) None None (Mem.method this))
              (Mem.mk (Mem.rows this) (Mem.cols this) None None (Mem.method this))
              h h r eq_refl Hval)
    as (this' & h' & E & Hv & Hsub & Hfresh & Hne).
  exists this', h'. split; [exact E|].
  apply value_cells in Hval as Hc. destruct Hc as (_ & Hr & Era & Erb).
  cbn [Mem.method] in Hv. rewrite <- Hr in Hv.
  split; [exact Hv|].
  split; [|auto].
  unfold Mem.value.
  unfold Mem.bind at 1. rewrite (read_opt_more _ h h' _ Era Hsub).
  unfold Mem.bind. rewrite (read_opt_more _ h h' _ Erb Hsub).
  unfold Mem.ret. rewrite <- Hr. reflexivity.
Qed.

(** X20. [clear()], which the destructor calls, releases the cells of the two
    panels and leaves the empty block with the same index sets and method;
    no other cell is changed, and a second [clear()] changes nothing.  It
    fails when the two pointers are the same cell, which would be released
    twice.  On an empty block it does nothing. *)
Theorem clear_spec (this : Mem.rk) (h : gmap nat (Mem.obj T D)) :
  (forall la lb oa ob,
     Mem.a this = Some la -> Mem.b this = Some lb -> la <> lb ->
     h !! la = Some oa -> h !! lb = Some ob ->
     @Mem.clear T D this h = Some (emptied this, released h la lb) /\
     @Mem.value T D (emptied this) (released h la lb)
     = Some (RkMatrix.mk (Mem.rows this) (Mem.cols this) None None (Mem.method this),
             released h la lb) /\
     @Mem.clear T D (emptied this) (released h la lb)
     = Some (emptied this, released h la lb) /\
     (forall l, l <> la -> l <> lb -> released h la lb !! l = h !! l)) /\
  (forall l, Mem.a this = Some l -> Mem.b this = Some l ->
     @Mem.clear T D this h = None) /\
  (Mem.a this = None -> Mem.b this = None ->
     @Mem.clear T D this h = Some (this, h)).
Proof.
  split; [|split].
  - intros la lb oa ob Ea Eb Hne Hla Hlb.
    split; [apply (run_clear h this la lb oa ob); assumption|].
    split; [reflexivity|]. split; [reflexivity|].
    intros l H1 H2. unfold released. now rewrite !lookup_delete_ne by congruence.
  - intros l Ea Eb. unfold Mem.clear. rewrite Ea, Eb.
    unfold Mem.bind at 1, Mem.delete_ at 1.
    destruct (h !! l); [|reflexivity].
    unfold Mem.bind, Mem.delete_. rewrite lookup_delete_eq. reflexivity.
  - intros Ea Eb. unfold Mem.clear. rewrite Ea, Eb. cbn.
    unfold Mem.bind, Mem.ret. destruct this; cbn in *; subst; reflexivity.
Qed.

End Copies.

(** ** Traversals of a tree *)

Section TreeTraversals.
Import Tree.

Lemma fold_bind_None {A B : Type} (g : A -> B -> option A) (l : list B) :
  fold_left (fun acc x => a ← acc; g a x) l None = None.
Proof. induction l as [|x l IH]; [reflexivity | exact IH]. Qed.

Lemma nodesCount_fold (h : gmap nat node) (fuel : nat) (kids : list (option nat))
    (acc : list nat) :
  (forall c, nodesCount fuel c h = (fun l => Z.of_nat (length l)) <$> listNodes fuel c h) ->
  fold_left
    (fun (acc : option Z) (child : option nat) =>
       result ← acc;
       match child with
       | Some c => n ← nodesCount fuel c h; Some (result + n)%Z
       | None => Some result
       end) kids (Some (Z.of_nat (length acc)))
  = (fun l => Z.of_nat (length l)) <$>
    fold_left
      (fun (acc : option (list nat)) (child : option nat) =>
         result ← acc;
         match child with
         | Some c => childNodes ← listNodes fuel c h; Some (result ++ childNodes)
         | None => Some result
         end) kids (Some acc).
Proof.
  intros IH. revert acc.
  induction kids as [|[c|] kids IHk]; intros acc; cbn [fold_left]; [reflexivity| |apply IHk].
  cbn [mbind option_bind]. rewrite IH.
  destruct (listNodes fuel c h) as [l|]; cbn [fmap option_fmap option_map mbind option_bind].
  - replace (Z.of_nat (length acc) + Z.of_nat (length l))%Z
      with (Z.of_nat (length (acc ++ l))) by (rewrite length_app; lia).
    apply IHk.
  - rewrite !fold_bind_None. reflexivity.
Qed.

(** X23. [nodesCount()] is the length of the list that [listNodes()]
    returns; one call returns exactly when the other does. *)
Theorem nodesCount_listNodes (fuel this : nat) (h : gmap nat node) :
  nodesCount fuel this h = (fun l => Z.of_nat (length l)) <$> listNodes fuel this h.
Proof.
  revert this. induction fuel as [|fuel IH]; intros this; [reflexivity|].
  cbn [nodesCount listNodes].
  destruct (h !! this) as [t|]; [|reflexivity]. cbn [mbind option_bind].
  apply (nodesCount_fold h fuel (children t) [this]). exact IH.
Qed.

Lemma listAllLeaves_fold (h : gmap nat node) (fuel : nat) (kids : list (option nat))
    (leaves acc : list nat) :
  (forall c lv,
     listAllLeaves fuel c lv h
     = l ← listNodes fuel c h;
       Some (lv ++ filter (fun a => isLeaf a h = Some true) l)) ->
  fold_left
    (fun (acc : option (list nat)) (child : option nat) =>
       leaves ← acc;
       match child with
       | Some c => listAllLeaves fuel c leaves h
       | None => Some leaves
       end) kids (Some (leaves ++ filter (fun a => isLeaf a h = Some true) acc))
  = l ← fold_left
          (fun (acc : option (list nat)) (child : option nat) =>
             result ← acc;
             match child with
             | Some c => childNodes ← listNodes fuel c h; Some (result ++ childNodes)
             | None => Some result
             end) kids (Some acc);
    Some (leaves ++ filter (fun a => isLeaf a h = Some true) l).
Proof.
  intros IH. revert acc.
  induction kids as [|[c|] kids IHk]; intros acc; cbn [fold_left]; [reflexivity| |apply IHk].
  cbn [mbind option_bind]. rewrite IH.
  destruct (listNodes fuel c h) as [l|]; cbn [mbind option_bind].
  - rewrite <- app_assoc, <- filter_app. apply IHk.
  - rewrite !fold_bind_None. reflexivity.
Qed.

(** X24. [listAllLeaves(leaves)] appends to [leaves], in the order of
    [listNodes()], the nodes of that list whose children vector is empty;
    the entries that [leaves] held are kept.  One call returns exactly when
    the other does.  A node whose children were all removed has a children
    vector that is not empty: it is not listed. *)
Theorem listAllLeaves_listNodes (fuel this : nat) (leaves : list nat)
    (h : gmap nat node) :
  listAllLeaves fuel this leaves h
  = l ← listNodes fuel this h;
    Some (leaves ++ filter (fun a => isLeaf a h = Some true) l).
Proof.
  revert this leaves. induction fuel as [|fuel IH]; intros this leaves; [reflexivity|].
  cbn [listAllLeaves listNodes].
  destruct (isLeaf this h) as [leaf|] eqn:El; unfold isLeaf in El;
    destruct (h !! this) as [t|] eqn:Et; cbn [mbind option_bind] in El |- *;
    try discriminate; [|reflexivity].
  injection El as El.
  assert (Hl : isLeaf this h = Some leaf)
    by (unfold isLeaf; rewrite Et; cbn [mbind option_bind]; congruence).
  destruct leaf; cbn [negb].
  - destruct (children t); [|discriminate]. cbn [fold_left mbind option_bind].
    rewrite filter_cons_True by exact Hl. reflexivity.
  - rewrite <- (listAllLeaves_fold h fuel (children t) leaves [this] IH).
    rewrite filter_cons_False by (rewrite Hl; discriminate).
    rewrite filter_nil, app_nil_r. reflexivity.
Qed.

Lemma filter_enters_app (u v : list (nat * Visit)) :
  List.filter enters (u ++ v) = List.filter enters u ++ List.filter enters v.
Proof. apply List.filter_app. Qed.

Lemma walk_fold (h : gmap nat node) (fuel this : nat) (kids : list (option nat))
    (keep : nat * Visit -> bool) (visits : list (nat * Visit)) (first : bool) :
  keep (this, tree_inorder) = false ->
  forall (nodes : nat -> option (list nat)),
  (forall c, (fun v => map fst (List.filter keep v)) <$> walk fuel c h = nodes c) ->
  (fun st : list (nat * Visit) * bool => map fst (List.filter keep st.1)) <$>
  fold_left
    (fun (acc : option (list (nat * Visit) * bool)) (child : option nat) =>
       '(visits, first) ← acc;
       match child with
       | Some c =>
           let visits :=
             if negb first then visits ++ [(this, tree_inorder)] else visits in
           sub ← walk fuel c h;
           Some (visits ++ sub, false)
       | None => Some (visits, first)
       end) kids (Some (visits, first))
  = fold_left
      (fun (acc : option (list nat)) (child : option nat) =>
         result ← acc;
         match child with
         | Some c => childNodes ← nodes c; Some (result ++ childNodes)
         | None => Some result
         end) kids (Some (map fst (List.filter keep visits))).
Proof.
  intros Hin nodes IH. revert visits first.
  induction kids as [|[c|] kids IHk]; intros visits first; cbn [fold_left];
    [reflexivity| |apply IHk].
  cbn [mbind option_bind]. rewrite <- IH.
  destruct (walk fuel c h) as [sub|]; cbn [fmap option_fmap option_map mbind option_bind].
  - rewrite IHk. f_equal. f_equal.
    rewrite List.filter_app, map_app. f_equal.
    destruct first; cbn [negb]; [reflexivity|].
    rewrite List.filter_app. cbn [List.filter]. rewrite Hin, app_nil_r. reflexivity.
  - rewrite (fold_bind_None
               (fun (a : list (nat * Visit) * bool) (child : option nat) =>
                  let '(visits, first) := a in
                  match child with
                  | Some c =>
                      let visits :=
                        if negb first then visits ++ [(this, tree_inorder)] else visits in
                      sub ← walk fuel c h;
                      Some (visits ++ sub, false)
                  | None => Some (visits, first)
                  end)).
    rewrite fold_bind_None. reflexivity.
Qed.

Lemma walk_enters (fuel this : nat) (h : gmap nat node) :
  (fun v => map fst (List.filter enters v)) <$> walk fuel this h
  = listNodes fuel this h.
Proof.
  revert this. induction fuel as [|fuel IH]; intros this; [reflexivity|].
  cbn [walk listNodes]. unfold isLeaf.
  destruct (h !! this) as [t|] eqn:Et; cbn [mbind option_bind]; [|reflexivity].
  destruct (children t) as [|k kids] eqn:Ek; [reflexivity|].
  rewrite <- Ek.
  pose proof (walk_fold h fuel this (children t) enters [(this, tree_preorder)] true
                eq_refl (fun c => listNodes fuel c h) IH) as F.
  cbn [List.filter enters snd map fst] in F. rewrite <- F.
  destruct (fold_left _ (children t) _) as [[visits first]|];
    cbn [fmap option_fmap option_map mbind option_bind fst]; [|reflexivity].
  rewrite List.filter_app. cbn [List.filter enters snd]. rewrite app_nil_r. reflexivity.
Qed.

Lemma walk_leaves (fuel this : nat) (h : gmap nat node) :
  (fun v => map fst (List.filter at_leaf v)) <$> walk fuel this h
  = listAllLeaves fuel this [] h.
Proof.
  enough (G : forall lv,
            (fun v => lv ++ map fst (List.filter at_leaf v)) <$> walk fuel this h
            = listAllLeaves fuel this lv h) by exact (G []).
  revert this. induction fuel as [|fuel IH]; intros this lv; [reflexivity|].
  cbn [walk listAllLeaves]. unfold isLeaf.
  destruct (h !! this) as [t|] eqn:Et; cbn [mbind option_bind]; [|reflexivity].
  destruct (children t) as [|k kids] eqn:Ek; [reflexivity|].
  rewrite <- Ek. cbn [negb].
  assert (F : forall kids' visits first lv',
            (fun st : list (nat * Visit) * bool =>
               lv' ++ map fst (List.filter at_leaf st.1)) <$>
            fold_left
              (fun (acc : option (list (nat * Visit) * bool)) (child : option nat) =>
                 '(visits, first) ← acc;
                 match child with
                 | Some c =>
                     let visits :=
                       if negb first then visits ++ [(this, tree_inorder)] else visits in
                     sub ← walk fuel c h;
                     Some (visits ++ sub, false)
                 | None => Some (visits, first)
                 end) kids' (Some (visits, first))
            = fold_left
                (fun (acc : option (list nat)) (child : option nat) =>
                   leaves ← acc;
                   match child with
                   | Some c => listAllLeaves fuel c leaves h
                   | None => Some leaves
                   end) kids' (Some (lv' ++ map fst (List.filter at_leaf visits)))).
  { induction kids' as [|[c|] kids' IHk]; intros visits first lv'; cbn [fold_left];
      [reflexivity| |apply IHk].
    cbn [mbind option_bind]. rewrite <- IH.
    destruct (walk fuel c h) as [sub|];
      cbn [fmap option_fmap option_map mbind option_bind].
    - rewrite IHk. f_equal. f_equal. rewrite <- app_assoc. f_equal.
      rewrite List.filter_app, map_app. f_equal.
      destruct first; cbn [negb]; [reflexivity|].
      rewrite List.filter_app. cbn [List.filter at_leaf snd]. rewrite app_nil_r.
      reflexivity.
    - rewrite (fold_bind_None
                 (fun (a : list (nat * Visit) * bool) (child : option nat) =>
                    let '(visits, first) := a in
                    match child with
                    | Some c =>
                        let visits :=
                          if negb first then visits ++ [(this, tree_inorder)]
                          else visits in
                        sub ← walk fuel c h;
                        Some (visits ++ sub, false)
                    | None => Some (visits, first)
                    end)).
      rewrite fold_bind_None. reflexivity. }
  specialize (F (children t) [(this, tree_preorder)] true lv).
  cbn [List.filter at_leaf snd map] in F. rewrite app_nil_r in F. rewrite <- F.
  destruct (fold_left _ (children t) _) as [[visits first]|];
    cbn [fmap option_fmap option_map mbind option_bind fst]; [|reflexivity].
  rewrite List.filter_app. cbn [List.filter at_leaf snd]. rewrite app_nil_r. reflexivity.
Qed.

(** X25. The calls to [visit] that [walk(proc)] makes: the nodes visited with
    [tree_leaf] or [tree_preorder] are, in this order, the nodes of
    [listNodes()]; the nodes visited with [tree_leaf] are those that
    [listAllLeaves] appends to an empty vector; the first and the last visit
    are to the node itself, with [tree_leaf] when it is a leaf, with
    [tree_preorder] and [tree_postorder] otherwise.  [walk] returns exactly
    when [listNodes] does. *)
Theorem walk_visits (fuel this : nat) (h : gmap nat node) :
  (fun v => map fst (List.filter enters v)) <$> walk fuel this h
  = listNodes fuel this h /\
  (fun v => map fst (List.filter at_leaf v)) <$> walk fuel this h
  = listAllLeaves fuel this [] h /\
  (forall v, walk fuel this h = Some v ->
     hd_error v = Some (this, if default false (isLeaf this h)
                              then tree_leaf else tree_preorder) /\
     last v
     = Some (this, if default false (isLeaf this h)
                   then tree_leaf else tree_postorder)).
Proof.
  split; [apply walk_enters|]. split; [apply walk_leaves|].
  destruct fuel as [|fuel]; [discriminate|].
  cbn [walk]. intros v.
  destruct (isLeaf this h) as [[|]|]; cbn [mbind option_bind default from_option];
    try discriminate.
  - intros [= <-]. split; reflexivity.
  - destruct (h !! this) as [t|]; cbn [mbind option_bind]; [|discriminate].
    assert (F : forall kids visits first st,
      fold_left
        (fun (acc : option (list (nat * Visit) * bool)) (child : option nat) =>
           '(visits, first) ← acc;
           match child with
           | Some c =>
               let visits :=
                 if negb first then visits ++ [(this, tree_inorder)] else visits in
               sub ← walk fuel c h;
               Some (visits ++ sub, false)
           | None => Some (visits, first)
           end) kids (Some (visits, first)) = Some st ->
      exists more, st.1 = visits ++ more).
    { induction kids as [|[c|] kids IHk]; intros visits first st; cbn [fold_left].
      - intros [= <-]. exists []. cbn. now rewrite app_nil_r.
      - cbn [mbind option_bind].
        destruct (walk fuel c h) as [sub|]; cbn [mbind option_bind].
        + intros E. apply IHk in E as [more ->].
          destruct first; cbn [negb]; rewrite <- ?app_assoc; eauto.
        + rewrite (fold_bind_None
                     (fun (a : list (nat * Visit) * bool) (child : option nat) =>
                        let '(visits, first) := a in
                        match child with
                        | Some c =>
                            let visits :=
                              if negb first then visits ++ [(this, tree_inorder)]
                              else visits in
                            sub ← walk fuel c h;
                            Some (visits ++ sub, false)
                        | None => Some (visits, first)
                        end)). discriminate.
      - apply IHk. }
    destruct (fold_left _ (children t) _) as [st|] eqn:E;
      cbn [mbind option_bind]; [|discriminate].
    intros [= <-]. apply F in E as [more ->].
    split; [reflexivity|]. apply last_snoc.
Qed.

(** [listNodes] with its loop started from any list. *)
Lemma listNodes_fold_extends (h : gmap nat node) (fuel : nat)
    (kids : list (option nat)) (acc l : list nat) :
  fold_left
    (fun (acc : option (list nat)) (child : option nat) =>
       result ← acc;
       match child with
       | Some c => childNodes ← listNodes fuel c h; Some (result ++ childNodes)
       | None => Some result
       end) kids (Some acc) = Some l ->
  exists more, l = acc ++ more.
Proof.
  revert acc. induction kids as [|[c|] kids IHk]; intros acc; cbn [fold_left].
  - intros [= <-]. exists []. now rewrite app_nil_r.
  - cbn [mbind option_bind]. destruct (listNodes fuel c h) as [lc|];
      cbn [mbind option_bind]; [|rewrite fold_bind_None; discriminate].
    intros E. apply IHk in E as [more ->]. rewrite <- app_assoc. eauto.
  - apply IHk.
Qed.

Lemma listNodes_head (fuel this : nat) (h : gmap nat node) (l : list nat) :
  listNodes fuel this h = Some l -> exists more, l = this :: more.
Proof.
  destruct fuel as [|fuel]; [discriminate|]. cbn [listNodes].
  destruct (h !! this) as [t|]; cbn [mbind option_bind]; [|discriminate].
  intros E. apply listNodes_fold_extends in E as [more ->]. eauto.
Qed.

Lemma listNodes_more_fuel (h : gmap nat node) (fuel fuel' this : nat) (l : list nat) :
  listNodes fuel this h = Some l -> fuel <= fuel' -> listNodes fuel' this h = Some l.
Proof.
  revert fuel' this l. induction fuel as [|fuel IH]; intros fuel' this l; [discriminate|].
  intros E Hle. destruct fuel' as [|fuel']; [lia|].
  cbn [listNodes] in E |- *.
  destruct (h !! this) as [t|]; cbn [mbind option_bind] in E |- *; [|discriminate].
  revert E. generalize [this]. generalize (children t).
  induction l0 as [|[c|] kids IHk]; intros acc; cbn [fold_left]; [tauto| |apply IHk].
  cbn [mbind option_bind]. destruct (listNodes fuel c h) as [lc|] eqn:Ec;
    cbn [mbind option_bind]; [|rewrite fold_bind_None; discriminate].
  rewrite (IH fuel' c lc Ec) by lia. cbn [mbind option_bind]. apply IHk.
Qed.

Lemma listNodes_ranked (h : gmap nat node) (rk : nat -> nat) :
  ranked h rk ->
  forall fuel this,
    is_Some (h !! this) -> rk this < fuel ->
    exists l, listNodes fuel this h = Some l /\ forall a, a ∈ l -> is_Some (h !! a).
Proof.
  intros Hrk. induction fuel as [|fuel IH]; intros this [t Et] Hlt; [lia|].
  cbn [listNodes]. rewrite Et. cbn [mbind option_bind].
  assert (Hkids : forall c, Some c ∈ children t -> is_Some (h !! c) /\ rk c < fuel).
  { intros c Hc. destruct (Hrk this t c Et Hc). split; [assumption | lia]. }
  assert (Hacc : forall a, a ∈ [this] -> is_Some (h !! a)).
  { intros a Ha. apply list_elem_of_singleton in Ha as ->. eauto. }
  revert Hkids Hacc. generalize [this]. generalize (children t).
  induction l as [|[c|] kids IHk]; intros acc Hkids Hacc; cbn [fold_left].
  - eauto.
  - destruct (Hkids c) as [Hc Hlc]; [left|].
    destruct (IH c Hc Hlc) as (lc & Ec & Hin).
    cbn [mbind option_bind]. rewrite Ec. cbn [mbind option_bind].
    apply IHk.
    + intros c' Hc'. apply Hkids. now right.
    + intros a Ha. apply elem_of_app in Ha as [Ha|Ha]; auto.
  - apply IHk; [|exact Hacc]. intros c' Hc'. apply Hkids. now right.
Qed.

(** X26. On a store in which every child pointer points to a node of the
    store ranked below its father, so that no node is reached from itself,
    [listNodes()] returns whenever the depth allowed for the calls exceeds
    the rank of the node; the list starts with the node, holds nodes of the
    store only, and is the same for any larger depth. *)
Theorem listNodes_returns (h : gmap nat node) (rk : nat -> nat) (fuel this : nat) :
  ranked h rk -> is_Some (h !! this) -> rk this < fuel ->
  exists l,
    listNodes fuel this h = Some l /\
    hd_error l = Some this /\
    (forall a, a ∈ l -> is_Some (h !! a)) /\
    (forall fuel', rk this < fuel' -> listNodes fuel' this h = Some l).
Proof.
  intros Hrk Hthis Hlt.
  destruct (listNodes_ranked h rk Hrk fuel this Hthis Hlt) as (l & E & Hin).
  exists l. split; [exact E|].
  split; [destruct (listNodes_head _ _ _ _ E) as [more ->]; reflexivity|].
  split; [exact Hin|].
  { intros fuel' Hlt'.
    destruct (listNodes_ranked h rk Hrk fuel' this Hthis Hlt') as (l' & E' & _).
    destruct (Nat.le_ge_cases fuel fuel') as [Hle|Hle].
    - exact (listNodes_more_fuel h fuel fuel' this l E Hle).
    - rewrite (listNodes_more_fuel h fuel' fuel this l' E' Hle) in E. congruence. }
Qed.

(** [listNodes] reads the nodes that it lists, and no other. *)
Lemma listNodes_frame (h h' : gmap nat node) (fuel this : nat) (l : list nat) :
  listNodes fuel this h = Some l ->
  (forall a, a ∈ l -> h' !! a = h !! a) ->
  listNodes fuel this h' = Some l.
Proof.
  revert this l. induction fuel as [|fuel IH]; intros this l; [discriminate|].
  intros E Hsame.
  destruct (listNodes_head _ _ _ _ E) as [more0 E0].
  cbn [listNodes] in E |- *.
  rewrite Hsame by (rewrite E0; left).
  destruct (h !! this) as [t|]; cbn [mbind option_bind] in E |- *; [|discriminate].
  clear E0. revert E. generalize [this]. generalize (children t).
  induction l0 as [|[c|] kids IHk]; intros acc; cbn [fold_left]; [tauto| |apply IHk].
  cbn [mbind option_bind]. destruct (listNodes fuel c h) as [lc|] eqn:Ec;
    cbn [mbind option_bind]; [|rewrite fold_bind_None; discriminate].
  intros E. pose proof E as E1. apply listNodes_fold_extends in E1 as [more ->].
  rewrite (IH c lc Ec).
  - cbn [mbind option_bind]. apply IHk, E.
  - intros a Ha. apply Hsame. rewrite !elem_of_app. auto.
Qed.

(** [delete] on the root of a subtree whose nodes are distinct releases
    the nodes of the subtree, and no other. *)
Lemma delete_Tree_listNodes (fuel : nat) :
  forall (c : nat) (h : gmap nat node) (l : list nat),
    listNodes fuel c h = Some l -> NoDup l ->
    exists h',
      delete_Tree fuel c h = Some h' /\
      forall a, h' !! a = if decide (a ∈ l) then None else h !! a.
Proof.
  induction fuel as [|fuel IH]; intros c h l; [discriminate|].
  intros E Hnd. cbn [listNodes delete_Tree] in E |- *.
  destruct (h !! c) as [t|] eqn:Et; cbn [mbind option_bind] in E |- *; [|discriminate].
  assert (F : forall kids d hcur,
            fold_left
              (fun (acc : option (list nat)) (child : option nat) =>
                 result ← acc;
                 match child with
                 | Some c => childNodes ← listNodes fuel c h; Some (result ++ childNodes)
                 | None => Some result
                 end) kids (Some (c :: d)) = Some l ->
            (forall a, hcur !! a = if decide (a ∈ d) then None else h !! a) ->
            exists h' d',
              l = c :: d' /\
              fold_left
                (fun (acc : option (gmap nat node)) (child : option nat) =>
                   h ← acc;
                   match child with
                   | Some c => delete_Tree fuel c h
                   | None => Some h
                   end) kids (Some hcur) = Some h' /\
              forall a, h' !! a = if decide (a ∈ d') then None else h !! a).
  { induction kids as [|[k|] kids IHk]; intros d hcur; cbn [fold_left].
    - intros [= <-] Hcur. eauto.
    - cbn [mbind option_bind]. destruct (listNodes fuel k h) as [lk|] eqn:Ek;
        cbn [mbind option_bind]; [|rewrite fold_bind_None; discriminate].
      intros Efold Hcur.
      pose proof Efold as E1. apply listNodes_fold_extends in E1 as [more El].
      assert (Hnd' : NoDup (d ++ lk)).
      { rewrite El in Hnd. cbn [app] in Hnd. apply NoDup_cons in Hnd as [_ Hnd].
        apply NoDup_app in Hnd as [Hnd _]. exact Hnd. }
      apply NoDup_app in Hnd' as (_ & Hdisj & Hlk).
      assert (Ek' : listNodes fuel k hcur = Some lk).
      { apply (listNodes_frame h hcur fuel k lk Ek).
        intros a Ha. rewrite Hcur. destruct (decide (a ∈ d)) as [Hd|]; [|reflexivity].
        exfalso. exact (Hdisj a Hd Ha). }
      destruct (IH k hcur lk Ek' Hlk) as (h1 & Eh1 & Hh1).
      rewrite Eh1. apply (IHk (d ++ lk) h1 Efold).
      intros a. rewrite Hh1, Hcur.
      destruct (decide (a ∈ lk)), (decide (a ∈ d)), (decide (a ∈ d ++ lk)) as [Hx|Hx];
        try reflexivity; exfalso; apply Hx || (apply elem_of_app in Hx; tauto);
        apply elem_of_app; tauto.
    - apply IHk. }
  destruct (F (children t) [] h E) as (h' & d' & -> & Eh' & Hh').
  { intros a. destruct (decide (a ∈ [])) as [Hx|]; [|reflexivity].
    apply elem_of_nil in Hx. contradiction. }
  rewrite Eh'. cbn [mbind option_bind].
  apply NoDup_cons in Hnd as [Hc _].
  rewrite Hh'. destruct (decide (c ∈ d')); [contradiction|].
  rewrite Et. cbn [mbind option_bind]. eexists. split; [reflexivity|].
  intros a. destruct (decide (a = c)) as [->|Hne].
  - rewrite lookup_delete_eq. destruct (decide (c ∈ c :: d')) as [|Hx]; [reflexivity|].
    exfalso. apply Hx. left.
  - rewrite lookup_delete_ne by congruence. rewrite Hh'.
    destruct (decide (a ∈ d')), (decide (a ∈ c :: d')) as [Hx|Hx]; try reflexivity.
    + exfalso. apply Hx. now right.
    + apply elem_of_cons in Hx as [?|?]; contradiction.
Qed.

(** X27. [removeChild(index)] on a node of the store.  An index outside the
    children vector is an access out of bounds.  On an entry that is null
    nothing changes.  On an entry that points to a child whose subtree has
    distinct nodes, none of them the node itself, the nodes of the subtree
    are released, the entry becomes null and every other node is unchanged:
    the children vector keeps its length, so that the node is not a leaf
    afterwards even when it has no child left. *)
Theorem removeChild_spec (fuel this : nat) (index : Z) (h : gmap nat node)
    (t : node) :
  h !! this = Some t ->
  ((index < 0)%Z \/ (Z.of_nat (length (children t)) <= index)%Z ->
     removeChild fuel this index h = None) /\
  ((0 <= index)%Z -> children t !! Z.to_nat index = Some None ->
     removeChild fuel this index h = Some h) /\
  (forall c l,
     (0 <= index)%Z -> children t !! Z.to_nat index = Some (Some c) ->
     listNodes fuel c h = Some l -> NoDup l -> this ∉ l ->
     exists h',
       removeChild fuel this index h = Some h' /\
       h' !! this
       = Some (mk (depth t) (<[Z.to_nat index := None]> (children t)) (father t)) /\
       (forall a, a ∈ l -> h' !! a = None) /\
       (forall a, a ∉ l -> a <> this -> h' !! a = h !! a) /\
       getChild this index h' = Some None /\
       nbChild this h' = nbChild this h /\
       isLeaf this h' = Some false).
Proof.
  intros Et. unfold removeChild. rewrite Et. cbn [mbind option_bind].
  split; [|split].
  - intros [Hneg|Hbig].
    + apply Z.ltb_lt in Hneg. rewrite Hneg. reflexivity.
    + apply Z.leb_le in Hbig. rewrite Hbig, orb_true_r. reflexivity.
  - intros H0 Ei.
    assert (Hlen : Z.to_nat index < length (children t))
      by (apply lookup_lt_is_Some; eauto).
    replace (index <? 0)%Z with false by (symmetry; apply Z.ltb_ge; lia).
    replace (Z.of_nat (length (children t)) <=? index)%Z with false
      by (symmetry; apply Z.leb_gt; lia).
    cbn [orb]. rewrite Ei. cbn [mbind option_bind]. rewrite Et.
    cbn [mbind option_bind]. f_equal.
    rewrite list_insert_id by exact Ei.
    destruct t as [d k f]. cbn. apply insert_id. exact Et.
  - intros c l H0 Ei El Hnd Hthis.
    assert (Hlen : Z.to_nat index < length (children t))
      by (apply lookup_lt_is_Some; eauto).
    replace (index <? 0)%Z with false by (symmetry; apply Z.ltb_ge; lia).
    replace (Z.of_nat (length (children t)) <=? index)%Z with false
      by (symmetry; apply Z.leb_gt; lia).
    cbn [orb]. rewrite Ei. cbn [mbind option_bind].
    destruct (delete_Tree_listNodes fuel c h l El Hnd) as (h1 & E1 & H1).
    rewrite E1. cbn [mbind option_bind].
    rewrite H1. destruct (decide (this ∈ l)); [contradiction|].
    rewrite Et. cbn [mbind option_bind].
    eexists. split; [reflexivity|].
    split; [apply lookup_insert_eq|].
    split.
    { intros a Ha. rewrite lookup_insert_ne by (intros ->; contradiction).
      rewrite H1. destruct (decide (a ∈ l)); [reflexivity | contradiction]. }
    split.
    { intros a Ha Hne. rewrite lookup_insert_ne by congruence.
      rewrite H1. destruct (decide (a ∈ l)); [contradiction | reflexivity]. }
    unfold getChild, nbChild, isLeaf. rewrite lookup_insert_eq, Et.
    cbn [mbind option_bind children]. rewrite length_insert.
    split.
    { replace (0 <=? index)%Z with true by (symmetry; apply Z.leb_le; lia).
      replace (index <? Z.of_nat (length (children t)))%Z with true
        by (symmetry; apply Z.ltb_lt; lia).
      cbn [andb]. apply list_lookup_insert_eq. exact Hlen. }
    split; [reflexivity|].
    destruct (children t) as [|k kids]; [cbn in Hlen; lia|].
    destruct (Z.to_nat index); reflexivity.
Qed.

End TreeTraversals.

(** ** The theorems at concrete inputs *)

Section Instances.
Import Examples.
Import ScalarArray.

Lemma findK_spec_witness :
  dleb dzero 0%Z = true /\
  exists i : nat,
    RkApproximationControl.findK env0 approx1 0%Z [100; 3; 0]%Z 0%Z
    = Some (Z.of_nat i) /\ i <= 3.
Proof.
  assert (Heps : dleb dzero 0%Z = true) by reflexivity.
  split; [exact Heps|].
  destruct (findK_spec env0 approx1 0%Z [100; 3; 0]%Z 0%Z Heps) as [_ Hauto].
  destruct Hauto as (i & E & Hle & _); [reflexivity|].
  exists i. split; [exact E | exact Hle].
Defined.

Lemma gemv_spec_witness :
  exists y',
    RkMatrix.gemv "C" 2%Z (of_rows 3 1 [[1]; [1]; [1]]%Z) 3%Z
      (of_rows 3 1 [[1]; [0]; [0]]%Z) r3 = Some y' /\
    rows y' = 3 /\ cols y' = 1 /\
    Mem.gemv "C" 2%Z 3 3%Z 4 this34 heap34
    = Some (tt, <[4 := Mem.Array y']> heap34).
Proof.
  assert (Hval : Mem.value this34 heap34 = Some (r3, heap34))
    by (vm_compute; reflexivity).
  assert (Hx : heap34 !! 3 = Some (Mem.Array (of_rows 3 1 [[1]; [1]; [1]]%Z)))
    by (vm_compute; reflexivity).
  assert (Hy : heap34 !! 4 = Some (Mem.Array (of_rows 3 1 [[1]; [0]; [0]]%Z)))
    by (vm_compute; reflexivity).
  destruct (gemv_spec (D:=Z) "C" 2%Z 3%Z (of_rows 3 1 [[1]; [1]; [1]]%Z)
              (of_rows 3 1 [[1]; [0]; [0]]%Z) r3
              (gemm "N" "T" 1%Z (of_rows 3 1 [[1]; [2]; [3]]%Z)
                 (of_rows 3 1 [[1]; [0]; [1]]%Z) 0%Z (new_ 3 3)))
    as (y' & E & Hr & Hc & _ & _ & _ & Hheap).
  - cbv; repeat split; lia.
  - reflexivity.
  - right. right. reflexivity.
  - reflexivity.
  - exists y'. split; [exact E|]. split; [exact Hr|]. split; [exact Hc|].
    exact (Hheap this34 heap34 3 4 eq_refl eq_refl eq_refl Hval Hx Hy).
Defined.

Lemma multiplyRkRk_old_witness :
  exists res,
    RkMatrix.multiplyRkRk env0 approx1 0%Z "T" "C" r3 r3' = Some res /\
    RkMatrix.rank res = 1 /\ RkMatrix.method res = 2%Z.
Proof.
  destruct (multiplyRkRk_old env0 approx1 0%Z "T" "C" r3 r3')
    as (res & E & _ & Hrank & Hmeth & _).
  - reflexivity.
  - cbv; repeat split; lia.
  - cbv; repeat split; lia.
  - cbv; repeat split; lia.
  - cbv; repeat split; lia.
  - right. left. reflexivity.
  - right. right. reflexivity.
  - reflexivity.
  - exists res. split; [exact E|]. split; [exact Hrank | exact Hmeth].
Defined.

Lemma truncate_fallback_witness :
  RkMatrix.truncate env0 approx7 0%Z 3%Z 0 0 r21
  = Some (RkMatrix.mk (range 0 2) (range 0 1) None None 3%Z).
Proof.
  refine (truncate_fallback env0 approx7 0%Z 3%Z 0 0 r21
            (FullMatrix.mk (range 0 2) (range 0 1)
               (gemm "N" "T" 1%Z (of_rows 2 2 [[1; 0]; [0; 1]]%Z)
                  (of_rows 1 2 [[4; 5]]%Z) 0%Z (new_ 2 1)))
            _ _ _ _ _ _ _).
  - cbv; repeat split; lia.
  - cbv; repeat split; lia.
  - cbv; repeat split; lia.
  - cbv; repeat split; lia.
  - reflexivity.
  - reflexivity.
  - reflexivity.
Defined.

(** On the panels [(e_1 e_2)] the trivial factorisations are a QR
    factorisation and a singular value decomposition. *)
Lemma e1e1_e2e2_kernels_exact : kernels_exact env0 0%Z 0%Z 0 0 e1e1_e2e2.
Proof.
  unfold kernels_exact. cbn [HMAT_RECOMPRESS_MGS HMAT_TRUNC_INITPIV env0].
  split; [|split].
  - exists (get (RkMatrix.panelA e1e1_e2e2)). split; [|split; [|split]].
    + intros c c' Hc Hc'. vm_compute in Hc, Hc'.
      destruct c as [|[|c]]; [| |lia]; (destruct c' as [|[|c']]; [| |lia]);
        vm_compute; reflexivity.
    + intros i j Hi Hj. vm_compute in Hi, Hj.
      destruct i as [|[|[|i]]]; [| | |lia]; (destruct j as [|[|j]]; [| |lia]);
        vm_compute; reflexivity.
    + intros i l _ Hl. lia.
    + intros c i j _ _ _. reflexivity.
  - exists (get (RkMatrix.panelB e1e1_e2e2)). split; [|split; [|split]].
    + intros c c' Hc Hc'. vm_compute in Hc, Hc'.
      destruct c as [|[|c]]; [| |lia]; (destruct c' as [|[|c']]; [| |lia]);
        vm_compute; reflexivity.
    + intros i j Hi Hj. vm_compute in Hi, Hj.
      destruct i as [|[|[|i]]]; [| | |lia]; (destruct j as [|[|j]]; [| |lia]);
        vm_compute; reflexivity.
    + intros i l _ Hl. lia.
    + intros c i j _ _ _. reflexivity.
  - unfold svd_exact, svdDecomposition. cbn [svd trivial_lapack].
    split; [reflexivity|]. split; [reflexivity|]. split; [|split; [|split; [|split]]].
    + split.
      * intros c Hc. vm_compute in Hc. destruct c as [|[|c]]; [| |lia]; reflexivity.
      * intros c c' Hcc Hc. vm_compute in Hc.
        destruct c' as [|[|c']]; [| |lia]; (destruct c as [|[|c]]; [| |lia]);
          reflexivity.
    + intros c c' Hc Hc'. vm_compute in Hc, Hc'.
      destruct c as [|[|c]]; [| |lia]; (destruct c' as [|[|c']]; [| |lia]);
        vm_compute; reflexivity.
    + intros c c' Hc Hc'. vm_compute in Hc, Hc'.
      destruct c as [|[|c]]; [| |lia]; (destruct c' as [|[|c']]; [| |lia]);
        vm_compute; reflexivity.
    + intros c Hc. vm_compute in Hc. destruct c as [|[|c]]; [| |lia]; reflexivity.
    + intros i j Hi Hj. vm_compute in Hi, Hj.
      destruct i as [|[|i]]; [| |lia]; (destruct j as [|[|j]]; [| |lia]);
        vm_compute; reflexivity.
Qed.

Lemma Z_leb_trans (a b c : Z) :
  dleb a b = true -> dleb b c = true -> dleb a c = true.
Proof. cbn. rewrite !Z.leb_le. lia. Qed.

(** The sum of [e1e1] and [e2e2] with truncation at the tolerance 0: the
    kernels are exact, and the block returned is the sum up to the
    tolerance. *)
Lemma formattedAddParts_sum_witness :
  RkMatrix.invariant e1e1 /\
  Forall (valid_term e1e1) (omap RkMatrix.participates [(1%Z, Some e2e2)]) /\
  RkMatrix.coalesce env0 approx0 [(1%Z, Some e2e2)] true e1e1
  = Some (RkMatrix.ByTruncate e1e1_e2e2 0%Z 0 0) /\
  exists res,
    RkMatrix.formattedAddParts env0 approx0 0%Z [(1%Z, Some e2e2)] true e1e1 = Some res /\
    recompressed env0 0%Z 0%Z 3 3
      (fun i j => (RkMatrix.dense e1e1 i j
                   + RkMatrix.contributions e1e1 [(1%Z, Some e2e2)] i j)%Z)
      (RkMatrix.dense res).
Proof.
  assert (Hinv : RkMatrix.invariant e1e1) by (cbv; repeat split; lia).
  assert (Hv : Forall (valid_term e1e1) (omap RkMatrix.participates [(1%Z, Some e2e2)]))
    by (repeat constructor; cbv; lia).
  assert (Eco : RkMatrix.coalesce env0 approx0 [(1%Z, Some e2e2)] true e1e1
                = Some (RkMatrix.ByTruncate e1e1_e2e2 0%Z 0 0))
    by (vm_compute; reflexivity).
  split; [exact Hinv|]. split; [exact Hv|]. split; [exact Eco|].
  destruct (formattedAddParts_sum env0 approx0 0%Z e1e1 [(1%Z, Some e2e2)] true Hinv Hv)
    as (pend & Eco' & _ & Hpend).
  rewrite Eco in Eco'. injection Eco' as <-.
  destruct Hpend as (_ & _ & _ & _ & _ & _ & _ & _ & _ & Hrec).
  destruct (Hrec e1e1_e2e2_kernels_exact) as [H0 _].
  exact (H0 eq_refl eq_refl Z_leb_trans).
Defined.

(** The sum of [r3] and twice [p2] without truncation, where the filling
    loop is taken: the block returned has rank 2 and its entry [(1, 2)] is
    [2 * 1 + 2 * 5 * 1]. *)
Example formattedAddParts_r3_p2 :
  exists rk,
    RkMatrix.formattedAddParts env0 approx1 0%Z [(2%Z, Some p2)] false r3 = Some rk /\
    RkMatrix.rank rk = 2 /\ RkMatrix.dense rk 1 2 = 12%Z.
Proof. eexists. split; [reflexivity|]. split; reflexivity. Qed.

Lemma zero_rank_released_witness :
  Mem.truncate env0 approx1 0%Z 1%Z 0 0 this12 heap12
  = Some (emptied this12, released heap12 1 2) /\
  Mem.truncate env_mgs approx1 0%Z 1%Z 0 0 this12 heap12
  = Some (emptied this12, released heap12 1 2) /\
  released heap12 1 2 = ∅.
Proof.
  assert (Hla : heap12 !! 1 = Some (Mem.Array (of_rows 3 2 [[1; 0]; [0; 1]; [1; 1]]%Z)))
    by (vm_compute; reflexivity).
  assert (Hlb : heap12 !! 2 = Some (Mem.Array (of_rows 3 2 [[2; 0]; [0; 3]; [1; 1]]%Z)))
    by (vm_compute; reflexivity).
  assert (Hab : 1 <> 2) by lia.
  assert (Hk : cols (of_rows 3 2 [[1; 0]; [0; 1]; [1; 1]]%Z) <> 0) by (cbn; lia).
  pose proof (zero_rank_released env0 approx1 0%Z 1%Z 0 0 this12 heap12 1 2
                _ _ eq_refl eq_refl Hab Hla Hlb Hk) as [_ Hqr].
  pose proof (zero_rank_released env_mgs approx1 0%Z 1%Z 0 0 this12 heap12 1 2
                _ _ eq_refl eq_refl Hab Hla Hlb Hk) as [_ Hmgs].
  cbn zeta in Hqr, Hmgs.
  split; [|split].
  - destruct Hqr as [_ Hqr]; [cbn; lia | cbn; lia | cbn; lia |].
    eapply Hqr; [reflexivity | reflexivity | vm_compute; reflexivity].
  - destruct Hmgs as [Hmgs _]; [cbn; lia | cbn; lia | cbn; lia |].
    apply Hmgs; [reflexivity|].
    right. right. split; [cbn; lia|]. split; [cbn; lia|].
    eexists. eexists. eexists. split; [reflexivity | vm_compute; reflexivity].
  - vm_compute. reflexivity.
Defined.

Lemma recording_svd_block (m : FullMatrix.t Z) (epsilon : Z) :
  RkMatrix.invariant (RkMatrix.truncatedSvd m epsilon) /\
  RkMatrix.rows (RkMatrix.truncatedSvd m epsilon) = FullMatrix.rows_ m /\
  RkMatrix.cols (RkMatrix.truncatedSvd m epsilon) = FullMatrix.cols_ m.
Proof. repeat split. Qed.

Lemma invariant_maintained_witness :
  RkMatrix.invariant r3 /\
  (forall res,
     RkMatrix.truncate env0 approx1 0%Z 1%Z 0 0 r3 = Some res ->
     RkMatrix.invariant res) /\
  RkMatrix.truncate env0 approx1 0%Z 1%Z 0 0 r3 = Some (RkMatrix.clear r3).
Proof.
  assert (Hinv : RkMatrix.invariant r3) by (cbv; repeat split; lia).
  split; [exact Hinv|]. split; [|reflexivity].
  destruct (invariant_maintained env0 approx1 0%Z recording_svd_block r3 Hinv)
    as (_ & _ & _ & _ & _ & _ & _ & _ & Htr & _).
  intros res. apply Htr.
Defined.

Lemma mixed_products_method_witness :
  (exists res,
     RkMatrix.multiplyRkFull 4%Z "C" "T" r3 full33 = Some res /\
     RkMatrix.method res = 2%Z) /\
  (exists res,
     RkMatrix.multiplyHRk "N" "C" (range 0 3, range 0 3) r3 = Some res /\
     RkMatrix.method res = 2%Z).
Proof.
  destruct (mixed_products_method 4%Z "C" "T" r3 full33 (range 0 3, range 0 3))
    as [Hfull _].
  - right. right. reflexivity.
  - right. left. reflexivity.
  - destruct Hfull as (HRkFull & _); [cbv; repeat split; lia | cbv; lia |].
    destruct (mixed_products_method 4%Z "C" "N" r3 full33 (range 0 3, range 0 3))
      as [Hh _].
    + right. right. reflexivity.
    + left. reflexivity.
    + destruct Hh as (_ & _ & _ & HHRk); [cbv; repeat split; lia | cbv; lia |].
      split; [apply HRkFull; reflexivity | exact HHRk].
Defined.

Lemma insertChild_spec_witness :
  exists h',
    Tree.insertChild 0 2 (Some 2) store3 = Some h' /\
    Tree.getChild 0 2 h' = Some (Some 2) /\
    Tree.getChild 0 1 h' = Some None /\
    Tree.depth <$> h' !! 2 = Some 1%Z /\
    Tree.nbChild 0 h' = Some 3%Z /\
    h' !! 1 = store3 !! 1.
Proof.
  destruct (insertChild_spec 0 2 2%Z store3 (Tree.mk 0 [Some 1] None)
              (Tree.Tree None 0))
    as (h' & t' & E & Ht' & Hget & _ & Hd & _ & Hnb & Hb & Hkids & _ & Hother);
    [reflexivity | reflexivity | cbv; split; congruence | cbv; split; congruence
    | cbv; congruence |].
  exists h'. split; [exact E|]. split; [exact Hget|].
  split; [|split; [exact Hd | split; [exact Hnb | apply Hother; lia]]].
  unfold Tree.getChild. rewrite Ht'. cbn [mbind option_bind].
  assert (Hlen : Tree.nbChild 0 h' = Some 3%Z) by exact Hnb.
  unfold Tree.nbChild in Hlen. rewrite Ht' in Hlen. cbn [mbind option_bind] in Hlen.
  injection Hlen as Hlen.
  rewrite wrap_int_id in Hlen by (unfold Tree.INT_MIN; lia).
  replace ((0 <=? 1)%Z && (1 <? Z.of_nat (length (Tree.children t')))%Z) with true
    by (rewrite Hlen; reflexivity).
  rewrite (Hkids (Z.to_nat 1)) by (cbv; lia). reflexivity.
Defined.

(** *** Inputs on which the claims as worded fail *)

Lemma sum_n_tail_zero (n k' : nat) (f : nat -> Z) :
  k' <= n -> (forall c, k' <= c < n -> f c = 0%Z) -> sum_n n f = sum_n k' f.
Proof.
  induction n as [|n IH]; intros Hk Hf.
  - replace k' with 0 by lia. reflexivity.
  - destruct (Nat.eq_dec k' (S n)) as [->|Hne]; [reflexivity|].
    cbn [sum_n]. rewrite IH by (try lia; intros c Hc; apply Hf; lia).
    rewrite (Hf n) by lia. cbn. lia.
Qed.

(** C1: two inputs on which the claim as worded fails.

    With [dotruncate] false and a single term, the sum of the ranks reaches
    [min(m, n)] and the dense block is handed to [truncatedSvd] at the
    recompression tolerance.  At tolerance 1 the block it returns is empty,
    and its dense value 0 is not the sum 6.

    With the target rank 1 and the recompression tolerance 0, [truncate] is
    run on the sum [e_1 e_1^t + e_2 e_2^t], on which the kernels are exact,
    and keeps one singular triplet: the entry [(1, 1)] of the block returned
    is 0, that of the sum is 1, and the block is not the sum up to the
    tolerance 0. *)
Lemma formattedAddParts_sum_fails :
  ((exists me,
      RkMatrix.coalesce env0 approx1 [(1%Z, Some six11)] false empty11
      = Some (RkMatrix.ByTruncatedSvd me 1%Z) /\
      get (FullMatrix.data me) 0 0 = 6%Z) /\
   length (RkMatrix.terms empty11 [(1%Z, Some six11)]) = 1 /\
   exists res,
     RkMatrix.formattedAddParts env0 approx1 0%Z [(1%Z, Some six11)] false empty11
     = Some res /\
     RkMatrix.dense res 0 0 = 0%Z /\
     (RkMatrix.dense empty11 0 0
      + RkMatrix.contributions empty11 [(1%Z, Some six11)] 0 0)%Z = 6%Z) /\
  (RkMatrix.coalesce env0 approx_k1_0 [(1%Z, Some e2e2)] true e1e1
   = Some (RkMatrix.ByTruncate e1e1_e2e2 0%Z 0 0) /\
   kernels_exact env0 0%Z 0%Z 0 0 e1e1_e2e2 /\
   exists res,
     RkMatrix.formattedAddParts env0 approx_k1_0 0%Z [(1%Z, Some e2e2)] true e1e1
     = Some res /\
     RkMatrix.dense res 1 1 = 0%Z /\
     (RkMatrix.dense e1e1 1 1
      + RkMatrix.contributions e1e1 [(1%Z, Some e2e2)] 1 1)%Z = 1%Z /\
     ~ recompressed env0 0%Z 0%Z 3 3
         (fun i j => (RkMatrix.dense e1e1 i j
                      + RkMatrix.contributions e1e1 [(1%Z, Some e2e2)] i j)%Z)
         (RkMatrix.dense res)).
Proof.
  split.
  { split; [eexists; split; reflexivity|]. split; [reflexivity|].
    eexists. split; [reflexivity|]. split; reflexivity. }
  split; [vm_compute; reflexivity|]. split; [exact e1e1_e2e2_kernels_exact|].
  eexists. split; [reflexivity|]. split; [reflexivity|]. split; [reflexivity|].
  intros (sigma & k' & (Hk' & [Hnn _] & x & y & _ & _ & HX & HY) & _ & Hdrop).
  specialize (HX 1 1 ltac:(lia) ltac:(lia)). specialize (HY 1 1 ltac:(lia) ltac:(lia)).
  cbv beta in HX.
  assert (E : triplets 0%Z sigma x y (length sigma) 1 1 = triplets 0%Z sigma x y k' 1 1).
  { unfold triplets. apply sum_n_tail_zero; [exact Hk'|].
    intros c Hc. specialize (Hnn c ltac:(lia)). specialize (Hdrop c Hc).
    cbn in Hnn, Hdrop. rewrite Z.mul_0_r in Hdrop.
    apply Z.leb_le in Hnn, Hdrop.
    replace (nth c sigma 0%Z) with 0%Z by lia. cbn. lia. }
  rewrite E, <- HY in HX. vm_compute in HX. discriminate.
Qed.

(** C4: called with [epsilon = 3] under a recompression tolerance of 7, the
    fallback hands 3 to [truncatedSvd], not 7. *)
Lemma truncate_fallback_not_eps_rec :
  RkApproximationControl.recompressionEpsilon approx7 = 7%Z /\
  exists res tmp,
    RkMatrix.eval r21 = Some tmp /\
    RkMatrix.truncate env0 approx7 0%Z 3%Z 0 0 r21 = Some res /\
    RkMatrix.method res = RkMatrix.method (RkMatrix.truncatedSvd tmp 3%Z) /\
    RkMatrix.method res
    <> RkMatrix.method
         (RkMatrix.truncatedSvd tmp (RkApproximationControl.recompressionEpsilon approx7)).
Proof.
  split; [reflexivity|]. eexists. eexists.
  split; [reflexivity|]. split; [reflexivity|]. split; [reflexivity|].
  cbv. discriminate.
Qed.

(** C7: the constructor accepts a panel [a] of width 1 with a panel [b] of
    width 2; the block does not satisfy the invariant. *)
Lemma constructor_mismatched_widths :
  exists res,
    RkMatrix.RkMatrix (Some (of_rows 1 1 [[1]]%Z)) (range 0 1)
      (Some (of_rows 1 2 [[1; 1]]%Z)) (range 0 1) 0%Z = Some res /\
    ~ RkMatrix.invariant res.
Proof.
  eexists. split; [reflexivity|]. cbv. intros (_ & E & _). discriminate.
Qed.

(** C8: on an empty block of method 0, [multiplyRkFull] returns a block
    tagged [NoCompression] (here 4). *)
Lemma multiplyRkFull_empty_method :
  exists res,
    RkMatrix.multiplyRkFull 4%Z "N" "N" empty11 full11 = Some res /\
    RkMatrix.method res = 4%Z /\
    RkMatrix.method res <> RkMatrix.method empty11.
Proof.
  eexists. split; [reflexivity|]. split; [reflexivity|]. cbv. discriminate.
Qed.

(** [multiplyFullRk] and [multiplyRkH] read the width of a panel before any
    test of the rank: on the empty block they do not return. *)
Example mixed_products_on_empty :
  RkMatrix.multiplyFullRk "N" "N" full11 empty11 = None /\
  RkMatrix.multiplyRkH "N" "N" empty11 (range 0 1, range 0 1) = None.
Proof. split; reflexivity. Qed.

(** C10: the depth, the index and the value of [nbChild()] are of type
    [int].  Below a node of depth [INT_MAX] the child is given the depth
    [INT_MIN]; at the index [INT_MAX] the size [index + 1] is one that
    [resize] refuses, and nothing is inserted; with [2^31] entries in the
    children vector, [nbChild()] is negative after the insertion. *)
Lemma insertChild_int_limits :
  (exists h',
     Tree.insertChild 0 0 (Some 2) deep3 = Some h' /\
     Tree.depth <$> deep3 !! 0 = Some 2147483647%Z /\
     Tree.depth <$> h' !! 2 = Some (-2147483648)%Z) /\
  Tree.insertChild 0 2147483647 (Some 2) store3 = None /\
  (exists h',
     Tree.insertChild 0 0 (Some 2) (wide3 (Z.to_nat 2147483648)) = Some h' /\
     Tree.getChild 0 0 h' = Some (Some 2) /\
     Tree.nbChild 0 h' = Some (-2147483648)%Z).
Proof.
  split; [eexists; repeat split; reflexivity|]. split; [reflexivity|].
  assert (HN : Z.of_nat (Z.to_nat 2147483648) = 2147483648%Z) by (apply Z2Nat.id; lia).
  revert HN. generalize (Z.to_nat 2147483648). intros N HN.
  destruct (insertChild_run 0 2 0%Z (wide3 N) (Tree.mk 0 (replicate N None) None)
              (Tree.Tree None 0))
    as (h' & t' & E & Ht' & Hget & _ & _ & _ & Hlen & _).
  - unfold wide3. rewrite lookup_insert_ne by lia. apply lookup_insert_eq.
  - unfold wide3. apply lookup_insert_eq.
  - unfold Tree.INT_MAX. lia.
  - exists h'. split; [exact E|]. split; [exact Hget|].
    unfold Tree.nbChild. rewrite Ht'. cbn [mbind option_bind]. f_equal.
    rewrite Hlen. cbn [Tree.children]. rewrite length_replicate, HN.
    rewrite Z2Nat.id by lia. reflexivity.
Qed.

(** *** Further operations at concrete inputs *)

Lemma transpose_spec_witness :
  RkMatrix.invariant r3 /\
  exists d',
    RkMatrix.evalArray (RkMatrix.transpose r3) = Some d' /\
    rows d' = 3 /\ cols d' = 3 /\ get d' 0 2 = 3%Z.
Proof.
  assert (Hinv : RkMatrix.invariant r3) by (cbv; repeat split; lia).
  split; [exact Hinv|].
  destruct (transpose_spec r3) as (_ & _ & _ & _ & H).
  destruct (H Hinv) as [_ Hd].
  destruct (Hd (gemm "N" "T" 1%Z (of_rows 3 1 [[1]; [2]; [3]]%Z)
                  (of_rows 3 1 [[1]; [0]; [1]]%Z) 0%Z (new_ 3 3)) eq_refl)
    as (d' & E & R & C & G).
  exists d'. split; [exact E|]. split; [exact R|]. split; [exact C|].
  rewrite G. reflexivity.
Defined.

Lemma conjugate_spec_witness :
  exists d',
    RkMatrix.evalArray (RkMatrix.conjugate r3) = Some d' /\ get d' 2 0 = 3%Z.
Proof.
  destruct (conjugate_spec r3) as (_ & _ & _ & _ & Hd & _).
  destruct (Hd (gemm "N" "T" 1%Z (of_rows 3 1 [[1]; [2]; [3]]%Z)
                  (of_rows 3 1 [[1]; [0]; [1]]%Z) 0%Z (new_ 3 3)) eq_refl)
    as (d' & E & _ & _ & G).
  exists d'. split; [exact E|]. rewrite G. reflexivity.
Defined.

Lemma swap_spec_witness :
  IndexSet.eqb (RkMatrix.rows r3) (RkMatrix.rows r3_apart) = true /\
  RkMatrix.swap r3 r3_apart = None /\
  exists this' other',
    RkMatrix.swap r3 r3' = Some (this', other') /\ this' = r3' /\ other' = r3.
Proof.
  split; [reflexivity|]. split.
  - apply (proj1 (swap_spec r3 r3_apart)). left. cbv. lia.
  - destruct (proj2 (swap_spec r3 r3') eq_refl eq_refl)
      as (this' & other' & E & Ht & Ho & _).
    exists this', other'. auto.
Defined.

Lemma subset_spec_witness :
  RkMatrix.subset (range 1 3) (range 0 3) r3 = None /\
  exists s,
    RkMatrix.subset (range 1 2) (range 0 3) r3 = Some s /\
    RkMatrix.rank s = 1 /\ RkMatrix.dense s 0 2 = 2%Z.
Proof.
  split.
  - apply (proj1 (subset_spec (range 1 3) (range 0 3) r3)). left. reflexivity.
  - destruct (proj2 (subset_spec (range 1 2) (range 0 3) r3))
      as (s & E & _ & _ & _ & K & _ & Hd);
      [cbv; repeat split; lia | reflexivity | reflexivity |].
    exists s. split; [exact E|]. split; [exact K|]. rewrite Hd. reflexivity.
Defined.

Lemma subset_subset_witness :
  exists s1 s2 s12,
    RkMatrix.subset (range 1 2) (range 0 3) r3 = Some s1 /\
    RkMatrix.subset (range 2 1) (range 2 1) r3 = Some s2 /\
    RkMatrix.subset (range 2 1) (range 2 1) s1 = Some s12 /\
    RkMatrix.dense s12 0 0 = RkMatrix.dense s2 0 0.
Proof.
  destruct (subset_subset (range 1 2) (range 0 3) (range 2 1) (range 2 1) r3)
    as (s1 & s2 & s12 & E1 & E2 & E12 & _ & _ & _ & _ & Hd);
    [cbv; repeat split; lia | reflexivity | reflexivity | reflexivity | reflexivity |].
  exists s1, s2, s12. auto.
Defined.

Lemma multiplyRkFull_value_witness :
  exists res,
    RkMatrix.multiplyRkFull 0%Z "C" "T" r3 full33 = Some res /\
    RkMatrix.rank res = 1 /\ RkMatrix.dense res 0 1 = 32%Z.
Proof.
  destruct (multiplyRkFull_value 0%Z "C" "T" r3 full33
              (gemm "N" "T" 1%Z (of_rows 3 1 [[1]; [2]; [3]]%Z)
                 (of_rows 3 1 [[1]; [0]; [1]]%Z) 0%Z (new_ 3 3)))
    as (res & E & _ & _ & _ & K & Hd).
  - right. right. reflexivity.
  - right. left. reflexivity.
  - cbv; repeat split; lia.
  - cbv; lia.
  - reflexivity.
  - reflexivity.
  - exists res. split; [exact E|]. split; [exact K|]. rewrite Hd. reflexivity.
Defined.

Lemma multiplyFullRk_value_witness :
  exists res,
    RkMatrix.multiplyFullRk "T" "N" full33 r3 = Some res /\
    RkMatrix.rank res = 1 /\ RkMatrix.dense res 0 2 = 30%Z.
Proof.
  destruct (multiplyFullRk_value "T" "N" full33 r3
              (gemm "N" "T" 1%Z (of_rows 3 1 [[1]; [2]; [3]]%Z)
                 (of_rows 3 1 [[1]; [0]; [1]]%Z) 0%Z (new_ 3 3)))
    as (res & E & _ & _ & _ & K & Hd).
  - left. reflexivity.
  - right. left. reflexivity.
  - cbv; repeat split; lia.
  - cbv; lia.
  - reflexivity.
  - exists res. split; [exact E|]. split; [exact K|]. rewrite Hd. reflexivity.
Defined.

Lemma dense_h_product (h : FullMatrix.t Z) (trans : ascii) (alpha beta : Z)
    (x y : t Z) (i j : nat) :
  RkMatrix.h_gemv_entries h trans alpha x beta y i j
  = (alpha * sum_n (if is_char trans "N" then IndexSet.size (RkMatrix.h_cols h)
                    else IndexSet.size (RkMatrix.h_rows h))
               (fun c => op_get trans (FullMatrix.data h) i c * get x c j)
     + beta * get y i j)%T.
Proof. reflexivity. Qed.

Lemma multiplyRkH_value_witness :
  exists res,
    RkMatrix.multiplyRkH "C" "T" r3 full33 = Some res /\
    RkMatrix.rank res = 1 /\ RkMatrix.dense res 0 1 = 32%Z.
Proof.
  destruct (multiplyRkH_value FullMatrix.data dense_h_product "C" "T" r3 full33
              (gemm "N" "T" 1%Z (of_rows 3 1 [[1]; [2]; [3]]%Z)
                 (of_rows 3 1 [[1]; [0]; [1]]%Z) 0%Z (new_ 3 3)))
    as (res & E & _ & _ & _ & K & _ & Hd).
  - right. right. reflexivity.
  - right. left. reflexivity.
  - cbv; repeat split; lia.
  - cbv; lia.
  - reflexivity.
  - reflexivity.
  - exists res. split; [exact E|]. split; [exact K|]. rewrite Hd. reflexivity.
Defined.

Lemma multiplyHRk_value_witness :
  exists res,
    RkMatrix.multiplyHRk "T" "N" full33 r3 = Some res /\
    RkMatrix.rank res = 1 /\ RkMatrix.dense res 0 2 = 30%Z.
Proof.
  destruct (multiplyHRk_value FullMatrix.data dense_h_product "T" "N" full33 r3
              (gemm "N" "T" 1%Z (of_rows 3 1 [[1]; [2]; [3]]%Z)
                 (of_rows 3 1 [[1]; [0]; [1]]%Z) 0%Z (new_ 3 3)))
    as (res & E & _ & _ & _ & K & _ & Hd).
  - left. reflexivity.
  - right. left. reflexivity.
  - cbv; repeat split; lia.
  - cbv; lia.
  - reflexivity.
  - exists res. split; [exact E|]. split; [exact K|]. rewrite Hd. reflexivity.
Defined.

Lemma products_on_empty_witness :
  RkMatrix.multiplyFullRk "N" "N" full11 empty11 = None /\
  RkMatrix.multiplyRkRk env0 approx1 0%Z "N" "N" empty11 six11 = None /\
  RkMatrix.multiplyRkRk env0 approx1 0%Z "N" "N" six11 empty11 = None /\
  RkMatrix.multiplyRkFull 7%Z "N" "N" empty11 full11
  = Some (RkMatrix.mk (range 0 1) (range 0 1) None None 7%Z).
Proof.
  destruct (products_on_empty 7%Z env0 approx1 0%Z "N" "N" empty11 six11 full11
              (range 0 1, range 0 1) eq_refl eq_refl)
    as (H1 & _ & H3 & H4 & _ & H6).
  split; [exact H1|]. split; [exact H3|]. split; [exact H4|].
  exact (H6 eq_refl).
Defined.

Lemma multiplyRkRk_new_witness :
  exists res,
    RkMatrix.multiplyRkRk env_new approx_k1 0%Z "N" "N" r3 r3 = Some res /\
    RkMatrix.invariant res /\ RkMatrix.method res = 2%Z.
Proof.
  assert (E : exists res,
            RkMatrix.multiplyRkRk env_new approx_k1 0%Z "N" "N" r3 r3 = Some res)
    by (eexists; reflexivity).
  destruct E as [res E]. exists res. split; [exact E|].
  destruct (multiplyRkRk_new env_new approx_k1 0%Z "N" "N" r3 r3 res eq_refl E)
    as (Hinv & _ & _ & Hm & _).
  split; [exact Hinv|]. rewrite Hm. reflexivity.
Defined.

Lemma findK_range_witness :
  RkApproximationControl.findK env0 approx1 0%Z [100; 3; 0]%Z (-1)%Z = None /\
  (forall v,
     RkApproximationControl.findK env0 approx_k1 0%Z [100; 3; 0]%Z (-1)%Z = Some v ->
     v = 1%Z).
Proof.
  destruct (findK_range env0 approx1 0%Z [100; 3; 0]%Z (-1)%Z) as [H1 _].
  destruct (findK_range env0 approx_k1 0%Z [100; 3; 0]%Z (-1)%Z) as [_ H2].
  split; [apply H1; split; reflexivity|].
  intros v E. destruct (H2 v E) as (_ & _ & H3). apply H3. discriminate.
Defined.

Lemma formattedAddPartsFull_spec_witness :
  RkMatrix.formattedAddPartsFull approx1 [(2%Z, Some full33)] p2 = None /\
  exists me,
    RkMatrix.formattedAddPartsFull approx1 [(2%Z, Some full33); (1%Z, None)] r3
    = Some (RkMatrix.truncatedSvd me 1%Z) /\
    get (FullMatrix.data me) 2 0 = 17%Z.
Proof.
  split.
  - apply (proj2 (formattedAddPartsFull_spec approx1 p2 [(2%Z, Some full33)]
                    ltac:(cbv; repeat split; lia))).
    intros Hfit. inversion Hfit as [|e l He _]. unfold fits in He. cbn in He.
    destruct He as [Hr _]. discriminate.
  - destruct (proj1 (formattedAddPartsFull_spec approx1 r3
                       [(2%Z, Some full33); (1%Z, None)]
                       ltac:(cbv; repeat split; lia)))
      as (me & E & _ & _ & G).
    + repeat constructor.
    + exists me. split; [exact E|]. rewrite G. reflexivity.
Defined.

Lemma recording_svd_sets (m : FullMatrix.t Z) (epsilon : Z) :
  RkMatrix.rows (RkMatrix.truncatedSvd m epsilon) = FullMatrix.rows_ m /\
  RkMatrix.cols (RkMatrix.truncatedSvd m epsilon) = FullMatrix.cols_ m.
Proof. split; reflexivity. Qed.

Lemma axpy_full_spec_witness :
  exists me,
    RkMatrix.axpy_full approx7 2%Z full33 r3 = Some (RkMatrix.truncatedSvd me 7%Z) /\
    get (FullMatrix.data me) 2 0 = 17%Z.
Proof.
  destruct (axpy_full_spec approx7 recording_svd_sets 2%Z full33 r3)
    as (me & E & _ & _ & G);
    [cbv; repeat split; lia | reflexivity | reflexivity |].
  exists me. split; [exact E|]. rewrite G. reflexivity.
Defined.

Lemma formattedAddParts_rejects_witness :
  RkMatrix.formattedAddParts env0 approx1 0%Z [(1%Z, None); (2%Z, Some r3)] true p2
  = None.
Proof.
  apply (formattedAddParts_rejects env0 approx1 0%Z p2 _ true (2%Z, Some r3) (2%Z, r3)).
  - right. left.
  - reflexivity.
  - reflexivity.
Defined.

Lemma formattedAddParts_exact_witness :
  exists rk,
    RkMatrix.formattedAddParts env0 approx1 0%Z [(2%Z, Some p2)] false r3 = Some rk /\
    RkMatrix.method rk = 1%Z /\ RkMatrix.dense rk 2 2 = 17%Z.
Proof.
  destruct (formattedAddParts_exact env0 approx1 0%Z r3 [(2%Z, Some p2)] false)
    as (rk & E & _ & _ & _ & Hm & _ & Hd).
  - cbv; repeat split; lia.
  - repeat constructor; cbv; lia.
  - right. split; [cbv; lia | left; reflexivity].
  - exists rk. split; [exact E|]. split; [rewrite Hm; reflexivity|].
    rewrite Hd by (cbv; lia). reflexivity.
Defined.

Lemma axpy_spec_witness :
  RkMatrix.axpy env0 approx1 0%Z 2%Z p2 r3
  = RkMatrix.formattedAddParts env0 approx1 0%Z [(2%Z, Some p2)] true r3.
Proof.
  apply (axpy_spec env0 approx1 0%Z recording_svd_block 2%Z p2 r3).
  - cbv; repeat split; lia.
  - repeat constructor; cbv; lia.
Defined.

Lemma truncate_frame_witness :
  RkMatrix.truncate env0 approx1 0%Z 1%Z 2 3 empty11 = Some empty11 /\
  RkMatrix.truncate env0 approx1 0%Z 1%Z 0 0 r12 = None.
Proof.
  destruct (truncate_frame env0 approx1 0%Z 1%Z 2 3 empty11)
    as (_ & _ & H3 & _).
  destruct (truncate_frame env0 approx1 0%Z 1%Z 0 0 r12)
    as (_ & _ & _ & _ & _ & H6).
  split; [exact (proj1 (H3 eq_refl eq_refl))|].
  apply H6. cbv. lia.
Defined.

Lemma clear_spec_witness :
  Mem.clear this12 heap12 = Some (emptied this12, released heap12 1 2) /\
  Mem.clear (emptied this12) (released heap12 1 2)
  = Some (emptied this12, released heap12 1 2) /\
  Mem.clear this0 heap12 = Some (this0, heap12).
Proof.
  assert (Hla : heap12 !! 1 = Some (Mem.Array (of_rows 3 2 [[1; 0]; [0; 1]; [1; 1]]%Z)))
    by (vm_compute; reflexivity).
  assert (Hlb : heap12 !! 2 = Some (Mem.Array (of_rows 3 2 [[2; 0]; [0; 3]; [1; 1]]%Z)))
    by (vm_compute; reflexivity).
  assert (Hne : 1 <> 2) by lia.
  destruct (clear_spec this12 heap12) as (H1 & _ & _).
  destruct (clear_spec this0 heap12) as (_ & _ & H3).
  destruct (H1 1 2 _ _ eq_refl eq_refl Hne Hla Hlb) as (E1 & _ & E2 & _).
  split; [exact E1|]. split; [exact E2|]. exact (H3 eq_refl eq_refl).
Defined.

Lemma copy_from_spec_witness :
  Mem.copy_from this12 this12 heap12 = None /\
  exists this' h',
    Mem.copy_from this12 this0 heap12 = Some (this', h') /\
    Mem.value this' h'
    = Some (RkMatrix.mk (range 0 3) (range 0 3) (RkMatrix.a r3') (RkMatrix.b r3') 5%Z,
            h').
Proof.
  assert (Hval : Mem.value this12 heap12 = Some (r3', heap12))
    by (vm_compute; reflexivity).
  destruct (copy_from_spec this12 this12 heap12) as [_ Hself].
  destruct (copy_from_spec this12 this0 heap12) as [Hcopy _].
  split; [apply Hself; left; discriminate|].
  destruct (Hcopy this0 heap12 r3' eq_refl Hval) as (this' & h' & E & Hv & _).
  exists this', h'. split; [exact E | exact Hv].
Defined.

Lemma copy_deep_witness :
  exists this' h',
    Mem.copy this12 heap12 = Some (this', h') /\
    Mem.value this' h' = Some (r3', h') /\
    Mem.value this12 h' = Some (r3', h').
Proof.
  assert (Hval : Mem.value this12 heap12 = Some (r3', heap12))
    by (vm_compute; reflexivity).
  destruct (copy_deep this12 heap12 r3' Hval) as (this' & h' & E & Hv & Ho & _).
  exists this', h'. auto.
Defined.

Lemma store5_ranked : Tree.ranked store5 rank5.
Proof.
  intros a t c Ha Hc. unfold store5 in Ha.
  repeat (apply lookup_insert_Some in Ha as [[<- <-]|[? Ha]];
          [cbn [Tree.children] in Hc;
           repeat (apply elem_of_cons in Hc as [Hc|Hc];
                   [first [ discriminate
                          | injection Hc as ->;
                            split; [vm_compute; eauto | cbn; lia] ]|]);
           apply elem_of_nil in Hc; contradiction|]).
  rewrite lookup_empty in Ha. discriminate.
Qed.

Lemma walk_visits_witness :
  exists v,
    Tree.walk 3 0 store5 = Some v /\
    hd_error v = Some (0, Tree.tree_preorder) /\
    last v = Some (0, Tree.tree_postorder) /\
    map fst (List.filter Tree.enters v) = [0; 1; 3; 4; 2] /\
    map fst (List.filter Tree.at_leaf v) = [3; 4; 2].
Proof.
  destruct (Tree.walk 3 0 store5) as [v|] eqn:E; [|vm_compute in E; discriminate].
  assert (El : Tree.listNodes 3 0 store5 = Some [0; 1; 3; 4; 2])
    by (vm_compute; reflexivity).
  assert (Ev : Tree.listAllLeaves 3 0 [] store5 = Some [3; 4; 2])
    by (vm_compute; reflexivity).
  destruct (walk_visits 3 0 store5) as (H1 & H2 & H3).
  rewrite E, El in H1. rewrite E, Ev in H2.
  cbn [fmap option_fmap option_map] in H1, H2.
  injection H1 as H1. injection H2 as H2.
  destruct (H3 v E) as [Hh Hl].
  exists v. split; [reflexivity|]. split; [exact Hh|]. split; [exact Hl|].
  split; assumption.
Defined.

Lemma listNodes_returns_witness :
  exists l,
    Tree.listNodes 3 0 store5 = Some l /\ hd_error l = Some 0 /\
    Tree.listNodes 10 0 store5 = Some l.
Proof.
  assert (H0 : is_Some (store5 !! 0)) by (vm_compute; eauto).
  assert (Hlt : rank5 0 < 3) by (cbn; lia).
  destruct (listNodes_returns store5 rank5 3 0 store5_ranked H0 Hlt)
    as (l & E & Hh & _ & Hmore).
  exists l. split; [exact E|]. split; [exact Hh|]. apply Hmore. cbn. lia.
Defined.

Lemma removeChild_spec_witness :
  Tree.removeChild 2 0 3 store5 = None /\
  Tree.removeChild 2 0 1 store5 = Some store5 /\
  exists h',
    Tree.removeChild 2 0 0 store5 = Some h' /\
    h' !! 1 = None /\ h' !! 3 = None /\ h' !! 4 = None /\
    h' !! 2 = store5 !! 2 /\
    Tree.nbChild 0 h' = Some 3%Z /\ Tree.getChild 0 0 h' = Some None.
Proof.
  assert (E0 : store5 !! 0 = Some (Tree.mk 0 [Some 1; None; Some 2] None))
    by (vm_compute; reflexivity).
  assert (El : Tree.listNodes 2 1 store5 = Some [1; 3; 4])
    by (vm_compute; reflexivity).
  assert (Hnd : NoDup [1; 3; 4])
    by (refine (bool_decide_unpack _ _); vm_compute; exact I).
  assert (Hthis : 0 ∉ [1; 3; 4])
    by (refine (bool_decide_unpack _ _); vm_compute; exact I).
  split; [apply (proj1 (removeChild_spec 2 0 3 store5 _ E0)); right; cbn; lia|].
  split; [apply (proj1 (proj2 (removeChild_spec 2 0 1 store5 _ E0)));
          [lia | reflexivity]|].
  destruct (proj2 (proj2 (removeChild_spec 2 0 0 store5 _ E0)) 1 [1; 3; 4])
    as (h' & E & _ & Hgone & Hkept & Hget & Hnb & _);
    [lia | reflexivity | exact El | exact Hnd | exact Hthis |].
  exists h'. split; [exact E|].
  split; [apply Hgone; left|].
  split; [apply Hgone; right; left|].
  split; [apply Hgone; right; right; left|].
  split; [apply Hkept; [refine (bool_decide_unpack _ _); vm_compute; exact I | lia]|].
  split; [rewrite Hnb; reflexivity | exact Hget].
Defined.

Lemma formattedAddParts_pivots_witness :
  exists rk pA pB,
    RkMatrix.formattedAddParts env0 approx1 0%Z [(2%Z, Some p2)] true r3
    = RkMatrix.truncate env0 approx1 0%Z 1%Z pA pB rk /\
    RkMatrix.rank rk = 2 /\ pA <= 2 /\ pB <= 2.
Proof.
  destruct (formattedAddParts_pivots env0 approx1 0%Z r3 [(2%Z, Some p2)])
    as (rk & pA & pB & E & _ & Hrk & HA & HB & _).
  - cbv; repeat split; lia.
  - repeat constructor; cbv; lia.
  - cbv; lia.
  - cbv; lia.
  - exists rk, pA, pB. rewrite Hrk in HA, HB. auto.
Defined.

Lemma transpose_flag_witness :
  RkMatrix.gemv "T" 2%Z (of_rows 3 1 [[1]; [1]; [1]]%Z) 3%Z
    (of_rows 3 1 [[1]; [0]; [0]]%Z) r3
  = RkMatrix.gemv "N" 2%Z (of_rows 3 1 [[1]; [1]; [1]]%Z) 3%Z
      (of_rows 3 1 [[1]; [0]; [0]]%Z) (RkMatrix.transpose r3) /\
  RkMatrix.multiplyRkRk env0 approx1 0%Z "N" "T" r3' r3
  = RkMatrix.multiplyRkRk env0 approx1 0%Z "N" "N" r3' (RkMatrix.transpose r3).
Proof.
  destruct (transpose_flag 0%Z env0 approx1 0%Z "N" r3 r3' full33
              (range 0 3, range 0 3) 2%Z 3%Z (of_rows 3 1 [[1]; [1]; [1]]%Z)
              (of_rows 3 1 [[1]; [0]; [0]]%Z))
    as (H1 & _ & _ & _ & _ & _ & H7).
  - cbv; repeat split; lia.
  - split; [exact H1 | exact H7].
Defined.

End Instances.
